(** * LuminanceHDR: exposure-set ingestion and ghost detection/correction

    A shallow embedding of [src/HdrWizard/HdrCreationManager.cpp] and the
    properties its specification states about it.

    Numbers.  The C++ code computes on [float] and [qreal].  A [float] is a
    NaN, a signed infinity or a finite rational; there is no signed zero;
    every comparison with a NaN is false, and the special cases of the four
    operations follow IEEE 754 (for instance [0/0 = NaN], [x/0 = +-inf]).
    The functions of the first part compute on these numbers without
    rounding: this is the arithmetic of the properties about control flow,
    indices, flags and which pixels are written.  The values that the hue
    scores and the reference index depend on are computed in the module
    [Rounded], where every operation is followed by a rounding [rnd];
    [round32] is the rounding of binary32, to the nearest number with a
    24-bit significand, ties to even, with gradual underflow and overflow to
    an infinity.  The routine [checkEVvalues] is embedded twice: over the
    real numbers with [log2f] and [exp2f] inverse to each other (module
    [EV]), and with [log2f], [exp2f] and the rounding as parameters (module
    [RoundedEV]).

    Integers.  A C [int] is a [Z]; no loop of the file gets near the 32-bit
    range. *)

From Stdlib Require Import String.
From Stdlib Require Import ZArith QArith Qround Qabs Qpower Bool List Lia Lqa.
From Stdlib Require Reals Lra.
Import ListNotations.

Local Open Scope Z_scope.

(* ================================================================== *)
(** ** Floating-point numbers *)
(* ================================================================== *)

Inductive float : Type :=
| NaN : float
| Inf (neg : bool) : float
| Fin (q : Q) : float.

Definition Qltb (p q : Q) : bool := negb (Qle_bool q p).

Module F.

Definition zero : float := Fin 0.
Definition of_int (z : Z) : float := Fin (inject_Z z).

Definition neg (x : float) : float :=
  match x with
  | NaN => NaN
  | Inf s => Inf (negb s)
  | Fin q => Fin (- q)
  end.

Definition add (x y : float) : float :=
  match x, y with
  | NaN, _ | _, NaN => NaN
  | Inf a, Inf b => if Bool.eqb a b then Inf a else NaN
  | Inf a, Fin _ => Inf a
  | Fin _, Inf b => Inf b
  | Fin p, Fin q => Fin (p + q)
  end.

Definition sub (x y : float) : float := add x (neg y).

Definition mul (x y : float) : float :=
  match x, y with
  | NaN, _ | _, NaN => NaN
  | Inf a, Inf b => Inf (xorb a b)
  | Inf a, Fin q => if Qeq_bool q 0 then NaN else Inf (xorb a (Qltb q 0))
  | Fin p, Inf b => if Qeq_bool p 0 then NaN else Inf (xorb (Qltb p 0) b)
  | Fin p, Fin q => Fin (p * q)
  end.

Definition div (x y : float) : float :=
  match x, y with
  | NaN, _ | _, NaN => NaN
  | Inf _, Inf _ => NaN
  | Inf a, Fin q => Inf (xorb a (Qltb q 0))
  | Fin _, Inf _ => Fin 0
  | Fin p, Fin q =>
      if Qeq_bool q 0
      then (if Qeq_bool p 0 then NaN else Inf (Qltb p 0))
      else Fin (p / q)
  end.

(** [x < y]; false as soon as one side is a NaN. *)
Definition ltb (x y : float) : bool :=
  match x, y with
  | NaN, _ | _, NaN => false
  | Inf a, Inf b => a && negb b
  | Inf a, Fin _ => a
  | Fin _, Inf b => negb b
  | Fin p, Fin q => Qltb p q
  end.

Definition eqb (x y : float) : bool :=
  match x, y with
  | NaN, _ | _, NaN => false
  | Inf a, Inf b => Bool.eqb a b
  | Inf _, Fin _ | Fin _, Inf _ => false
  | Fin p, Fin q => Qeq_bool p q
  end.

Definition leb (x y : float) : bool := ltb x y || eqb x y.
Definition gtb (x y : float) : bool := ltb y x.
Definition geb (x y : float) : bool := leb y x.

(** [std::abs] *)
Definition abs (x : float) : float :=
  match x with
  | NaN => NaN
  | Inf _ => Inf false
  | Fin q => Fin (Qabs q)
  end.

(** [std::max(a, b)] is [(a < b) ? b : a], [std::min(a, b)] is
    [(b < a) ? b : a]. *)
Definition max (a b : float) : float := if ltb a b then b else a.
Definition min (a b : float) : float := if ltb b a then b else a.

(** The cast [(int)x] truncates toward zero.  On a NaN or an infinity the
    C++ standard leaves it undefined; the embedding returns what the x86
    conversion instruction gives, the smallest [int]. *)
Definition to_int (x : float) : Z :=
  match x with
  | Fin q => Z.quot (Qnum q) (Zpos (Qden q))
  | _ => -2147483648
  end.

Definition is_fin (x : float) : bool :=
  match x with Fin _ => true | _ => false end.

End F.

Declare Scope float_scope.
Delimit Scope float_scope with fl.
Bind Scope float_scope with float.
Infix "+" := F.add : float_scope.
Infix "-" := F.sub : float_scope.
Infix "*" := F.mul : float_scope.
Infix "/" := F.div : float_scope.
Infix "<?" := F.ltb : float_scope.
Infix "<=?" := F.leb : float_scope.
Infix ">?" := F.gtb : float_scope.
Infix ">=?" := F.geb : float_scope.
Infix "==?" := F.eqb (at level 70) : float_scope.

(** Literals of the source. *)
Definition f0 : float := Fin 0.
Definition f0_5 : float := Fin (1 # 2).
Definition f0_7 : float := Fin (7 # 10).
Definition f1 : float := Fin 1.
Definition f2 : float := Fin 2.
Definition f3 : float := Fin 3.
Definition f5 : float := Fin 5.
Definition f6 : float := Fin 6.

Definition max_rgb : float := Fin 65535.
Definition max_lightness : float := Fin 65535.
Definition gridSize : Z := 40.

(* ================================================================== *)
(** ** Colour space: [rgb2hsl] and [hsl2rgb] *)
(* ================================================================== *)

Record hsl : Type := HSL { hue : float; sat : float; light : float }.
Record rgb : Type := RGB { red : float; green : float; blue : float }.

Section Colour.
Local Open Scope float_scope.

(** [rgb2hsl(r, g, b, h, s, l)]: the three results are returned as a
    record. *)
Definition rgb2hsl (r g b : float) : hsl :=
  let v := F.max r g in
  let v := F.max v b in
  let m := F.min r g in
  let m := F.min m b in
  let l := (m + v) / f2 in
  if l <=? f0 then HSL f0 f0 l
  else
    let vm := v - m in
    let s := vm in
    if s >? f0 then
      let s := s / (if l <=? f0_5 then v + m else f2 - v - m) in
      let r2 := (v - r) / vm in
      let g2 := (v - g) / vm in
      let b2 := (v - b) / vm in
      let h :=
        if r ==? v then (if g ==? m then f5 + b2 else f1 - g2)
        else if g ==? v then (if b ==? m then f1 + r2 else f3 - b2)
        else (if r ==? m then f3 + g2 else f5 - r2) in
      HSL (h / f6) s l
    else HSL f0 s l.

(** [hsl2rgb(h, sl, l, r, g, b)].  The [switch] has the cases 0 to 5 and
    no default: any other sextant leaves [r = g = b = l]. *)
Definition hsl2rgb (h sl l : float) : rgb :=
  let v := if l <=? f0_5 then l * (f1 + sl) else l + sl - l * sl in
  if v >? f0 then
    let m := l + l - v in
    let sv := (v - m) / v in
    let h := h * f6 in
    let sextant := F.to_int h in
    let fract := h - F.of_int sextant in
    let vsf := v * sv * fract in
    let mid1 := m + vsf in
    let mid2 := v - vsf in
    match sextant with
    | 0%Z => RGB v mid1 m
    | 1%Z => RGB mid2 v m
    | 2%Z => RGB m v mid1
    | 3%Z => RGB m mid2 v
    | 4%Z => RGB mid1 m v
    | 5%Z => RGB v m mid2
    | _ => RGB l l l
    end
  else RGB l l l.

End Colour.

(* ================================================================== *)
(** ** Containers, loops and faults *)
(* ================================================================== *)

(** What a call can end in: it returns, or it leaves through a fault.  The
    faults of this file are the out-of-range accesses: [std::vector::at]
    throws [std::out_of_range]; [QList]/[QVector] indexing and raw array
    indexing past the end, and the dereference of a null pointer, are
    undefined and are treated as faults too. *)
Inductive outcome (A : Type) : Type :=
| Done (a : A)
| Fault.
Arguments Done {A} a.
Arguments Fault {A}.

Definition bind {A B} (c : outcome A) (k : A -> outcome B) : outcome B :=
  match c with
  | Done a => k a
  | Fault => Fault
  end.

Declare Scope outcome_scope.
Delimit Scope outcome_scope with outcome.
Notation "x <- c ;; k" := (bind c (fun x => k))
  (at level 61, c at next level, right associativity) : outcome_scope.
Notation "' pat <- c ;; k" := (bind c (fun x => match x with pat => k end))
  (at level 61, pat pattern, c at next level, right associativity) : outcome_scope.

Definition raises {A} (c : outcome A) : Prop :=
  match c with Fault => True | Done _ => False end.

Definition zth {A} (l : list A) (i : Z) : option A :=
  if i <? 0 then None else nth_error l (Z.to_nat i).

Fixpoint upd {A} (n : nat) (v : A) (l : list A) : list A :=
  match l, n with
  | [], _ => []
  | _ :: l', O => v :: l'
  | x :: l', S n' => x :: upd n' v l'
  end.

Definition zupd {A} (l : list A) (i : Z) (v : A) : list A :=
  if i <? 0 then l else upd (Z.to_nat i) v l.

Definition zlength {A} (l : list A) : Z := Z.of_nat (length l).

(** A list of pointers; a null pointer is [None]. *)
Definition ptrlist (A : Type) : Type := list (option A).

(** [*l.at(i)] *)
Definition deref_at {A} (l : ptrlist A) (i : Z) : outcome A :=
  match zth l i with
  | Some (Some a) => Done a
  | _ => Fault
  end.

(** [l.at(i)] on a vector of values *)
Definition at_ {A} (l : list A) (i : Z) : outcome A :=
  match zth l i with
  | Some a => Done a
  | None => Fault
  end.

(** [for (i = a; i < b; i++)] *)
Definition range (a b : Z) : list Z :=
  map (fun k => a + Z.of_nat k) (seq 0 (Z.to_nat (b - a))).

Definition for_ {S} (a b : Z) (body : Z -> S -> S) (s : S) : S :=
  fold_left (fun s i => body i s) (range a b) s.

Fixpoint forM_list {S} (l : list Z) (body : Z -> S -> outcome S) (s : S)
  : outcome S :=
  match l with
  | [] => Done s
  | i :: l' =>
      match body i s with
      | Done s' => forM_list l' body s'
      | Fault => Fault
      end
  end.

Definition forM {S} (a b : Z) (body : Z -> S -> outcome S) (s : S)
  : outcome S :=
  forM_list (range a b) body s.

(* ================================================================== *)
(** ** Pixel planes *)
(* ================================================================== *)

(** [pfs::Array2Df]: [cols * rows] samples stored row after row;
    [a(x, y)] is the sample [y * cols + x] and [a(k)] the sample [k].  An
    access outside the storage is undefined in the source; the embedding
    reads a NaN there and drops the write. *)
Record Array2Df : Type :=
  mkArray { getCols : Z; getRows : Z; elems : list float }.

Definition lin (a : Array2Df) (k : Z) : float :=
  match zth (elems a) k with
  | Some v => v
  | None => NaN
  end.

Definition px (a : Array2Df) (x y : Z) : float := lin a (y * getCols a + x).

Definition set_px (a : Array2Df) (x y : Z) (v : float) : Array2Df :=
  mkArray (getCols a) (getRows a) (zupd (elems a) (y * getCols a + x) v).

Definition Array2DfList : Type := ptrlist Array2Df.

(* ================================================================== *)
(** ** Reference selection: [findIndex], [hueMean], [hueSquaredMean] *)
(* ================================================================== *)

Section Detection.
Local Open Scope float_scope.
Local Open Scope outcome_scope.

(** [std::max_element]: the first largest element, found with [<]. *)
Fixpoint max_element_from (largest : float) (l : list float) : float :=
  match l with
  | [] => largest
  | x :: l' => max_element_from (if largest <? x then x else largest) l'
  end.

Definition max_element (data : list float) : float :=
  match data with
  | [] => NaN
  | x :: l => max_element_from x l
  end.

Fixpoint findIndex_from (max : float) (l : list float) (i : Z) : Z :=
  match l with
  | [] => i
  | x :: l' => if x ==? max then i else findIndex_from max l' (i + 1)%Z
  end.

(** [findIndex(data, size)], [data] holding [size] elements. *)
Definition findIndex (data : list float) : Z :=
  let max := max_element data in
  findIndex_from max data 0.

(** [hueMean(hues, size)] *)
Definition hueMean (hues : list float) : float :=
  let H := fold_left (fun H h => H + h) hues f0 in
  H / F.of_int (zlength hues).

Definition hue_at (listR listG listB : Array2DfList) (w i j : Z)
  : outcome float :=
  R <- deref_at listR w ;;
  G <- deref_at listG w ;;
  B <- deref_at listB w ;;
  Done (hue (rgb2hsl (px R i j) (px G i j) (px B i j))).

(** The inner loop that fills [hues[0 .. size-1]]. *)
Fixpoint fill_hues (listR listG listB : Array2DfList) (ws : list Z)
  (i j : Z) : outcome (list float) :=
  match ws with
  | [] => Done []
  | w :: ws' =>
      h <- hue_at listR listG listB w i j ;;
      hs <- fill_hues listR listG listB ws' i j ;;
      Done (h :: hs)
  end.

Definition hueSquaredMean (listR listG listB : Array2DfList) (k : Z)
  : outcome float :=
  R0 <- deref_at listR 0 ;;
  let width := getCols R0 in
  let height := getRows R0 in
  let size := zlength listR in
  HS <- forM 0 height (fun j HS =>
          forM 0 width (fun i HS =>
            hues <- fill_hues listR listG listB (range 0 size) i j ;;
            h <- hue_at listR listG listB k i j ;;
            let H := hueMean hues - h in
            Done (HS + H * H)) HS) f0 ;;
  Done (HS / F.of_int (width * height)).

(** [maxLightness(R, G, B)] *)
Definition maxLightness (R G B : Array2Df) : float :=
  let width := getCols R in
  let height := getRows R in
  for_ 0 (height * width) (fun i maxL =>
    let l := light (rgb2hsl (lin R i) (lin G i) (lin B i)) in
    if l >? maxL then l else maxL) f0.

(** [averageLightness(R, G, B)] *)
Definition averageLightness (R G B : Array2Df) : float :=
  let width := getCols R in
  let height := getRows R in
  let avgLum := for_ 0 (height * width) (fun i avgLum =>
    let l := light (rgb2hsl (lin R i) (lin G i) (lin B i)) in
    avgLum + l) f0 in
  avgLum / F.of_int (width * height).

(* ---------------------------------------------------------------- *)
(** ** Outlier scoring of one cell: [comparePatches] *)
(* ---------------------------------------------------------------- *)

(** [logf] of the C library. *)
Variable logf : float -> float.

Definition logRatios (R1 G1 B1 R2 G2 B2 : Array2Df)
  (i j gridX gridY : Z) (deltaEV : float) : list (float * float * float) :=
  for_ (j * gridY) ((j + 1) * gridY) (fun y logs =>
    for_ (i * gridX) ((i + 1) * gridX) (fun x logs =>
      if deltaEV <? f0 then
        logs ++ [(logf (px R1 x y) - logf (px R2 x y) - deltaEV,
                  logf (px G1 x y) - logf (px G2 x y) - deltaEV,
                  logf (px B1 x y) - logf (px B2 x y) - deltaEV)]
      else
        logs ++ [(logf (px R2 x y) - logf (px R1 x y) + deltaEV,
                  logf (px G2 x y) - logf (px G1 x y) + deltaEV,
                  logf (px B2 x y) - logf (px B1 x y) + deltaEV)])
      logs) [].

Definition outlier (threshold1 : float) (t : float * float * float) : bool :=
  let '(lr, lg, lb) := t in
  (F.abs lr >? threshold1) || (F.abs lg >? threshold1)
  || (F.abs lb >? threshold1).

Definition countOutliers (logs : list (float * float * float))
  (n : Z) (threshold1 : float) : Z :=
  for_ 0 n (fun h count =>
    match zth logs h with
    | Some t => if outlier threshold1 t then (count + 1)%Z else count
    | None => count
    end) 0%Z.

Definition comparePatches (R1 G1 B1 R2 G2 B2 : Array2Df)
  (i j gridX gridY : Z) (threshold deltaEV : float) : bool :=
  let logs := logRatios R1 G1 B1 R2 G2 B2 i j gridX gridY deltaEV in
  let threshold1 := f0_7 * F.abs deltaEV in
  let count := countOutliers logs (gridX * gridY) threshold1 in
  if (F.of_int count / F.of_int (gridX * gridY)) >? threshold
  then true else false.

(* ---------------------------------------------------------------- *)
(** ** Ghost correction: [copyPatch], [copyPatches] *)
(* ---------------------------------------------------------------- *)

Definition clamp_rgb (c : float) : float :=
  let c := if c >? max_rgb then max_rgb else c in
  if c <? f0 then f0 else c.

(** The first double loop of [copyPatch] followed by the division: the
    average lightness of cell [(i, j)] of the reference exposure. *)
Definition cellLightness (R1 G1 B1 : Array2Df) (i j gridX gridY : Z)
  : float :=
  let avgL :=
    for_ (j * gridY) ((j + 1) * gridY) (fun y avgL =>
      for_ (i * gridX) ((i + 1) * gridX) (fun x avgL =>
        avgL + light (rgb2hsl (px R1 x y) (px G1 x y) (px B1 x y)))
        avgL) f0 in
  avgL / F.of_int (gridX * gridY).

Definition planes : Type := (Array2Df * Array2Df * Array2Df)%type.

(** [copyPatch(R1, G1, B1, R2, G2, B2, i, j, gridX, gridY, sf)] returns
    the new contents of [R2], [G2] and [B2]. *)
Definition copyPatch (R1 G1 B1 R2 G2 B2 : Array2Df)
  (i j gridX gridY : Z) (sf : float) : planes :=
  let avgL := cellLightness R1 G1 B1 i j gridX gridY in
  if (avgL >=? max_lightness) || (avgL <=? f0) then (R2, G2, B2)
  else
    for_ (j * gridY) ((j + 1) * gridY) (fun y t =>
      for_ (i * gridX) ((i + 1) * gridX) (fun x (t : planes) =>
        let '(R2, G2, B2) := t in
        let c := rgb2hsl (px R1 x y) (px G1 x y) (px B1 x y) in
        let l := light c * sf in
        let l := if l >? max_lightness then max_lightness else l in
        let o := hsl2rgb (hue c) (sat c) l in
        let r := clamp_rgb (red o) in
        let g := clamp_rgb (green o) in
        let b := clamp_rgb (blue o) in
        (set_px R2 x y r, set_px G2 x y g, set_px B2 x y b)) t)
      (R2, G2, B2).

(** [bool patches[gridSize][gridSize]] *)
Definition grid : Type := Z -> Z -> bool.

Definition grid_init : grid := fun _ _ => false.

Definition grid_set (p : grid) (i j : Z) : grid :=
  fun i' j' => if (i' =? i)%Z && (j' =? j)%Z then true else p i' j'.

(** The count of flagged cells, as [doAutoAntiGhostingMDR] and
    [doAutoAntiGhostingLDR] compute it for their log line. *)
Definition countPatches (patches : grid) : Z :=
  for_ 0 gridSize (fun i count =>
    for_ 0 gridSize (fun j count =>
      if Bool.eqb (patches i j) true then (count + 1)%Z else count) count) 0%Z.

Definition lists : Type :=
  (Array2DfList * Array2DfList * Array2DfList)%type.

(** The writes of [copyPatch] go through the pointers [listR.at(h)],
    [listG.at(h)], [listB.at(h)]. *)
Definition store_planes (ls : lists) (h : Z) (t : planes) : lists :=
  let '(listR, listG, listB) := ls in
  let '(R2, G2, B2) := t in
  (zupd listR h (Some R2), zupd listG h (Some G2), zupd listB h (Some B2)).

Definition copyPatches (ls : lists) (patches : grid) (h0 : Z)
  (scalefactor : list float) (gridX gridY : Z) : outcome lists :=
  let size := zlength (fst (fst ls)) in
  forM 0 size (fun h ls =>
    if (h =? h0)%Z then Done ls
    else
      forM 0 gridSize (fun j ls =>
        forM 0 gridSize (fun i (ls : lists) =>
          if patches i j then
            let '(listR, listG, listB) := ls in
            R1 <- deref_at listR h0 ;;
            G1 <- deref_at listG h0 ;;
            B1 <- deref_at listB h0 ;;
            R2 <- deref_at listR h ;;
            G2 <- deref_at listG h ;;
            B2 <- deref_at listB h ;;
            sf <- at_ scalefactor h ;;
            Done (store_planes ls h
                    (copyPatch R1 G1 B1 R2 G2 B2 i j gridX gridY sf))
          else Done ls) ls) ls) ls.

(* ---------------------------------------------------------------- *)
(** ** Automatic anti-ghosting on wide-range exposures *)
(* ---------------------------------------------------------------- *)

Record detection : Type :=
  mkDetection {
    d_h0 : Z;
    d_patches : grid;
    d_scaleFactor : list float;
    d_gridX : Z;
    d_gridY : Z
  }.

Fixpoint mapM {A B} (f : A -> outcome B) (l : list A) : outcome (list B) :=
  match l with
  | [] => Done []
  | a :: l' => b <- f a ;; bs <- mapM f l' ;; Done (b :: bs)
  end.

(** The loop of [doAutoAntiGhostingMDR] that fills [patches]. *)
Definition flagPatches (ls : lists) (expotimes : list float) (h0 : Z)
  (gridX gridY : Z) (threshold : float) : outcome grid :=
  let '(listmdrR, listmdrG, listmdrB) := ls in
  let size := zlength listmdrR in
  forM 0 size (fun h patches =>
    if (h =? h0)%Z then Done patches
    else
      forM 0 gridSize (fun j patches =>
        forM 0 gridSize (fun i patches =>
          e0 <- at_ expotimes h0 ;;
          eh <- at_ expotimes h ;;
          let deltaEV := logf e0 - logf eh in
          R1 <- deref_at listmdrR h0 ;;
          G1 <- deref_at listmdrG h0 ;;
          B1 <- deref_at listmdrB h0 ;;
          R2 <- deref_at listmdrR h ;;
          G2 <- deref_at listmdrG h ;;
          B2 <- deref_at listmdrB h ;;
          if comparePatches R1 G1 B1 R2 G2 B2 i j gridX gridY
               threshold deltaEV
          then Done (grid_set patches i j)
          else Done patches) patches) patches) grid_init.

(** [doAutoAntiGhostingMDR] up to the call of [copyPatches]: the
    reference index, the flagged grid and the scale factors. *)
Definition detectMDR (ls : lists) (expotimes : list float)
  (threshold : float) : outcome detection :=
  let '(listmdrR, listmdrG, listmdrB) := ls in
  let size := zlength listmdrR in
  R0 <- deref_at listmdrR 0 ;;
  let width := getCols R0 in
  let height := getRows R0 in
  let gridX := (width / gridSize)%Z in
  let gridY := (height / gridSize)%Z in
  avgLightness <- mapM (fun i =>
      R <- deref_at listmdrR i ;;
      G <- deref_at listmdrG i ;;
      B <- deref_at listmdrB i ;;
      Done (averageLightness R G B)) (range 0 size) ;;
  HE <- mapM (fun i => hueSquaredMean listmdrR listmdrG listmdrB i)
             (range 0 size) ;;
  let h0 := findIndex HE in
  scaleFactor <- mapM (fun i =>
      li <- at_ avgLightness i ;;
      l0 <- at_ avgLightness h0 ;;
      Done (li / l0)) (range 0 size) ;;
  patches <- flagPatches ls expotimes h0 gridX gridY threshold ;;
  Done (mkDetection h0 patches scaleFactor gridX gridY).

Definition doAutoAntiGhostingMDR (ls : lists) (expotimes : list float)
  (threshold : float) : outcome lists :=
  d <- detectMDR ls expotimes threshold ;;
  copyPatches ls (d_patches d) (d_h0 d) (d_scaleFactor d)
    (d_gridX d) (d_gridY d).

End Detection.

(* ================================================================== *)
(** ** 8-bit images *)
(* ================================================================== *)

(** A [QImage] of format ARGB32: [qwidth * qheight] values of type [QRgb],
    row after row.  [pixel] outside the image returns 12345 and [setPixel]
    outside the image does nothing (both print a warning in Qt).  Reading
    through [bits()] past the end is undefined in the source; the embedding
    reads 0 there and drops the write. *)
Record QImage : Type :=
  mkImage { qwidth : Z; qheight : Z; qbits : list Z }.

Definition valid_coord (img : QImage) (x y : Z) : bool :=
  (0 <=? x) && (x <? qwidth img) && (0 <=? y) && (y <? qheight img).

Definition pixel (img : QImage) (x y : Z) : Z :=
  if valid_coord img x y then
    match zth (qbits img) (y * qwidth img + x) with
    | Some v => v
    | None => 12345
    end
  else 12345.

Definition setPixel (img : QImage) (x y : Z) (v : Z) : QImage :=
  if valid_coord img x y then
    mkImage (qwidth img) (qheight img) (zupd (qbits img) (y * qwidth img + x) v)
  else img.

Definition bits_at (img : QImage) (k : Z) : Z :=
  match zth (qbits img) k with
  | Some v => v
  | None => 0
  end.

Definition set_bits_at (img : QImage) (k : Z) (v : Z) : QImage :=
  mkImage (qwidth img) (qheight img) (zupd (qbits img) k v).

(** [qAlpha(rgb)] is [rgb >> 24]. *)
Definition qAlpha (rgb : Z) : Z := Z.shiftr rgb 24.

(** [new QImage(w, h, Format_ARGB32)] filled with [qRgba(0,0,0,0)]. *)
Definition transparent_image (w h : Z) : QImage :=
  mkImage w h (repeat 0 (Z.to_nat (w * h))).

(** The overloads of the anti-ghosting routines on [QImage]. *)
Module LDR.
Section WithQt.
Local Open Scope float_scope.
Local Open Scope outcome_scope.

(** Colour conversions of the Qt library, on a [QRgb] value [p]:
    [QColor::fromRgb(p).toHsl().hueF()],
    [QColor::fromRgb(p).toHsv().value()],
    [QColor::fromRgb(p).getRgbF(&r, &g, &b, &a)],
    [QColor::fromRgb(p).toHsv().getHsvF(&h, &s, &v)] and
    [color.setHsvF(h, s, v); color.rgb()]. *)
Variable hslHueF : Z -> float.
Variable hsvValue : Z -> Z.
Variable getRgbF : Z -> float * float * float.
Variable getHsvF : Z -> float * float * float.
Variable hsvF_rgb : float -> float -> float -> Z.
Variable logf : float -> float.

Definition hue_at (lst : ptrlist QImage) (h i j : Z) : outcome float :=
  img <- deref_at lst h ;;
  Done (hslHueF (pixel img i j)).

Fixpoint fill_hues (lst : ptrlist QImage) (hs : list Z) (i j : Z)
  : outcome (list float) :=
  match hs with
  | [] => Done []
  | h :: hs' =>
      Fh <- hue_at lst h i j ;;
      rest <- fill_hues lst hs' i j ;;
      Done (Fh :: rest)
  end.

Definition hueSquaredMean (lst : ptrlist QImage) (k : Z) : outcome float :=
  img0 <- deref_at lst 0 ;;
  let width := qwidth img0 in
  let height := qheight img0 in
  let size := zlength lst in
  HS <- forM 0 height (fun j HS =>
          forM 0 width (fun i HS =>
            hues <- fill_hues lst (range 0 size) i j ;;
            Fk <- hue_at lst k i j ;;
            let H := hueMean hues - Fk in
            Done (HS + H * H)) HS) f0 ;;
  Done (HS / F.of_int (width * height)).

(** [averageLightness(qImage)] *)
Definition averageLightness (qImage : QImage) : float :=
  let w := qwidth qImage in
  let h := qheight qImage in
  let avgLum := for_ 0 (h * w) (fun i avgLum =>
    avgLum + F.of_int (hsvValue (bits_at qImage i))) f0 in
  avgLum / F.of_int (w * h).

(** [averageLightness(qImage, i, j, gridX, gridY)] *)
Definition cellLightness (qImage : QImage) (i j gridX gridY : Z) : float :=
  let avgL :=
    for_ (j * gridY) ((j + 1) * gridY) (fun y avgL =>
      for_ (i * gridX) ((i + 1) * gridX) (fun x avgL =>
        avgL + F.of_int (hsvValue (pixel qImage x y))) avgL) f0 in
  avgL / F.of_int (gridX * gridY).

Definition logRatios (image1 image2 : QImage)
  (i j gridX gridY : Z) (deltaEV : float) : list (float * float * float) :=
  for_ (j * gridY) ((j + 1) * gridY) (fun y logs =>
    for_ (i * gridX) ((i + 1) * gridX) (fun x logs =>
      let '(r1, g1, b1) := getRgbF (pixel image1 x y) in
      let '(r2, g2, b2) := getRgbF (pixel image2 x y) in
      if deltaEV <? f0 then
        logs ++ [(logf r1 - logf r2 - deltaEV,
                  logf g1 - logf g2 - deltaEV,
                  logf b1 - logf b2 - deltaEV)]
      else
        logs ++ [(logf r2 - logf r1 + deltaEV,
                  logf g2 - logf g1 + deltaEV,
                  logf b2 - logf b1 + deltaEV)])
      logs) [].

Definition comparePatches (image1 image2 : QImage)
  (i j gridX gridY : Z) (threshold deltaEV : float) : bool :=
  let logs := logRatios image1 image2 i j gridX gridY deltaEV in
  let threshold1 := f0_7 * F.abs deltaEV in
  let count := countOutliers logs (gridX * gridY) threshold1 in
  if (F.of_int count / F.of_int (gridX * gridY)) >? threshold
  then true else false.

(** [copyPatch(image1, image2, i, j, gridX, gridY, sf)] returns the new
    contents of [image2]. *)
Definition copyPatch (image1 image2 : QImage) (i j gridX gridY : Z)
  (sf : float) : QImage :=
  let avgL := cellLightness image1 i j gridX gridY in
  if (avgL >=? Fin 255) || (avgL ==? f0) then image2
  else
    for_ (j * gridY) ((j + 1) * gridY) (fun y image2 =>
      for_ (i * gridX) ((i + 1) * gridX) (fun x image2 =>
        let pixValue := pixel image1 x y in
        let '(h, s, v) := getHsvF pixValue in
        let v := v * sf in
        let v := if v >? f1 then f1 else v in
        let pixValue := hsvF_rgb h s v in
        setPixel image2 x y pixValue) image2) image2.

Definition copyPatches (lst : ptrlist QImage) (patches : grid) (h0 : Z)
  (scalefactor : list float) (gridX gridY : Z) : outcome (ptrlist QImage) :=
  let size := zlength lst in
  forM 0 size (fun h lst =>
    if (h =? h0)%Z then Done lst
    else
      forM 0 gridSize (fun j lst =>
        forM 0 gridSize (fun i lst =>
          if patches i j then
            image1 <- deref_at lst h0 ;;
            image2 <- deref_at lst h ;;
            sf <- at_ scalefactor h ;;
            Done (zupd lst h
                    (Some (copyPatch image1 image2 i j gridX gridY sf)))
          else Done lst) lst) lst) lst.

Definition flagPatches (ldrImagesList : ptrlist QImage)
  (expotimes : list float) (h0 : Z) (gridX gridY : Z) (threshold : float)
  : outcome grid :=
  let size := zlength ldrImagesList in
  forM 0 size (fun h patches =>
    if (h =? h0)%Z then Done patches
    else
      forM 0 gridSize (fun j patches =>
        forM 0 gridSize (fun i patches =>
          e0 <- at_ expotimes h0 ;;
          eh <- at_ expotimes h ;;
          let deltaEV := logf e0 - logf eh in
          image1 <- deref_at ldrImagesList h0 ;;
          image2 <- deref_at ldrImagesList h ;;
          if comparePatches image1 image2 i j gridX gridY threshold deltaEV
          then Done (grid_set patches i j)
          else Done patches) patches) patches) grid_init.

Definition detectLDR (ldrImagesList : ptrlist QImage)
  (expotimes : list float) (threshold : float) : outcome detection :=
  let size := zlength ldrImagesList in
  img0 <- deref_at ldrImagesList 0 ;;
  let width := qwidth img0 in
  let height := qheight img0 in
  let gridX := (width / gridSize)%Z in
  let gridY := (height / gridSize)%Z in
  avgLightness <- mapM (fun i =>
      img <- deref_at ldrImagesList i ;;
      Done (averageLightness img)) (range 0 size) ;;
  HE <- mapM (fun i => hueSquaredMean ldrImagesList i) (range 0 size) ;;
  let h0 := findIndex HE in
  scaleFactor <- mapM (fun i =>
      li <- at_ avgLightness i ;;
      l0 <- at_ avgLightness h0 ;;
      Done (li / l0)) (range 0 size) ;;
  patches <- flagPatches ldrImagesList expotimes h0 gridX gridY threshold ;;
  Done (mkDetection h0 patches scaleFactor gridX gridY).

Definition doAutoAntiGhostingLDR (ldrImagesList : ptrlist QImage)
  (expotimes : list float) (threshold : float)
  : outcome (ptrlist QImage) :=
  d <- detectLDR ldrImagesList expotimes threshold ;;
  copyPatches ldrImagesList (d_patches d) (d_h0 d) (d_scaleFactor d)
    (d_gridX d) (d_gridY d).

(** [blend(img1, img2, mask, maskGoodImage)] returns the new contents of
    [img1]. *)
Definition blend (img1 img2 mask maskGoodImage : QImage) : QImage :=
  let width := qwidth img1 in
  let height := qheight img1 in
  let sf := averageLightness img1 / averageLightness img2 in
  for_ 0 (width * height) (fun i img1 =>
    if (qAlpha (bits_at mask i) =? 0)%Z
       && (qAlpha (bits_at maskGoodImage i) =? 0)%Z
    then img1
    else
      let alpha :=
        if (qAlpha (bits_at maskGoodImage i) =? 0)%Z
        then F.of_int (qAlpha (bits_at mask i)) / Fin 255
        else F.of_int (qAlpha (bits_at maskGoodImage i)) / Fin 255 in
      let pixValue := bits_at img2 i in
      let '(h, s, v) := getHsvF pixValue in
      let v := v * sf in
      let v := if v >? f1 then f1 else v in
      let pixValue := hsvF_rgb h s v in
      let pixValue :=
        F.to_int ((f1 - alpha) * F.of_int (bits_at img1 i)
                  + alpha * F.of_int pixValue) in
      set_bits_at img1 i pixValue) img1.

End WithQt.
End LDR.

(* ================================================================== *)
(** ** Manual blending on wide-range exposures *)
(* ================================================================== *)

Section Blend.
Local Open Scope float_scope.

(** [blend(R1, G1, B1, R2, G2, B2, mask, maskGoodImage)] returns the new
    contents of [R1], [G1] and [B1]. *)
Definition blend (R1 G1 B1 R2 G2 B2 : Array2Df)
  (mask maskGoodImage : QImage) : planes :=
  let width := getCols R1 in
  let height := getRows R1 in
  let sf := averageLightness R1 G1 B1 / averageLightness R2 G2 B2 in
  let maxL1 := maxLightness R1 G1 B1 in
  let maxL2 := maxLightness R2 G2 B2 in
  let maxL := F.max maxL1 maxL2 in
  for_ 0 height (fun j t =>
    for_ 0 width (fun i (t : planes) =>
      let '(R1, G1, B1) := t in
      if (qAlpha (pixel mask i j) =? 0)%Z
         && (qAlpha (pixel maskGoodImage i j) =? 0)%Z
      then t
      else
        let alpha :=
          if (qAlpha (pixel maskGoodImage i j) =? 0)%Z
          then F.of_int (qAlpha (pixel mask i j)) / Fin 255
          else F.of_int (qAlpha (pixel maskGoodImage i j)) / Fin 255 in
        let r1 := px R1 i j in
        let g1 := px G1 i j in
        let b1 := px B1 i j in
        let c := rgb2hsl (px R2 i j) (px G2 i j) (px B2 i j) in
        let l := light c * sf in
        let l := if l >? maxL then maxL else l in
        let o := hsl2rgb (hue c) (sat c) l in
        let r2 := clamp_rgb (red o) in
        let g2 := clamp_rgb (green o) in
        let b2 := clamp_rgb (blue o) in
        (set_px R1 i j ((f1 - alpha) * r1 + alpha * r2),
         set_px G1 i j ((f1 - alpha) * g1 + alpha * g2),
         set_px B1 i j ((f1 - alpha) * b1 + alpha * b2))) t)
    (R1, G1, B1).

End Blend.

(* ================================================================== *)
(** ** The manager: state, loading, consistency checks *)
(* ================================================================== *)

(** [pfs::Frame] with its three channels; the frames of this file are in
    RGB although the channels are called X, Y and Z. *)
Record Frame : Type :=
  mkFrame { chanX : Array2Df; chanY : Array2Df; chanZ : Array2Df }.

Definition getWidth (f : Frame) : Z := getCols (chanX f).
Definition getHeight (f : Frame) : Z := getRows (chanX f).

(** [HdrCreationItem]: [m_frame] starts as an empty frame, written [None]. *)
Record HdrCreationItem : Type :=
  mkItem {
    filename : string;
    averageLuminance : float;
    frame : option Frame;
    qimage : QImage
  }.

(** [HdrCreationItem::HdrCreationItem(filename)] *)
Definition new_item (fname : string) : HdrCreationItem :=
  mkItem fname (Fin (-1)) None (mkImage 0 0 []).

(** Modelled from the spec: [HdrCreationItem::isValid] is declared in a
    header that is not part of the sources at hand; an item is valid when
    its decoding did not fail, that is when its frame was read. *)
Definition isValid (i : HdrCreationItem) : bool :=
  match frame i with Some _ => true | None => false end.

Inductive input_type : Type :=
| UNKNOWN_INPUT_TYPE
| LDR_INPUT_TYPE
| MDR_INPUT_TYPE.

Definition input_type_eqb (a b : input_type) : bool :=
  match a, b with
  | UNKNOWN_INPUT_TYPE, UNKNOWN_INPUT_TYPE
  | LDR_INPUT_TYPE, LDR_INPUT_TYPE
  | MDR_INPUT_TYPE, MDR_INPUT_TYPE => true
  | _, _ => false
  end.

(** The texts handed to [errorWhileLoading]. *)
Inductive message : Type :=
| msg_8bit_while_previous_not (fname : string)
    (* "The image %1 is an 8 bit format (LDR) while the previous ones are
       not." *)
| msg_16bit_while_previous_not (fname : string)
    (* "The image %1 is an 16 bit format while the previous ones are not." *)
| msg_invalid_size (fname : string)
    (* "The image %1 has an invalid size." *)
| msg_other (text : string).

Inductive signal : Type :=
| errorWhileLoading (msg : message)
| processed
| fileLoaded (index : Z) (fname : string) (expotime : float)
| expotimeValueChanged (expotime : float) (index : Z).

Record HdrCreationManager : Type :=
  mkManager {
    m_data : list HdrCreationItem;
    inputType : input_type;
    m_loadingError : bool;
    fromCommandLine : bool;
    m_runningThreads : Z;
    m_processedFiles : Z;
    m_mdrWidth : Z;
    m_mdrHeight : Z;
    fileList : list string;
    filesToRemove : list string;
    filesLackingExif : list string;
    expotimes : list float;
    ldrImagesList : ptrlist QImage;
    mdrImagesList : ptrlist QImage;
    antiGhostingMasksList : ptrlist QImage;
    listmdrR : Array2DfList;
    listmdrG : Array2DfList;
    listmdrB : Array2DfList;
    emitted : list signal
  }.

(** [HdrCreationManager::HdrCreationManager(fromCommandLine)] *)
Definition new_manager (fromCommandLine : bool) : HdrCreationManager :=
  mkManager [] UNKNOWN_INPUT_TYPE false fromCommandLine 0 0 0 0
    [] [] [] [] [] [] [] [] [] [] [].

Definition set_m_data v (m : HdrCreationManager) :=
  mkManager v (inputType m) (m_loadingError m) (fromCommandLine m)
    (m_runningThreads m) (m_processedFiles m) (m_mdrWidth m) (m_mdrHeight m)
    (fileList m) (filesToRemove m) (filesLackingExif m) (expotimes m)
    (ldrImagesList m) (mdrImagesList m) (antiGhostingMasksList m)
    (listmdrR m) (listmdrG m) (listmdrB m) (emitted m).

Definition set_inputType v (m : HdrCreationManager) :=
  mkManager (m_data m) v (m_loadingError m) (fromCommandLine m)
    (m_runningThreads m) (m_processedFiles m) (m_mdrWidth m) (m_mdrHeight m)
    (fileList m) (filesToRemove m) (filesLackingExif m) (expotimes m)
    (ldrImagesList m) (mdrImagesList m) (antiGhostingMasksList m)
    (listmdrR m) (listmdrG m) (listmdrB m) (emitted m).

Definition set_m_loadingError v (m : HdrCreationManager) :=
  mkManager (m_data m) (inputType m) v (fromCommandLine m)
    (m_runningThreads m) (m_processedFiles m) (m_mdrWidth m) (m_mdrHeight m)
    (fileList m) (filesToRemove m) (filesLackingExif m) (expotimes m)
    (ldrImagesList m) (mdrImagesList m) (antiGhostingMasksList m)
    (listmdrR m) (listmdrG m) (listmdrB m) (emitted m).

Definition set_counters threads files (m : HdrCreationManager) :=
  mkManager (m_data m) (inputType m) (m_loadingError m) (fromCommandLine m)
    threads files (m_mdrWidth m) (m_mdrHeight m)
    (fileList m) (filesToRemove m) (filesLackingExif m) (expotimes m)
    (ldrImagesList m) (mdrImagesList m) (antiGhostingMasksList m)
    (listmdrR m) (listmdrG m) (listmdrB m) (emitted m).

Definition set_mdrSize w h (m : HdrCreationManager) :=
  mkManager (m_data m) (inputType m) (m_loadingError m) (fromCommandLine m)
    (m_runningThreads m) (m_processedFiles m) w h
    (fileList m) (filesToRemove m) (filesLackingExif m) (expotimes m)
    (ldrImagesList m) (mdrImagesList m) (antiGhostingMasksList m)
    (listmdrR m) (listmdrG m) (listmdrB m) (emitted m).

Definition set_filesToRemove v (m : HdrCreationManager) :=
  mkManager (m_data m) (inputType m) (m_loadingError m) (fromCommandLine m)
    (m_runningThreads m) (m_processedFiles m) (m_mdrWidth m) (m_mdrHeight m)
    (fileList m) v (filesLackingExif m) (expotimes m)
    (ldrImagesList m) (mdrImagesList m) (antiGhostingMasksList m)
    (listmdrR m) (listmdrG m) (listmdrB m) (emitted m).

Definition set_filesLackingExif v (m : HdrCreationManager) :=
  mkManager (m_data m) (inputType m) (m_loadingError m) (fromCommandLine m)
    (m_runningThreads m) (m_processedFiles m) (m_mdrWidth m) (m_mdrHeight m)
    (fileList m) (filesToRemove m) v (expotimes m)
    (ldrImagesList m) (mdrImagesList m) (antiGhostingMasksList m)
    (listmdrR m) (listmdrG m) (listmdrB m) (emitted m).

Definition set_expotimes v (m : HdrCreationManager) :=
  mkManager (m_data m) (inputType m) (m_loadingError m) (fromCommandLine m)
    (m_runningThreads m) (m_processedFiles m) (m_mdrWidth m) (m_mdrHeight m)
    (fileList m) (filesToRemove m) (filesLackingExif m) v
    (ldrImagesList m) (mdrImagesList m) (antiGhostingMasksList m)
    (listmdrR m) (listmdrG m) (listmdrB m) (emitted m).

Definition set_ldrImagesList v (m : HdrCreationManager) :=
  mkManager (m_data m) (inputType m) (m_loadingError m) (fromCommandLine m)
    (m_runningThreads m) (m_processedFiles m) (m_mdrWidth m) (m_mdrHeight m)
    (fileList m) (filesToRemove m) (filesLackingExif m) (expotimes m)
    v (mdrImagesList m) (antiGhostingMasksList m)
    (listmdrR m) (listmdrG m) (listmdrB m) (emitted m).

Definition set_mdrImagesList v (m : HdrCreationManager) :=
  mkManager (m_data m) (inputType m) (m_loadingError m) (fromCommandLine m)
    (m_runningThreads m) (m_processedFiles m) (m_mdrWidth m) (m_mdrHeight m)
    (fileList m) (filesToRemove m) (filesLackingExif m) (expotimes m)
    (ldrImagesList m) v (antiGhostingMasksList m)
    (listmdrR m) (listmdrG m) (listmdrB m) (emitted m).

Definition set_antiGhostingMasksList v (m : HdrCreationManager) :=
  mkManager (m_data m) (inputType m) (m_loadingError m) (fromCommandLine m)
    (m_runningThreads m) (m_processedFiles m) (m_mdrWidth m) (m_mdrHeight m)
    (fileList m) (filesToRemove m) (filesLackingExif m) (expotimes m)
    (ldrImagesList m) (mdrImagesList m) v
    (listmdrR m) (listmdrG m) (listmdrB m) (emitted m).

Definition set_listmdr (ls : lists) (m : HdrCreationManager) :=
  mkManager (m_data m) (inputType m) (m_loadingError m) (fromCommandLine m)
    (m_runningThreads m) (m_processedFiles m) (m_mdrWidth m) (m_mdrHeight m)
    (fileList m) (filesToRemove m) (filesLackingExif m) (expotimes m)
    (ldrImagesList m) (mdrImagesList m) (antiGhostingMasksList m)
    (fst (fst ls)) (snd (fst ls)) (snd ls) (emitted m).

Definition get_listmdr (m : HdrCreationManager) : lists :=
  (listmdrR m, listmdrG m, listmdrB m).

(** [emit s] *)
Definition emit (s : signal) (m : HdrCreationManager) :=
  mkManager (m_data m) (inputType m) (m_loadingError m) (fromCommandLine m)
    (m_runningThreads m) (m_processedFiles m) (m_mdrWidth m) (m_mdrHeight m)
    (fileList m) (filesToRemove m) (filesLackingExif m) (expotimes m)
    (ldrImagesList m) (mdrImagesList m) (antiGhostingMasksList m)
    (listmdrR m) (listmdrG m) (listmdrB m) (emitted m ++ [s]).

(** [l[i] = v]: past the end of the container the source is undefined. *)
Definition store {A} (l : list A) (i : Z) (v : A) : outcome (list A) :=
  if (0 <=? i) && (i <? zlength l) then Done (zupd l i v) else Fault.

Section Manager.
Local Open Scope outcome_scope.

(** Collaborators outside the file: the Qt colour conversions (see
    [LDR]), [logf] and [exp2f] of the C library, the preview built by
    [fromHDRPFStoQImage], [QFileInfo::fileName], the frame reader,
    [ExifOperations::getAverageLuminance] and
    [colorspace::convertSample<uint8_t>].  A reader or a metadata call
    that throws [std::runtime_error] is [None]. *)
Variable hslHueF : Z -> float.
Variable hsvValue : Z -> Z.
Variable getRgbF : Z -> float * float * float.
Variable getHsvF : Z -> float * float * float.
Variable hsvF_rgb : float -> float -> float -> Z.
Variable logf : float -> float.
Variable exp2f : float -> float.
Variable fromHDRPFStoQImage : Frame -> QImage.
Variable fileName : string -> string.
Variable readFrame : string -> option Frame.
Variable getAverageLuminance : string -> option float.
Variable convertSample : float -> Z.

(* ---------------------------------------------------------------- *)
(** *** [loadFiles] *)

(** [qRgb(r, g, b)] *)
Definition qRgb (r g b : Z) : Z :=
  Z.lor (Z.shiftl 255 24)
    (Z.lor (Z.shiftl (Z.land r 255) 16)
       (Z.lor (Z.shiftl (Z.land g 255) 8) (Z.land b 255))).

Definition ConvertToQRgb (r g b : float) : Z :=
  qRgb (convertSample r) (convertSample g) (convertSample b).

Fixpoint transform3 (rs gs bs : list float) : list Z :=
  match rs, gs, bs with
  | r :: rs', g :: gs', b :: bs' => ConvertToQRgb r g b :: transform3 rs' gs' bs'
  | _, _, _ => []
  end.

(** [LoadFile::operator()]: the [catch] leaves the item as far as it was
    filled. *)
Definition LoadFile (currentItem : HdrCreationItem) : HdrCreationItem :=
  match readFrame (filename currentItem) with
  | None => currentItem
  | Some fr =>
      let item1 :=
        mkItem (filename currentItem) (averageLuminance currentItem)
          (Some fr) (qimage currentItem) in
      match getAverageLuminance (filename currentItem) with
      | None => item1
      | Some lum =>
          let tempImage :=
            mkImage (getWidth fr) (getHeight fr)
              (transform3 (elems (chanX fr)) (elems (chanY fr))
                 (elems (chanZ fr))) in
          mkItem (filename currentItem) lum (Some fr) tempImage
      end
  end.

Definition checkFileName (item : HdrCreationItem) (str : string) : bool :=
  String.eqb (filename item) str.

(** The first loop of [loadFiles]: the items scheduled for decoding. *)
Fixpoint schedule (data : list HdrCreationItem) (filenames : list string)
  : list HdrCreationItem :=
  match filenames with
  | [] => []
  | i :: rest =>
      match find (fun item => checkFileName item i) data with
      | None => new_item i :: schedule data rest
      | Some _ => schedule data rest
      end
  end.

(** [loadFiles(filenames)]; [canceled] is what
    [futureWatcher.isCanceled()] answers after the parallel map. *)
Definition loadFiles (m : HdrCreationManager) (filenames : list string)
  (canceled : bool) : HdrCreationManager :=
  let tempItems := schedule (m_data m) filenames in
  let tempItems := map LoadFile tempItems in
  if canceled then m
  else set_m_data (m_data m ++ filter isValid tempItems) m.

(** [removeFile(idx)] *)
Definition removeFile (m : HdrCreationManager) (idx : Z)
  : outcome HdrCreationManager :=
  if (0 <=? idx) && (idx <? zlength (m_data m)) then
    Done (set_m_data (firstn (Z.to_nat idx) (m_data m)
                        ++ skipn (S (Z.to_nat idx)) (m_data m)) m)
  else Fault.

(* ---------------------------------------------------------------- *)
(** *** Arrival of a decoded image: [mdrReady], [ldrReady] *)

Definition loadFailed (m : HdrCreationManager) (msg : string) (index : Z)
  : HdrCreationManager :=
  emit (errorWhileLoading (msg_other msg)) (set_m_loadingError true m).

Fixpoint ldrsHaveSameSize_from (l : ptrlist QImage)
  (currentWidth currentHeight : Z) : bool :=
  match l with
  | [] => true
  | imagepointer :: rest =>
      match imagepointer with
      | Some img =>
          if negb (qwidth img =? currentWidth)
             || negb (qheight img =? currentHeight)
          then false
          else ldrsHaveSameSize_from rest currentWidth currentHeight
      | None => ldrsHaveSameSize_from rest currentWidth currentHeight
      end
  end.

Definition ldrsHaveSameSize (m : HdrCreationManager)
  (currentWidth currentHeight : Z) : bool :=
  ldrsHaveSameSize_from (ldrImagesList m) currentWidth currentHeight.

Definition differs (a : Array2Df) (currentWidth currentHeight : Z) : bool :=
  negb (getCols a =? currentWidth) || negb (getRows a =? currentHeight).

Fixpoint mdrsHaveSameSize_from (m : HdrCreationManager) (idx : list Z)
  (currentWidth currentHeight : Z) : outcome bool :=
  match idx with
  | [] => Done true
  | i :: rest =>
      Rpointer <- at_ (listmdrR m) i ;;
      Gpointer <- at_ (listmdrG m) i ;;
      Bpointer <- at_ (listmdrB m) i ;;
      match Rpointer, Gpointer, Bpointer with
      | Some R, Some G, Some B =>
          if differs R currentWidth currentHeight
             || differs G currentWidth currentHeight
             || differs B currentWidth currentHeight
          then Done false
          else mdrsHaveSameSize_from m rest currentWidth currentHeight
      | _, _, _ => mdrsHaveSameSize_from m rest currentWidth currentHeight
      end
  end.

Definition mdrsHaveSameSize (m : HdrCreationManager)
  (currentWidth currentHeight : Z) : outcome bool :=
  mdrsHaveSameSize_from m (range 0 (zlength (listmdrR m)))
    currentWidth currentHeight.

(** [newResult(index, expotime, newfname)] *)
Definition newResult (m : HdrCreationManager) (index : Z) (expotime : float)
  (newfname : string) : outcome HdrCreationManager :=
  let m := set_counters (m_runningThreads m - 1) (m_processedFiles m + 1) m in
  fname <- at_ (fileList m) index ;;
  m <- (if negb (String.eqb fname newfname) then
          l <- store (filesToRemove m) index newfname ;;
          Done (set_filesToRemove l m)
        else Done m) ;;
  l <- store (expotimes m) index expotime ;;
  let m := set_expotimes l m in
  let m :=
    if F.eqb expotime (Fin (-1)) then
      set_filesLackingExif
        (filesLackingExif m ++ [("<li>" ++ fileName fname ++ "</li>")%string])
        m
    else m in
  let m := emit (fileLoaded index fname expotime) m in
  Done (emit processed m).

(** [mdrReady(newFrame, index, expotime, newfname)] *)
Definition mdrReady (m : HdrCreationManager) (newFrame : Frame) (index : Z)
  (expotime : float) (newfname : string) : outcome HdrCreationManager :=
  if m_loadingError m then Done (emit processed m)
  else
    let R := chanX newFrame in
    let G := chanY newFrame in
    let B := chanZ newFrame in
    if input_type_eqb (inputType m) LDR_INPUT_TYPE then
      let m := set_m_loadingError true m in
      Done (emit (errorWhileLoading (msg_8bit_while_previous_not newfname)) m)
    else
      let m := set_inputType MDR_INPUT_TYPE m in
      same <- mdrsHaveSameSize m (getCols R) (getRows R) ;;
      if negb same then
        let m := set_m_loadingError true m in
        Done (emit (errorWhileLoading (msg_invalid_size newfname)) m)
      else
        m <- (if negb (fromCommandLine m) then
                l <- store (mdrImagesList m) index
                       (Some (fromHDRPFStoQImage newFrame)) ;;
                let m := set_mdrImagesList l m in
                let img := transparent_image (getCols R) (getRows R) in
                l <- store (antiGhostingMasksList m) index (Some img) ;;
                Done (set_antiGhostingMasksList l m)
              else Done m) ;;
        let m := set_mdrSize (getCols R) (getRows R) m in
        lR <- store (listmdrR m) index (Some R) ;;
        lG <- store (listmdrG m) index (Some G) ;;
        lB <- store (listmdrB m) index (Some B) ;;
        let m := set_listmdr (lR, lG, lB) m in
        newResult m index expotime newfname.

(** [ldrReady(newImage, index, expotime, newfname, ldrtiff)] *)
Definition ldrReady (m : HdrCreationManager) (newImage : QImage) (index : Z)
  (expotime : float) (newfname : string) (ldrtiff : bool)
  : outcome HdrCreationManager :=
  if m_loadingError m then Done (emit processed m)
  else if input_type_eqb (inputType m) MDR_INPUT_TYPE then
    let m := set_m_loadingError true m in
    Done (emit (errorWhileLoading (msg_16bit_while_previous_not newfname)) m)
  else
    let m := set_inputType LDR_INPUT_TYPE m in
    if negb (ldrsHaveSameSize m (qwidth newImage) (qheight newImage)) then
      let m := set_m_loadingError true m in
      Done (emit (errorWhileLoading (msg_invalid_size newfname)) m)
    else
      l <- store (ldrImagesList m) index (Some newImage) ;;
      let m := set_ldrImagesList l m in
      m <- (if negb (fromCommandLine m) then
              let img :=
                transparent_image (qwidth newImage) (qheight newImage) in
              l <- store (antiGhostingMasksList m) index (Some img) ;;
              Done (set_antiGhostingMasksList l m)
            else Done m) ;;
      newResult m index expotime newfname.

(** [setEV(new_ev, image_idx)] *)
Definition setEV (m : HdrCreationManager) (new_ev : float) (image_idx : Z)
  : outcome HdrCreationManager :=
  old <- at_ (expotimes m) image_idx ;;
  let m :=
    if F.eqb old (Fin (-1)) then
      set_filesLackingExif (tl (filesLackingExif m)) m
    else m in
  l <- store (expotimes m) image_idx (exp2f new_ev) ;;
  let m := set_expotimes l m in
  Done (emit (expotimeValueChanged (exp2f new_ev) image_idx) m).

(* ---------------------------------------------------------------- *)
(** *** Anti-ghosting entry points *)

(** [doAntiGhosting(goodImageIndex)] *)
Definition doAntiGhosting (m : HdrCreationManager) (goodImageIndex : Z)
  : outcome HdrCreationManager :=
  if input_type_eqb (inputType m) LDR_INPUT_TYPE then
    let origlistsize := zlength (ldrImagesList m) in
    forM 0 origlistsize (fun idx m =>
      if negb (idx =? goodImageIndex) then
        img1 <- deref_at (ldrImagesList m) idx ;;
        img2 <- deref_at (ldrImagesList m) goodImageIndex ;;
        mask <- deref_at (antiGhostingMasksList m) idx ;;
        maskGoodImage <- deref_at (antiGhostingMasksList m) goodImageIndex ;;
        let img1 := LDR.blend hsvValue getHsvF hsvF_rgb
                      img1 img2 mask maskGoodImage in
        Done (set_ldrImagesList (zupd (ldrImagesList m) idx (Some img1)) m)
      else Done m) m
  else
    let origlistsize := zlength (listmdrR m) in
    forM 0 origlistsize (fun idx m =>
      if negb (idx =? goodImageIndex) then
        R1 <- deref_at (listmdrR m) idx ;;
        G1 <- deref_at (listmdrG m) idx ;;
        B1 <- deref_at (listmdrB m) idx ;;
        R2 <- deref_at (listmdrR m) goodImageIndex ;;
        G2 <- deref_at (listmdrG m) goodImageIndex ;;
        B2 <- deref_at (listmdrB m) goodImageIndex ;;
        mask <- deref_at (antiGhostingMasksList m) idx ;;
        maskGoodImage <- deref_at (antiGhostingMasksList m) goodImageIndex ;;
        let t := blend R1 G1 B1 R2 G2 B2 mask maskGoodImage in
        Done (set_listmdr (store_planes (get_listmdr m) idx t) m)
      else Done m) m.

(** [doAutoAntiGhosting(threshold)] *)
Definition doAutoAntiGhosting (m : HdrCreationManager) (threshold : float)
  : outcome HdrCreationManager :=
  if input_type_eqb (inputType m) LDR_INPUT_TYPE then
    l <- LDR.doAutoAntiGhostingLDR hslHueF hsvValue getRgbF getHsvF hsvF_rgb
           logf (ldrImagesList m) (expotimes m) threshold ;;
    Done (set_ldrImagesList l m)
  else
    ls <- doAutoAntiGhostingMDR logf (get_listmdr m) (expotimes m)
            threshold ;;
    Done (set_listmdr ls m).

End Manager.

(* ================================================================== *)
(** ** The image stack: crop, shift and alpha channel *)
(* ================================================================== *)

Section ImageStack.
Local Open Scope outcome_scope.
(** [QRect] and [QImage::copy(const QRect&)] of Qt. *)
Variable QRect : Type.
Variable copy : QImage -> QRect -> QImage.
(** [format() == QImage::Format_RGB32] and
    [convertToFormat(QImage::Format_ARGB32)] of Qt. *)
Variable isRGB32 : QImage -> bool.
Variable toARGB32 : QImage -> QImage.
(** [shiftQImage(in, dx, dy)] *)
Variable shiftQImage : QImage -> Z -> Z -> QImage.

(** The three lines that [cropLDR], [cropAgMasks] and
    [makeSureLDRsHaveAlpha] repeat for every image:
    [newimage = new QImage(l.at(0)->f(...)); l.append(newimage);
     delete l.takeAt(0);].  The test [newimage == NULL] between them
    never holds, [new] does not return a null pointer. *)
Definition replace_front (f : QImage -> QImage) (l : ptrlist QImage)
  : outcome (ptrlist QImage) :=
  img0 <- deref_at l 0 ;;
  Done (tl (l ++ [Some (f img0)])).

(** [cropAgMasks(ca)] *)
Definition cropAgMasks (m : HdrCreationManager) (ca : QRect)
  : outcome HdrCreationManager :=
  let origlistsize := zlength (antiGhostingMasksList m) in
  forM 0 origlistsize (fun image_idx m =>
    l <- replace_front (fun img => copy img ca) (antiGhostingMasksList m) ;;
    Done (set_antiGhostingMasksList l m)) m.

(** [cropLDR(ca)] *)
Definition cropLDR (m : HdrCreationManager) (ca : QRect)
  : outcome HdrCreationManager :=
  let origlistsize := zlength (ldrImagesList m) in
  m <- forM 0 origlistsize (fun image_idx m =>
         l <- replace_front (fun img => copy img ca) (ldrImagesList m) ;;
         Done (set_ldrImagesList l m)) m ;;
  cropAgMasks m ca.

(** [makeSureLDRsHaveAlpha()] *)
Definition makeSureLDRsHaveAlpha (m : HdrCreationManager)
  : outcome HdrCreationManager :=
  img0 <- deref_at (ldrImagesList m) 0 ;;
  if isRGB32 img0 then
    let origlistsize := zlength (ldrImagesList m) in
    forM 0 origlistsize (fun image_idx m =>
      l <- replace_front toARGB32 (ldrImagesList m) ;;
      Done (set_ldrImagesList l m)) m
  else Done m.

(** [applyShiftsToImageStack(hvOffsets)]: [takeAt(i)] followed by
    [insert(i, shifted)] puts [shifted] in the place of image [i]. *)
Definition applyShiftsToImageStack (m : HdrCreationManager)
  (hvOffsets : list (Z * Z)) : outcome HdrCreationManager :=
  let originalsize := zlength (ldrImagesList m) in
  forM 0 originalsize (fun i m =>
    off <- at_ hvOffsets i ;;
    if (fst off =? snd off) && (fst off =? 0) then Done m
    else
      img <- deref_at (ldrImagesList m) i ;;
      let shifted := shiftQImage img (fst off) (snd off) in
      Done (set_ldrImagesList (zupd (ldrImagesList m) i (Some shifted)) m))
    m.

End ImageStack.

(* ---------------------------------------------------------------- *)
(** *** [interleavedToPlanar] *)

(** [qRed], [qGreen], [qBlue] of a [QRgb] value. *)
Definition qRed (rgb : Z) : Z := Z.land (Z.shiftr rgb 16) 255.
Definition qGreen (rgb : Z) : Z := Z.land (Z.shiftr rgb 8) 255.
Definition qBlue (rgb : Z) : Z := Z.land rgb 255.

(** [toFloat(value)] *)
Definition toFloat (value : Z) : float := F.div (F.of_int value) (Fin 255).

(** [interleavedToPlanar(image, r, g, b)].  [data] walks the scan line
    [row] of the image; [itRed] walks row [row] of [r]; [itGreen] and
    [itBlue] both start at [g->row_begin(row)] and both walk row [row] of
    [g].  The result is the new contents of [r], [g] and [b]. *)
Definition interleavedToPlanar (image : QImage) (r g b : Array2Df) : planes :=
  for_ 0 (qheight image) (fun row t =>
    for_ 0 (qwidth image) (fun col (t : planes) =>
      let '(r, g, b) := t in
      let data := bits_at image (row * qwidth image + col) in
      let r := set_px r col row (toFloat (qRed data)) in
      let g := set_px g col row (toFloat (qGreen data)) in
      let g := set_px g col row (toFloat (qBlue data)) in
      (r, g, b)) t) (r, g, b).

(* ================================================================== *)
(** ** Rounded arithmetic *)
(* ================================================================== *)

(** The C++ code computes every sum, difference, product and quotient of
    [float]s in binary32: the exact result is rounded to the nearest
    number of the format, a tie to the one with an even significand.
    [round32] does this on a rational: the significand has 24 bits, the
    exponent of its last bit is at least [-149] (gradual underflow), and
    a result of magnitude [2^128] or more is an infinity. *)

(** [2^k] for an integer [k] of any sign. *)
Definition pow2 (k : Z) : Q := (2 ^ k)%Q.

(** The exponent of a positive rational: [2^(ilog2 a) <= a < 2^(ilog2 a + 1)]. *)
Definition ilog2 (a : Q) : Z :=
  let e0 := Z.log2 (Qnum a) - Z.log2 (Zpos (Qden a)) in
  if Qle_bool (pow2 e0) a then e0 else e0 - 1.

(** The nearest integer, a tie going to the even one. *)
Definition round_half_even (x : Q) : Z :=
  let f := Qfloor x in
  match (x - inject_Z f ?= 1 # 2)%Q with
  | Lt => f
  | Gt => f + 1
  | Eq => if Z.even f then f else f + 1
  end.

(** The binary32 number nearest to [q]. *)
Definition round32 (q : Q) : float :=
  if Qeq_bool q 0 then Fin 0
  else
    let a := Qabs q in
    let e := Z.max (ilog2 a - 23) (-149) in
    let r := (inject_Z (round_half_even (a / pow2 e)) * pow2 e)%Q in
    if Qle_bool (pow2 128) r then Inf (Qltb q 0)
    else Fin (Qred (if Qltb q 0 then - r else r)).

(** The unit roundoff and the smallest spacing of binary32. *)
Definition u32 : Q := pow2 (-24).
Definition eta32 : Q := pow2 (-150).
Definition max32 : Q := pow2 127.

(** A rounding is accurate when the result for every real below the
    overflow range is a number within the relative error [u32], or within
    [eta32] where the format is too coarse for that. *)
Definition accurate (rnd : Q -> float) : Prop :=
  forall x, (Qabs x <= max32)%Q ->
    exists y, rnd x = Fin y /\ (Qabs (y - x) <= u32 * Qabs x + eta32)%Q.

(** A rounding is monotone when it keeps the order of the numbers it
    rounds to numbers. *)
Definition monotone (rnd : Q -> float) : Prop :=
  forall x y a b, (x <= y)%Q -> rnd x = Fin a -> rnd y = Fin b -> (a <= b)%Q.

(** The integers from 0 to 6 are numbers of the format. *)
Definition keeps_small_integers (rnd : Q -> float) : Prop :=
  forall n, 0 <= n <= 6 -> rnd (inject_Z n) = Fin (inject_Z n).

(** The functions that the hue scores are computed with, every operation
    rounded by [rnd].  Comparisons, [max] and [min] are exact.  The sum
    [HS += H*H] is a rounded product followed by a rounded sum. *)
Module Rounded.
Section Rounding.
Variable rnd : Q -> float.

(** The rounding of the result of an operation: an infinity and a NaN stay
    as they are. *)
Definition round (x : float) : float :=
  match x with
  | Fin q => rnd q
  | _ => x
  end.

(** A sum, a difference, a product and a quotient of two [float]s. *)
Definition add (x y : float) : float := round (F.add x y).
Definition sub (x y : float) : float := round (F.sub x y).
Definition mul (x y : float) : float := round (F.mul x y).
Definition div (x y : float) : float := round (F.div x y).

(** The conversion of an [int] to [float]. *)
Definition of_int (z : Z) : float := round (F.of_int z).

Local Open Scope outcome_scope.

(** [rgb2hsl(r, g, b, h, s, l)] *)
Definition rgb2hsl (r g b : float) : hsl :=
  let v := F.max r g in
  let v := F.max v b in
  let m := F.min r g in
  let m := F.min m b in
  let l := div (add m v) f2 in
  if F.leb l f0 then HSL f0 f0 l
  else
    let vm := sub v m in
    let s := vm in
    if F.gtb s f0 then
      let s := div s (if F.leb l f0_5 then add v m else sub (sub f2 v) m) in
      let r2 := div (sub v r) vm in
      let g2 := div (sub v g) vm in
      let b2 := div (sub v b) vm in
      let h :=
        if F.eqb r v then (if F.eqb g m then add f5 b2 else sub f1 g2)
        else if F.eqb g v then (if F.eqb b m then add f1 r2 else sub f3 b2)
        else (if F.eqb r m then add f3 g2 else sub f5 r2) in
      HSL (div h f6) s l
    else HSL f0 s l.

(** [hsl2rgb(h, sl, l, r, g, b)].  The [switch] has the cases 0 to 5 and
    no default: any other sextant leaves [r = g = b = l]. *)
Definition hsl2rgb (h sl l : float) : rgb :=
  let v := if F.leb l f0_5 then mul l (add f1 sl)
           else sub (add l sl) (mul l sl) in
  if F.gtb v f0 then
    let m := sub (add l l) v in
    let sv := div (sub v m) v in
    let h := mul h f6 in
    let sextant := F.to_int h in
    let fract := sub h (of_int sextant) in
    let vsf := mul (mul v sv) fract in
    let mid1 := add m vsf in
    let mid2 := sub v vsf in
    match sextant with
    | 0%Z => RGB v mid1 m
    | 1%Z => RGB mid2 v m
    | 2%Z => RGB m v mid1
    | 3%Z => RGB m mid2 v
    | 4%Z => RGB mid1 m v
    | 5%Z => RGB v m mid2
    | _ => RGB l l l
    end
  else RGB l l l.

(** [hueMean(hues, size)] *)
Definition hueMean (hues : list float) : float :=
  let H := fold_left (fun H h => add H h) hues f0 in
  div H (of_int (zlength hues)).

(** The hue of pixel [(i, j)] of exposure [w]. *)
Definition hue_at (listR listG listB : Array2DfList) (w i j : Z)
  : outcome float :=
  R <- deref_at listR w ;;
  G <- deref_at listG w ;;
  B <- deref_at listB w ;;
  Done (hue (rgb2hsl (px R i j) (px G i j) (px B i j))).

(** The loop that fills [hues]. *)
Fixpoint fill_hues (listR listG listB : Array2DfList) (ws : list Z)
  (i j : Z) : outcome (list float) :=
  match ws with
  | [] => Done []
  | w :: ws' =>
      h <- hue_at listR listG listB w i j ;;
      hs <- fill_hues listR listG listB ws' i j ;;
      Done (h :: hs)
  end.

(** [hueSquaredMean(listR, listG, listB, k)] *)
Definition hueSquaredMean (listR listG listB : Array2DfList) (k : Z)
  : outcome float :=
  R0 <- deref_at listR 0 ;;
  let width := getCols R0 in
  let height := getRows R0 in
  let size := zlength listR in
  HS <- forM 0 height (fun j HS =>
          forM 0 width (fun i HS =>
            hues <- fill_hues listR listG listB (range 0 size) i j ;;
            h <- hue_at listR listG listB k i j ;;
            let H := sub (hueMean hues) h in
            Done (add HS (mul H H))) HS) f0 ;;
  Done (div HS (of_int (width * height))).

(** The loop of [doAutoAntiGhostingMDR] that fills [HE]. *)
Definition hueScores (ls : lists) : outcome (list float) :=
  let '(listmdrR, listmdrG, listmdrB) := ls in
  let size := zlength listmdrR in
  mapM (fun i => hueSquaredMean listmdrR listmdrG listmdrB i) (range 0 size).

(** [doAutoAntiGhostingMDR] up to [int h0 = findIndex(HE, size)].  The
    average lightnesses are computed first, as in [detectMDR]; the
    reference index does not depend on them. *)
Definition referenceIndex (ls : lists) : outcome Z :=
  let '(listmdrR, listmdrG, listmdrB) := ls in
  let size := zlength listmdrR in
  R0 <- deref_at listmdrR 0 ;;
  avgLightness <- mapM (fun i =>
      R <- deref_at listmdrR i ;;
      G <- deref_at listmdrG i ;;
      B <- deref_at listmdrB i ;;
      Done (averageLightness R G B)) (range 0 size) ;;
  HE <- hueScores (listmdrR, listmdrG, listmdrB) ;;
  let h0 := findIndex HE in
  Done h0.

End Rounding.
End Rounded.


(* ================================================================== *)
(** ** Normalization of the exposure values: [checkEVvalues] *)
(* ================================================================== *)

(** The property of [checkEVvalues] is about [log2f] and [exp2f] as
    inverse functions, so this routine is embedded over the real numbers:
    a [float] is a NaN, a signed infinity or a finite real, with the same
    conventions as above.  [log2f] of a negative number is a NaN (this is
    what the sentinel [-1] of a missing exposure time gives), [log2f 0] is
    minus infinity. *)
Module EV.
Import Reals Lra.
Local Open Scope R_scope.

Inductive float : Type :=
| NaN : float
| Inf (neg : bool) : float
| Fin (x : R) : float.

Definition neg (x : float) : float :=
  match x with
  | NaN => NaN
  | Inf s => Inf (negb s)
  | Fin r => Fin (- r)
  end.

Definition add (x y : float) : float :=
  match x, y with
  | NaN, _ | _, NaN => NaN
  | Inf a, Inf b => if Bool.eqb a b then Inf a else NaN
  | Inf a, Fin _ => Inf a
  | Fin _, Inf b => Inf b
  | Fin p, Fin q => Fin (p + q)
  end.

Definition sub (x y : float) : float := add x (neg y).

Definition ltb (x y : float) : bool :=
  match x, y with
  | NaN, _ | _, NaN => false
  | Inf a, Inf b => a && negb b
  | Inf a, Fin _ => a
  | Fin _, Inf b => negb b
  | Fin p, Fin q => if Rlt_dec p q then true else false
  end.

Definition gtb (x y : float) : bool := ltb y x.

(** The base-2 logarithm of a positive real. *)
Definition log2 (x : R) : R := ln x / ln 2.

Definition log2f (x : float) : float :=
  match x with
  | NaN => NaN
  | Inf true => NaN
  | Inf false => Inf false
  | Fin r =>
      if Rlt_dec 0 r then Fin (log2 r)
      else if Req_dec_T r 0 then Inf true
      else NaN
  end.

Definition exp2f (x : float) : float :=
  match x with
  | NaN => NaN
  | Inf true => Fin 0
  | Inf false => Inf false
  | Fin r => Fin (Rpower 2 r)
  end.

(** One turn of the first loop: [max] and [min] after looking at one
    exposure time. *)
Definition ev_step (mm : float * float) (t : float) : float * float :=
  let '(max, min) := mm in
  let ev_val := log2f t in
  let max := if gtb ev_val max then ev_val else max in
  let min := if ltb ev_val min then ev_val else min in
  (max, min).

Definition ev_range (expotimes : list float) : float * float :=
  fold_left ev_step expotimes (Fin (-20), Fin 20).

(** [exp2f(log2f(expotimes[i]) - offset)] *)
Definition shifted (offset : float) (t : float) : float :=
  exp2f (sub (log2f t) offset).

(** [checkEVvalues()] on the exposure times of the files of [fileList]:
    the new exposure times. *)
Definition checkEVvalues (expotimes : list float) : list float :=
  let '(max, min) := ev_range expotimes in
  if gtb max (Fin 10) then
    map (shifted (sub max (Fin 10))) expotimes
  else if ltb min (Fin (-10)) then
    map (shifted (add min (Fin 10))) expotimes
  else expotimes.

(** The signals [expotimeValueChanged(exp2f(new_ev), i)] of a call: one
    for each exposure time when an offset is applied, none otherwise. *)
Definition checkEVvalues_signals (expotimes : list float)
  : list (float * nat) :=
  let '(max, min) := ev_range expotimes in
  if gtb max (Fin 10) || ltb min (Fin (-10)) then
    combine (checkEVvalues expotimes) (seq 0 (length expotimes))
  else [].

End EV.

(** [checkEVvalues] once more, now with [log2f] and [exp2f] any functions
    on floats, as those of the C library are, and with the sum and the
    differences rounded by [rnd]. *)
Module RoundedEV.
Import Reals.
Import EV.
Local Open Scope R_scope.

Section Libm.
(** [log2f] and [exp2f] of the C library. *)
Variables log2f exp2f : float -> float.
(** The rounding of a real sum or difference to a [float]. *)
Variable rnd : R -> float.

Definition round (x : float) : float :=
  match x with
  | Fin r => rnd r
  | _ => x
  end.

Definition add (x y : float) : float := round (EV.add x y).
Definition sub (x y : float) : float := round (EV.sub x y).

Definition ev_step (mm : float * float) (t : float) : float * float :=
  let '(max, min) := mm in
  let ev_val := log2f t in
  let max := if gtb ev_val max then ev_val else max in
  let min := if ltb ev_val min then ev_val else min in
  (max, min).

Definition ev_range (expotimes : list float) : float * float :=
  fold_left ev_step expotimes (Fin (-20), Fin 20).

Definition shifted (offset : float) (t : float) : float :=
  exp2f (sub (log2f t) offset).

Definition checkEVvalues (expotimes : list float) : list float :=
  let '(max, min) := ev_range expotimes in
  if gtb max (Fin 10) then
    map (shifted (sub max (Fin 10))) expotimes
  else if ltb min (Fin (-10)) then
    map (shifted (add min (Fin 10))) expotimes
  else expotimes.

End Libm.
End RoundedEV.

(* ================================================================== *)
(** * Properties *)
(* ================================================================== *)

(** ** Loops and containers *)

Lemma range_In (a b i : Z) : In i (range a b) <-> a <= i < b.
Proof.
  unfold range. rewrite in_map_iff. split.
  - intros [k [<- Hk]]. apply in_seq in Hk. lia.
  - intros H. exists (Z.to_nat (i - a)). split; [lia|].
    apply in_seq. lia.
Qed.

Lemma range_empty (a b : Z) : b <= a -> range a b = [].
Proof.
  intros H. unfold range. replace (Z.to_nat (b - a)) with O by lia.
  reflexivity.
Qed.

Lemma range_length (a b : Z) : length (range a b) = Z.to_nat (b - a).
Proof. unfold range. rewrite length_map, length_seq. reflexivity. Qed.

Lemma range_nth_error (a b : Z) (k : nat) :
  (k < Z.to_nat (b - a))%nat ->
  nth_error (range a b) k = Some (a + Z.of_nat k).
Proof.
  intros H. unfold range.
  rewrite nth_error_map, nth_error_seq.
  destruct (Nat.ltb_spec k (Z.to_nat (b - a))); [reflexivity | lia].
Qed.

Lemma fold_left_inv {S A} (P : S -> Prop) (f : S -> A -> S) (l : list A) :
  (forall s x, In x l -> P s -> P (f s x)) ->
  forall s, P s -> P (fold_left f l s).
Proof.
  induction l as [|x l IH]; intros Hstep s Hs; simpl; [exact Hs|].
  apply IH.
  - intros s' y Hy. apply Hstep. right; exact Hy.
  - apply Hstep; [left; reflexivity | exact Hs].
Qed.

(** An invariant kept by every iteration holds after the loop. *)
Lemma for_inv {S} (P : S -> Prop) (a b : Z) (body : Z -> S -> S) (s : S) :
  P s ->
  (forall i s, a <= i < b -> P s -> P (body i s)) ->
  P (for_ a b body s).
Proof.
  intros Hs Hstep. unfold for_. apply fold_left_inv; [|exact Hs].
  intros s' i Hi. apply Hstep. apply range_In. exact Hi.
Qed.

Lemma for_empty {S} (a b : Z) (body : Z -> S -> S) (s : S) :
  b <= a -> for_ a b body s = s.
Proof. intros H. unfold for_. rewrite range_empty by exact H. reflexivity. Qed.

Lemma forM_list_inv {S} (P : S -> Prop) (l : list Z)
  (body : Z -> S -> outcome S) :
  (forall i s s', In i l -> P s -> body i s = Done s' -> P s') ->
  forall s s', P s -> forM_list l body s = Done s' -> P s'.
Proof.
  induction l as [|i l IH]; intros Hstep s s' Hs Hrun; simpl in Hrun.
  - injection Hrun as <-. exact Hs.
  - destruct (body i s) as [s1|] eqn:E; [|discriminate].
    apply (IH (fun j t t' Hj => Hstep j t t' (or_intror Hj)) s1 s');
      [|exact Hrun].
    apply (Hstep i s s1); [left; reflexivity | exact Hs | exact E].
Qed.

(** The same for a loop whose body can fault. *)
Lemma forM_inv {S} (P : S -> Prop) (a b : Z) (body : Z -> S -> outcome S)
  (s s' : S) :
  P s ->
  (forall i s s', a <= i < b -> P s -> body i s = Done s' -> P s') ->
  forM a b body s = Done s' -> P s'.
Proof.
  intros Hs Hstep. unfold forM. apply forM_list_inv; [|exact Hs].
  intros i t t' Hi. apply Hstep. apply range_In. exact Hi.
Qed.

Lemma forM_list_total {S} (P : S -> Prop) (l : list Z)
  (body : Z -> S -> outcome S) :
  (forall i s, In i l -> P s -> exists s', body i s = Done s' /\ P s') ->
  forall s, P s -> exists s', forM_list l body s = Done s' /\ P s'.
Proof.
  induction l as [|i l IH]; intros Hstep s Hs; simpl.
  - exists s. split; [reflexivity | exact Hs].
  - destruct (Hstep i s (or_introl eq_refl) Hs) as [s1 [E H1]].
    rewrite E. apply IH; [|exact H1].
    intros j t Hj. apply Hstep. right; exact Hj.
Qed.

(** A loop whose every iteration returns, returns. *)
Lemma forM_total {S} (P : S -> Prop) (a b : Z) (body : Z -> S -> outcome S)
  (s : S) :
  P s ->
  (forall i s, a <= i < b -> P s -> exists s', body i s = Done s' /\ P s') ->
  exists s', forM a b body s = Done s' /\ P s'.
Proof.
  intros Hs Hstep. unfold forM. apply forM_list_total; [|exact Hs].
  intros i t Hi. apply Hstep. apply range_In. exact Hi.
Qed.

Lemma forM_empty {S} (a b : Z) (body : Z -> S -> outcome S) (s : S) :
  b <= a -> forM a b body s = Done s.
Proof. intros H. unfold forM. rewrite range_empty by exact H. reflexivity. Qed.

Lemma zlength_nonneg {A} (l : list A) : 0 <= zlength l.
Proof. unfold zlength. lia. Qed.

Lemma length_upd {A} (n : nat) (v : A) (l : list A) :
  length (upd n v l) = length l.
Proof.
  revert n; induction l as [|x l IH]; intros [|n]; simpl; try reflexivity.
  rewrite IH. reflexivity.
Qed.

Lemma nth_error_upd_eq {A} (n : nat) (v : A) (l : list A) :
  (n < length l)%nat -> nth_error (upd n v l) n = Some v.
Proof.
  revert n; induction l as [|x l IH]; intros [|n] H; simpl in *;
    try lia; try reflexivity.
  apply IH. lia.
Qed.

Lemma nth_error_upd_ne {A} (n k : nat) (v : A) (l : list A) :
  n <> k -> nth_error (upd n v l) k = nth_error l k.
Proof.
  revert n k; induction l as [|x l IH]; intros [|n] [|k] H; simpl;
    try reflexivity; try congruence.
  apply IH. congruence.
Qed.

Lemma zlength_zupd {A} (l : list A) (i : Z) (v : A) :
  zlength (zupd l i v) = zlength l.
Proof.
  unfold zlength, zupd. destruct (i <? 0); [reflexivity|].
  rewrite length_upd. reflexivity.
Qed.

Lemma zth_zupd_ne {A} (l : list A) (i k : Z) (v : A) :
  i <> k -> zth (zupd l i v) k = zth l k.
Proof.
  intros H. unfold zth, zupd.
  destruct (Z.ltb_spec k 0); [reflexivity|].
  destruct (Z.ltb_spec i 0); [reflexivity|].
  apply nth_error_upd_ne. lia.
Qed.

Lemma zth_zupd_eq {A} (l : list A) (i : Z) (v : A) :
  0 <= i < zlength l -> zth (zupd l i v) i = Some v.
Proof.
  unfold zlength. intros H. unfold zth, zupd.
  destruct (Z.ltb_spec i 0); [lia|].
  apply nth_error_upd_eq. lia.
Qed.

Lemma zth_Some_range {A} (l : list A) (i : Z) (a : A) :
  zth l i = Some a -> 0 <= i < zlength l.
Proof.
  unfold zth, zlength. destruct (Z.ltb_spec i 0); [discriminate|].
  intros H0. assert (Hn : nth_error l (Z.to_nat i) <> None) by congruence.
  apply nth_error_Some in Hn. lia.
Qed.

Lemma zth_in_range {A} (l : list A) (i : Z) :
  0 <= i < zlength l -> exists a, zth l i = Some a.
Proof.
  unfold zth, zlength. intros H. destruct (Z.ltb_spec i 0); [lia|].
  destruct (nth_error l (Z.to_nat i)) eqn:E; [eauto|].
  apply nth_error_None in E. lia.
Qed.

Lemma deref_at_Done {A} (l : ptrlist A) (i : Z) (a : A) :
  deref_at l i = Done a <-> zth l i = Some (Some a).
Proof.
  unfold deref_at. destruct (zth l i) as [[x|]|]; split; intros H;
    try discriminate; congruence.
Qed.

Lemma at_Done {A} (l : list A) (i : Z) (a : A) :
  at_ l i = Done a <-> zth l i = Some a.
Proof.
  unfold at_. destruct (zth l i); split; intros H; try discriminate;
    congruence.
Qed.

Lemma bind_Done {A B} (c : outcome A) (k : A -> outcome B) (b : B) :
  bind c k = Done b <-> exists a, c = Done a /\ k a = Done b.
Proof.
  destruct c as [a|]; simpl; split.
  - intros H. exists a. split; [reflexivity | exact H].
  - intros [a' [E H]]. injection E as <-. exact H.
  - discriminate.
  - intros [a' [E _]]. discriminate.
Qed.

Ltac inv_binds :=
  repeat match goal with
    | H : bind ?c ?k = Done ?b |- _ =>
        let x := fresh "x" in
        let E := fresh "E" in
        apply bind_Done in H; destruct H as [x [E H]]
    | H : (if ?c then _ else _) = Done _ |- _ =>
        let C := fresh "C" in destruct c eqn:C
    | H : Done _ = Done _ |- _ => injection H as H
    | H : Fault = Done _ |- _ => discriminate H
    end.

(** Replays in the goal the calls that are known to return. *)
Ltac replay :=
  repeat match goal with
    | E : ?c = Done _ |- context [?c] => rewrite E; cbn [bind]
    end.

(* ================================================================== *)
(** ** Colour round trip *)
(* ================================================================== *)

(** C4.  Pure red [(1, 0, 0)] has lightness [1/2 > 0] and
    [delta = 1 > 0], so the round trip [hsl2rgb (rgb2hsl c)] should give
    [c] back.  [rgb2hsl] gives it the hue [6/6 = 1] (the branch
    [5.0f + b2] with [b2 = 1]), [hsl2rgb] computes the sextant 6, for which
    its [switch] has no case, and the result is the grey
    [(1/2, 1/2, 1/2)]. *)
Theorem roundtrip_pure_red_is_grey :
  let c := rgb2hsl f1 f0 f0 in
  F.gtb (light c) f0 = true /\
  F.gtb (F.sub (F.max (F.max f1 f0) f0) (F.min (F.min f1 f0) f0)) f0 = true /\
  F.eqb (hue c) f1 = true /\
  F.to_int (F.mul (hue c) f6) = 6 /\
  hsl2rgb (hue c) (sat c) (light c) = RGB f0_5 f0_5 f0_5.
Proof. vm_compute. repeat split. Qed.

(** The same happens at every colour whose red channel is the largest and
    whose green and blue channels are equal, here on the 16-bit scale. *)
Example roundtrip_red_16bit :
  let c := rgb2hsl (Fin 65535) (Fin 0) (Fin 0) in
  F.eqb (hue c) f1 = true /\
  hsl2rgb (hue c) (sat c) (light c)
  = RGB (Fin (65535 # 2)) (Fin (65535 # 2)) (Fin (65535 # 2)).
Proof. vm_compute. repeat split. Qed.

(** A colour away from that case does come back. *)
Example roundtrip_orange :
  let c := rgb2hsl (Fin 200) (Fin 100) (Fin 50) in
  let o := hsl2rgb (hue c) (sat c) (light c) in
  F.eqb (red o) (Fin 200) = true /\
  F.eqb (green o) (Fin 100) = true /\
  F.eqb (blue o) (Fin 50) = true.
Proof. vm_compute. repeat split. Qed.

(* ================================================================== *)
(** ** Type mismatch between arriving images *)
(* ================================================================== *)

Section Arrivals.
Variable fromHDRPFStoQImage : Frame -> QImage.
Variable fileName : string -> string.

Inductive arrival : Type :=
| LdrArrival (newImage : QImage) (index : Z) (expotime : float)
    (newfname : string) (ldrtiff : bool)
| MdrArrival (newFrame : Frame) (index : Z) (expotime : float)
    (newfname : string).

Definition arrival_kind (a : arrival) : input_type :=
  match a with
  | LdrArrival _ _ _ _ _ => LDR_INPUT_TYPE
  | MdrArrival _ _ _ _ => MDR_INPUT_TYPE
  end.

Definition deliver (m : HdrCreationManager) (a : arrival)
  : outcome HdrCreationManager :=
  match a with
  | LdrArrival img i t n b => ldrReady fileName m img i t n b
  | MdrArrival fr i t n => mdrReady fromHDRPFStoQImage fileName m fr i t n
  end.

Fixpoint deliver_all (m : HdrCreationManager) (l : list arrival)
  : outcome HdrCreationManager :=
  match l with
  | [] => Done m
  | a :: l' => bind (deliver m a) (fun m' => deliver_all m' l')
  end.

(** The image data of an arrival sits in the set at its index. *)
Definition holds (m : HdrCreationManager) (a : arrival) : Prop :=
  match a with
  | LdrArrival img i _ _ _ => zth (ldrImagesList m) i = Some (Some img)
  | MdrArrival fr i _ _ =>
      zth (listmdrR m) i = Some (Some (chanX fr)) /\
      zth (listmdrG m) i = Some (Some (chanY fr)) /\
      zth (listmdrB m) i = Some (Some (chanZ fr))
  end.

(** Everything but the error flag and the signals is the same. *)
Definition same_set (m m' : HdrCreationManager) : Prop :=
  m' = mkManager (m_data m) (inputType m) (m_loadingError m')
         (fromCommandLine m) (m_runningThreads m) (m_processedFiles m)
         (m_mdrWidth m) (m_mdrHeight m) (fileList m) (filesToRemove m)
         (filesLackingExif m) (expotimes m) (ldrImagesList m)
         (mdrImagesList m) (antiGhostingMasksList m)
         (listmdrR m) (listmdrG m) (listmdrB m) (emitted m').

Definition is_type_mismatch (msg : message) : bool :=
  match msg with
  | msg_8bit_while_previous_not _ | msg_16bit_while_previous_not _ => true
  | _ => false
  end.

Lemma same_set_refl m : same_set m m.
Proof. destruct m; reflexivity. Qed.

Lemma same_set_trans m1 m2 m3 :
  same_set m1 m2 -> same_set m2 m3 -> same_set m1 m3.
Proof.
  unfold same_set. intros H12 H23. rewrite H23. rewrite H12. reflexivity.
Qed.

Lemma newResult_keeps m i t n m' :
  newResult fileName m i t n = Done m' ->
  inputType m' = inputType m /\
  m_loadingError m' = m_loadingError m /\
  ldrImagesList m' = ldrImagesList m /\
  listmdrR m' = listmdrR m /\
  listmdrG m' = listmdrG m /\
  listmdrB m' = listmdrB m.
Proof.
  unfold newResult. intros H. inv_binds; subst;
    destruct (F.eqb t (Fin (-1))); simpl; repeat split; reflexivity.
Qed.

Lemma store_Done {A} (l : list A) (i : Z) (v : A) (l' : list A) :
  store l i v = Done l' -> zth l' i = Some v.
Proof.
  unfold store. intros H.
  destruct ((0 <=? i) && (i <? zlength l)) eqn:C; [|discriminate].
  injection H as <-. apply zth_zupd_eq. lia.
Qed.

(** An arrival that went through without error fixed the input type of
    the set to its kind and left its data in the set. *)
Lemma accepted_arrival m0 a m1 :
  deliver m0 a = Done m1 ->
  m_loadingError m1 = false ->
  inputType m1 = arrival_kind a /\ holds m1 a.
Proof.
  intros Hrun Hok. destruct a as [img i t n b | fr i t n]; simpl in *.
  - unfold ldrReady in Hrun.
    destruct (m_loadingError m0) eqn:E0.
    { injection Hrun as <-. simpl in Hok. congruence. }
    destruct (input_type_eqb (inputType m0) MDR_INPUT_TYPE).
    { injection Hrun as <-. discriminate Hok. }
    destruct (negb (ldrsHaveSameSize _ _ _)).
    { injection Hrun as <-. discriminate Hok. }
    inv_binds.
    + apply newResult_keeps in Hrun.
      destruct Hrun as (Ht & _ & Hl & _). subst. simpl in *.
      split; [exact Ht|]. rewrite Hl. eapply store_Done; eassumption.
    + apply newResult_keeps in Hrun.
      destruct Hrun as (Ht & _ & Hl & _). subst. simpl in *.
      split; [exact Ht|]. rewrite Hl. eapply store_Done; eassumption.
  - unfold mdrReady in Hrun.
    destruct (m_loadingError m0) eqn:E0.
    { injection Hrun as <-. simpl in Hok. congruence. }
    destruct (input_type_eqb (inputType m0) LDR_INPUT_TYPE).
    { injection Hrun as <-. discriminate Hok. }
    inv_binds; try (subst; discriminate Hok).
    + apply newResult_keeps in Hrun.
      destruct Hrun as (Ht & _ & _ & HR & HG & HB). subst. simpl in *.
      split; [exact Ht|]. rewrite HR, HG, HB.
      repeat split; eapply store_Done; eassumption.
    + apply newResult_keeps in Hrun.
      destruct Hrun as (Ht & _ & _ & HR & HG & HB). subst. simpl in *.
      split; [exact Ht|]. rewrite HR, HG, HB.
      repeat split; eapply store_Done; eassumption.
Qed.

(** Once the error flag is up, an arrival only emits [processed]. *)
Lemma deliver_errored m a :
  m_loadingError m = true -> deliver m a = Done (emit processed m).
Proof.
  intros H. destruct a; simpl; unfold ldrReady, mdrReady; rewrite H;
    reflexivity.
Qed.

Lemma deliver_all_errored l : forall m,
  m_loadingError m = true ->
  exists m', deliver_all m l = Done m' /\
             same_set m m' /\
             m_loadingError m' = true /\
             emitted m' = emitted m ++ repeat processed (length l).
Proof.
  induction l as [|a l IH]; intros m H; simpl.
  - exists m. rewrite app_nil_r.
    repeat split; [apply same_set_refl | exact H].
  - rewrite (deliver_errored m a H). simpl.
    destruct (IH (emit processed m)) as [m' (Hrun & Hsame & Herr & Hsig)];
      [exact H|].
    exists m'. split; [exact Hrun|]. split; [|split; [exact Herr|]].
    + eapply same_set_trans; [|exact Hsame]. reflexivity.
    + rewrite Hsig. simpl. rewrite <- app_assoc. reflexivity.
Qed.

Lemma holds_same_set m m' a : same_set m m' -> holds m a -> holds m' a.
Proof. unfold same_set. intros ->. destruct a; simpl; trivial. Qed.

(** C7.  Let an arrival [a] be accepted (the error flag is down after
    it), and let an arrival [b] of the other kind come next.  Then [b]
    raises the type-mismatch error, the error flag goes up, the set is
    left as it was, with the data of [a] in it and nothing of [b] added,
    and every further arrival is turned away: it only emits [processed],
    while the set stays the same and the flag stays up. *)
Theorem type_mismatch_is_fatal m0 a m1 b :
  deliver m0 a = Done m1 ->
  m_loadingError m1 = false ->
  arrival_kind b <> arrival_kind a ->
  exists m2 msg,
    deliver m1 b = Done m2 /\
    emitted m2 = emitted m1 ++ [errorWhileLoading msg] /\
    is_type_mismatch msg = true /\
    m_loadingError m2 = true /\
    same_set m1 m2 /\
    holds m2 a /\
    forall rest, exists m3,
      deliver_all m2 rest = Done m3 /\
      same_set m2 m3 /\
      holds m3 a /\
      m_loadingError m3 = true /\
      emitted m3 = emitted m2 ++ repeat processed (length rest).
Proof.
  intros Hrun Hok Hkind.
  destruct (accepted_arrival m0 a m1 Hrun Hok) as [Htype Hheld].
  assert (Hstep : exists m2 msg,
             deliver m1 b = Done m2 /\
             emitted m2 = emitted m1 ++ [errorWhileLoading msg] /\
             is_type_mismatch msg = true /\
             m_loadingError m2 = true /\
             same_set m1 m2).
  { destruct b as [img i t n tiff | fr i t n];
      destruct a; simpl in Hkind, Htype; try congruence;
      simpl; unfold ldrReady, mdrReady; rewrite Hok, Htype; simpl;
      eexists; eexists; repeat split. }
  destruct Hstep as (m2 & msg & Hb & Hsig & Hmsg & Herr & Hsame).
  exists m2, msg. repeat (split; [assumption|]).
  split; [eapply holds_same_set; eassumption|].
  intros rest.
  destruct (deliver_all_errored rest m2 Herr)
    as [m3 (Hrest & Hsame3 & Herr3 & Hsig3)].
  exists m3. repeat (split; [assumption|]).
  split; [|split; assumption].
  eapply holds_same_set; [exact Hsame3|].
  eapply holds_same_set; eassumption.
Qed.

End Arrivals.

Definition two_slots : HdrCreationManager :=
  mkManager [] UNKNOWN_INPUT_TYPE false false 0 0 0 0
    ["a.jpg"; "b.tif"]%string [""; ""]%string [] [Fin (-1); Fin (-1)]
    [None; None] [None; None] [None; None]
    [None; None] [None; None] [None; None] [].

Definition one_pixel (v : Q) : Array2Df := mkArray 1 1 [Fin v].

Definition arrival_a : arrival :=
  LdrArrival (mkImage 1 1 [0]) 0 (Fin 1) "a.jpg" false.

Definition arrival_b : arrival :=
  MdrArrival (mkFrame (one_pixel 1) (one_pixel 2) (one_pixel 3)) 1 (Fin 2)
    "b.tif".

Definition no_preview (f : Frame) : QImage := mkImage 0 0 [].
Definition whole_name (s : string) : string := s.

Definition after_a : HdrCreationManager :=
  match deliver no_preview whole_name two_slots arrival_a with
  | Done m => m
  | Fault => two_slots
  end.

Lemma type_mismatch_is_fatal_witness :
  deliver no_preview whole_name two_slots arrival_a = Done after_a /\
  m_loadingError after_a = false /\
  exists m2 msg,
    deliver no_preview whole_name after_a arrival_b = Done m2 /\
    emitted m2 = emitted after_a ++ [errorWhileLoading msg] /\
    is_type_mismatch msg = true /\
    m_loadingError m2 = true /\
    same_set after_a m2 /\
    holds m2 arrival_a /\
    forall rest, exists m3,
      deliver_all no_preview whole_name m2 rest = Done m3 /\
      same_set m2 m3 /\
      holds m3 arrival_a /\
      m_loadingError m3 = true /\
      emitted m3 = emitted m2 ++ repeat processed (length rest).
Proof.
  split; [reflexivity|]. split; [reflexivity|].
  apply (type_mismatch_is_fatal no_preview whole_name
           two_slots arrival_a after_a arrival_b).
  - reflexivity.
  - reflexivity.
  - discriminate.
Defined.

(* ================================================================== *)
(** ** Loading a path that is already in the set *)
(* ================================================================== *)

Section Loading.
Variable readFrame : string -> option Frame.
Variable getAverageLuminance : string -> option float.
Variable convertSample : float -> Z.

Lemma LoadFile_filename item :
  filename (LoadFile readFrame getAverageLuminance convertSample item)
  = filename item.
Proof.
  unfold LoadFile. destruct (readFrame _); [|reflexivity].
  destruct (getAverageLuminance _); reflexivity.
Qed.

Lemma schedule_fresh data filenames item :
  In item (schedule data filenames) ->
  ~ In (filename item) (map filename data).
Proof.
  induction filenames as [|i rest IH]; simpl; [tauto|].
  destruct (find (fun it => checkFileName it i) data) eqn:E.
  - exact IH.
  - intros [<- | H]; [|exact (IH H)].
    simpl. intros Hin. apply in_map_iff in Hin.
    destruct Hin as [it [Hname Hit]].
    apply (find_none _ _ E) in Hit. unfold checkFileName in Hit.
    rewrite Hname, String.eqb_refl in Hit. discriminate.
Qed.

Lemma count_occ_absent (l : list string) (p : string) :
  ~ In p l -> count_occ string_dec l p = 0%nat.
Proof. apply count_occ_not_In. Qed.

(** C9.  A path [p] that is the file name of an item of the set is not
    scheduled for decoding by [loadFiles], whatever the list of requested
    paths is, and the number of items of the set with that file name is the
    same after the call; in particular a set without duplicates still has
    exactly one item for [p]. *)
Theorem loadFiles_skips_present_paths
  (m : HdrCreationManager) (filenames : list string) (canceled : bool)
  (p : string) :
  In p (map filename (m_data m)) ->
  let m' := loadFiles readFrame getAverageLuminance convertSample
              m filenames canceled in
  ~ In p (map filename (schedule (m_data m) filenames)) /\
  count_occ string_dec (map filename (m_data m')) p
  = count_occ string_dec (map filename (m_data m)) p /\
  (NoDup (map filename (m_data m)) ->
   count_occ string_dec (map filename (m_data m')) p = 1%nat).
Proof.
  intros Hin m'.
  assert (Hsched : ~ In p (map filename (schedule (m_data m) filenames))).
  { intros H. apply in_map_iff in H. destruct H as [item [Hname Hitem]].
    apply schedule_fresh in Hitem. rewrite Hname in Hitem. tauto. }
  assert (Hcount : count_occ string_dec (map filename (m_data m')) p
                   = count_occ string_dec (map filename (m_data m)) p).
  { subst m'. unfold loadFiles. destruct canceled; [reflexivity|].
    simpl. rewrite map_app, count_occ_app.
    rewrite (count_occ_absent (map filename (filter _ _))); [lia|].
    intros H. apply in_map_iff in H. destruct H as [item [Hname Hitem]].
    apply filter_In in Hitem. destruct Hitem as [Hitem _].
    apply in_map_iff in Hitem. destruct Hitem as [item0 [Hload Hitem0]].
    apply Hsched. apply in_map_iff. exists item0. split; [|exact Hitem0].
    rewrite <- Hname, <- Hload. symmetry. apply LoadFile_filename. }
  split; [exact Hsched|]. split; [exact Hcount|].
  intros Hnodup. rewrite Hcount.
  apply (proj1 (NoDup_count_occ' string_dec _) Hnodup). exact Hin.
Qed.

End Loading.

Definition always_reads (s : string) : option Frame :=
  Some (mkFrame (one_pixel 1) (one_pixel 1) (one_pixel 1)).
Definition no_luminance (s : string) : option float := None.
Definition sample_zero (x : float) : Z := 0.

Definition one_item : HdrCreationManager :=
  set_m_data [new_item "a.jpg"] (new_manager false).

Lemma loadFiles_skips_present_paths_witness :
  In "a.jpg"%string (map filename (m_data one_item)) /\
  let m' := loadFiles always_reads no_luminance sample_zero
              one_item ["a.jpg"; "b.jpg"; "a.jpg"]%string false in
  ~ In "a.jpg"%string
      (map filename
         (schedule (m_data one_item) ["a.jpg"; "b.jpg"; "a.jpg"]%string)) /\
  count_occ string_dec (map filename (m_data m')) "a.jpg"%string
  = count_occ string_dec (map filename (m_data one_item)) "a.jpg"%string /\
  (NoDup (map filename (m_data one_item)) ->
   count_occ string_dec (map filename (m_data m')) "a.jpg"%string = 1%nat).
Proof.
  split; [left; reflexivity|].
  apply (loadFiles_skips_present_paths always_reads no_luminance sample_zero
           one_item ["a.jpg"; "b.jpg"; "a.jpg"]%string false "a.jpg"%string).
  left; reflexivity.
Defined.

(** Within one call the paths are not compared with each other: a new path
    requested twice is decoded twice and enters the set twice. *)
Example loadFiles_same_new_path_twice :
  map filename
    (m_data (loadFiles always_reads no_luminance sample_zero
               (new_manager false) ["b.jpg"; "b.jpg"]%string false))
  = ["b.jpg"; "b.jpg"]%string.
Proof. reflexivity. Qed.

(* ================================================================== *)
(** ** Manual anti-ghosting leaves the good exposure alone *)
(* ================================================================== *)

Lemma zth_zupd {A} (l : list A) (i k : Z) (v : A) :
  0 <= i < zlength l ->
  zth (zupd l i v) k = if k =? i then Some v else zth l k.
Proof.
  intros H. destruct (Z.eqb_spec k i) as [->|Hne].
  - apply zth_zupd_eq. exact H.
  - apply zth_zupd_ne. congruence.
Qed.

(** All pointers of the list are set. *)
Definition all_set {A} (l : ptrlist A) : Prop :=
  forall i, 0 <= i < zlength l -> exists a, zth l i = Some (Some a).

Lemma all_set_deref {A} (l : ptrlist A) (i : Z) :
  all_set l -> 0 <= i < zlength l -> exists a, deref_at l i = Done a.
Proof.
  intros H Hi. destruct (H i Hi) as [a Ha]. exists a.
  apply deref_at_Done. exact Ha.
Qed.

Lemma all_set_zupd {A} (l : ptrlist A) (i : Z) (a : A) :
  all_set l -> all_set (zupd l i (Some a)).
Proof.
  intros H k Hk. rewrite zlength_zupd in Hk.
  destruct (Z.eq_dec i k) as [->|Hne].
  - exists a. apply zth_zupd_eq. exact Hk.
  - rewrite zth_zupd_ne by exact Hne. apply H. exact Hk.
Qed.

Section ManualAntiGhosting.
Variable hsvValue : Z -> Z.
Variable getHsvF : Z -> float * float * float.
Variable hsvF_rgb : float -> float -> float -> Z.

(** What [doAntiGhosting] needs to run to its end: the good index is in
    range and the images and masks it goes through are there. *)
Definition blendable (m : HdrCreationManager) (goodImageIndex : Z) : Prop :=
  all_set (antiGhostingMasksList m) /\
  match inputType m with
  | LDR_INPUT_TYPE =>
      all_set (ldrImagesList m) /\
      0 <= goodImageIndex < zlength (ldrImagesList m) /\
      zlength (antiGhostingMasksList m) = zlength (ldrImagesList m)
  | _ =>
      all_set (listmdrR m) /\ all_set (listmdrG m) /\ all_set (listmdrB m) /\
      0 <= goodImageIndex < zlength (listmdrR m) /\
      zlength (listmdrG m) = zlength (listmdrR m) /\
      zlength (listmdrB m) = zlength (listmdrR m) /\
      zlength (antiGhostingMasksList m) = zlength (listmdrR m)
  end.

(** The exposure at [goodImageIndex] and all the masks are the same in
    [m'] as in [m]. *)
Definition good_untouched (m m' : HdrCreationManager) (goodImageIndex : Z)
  : Prop :=
  zth (ldrImagesList m') goodImageIndex = zth (ldrImagesList m) goodImageIndex /\
  zth (listmdrR m') goodImageIndex = zth (listmdrR m) goodImageIndex /\
  zth (listmdrG m') goodImageIndex = zth (listmdrG m) goodImageIndex /\
  zth (listmdrB m') goodImageIndex = zth (listmdrB m) goodImageIndex /\
  antiGhostingMasksList m' = antiGhostingMasksList m /\
  inputType m' = inputType m.

Lemma doAntiGhosting_frame m goodImageIndex m' :
  doAntiGhosting hsvValue getHsvF hsvF_rgb m goodImageIndex = Done m' ->
  good_untouched m m' goodImageIndex.
Proof.
  unfold doAntiGhosting.
  destruct (input_type_eqb (inputType m) LDR_INPUT_TYPE); intros Hrun.
  - revert Hrun.
    apply (forM_inv (fun s => good_untouched m s goodImageIndex)).
    + repeat split.
    + intros idx s s' Hidx Hs Hbody.
      destruct (Z.eqb_spec idx goodImageIndex) as [->|Hne]; simpl in Hbody.
      * injection Hbody as <-. exact Hs.
      * inv_binds. subst s'.
        destruct Hs as (H1 & H2 & H3 & H4 & H5 & H6).
        repeat split; simpl; try assumption.
        rewrite zth_zupd_ne by exact Hne. exact H1.
  - revert Hrun.
    apply (forM_inv (fun s => good_untouched m s goodImageIndex)).
    + repeat split.
    + intros idx s s' Hidx Hs Hbody.
      destruct (Z.eqb_spec idx goodImageIndex) as [->|Hne]; simpl in Hbody.
      * injection Hbody as <-. exact Hs.
      * inv_binds. subst s'.
        destruct Hs as (H1 & H2 & H3 & H4 & H5 & H6).
        destruct (blend _ _ _ _ _ _ _ _) as [[R' G'] B'].
        repeat split; simpl; try assumption;
          rewrite zth_zupd_ne by exact Hne; assumption.
Qed.

Lemma doAntiGhosting_returns m goodImageIndex :
  blendable m goodImageIndex ->
  exists m', doAntiGhosting hsvValue getHsvF hsvF_rgb m goodImageIndex
             = Done m'.
Proof.
  unfold blendable, doAntiGhosting. intros [Hmask Hm].
  destruct (inputType m) eqn:Ht; simpl.
  - destruct Hm as (HR & HG & HB & Hgood & HlG & HlB & Hlm).
    destruct (forM_total
                (fun s => all_set (listmdrR s) /\ all_set (listmdrG s) /\
                          all_set (listmdrB s) /\
                          all_set (antiGhostingMasksList s) /\
                          zlength (listmdrR s) = zlength (listmdrR m) /\
                          zlength (listmdrG s) = zlength (listmdrR m) /\
                          zlength (listmdrB s) = zlength (listmdrR m) /\
                          zlength (antiGhostingMasksList s)
                          = zlength (listmdrR m))
                0 (zlength (listmdrR m))
                (fun idx m0 =>
                   if negb (idx =? goodImageIndex)
                   then
                     bind (deref_at (listmdrR m0) idx) (fun R1 =>
                     bind (deref_at (listmdrG m0) idx) (fun G1 =>
                     bind (deref_at (listmdrB m0) idx) (fun B1 =>
                     bind (deref_at (listmdrR m0) goodImageIndex) (fun R2 =>
                     bind (deref_at (listmdrG m0) goodImageIndex) (fun G2 =>
                     bind (deref_at (listmdrB m0) goodImageIndex) (fun B2 =>
                     bind (deref_at (antiGhostingMasksList m0) idx) (fun mask =>
                     bind (deref_at (antiGhostingMasksList m0) goodImageIndex)
                       (fun maskGoodImage =>
                     Done (set_listmdr
                             (store_planes (get_listmdr m0) idx
                                (blend R1 G1 B1 R2 G2 B2 mask maskGoodImage))
                             m0)))))))))
                   else Done m0) m) as [m' [Hrun _]].
    + repeat split; assumption.
    + intros idx s Hidx (sR & sG & sB & sM & lR & lG & lB & lM).
      destruct (negb (idx =? goodImageIndex)).
      2:{ exists s. repeat split; assumption. }
      destruct (all_set_deref _ idx sR) as [R1 ->]; [lia|].
      destruct (all_set_deref _ idx sG) as [G1 ->]; [lia|].
      destruct (all_set_deref _ idx sB) as [B1 ->]; [lia|].
      destruct (all_set_deref _ goodImageIndex sR) as [R2 ->]; [lia|].
      destruct (all_set_deref _ goodImageIndex sG) as [G2 ->]; [lia|].
      destruct (all_set_deref _ goodImageIndex sB) as [B2 ->]; [lia|].
      destruct (all_set_deref _ idx sM) as [mask ->]; [lia|].
      destruct (all_set_deref _ goodImageIndex sM) as [maskG ->]; [lia|].
      simpl. eexists. split; [reflexivity|].
      destruct (blend _ _ _ _ _ _ _ _) as [[R' G'] B']. simpl.
      rewrite !zlength_zupd.
      repeat split; try assumption; apply all_set_zupd; assumption.
    + exists m'. exact Hrun.
  - destruct Hm as (HL & Hgood & Hlm).
    destruct (forM_total
                (fun s => all_set (ldrImagesList s) /\
                          all_set (antiGhostingMasksList s) /\
                          zlength (ldrImagesList s)
                          = zlength (ldrImagesList m) /\
                          zlength (antiGhostingMasksList s)
                          = zlength (ldrImagesList m))
                0 (zlength (ldrImagesList m))
                (fun idx m0 =>
                   if negb (idx =? goodImageIndex)
                   then
                     bind (deref_at (ldrImagesList m0) idx) (fun img1 =>
                     bind (deref_at (ldrImagesList m0) goodImageIndex)
                       (fun img2 =>
                     bind (deref_at (antiGhostingMasksList m0) idx) (fun mask =>
                     bind (deref_at (antiGhostingMasksList m0) goodImageIndex)
                       (fun maskGoodImage =>
                     Done (set_ldrImagesList
                             (zupd (ldrImagesList m0) idx
                                (Some (LDR.blend hsvValue getHsvF hsvF_rgb
                                         img1 img2 mask maskGoodImage)))
                             m0)))))
                   else Done m0) m) as [m' [Hrun _]].
    + repeat split; assumption.
    + intros idx s Hidx (sL & sM & lL & lM).
      destruct (negb (idx =? goodImageIndex)).
      2:{ exists s. repeat split; assumption. }
      destruct (all_set_deref _ idx sL) as [img1 ->]; [lia|].
      destruct (all_set_deref _ goodImageIndex sL) as [img2 ->]; [lia|].
      destruct (all_set_deref _ idx sM) as [mask ->]; [lia|].
      destruct (all_set_deref _ goodImageIndex sM) as [maskG ->]; [lia|].
      simpl. eexists. split; [reflexivity|]. simpl.
      rewrite !zlength_zupd.
      repeat split; try assumption. apply all_set_zupd; assumption.
    + exists m'. exact Hrun.
  - destruct Hm as (HR & HG & HB & Hgood & HlG & HlB & Hlm).
    destruct (forM_total
                (fun s => all_set (listmdrR s) /\ all_set (listmdrG s) /\
                          all_set (listmdrB s) /\
                          all_set (antiGhostingMasksList s) /\
                          zlength (listmdrR s) = zlength (listmdrR m) /\
                          zlength (listmdrG s) = zlength (listmdrR m) /\
                          zlength (listmdrB s) = zlength (listmdrR m) /\
                          zlength (antiGhostingMasksList s)
                          = zlength (listmdrR m))
                0 (zlength (listmdrR m))
                (fun idx m0 =>
                   if negb (idx =? goodImageIndex)
                   then
                     bind (deref_at (listmdrR m0) idx) (fun R1 =>
                     bind (deref_at (listmdrG m0) idx) (fun G1 =>
                     bind (deref_at (listmdrB m0) idx) (fun B1 =>
                     bind (deref_at (listmdrR m0) goodImageIndex) (fun R2 =>
                     bind (deref_at (listmdrG m0) goodImageIndex) (fun G2 =>
                     bind (deref_at (listmdrB m0) goodImageIndex) (fun B2 =>
                     bind (deref_at (antiGhostingMasksList m0) idx) (fun mask =>
                     bind (deref_at (antiGhostingMasksList m0) goodImageIndex)
                       (fun maskGoodImage =>
                     Done (set_listmdr
                             (store_planes (get_listmdr m0) idx
                                (blend R1 G1 B1 R2 G2 B2 mask maskGoodImage))
                             m0)))))))))
                   else Done m0) m) as [m' [Hrun _]].
    + repeat split; assumption.
    + intros idx s Hidx (sR & sG & sB & sM & lR & lG & lB & lM).
      destruct (negb (idx =? goodImageIndex)).
      2:{ exists s. repeat split; assumption. }
      destruct (all_set_deref _ idx sR) as [R1 ->]; [lia|].
      destruct (all_set_deref _ idx sG) as [G1 ->]; [lia|].
      destruct (all_set_deref _ idx sB) as [B1 ->]; [lia|].
      destruct (all_set_deref _ goodImageIndex sR) as [R2 ->]; [lia|].
      destruct (all_set_deref _ goodImageIndex sG) as [G2 ->]; [lia|].
      destruct (all_set_deref _ goodImageIndex sB) as [B2 ->]; [lia|].
      destruct (all_set_deref _ idx sM) as [mask ->]; [lia|].
      destruct (all_set_deref _ goodImageIndex sM) as [maskG ->]; [lia|].
      simpl. eexists. split; [reflexivity|].
      destruct (blend _ _ _ _ _ _ _ _) as [[R' G'] B']. simpl.
      rewrite !zlength_zupd.
      repeat split; try assumption; apply all_set_zupd; assumption.
    + exists m'. exact Hrun.
Qed.

(** C10.  On a set whose images and masks are all there,
    [doAntiGhosting(goodImageIndex)] returns, and in the state it returns
    the exposure at [goodImageIndex] (the 8-bit image and the three
    wide-range planes) is the one it was before the call; so are the
    masks.  Only the other exposures are written. *)
Theorem doAntiGhosting_keeps_good_exposure m goodImageIndex :
  blendable m goodImageIndex ->
  exists m',
    doAntiGhosting hsvValue getHsvF hsvF_rgb m goodImageIndex = Done m' /\
    good_untouched m m' goodImageIndex.
Proof.
  intros H. destruct (doAntiGhosting_returns m goodImageIndex H) as [m' E].
  exists m'. split; [exact E|]. apply doAntiGhosting_frame. exact E.
Qed.

End ManualAntiGhosting.

(* ================================================================== *)
(** ** Facts on the numbers *)
(* ================================================================== *)

Lemma Qltb_lt (p q : Q) : Qltb p q = true <-> (p < q)%Q.
Proof.
  unfold Qltb. rewrite negb_true_iff. split; intros H.
  - apply Qnot_le_lt. intros Hle. apply Qle_bool_iff in Hle. congruence.
  - destruct (Qle_bool q p) eqn:E; [|reflexivity].
    apply Qle_bool_iff in E. exfalso. apply (Qlt_not_le _ _ H E).
Qed.

Lemma Qltb_ge (p q : Q) : Qltb p q = false <-> (q <= p)%Q.
Proof.
  unfold Qltb. rewrite negb_false_iff. apply Qle_bool_iff.
Qed.

Lemma Qeq_bool_false (p q : Q) : ~ (p == q)%Q -> Qeq_bool p q = false.
Proof.
  intros H. destruct (Qeq_bool p q) eqn:E; [|reflexivity].
  apply Qeq_bool_iff in E. contradiction.
Qed.

(** If [t2 < x] and [t1 <= t2] then [t1 < x]. *)
Lemma ltb_leb_trans (t1 t2 x : float) :
  F.ltb t2 x = true -> F.leb t1 t2 = true -> F.ltb t1 x = true.
Proof.
  unfold F.leb. intros H Hle. apply orb_true_iff in Hle.
  destruct t1 as [|s1|q1], t2 as [|s2|q2], x as [|sx|qx]; simpl in *;
    try discriminate; try reflexivity; try assumption;
    try (destruct Hle; discriminate);
    repeat match goal with s : bool |- _ => destruct s end; simpl in *;
    try discriminate; try reflexivity; try (destruct Hle; discriminate).
  apply Qltb_lt. apply Qltb_lt in H.
  destruct Hle as [Hlt | Heq].
  - apply Qltb_lt in Hlt. lra.
  - apply Qeq_bool_iff in Heq. lra.
Qed.

(** A value that is zero or not a number: what [x - x] is. *)
Definition zero_or_nan (x : float) : Prop :=
  match x with
  | NaN => True
  | Inf _ => False
  | Fin q => (q == 0)%Q
  end.

Lemma sub_self (x : float) : zero_or_nan (F.sub x x).
Proof.
  destruct x as [|s|q]; simpl; [exact I | | lra].
  destruct s; simpl; exact I.
Qed.

Lemma zero_or_nan_add (x y : float) :
  zero_or_nan x -> zero_or_nan y -> zero_or_nan (F.add x y).
Proof. destruct x, y; simpl; try tauto. intros; lra. Qed.

Lemma zero_or_nan_sub (x y : float) :
  zero_or_nan x -> zero_or_nan y -> zero_or_nan (F.sub x y).
Proof. destruct x, y; simpl; try tauto. intros; lra. Qed.

Lemma zero_or_nan_abs (x : float) : zero_or_nan x -> zero_or_nan (F.abs x).
Proof.
  destruct x as [| |q]; simpl; try tauto. intros H. rewrite H. reflexivity.
Qed.

Lemma zero_or_nan_scale (c : Q) (x : float) :
  zero_or_nan x -> zero_or_nan (F.mul (Fin c) x).
Proof.
  destruct x as [| |q]; simpl; try tauto. intros H. rewrite H. ring.
Qed.

Lemma zero_or_nan_gtb (x y : float) :
  zero_or_nan x -> zero_or_nan y -> F.gtb x y = false.
Proof.
  destruct x as [| |p], y as [| |q]; simpl; try tauto.
  intros Hp Hq. unfold F.gtb. simpl. apply Qltb_ge. lra.
Qed.

(** A nonnegative threshold is not below zero. *)
Lemma zero_not_above (x threshold : float) :
  zero_or_nan x -> F.leb f0 threshold = true -> F.gtb x threshold = false.
Proof.
  unfold F.gtb, F.leb, f0. intros Hx Hthr. apply orb_true_iff in Hthr.
  destruct x as [| |p], threshold as [|s|q]; simpl in *; try tauto;
    try reflexivity; try (destruct Hthr; discriminate).
  - destruct s; simpl in *; [destruct Hthr; discriminate | reflexivity].
  - apply Qltb_ge. destruct Hthr as [H | H].
    + apply Qltb_lt in H. lra.
    + apply Qeq_bool_iff in H. lra.
Qed.

Lemma div_zero_or_nan (n : Z) : zero_or_nan (F.div (F.of_int 0) (F.of_int n)).
Proof.
  unfold F.of_int. simpl. destruct (Qeq_bool (inject_Z n) 0) eqn:E.
  - simpl. exact I.
  - simpl. apply Qeq_bool_neq in E. field. exact E.
Qed.

(* ================================================================== *)
(** ** Two runs of a loop side by side *)
(* ================================================================== *)

Lemma fold_left_sim {S T A} (Rel : S -> T -> Prop)
  (f : S -> A -> S) (g : T -> A -> T) (l : list A) :
  (forall x s t, In x l -> Rel s t -> Rel (f s x) (g t x)) ->
  forall s t, Rel s t -> Rel (fold_left f l s) (fold_left g l t).
Proof.
  induction l as [|x l IH]; intros Hstep s t Hst; simpl; [exact Hst|].
  apply IH.
  - intros y s' t' Hy. apply Hstep. right; exact Hy.
  - apply Hstep; [left; reflexivity | exact Hst].
Qed.

Lemma for_sim {S T} (Rel : S -> T -> Prop) (a b : Z)
  (f : Z -> S -> S) (g : Z -> T -> T) (s : S) (t : T) :
  Rel s t ->
  (forall i s t, a <= i < b -> Rel s t -> Rel (f i s) (g i t)) ->
  Rel (for_ a b f s) (for_ a b g t).
Proof.
  intros Hst Hstep. unfold for_. apply fold_left_sim; [|exact Hst].
  intros i s' t' Hi. apply Hstep. apply range_In. exact Hi.
Qed.

Lemma forM_list_sim {S T} (Rel : S -> T -> Prop) (l : list Z)
  (f : Z -> S -> outcome S) (g : Z -> T -> outcome T) :
  (forall i s t s', In i l -> Rel s t -> f i s = Done s' ->
                    exists t', g i t = Done t' /\ Rel s' t') ->
  forall s t s', Rel s t -> forM_list l f s = Done s' ->
                 exists t', forM_list l g t = Done t' /\ Rel s' t'.
Proof.
  induction l as [|i l IH]; intros Hstep s t s' Hst Hrun; simpl in *.
  - injection Hrun as <-. exists t. split; [reflexivity | exact Hst].
  - destruct (f i s) as [s1|] eqn:E; [|discriminate].
    destruct (Hstep i s t s1 (or_introl eq_refl) Hst E) as [t1 [Eg H1]].
    rewrite Eg. apply (IH (fun j u v u' Hj => Hstep j u v u' (or_intror Hj))
                          s1 t1 s' H1 Hrun).
Qed.

Lemma forM_sim {S T} (Rel : S -> T -> Prop) (a b : Z)
  (f : Z -> S -> outcome S) (g : Z -> T -> outcome T) (s : S) (t : T) (s' : S) :
  Rel s t ->
  (forall i s t s', a <= i < b -> Rel s t -> f i s = Done s' ->
                    exists t', g i t = Done t' /\ Rel s' t') ->
  forM a b f s = Done s' ->
  exists t', forM a b g t = Done t' /\ Rel s' t'.
Proof.
  intros Hst Hstep. unfold forM. apply forM_list_sim; [|exact Hst].
  intros i u v u' Hi. apply Hstep. apply range_In. exact Hi.
Qed.

(* ================================================================== *)
(** ** The flagged grid and the threshold *)
(* ================================================================== *)

Definition grid_le (p q : grid) : Prop :=
  forall i j, p i j = true -> q i j = true.

Lemma grid_le_set (p q : grid) (i j : Z) :
  grid_le p q -> grid_le (grid_set p i j) (grid_set q i j).
Proof.
  unfold grid_le, grid_set. intros H i' j'.
  destruct ((i' =? i) && (j' =? j)); [reflexivity | apply H].
Qed.

Lemma grid_le_set_r (p q : grid) (i j : Z) :
  grid_le p q -> grid_le p (grid_set q i j).
Proof.
  unfold grid_le, grid_set. intros H i' j' Hp.
  destruct ((i' =? i) && (j' =? j)); [reflexivity | apply H; exact Hp].
Qed.

Lemma countPatches_mono (p q : grid) :
  grid_le p q -> countPatches p <= countPatches q.
Proof.
  intros H. unfold countPatches.
  apply (for_sim Z.le); [lia|]. intros i c1 c2 _ Hc.
  apply (for_sim Z.le); [exact Hc|]. intros j d1 d2 _ Hd.
  destruct (p i j) eqn:Ep.
  - rewrite (H i j Ep). simpl. lia.
  - simpl. destruct (Bool.eqb (q i j) true); lia.
Qed.

Lemma countPatches_none (p : grid) :
  (forall i j, p i j = false) -> countPatches p = 0.
Proof.
  intros H. unfold countPatches.
  apply (for_inv (fun c => c = 0)); [reflexivity|]. intros i c _ ->.
  apply (for_inv (fun c => c = 0)); [reflexivity|]. intros j c _ ->.
  rewrite H. reflexivity.
Qed.

Section Threshold.
Variable logf : float -> float.

Lemma comparePatches_antitone R1 G1 B1 R2 G2 B2 i j gridX gridY t1 t2 deltaEV :
  F.leb t1 t2 = true ->
  comparePatches logf R1 G1 B1 R2 G2 B2 i j gridX gridY t2 deltaEV = true ->
  comparePatches logf R1 G1 B1 R2 G2 B2 i j gridX gridY t1 deltaEV = true.
Proof.
  unfold comparePatches. intros Hle.
  set (ratio := F.div _ _). unfold F.gtb.
  destruct (F.ltb t2 ratio) eqn:E; [|discriminate]. intros _.
  rewrite (ltb_leb_trans t1 t2 ratio E Hle). reflexivity.
Qed.

Lemma flagPatches_antitone ls expotimes h0 gridX gridY t1 t2 p2 :
  F.leb t1 t2 = true ->
  flagPatches logf ls expotimes h0 gridX gridY t2 = Done p2 ->
  exists p1, flagPatches logf ls expotimes h0 gridX gridY t1 = Done p1 /\
             grid_le p2 p1.
Proof.
  intros Hle. destruct ls as [[lR lG] lB]. unfold flagPatches.
  apply forM_sim; [intros i j H; exact H|].
  intros h s t s' _ Hst. destruct (h =? h0).
  { intros H. injection H as <-. exists t. split; [reflexivity | exact Hst]. }
  apply forM_sim; [exact Hst|]. clear s t s' Hst.
  intros j s t s' _ Hst.
  apply forM_sim; [exact Hst|]. clear s t s' Hst.
  intros i s t s' _ Hst Hbody.
  inv_binds;
    repeat match goal with E : _ = Done _ |- _ => rewrite E; clear E end;
    simpl; subst s'.
  - rewrite (comparePatches_antitone _ _ _ _ _ _ _ _ _ _ _ _ _ Hle C).
    eexists. split; [reflexivity|]. apply grid_le_set. exact Hst.
  - destruct (comparePatches _ _ _ _ _ _ _ _ _ _ _ t1 _);
      eexists; (split; [reflexivity|]);
      [apply grid_le_set_r|]; exact Hst.
Qed.

(** C5.  On the same exposures and exposure times, let the detection run
    with threshold [t2] and return.  With a threshold [t1 <= t2] it returns
    too, picks the same reference exposure, flags every cell that was
    flagged with [t2], and so counts at least as many flagged cells. *)
Theorem raising_threshold_flags_no_more ls expotimes t1 t2 d2 :
  F.leb t1 t2 = true ->
  detectMDR logf ls expotimes t2 = Done d2 ->
  exists d1,
    detectMDR logf ls expotimes t1 = Done d1 /\
    d_h0 d1 = d_h0 d2 /\
    (forall i j, d_patches d2 i j = true -> d_patches d1 i j = true) /\
    countPatches (d_patches d2) <= countPatches (d_patches d1).
Proof.
  intros Hle. destruct ls as [[lR lG] lB]. unfold detectMDR. intros Hrun.
  inv_binds.
  destruct (flagPatches_antitone _ _ _ _ _ t1 t2 _ Hle E3) as [p1 [Hp1 Hsub]].
  replay. eexists. split; [reflexivity|]. subst d2. simpl.
  split; [reflexivity|]. split; [exact Hsub|].
  apply countPatches_mono. exact Hsub.
Qed.

End Threshold.

(* ================================================================== *)
(** ** Identical exposures *)
(* ================================================================== *)

Lemma zth_In {A} (l : list A) (i : Z) (a : A) : zth l i = Some a -> In a l.
Proof.
  unfold zth. destruct (i <? 0); [discriminate|]. apply nth_error_In.
Qed.

Section Identical.
Variable logf : float -> float.

Definition quiet (t : float * float * float) : Prop :=
  let '(lr, lg, lb) := t in
  zero_or_nan lr /\ zero_or_nan lg /\ zero_or_nan lb.

(** Compared with itself, a cell has no log ratio away from [deltaEV]. *)
Lemma logRatios_identical R G B i j gridX gridY deltaEV :
  zero_or_nan deltaEV ->
  Forall quiet (logRatios logf R G B R G B i j gridX gridY deltaEV).
Proof.
  intros Hd. unfold logRatios.
  apply (for_inv (Forall quiet)); [constructor|]. intros y logs _ Hlogs.
  apply (for_inv (Forall quiet)); [exact Hlogs|]. clear logs Hlogs.
  intros x logs _ Hlogs.
  destruct (F.ltb deltaEV f0); apply Forall_app; (split; [exact Hlogs|]);
    constructor; try constructor; unfold quiet; repeat split;
    first [ apply zero_or_nan_sub; [apply sub_self | exact Hd]
          | apply zero_or_nan_add; [apply sub_self | exact Hd] ].
Qed.

Lemma countOutliers_quiet logs n threshold1 :
  Forall quiet logs -> zero_or_nan threshold1 ->
  countOutliers logs n threshold1 = 0.
Proof.
  intros Hlogs Hthr. unfold countOutliers.
  apply (for_inv (fun c => c = 0)); [reflexivity|]. intros h c _ ->.
  destruct (zth logs h) as [t|] eqn:E; [|reflexivity].
  apply zth_In in E. rewrite Forall_forall in Hlogs.
  specialize (Hlogs t E). destruct t as [[lr lg] lb].
  destruct Hlogs as (Hr & Hg & Hb). unfold outlier.
  rewrite !zero_or_nan_gtb; try reflexivity;
    try apply zero_or_nan_abs; assumption.
Qed.

Lemma comparePatches_identical R G B i j gridX gridY threshold deltaEV :
  zero_or_nan deltaEV ->
  F.leb f0 threshold = true ->
  comparePatches logf R G B R G B i j gridX gridY threshold deltaEV = false.
Proof.
  intros Hd Hthr. unfold comparePatches.
  rewrite countOutliers_quiet.
  - rewrite zero_not_above; [reflexivity | apply div_zero_or_nan | exact Hthr].
  - apply logRatios_identical. exact Hd.
  - unfold f0_7. apply zero_or_nan_scale. apply zero_or_nan_abs. exact Hd.
Qed.

(** All the exposures of the set are the planes [R], [G], [B], and all the
    exposure times are [t]. *)
Definition all_copies (ls : lists) (expotimes : list float)
  (R G B : Array2Df) (t : float) : Prop :=
  let '(lR, lG, lB) := ls in
  (forall h a, zth lR h = Some (Some a) -> a = R) /\
  (forall h a, zth lG h = Some (Some a) -> a = G) /\
  (forall h a, zth lB h = Some (Some a) -> a = B) /\
  (forall h e, zth expotimes h = Some e -> e = t).

Lemma flagPatches_identical ls expotimes R G B t h0 gridX gridY threshold p :
  all_copies ls expotimes R G B t ->
  F.leb f0 threshold = true ->
  flagPatches logf ls expotimes h0 gridX gridY threshold = Done p ->
  forall i j, p i j = false.
Proof.
  destruct ls as [[lR lG] lB]. intros (HR & HG & HB & Ht) Hthr.
  unfold flagPatches.
  apply (forM_inv (fun p : grid => forall i j, p i j = false));
    [reflexivity|].
  intros h s s' _ Hs. destruct (h =? h0).
  { intros H. injection H as <-. exact Hs. }
  apply (forM_inv (fun p : grid => forall i j, p i j = false)); [exact Hs|].
  clear s s' Hs. intros j s s' _ Hs.
  apply (forM_inv (fun p : grid => forall i j, p i j = false)); [exact Hs|].
  clear s s' Hs. intros i s s' _ Hs Hbody.
  inv_binds; subst s'; [|exact Hs].
  exfalso.
  repeat match goal with
    | E : deref_at _ _ = Done _ |- _ => apply deref_at_Done in E
    | E : at_ _ _ = Done _ |- _ => apply at_Done in E
    end.
  repeat match goal with
    | E : zth lR _ = Some (Some _) |- _ => apply HR in E
    | E : zth lG _ = Some (Some _) |- _ => apply HG in E
    | E : zth lB _ = Some (Some _) |- _ => apply HB in E
    | E : zth expotimes _ = Some _ |- _ => apply Ht in E
    end.
  subst. rewrite comparePatches_identical in C;
    [discriminate | apply sub_self | exact Hthr].
Qed.

Lemma detectMDR_identical ls expotimes R G B t threshold d :
  all_copies ls expotimes R G B t ->
  F.leb f0 threshold = true ->
  detectMDR logf ls expotimes threshold = Done d ->
  forall i j, d_patches d i j = false.
Proof.
  intros Hall Hthr. destruct ls as [[lR lG] lB] eqn:Els.
  unfold detectMDR. intros Hrun. inv_binds. subst d. simpl.
  eapply flagPatches_identical; eassumption.
Qed.

End Identical.

(* ================================================================== *)
(** ** Finite samples give finite hues *)
(* ================================================================== *)

Definition fin (x : float) : Prop := exists q, x = Fin q.

Lemma fin_max a b : fin (F.max (Fin a) (Fin b)).
Proof. unfold F.max. simpl. destruct (Qltb a b); eexists; reflexivity. Qed.

Lemma fin_min a b : fin (F.min (Fin a) (Fin b)).
Proof. unfold F.min. simpl. destruct (Qltb b a); eexists; reflexivity. Qed.

Lemma div_fin (p q : Q) : ~ (q == 0)%Q -> F.div (Fin p) (Fin q) = Fin (p / q).
Proof. intros H. simpl. rewrite Qeq_bool_false by exact H. reflexivity. Qed.

Lemma div_of_int_fin (p : Q) (n : Z) :
  n <> 0 -> F.div (Fin p) (F.of_int n) = Fin (p / inject_Z n).
Proof.
  intros H. unfold F.of_int. apply div_fin.
  intros E. apply H. unfold Qeq in E. simpl in E. lia.
Qed.

Lemma rgb2hsl_light_fin (r g b : Q) :
  fin (light (rgb2hsl (Fin r) (Fin g) (Fin b))).
Proof.
  unfold rgb2hsl.
  destruct (fin_max r g) as [v1 ->]. destruct (fin_max v1 b) as [v ->].
  destruct (fin_min r g) as [m1 ->]. destruct (fin_min m1 b) as [m ->].
  assert (El : F.div (F.add (Fin m) (Fin v)) f2 = Fin ((m + v) / 2))
    by reflexivity.
  rewrite El.
  destruct (F.leb (Fin ((m + v) / 2)) f0); [eexists; reflexivity|].
  destruct (F.gtb (F.sub (Fin v) (Fin m)) f0); eexists; reflexivity.
Qed.

Lemma rgb2hsl_hue_fin (r g b : Q) :
  fin (hue (rgb2hsl (Fin r) (Fin g) (Fin b))).
Proof.
  unfold rgb2hsl.
  destruct (fin_max r g) as [v1 ->]. destruct (fin_max v1 b) as [v ->].
  destruct (fin_min r g) as [m1 ->]. destruct (fin_min m1 b) as [m ->].
  assert (El : F.div (F.add (Fin m) (Fin v)) f2 = Fin ((m + v) / 2))
    by reflexivity.
  rewrite El.
  destruct (F.leb (Fin ((m + v) / 2)) f0); [eexists; reflexivity|].
  assert (Evm : F.sub (Fin v) (Fin m) = Fin (v - m)) by reflexivity.
  rewrite Evm.
  destruct (F.gtb (Fin (v - m)) f0) eqn:Epos; [|eexists; reflexivity].
  assert (Hvm : ~ (v - m == 0)%Q).
  { unfold F.gtb, f0 in Epos. simpl in Epos. apply Qltb_lt in Epos. lra. }
  assert (Ed : forall c, F.div (F.sub (Fin v) (Fin c)) (Fin (v - m))
                         = Fin ((v - c) / (v - m))).
  { intros c. apply (div_fin (v - c) (v - m) Hvm). }
  rewrite !Ed. cbn [hue].
  destruct (F.eqb (Fin r) (Fin v)); [destruct (F.eqb (Fin g) (Fin m))|
    destruct (F.eqb (Fin g) (Fin v));
      [destruct (F.eqb (Fin b) (Fin m)) | destruct (F.eqb (Fin r) (Fin m))]];
    eexists; reflexivity.
Qed.

(** [std::max_element] on finite values. *)
Lemma max_element_from_spec (l : list float) : forall largest,
  fin largest -> Forall fin l ->
  let mx := max_element_from largest l in
  fin mx /\ In mx (largest :: l) /\
  F.ltb mx largest = false /\ Forall (fun x => F.ltb mx x = false) l.
Proof.
  induction l as [|x l IH]; intros largest Hl Hfin mx; subst mx; simpl.
  - destruct Hl as [q ->]. repeat split.
    + eexists; reflexivity.
    + left; reflexivity.
    + simpl. apply Qltb_ge. lra.
    + constructor.
  - inversion Hfin as [|x' l' Hx Hrest]; subst.
    destruct Hl as [q ->]. destruct Hx as [p ->].
    set (nl := if F.ltb (Fin q) (Fin p) then Fin p else Fin q).
    assert (Hnl : fin nl).
    { subst nl. destruct (F.ltb (Fin q) (Fin p)); eexists; reflexivity. }
    destruct (IH nl Hnl Hrest) as (Hf & Hin & Hge & Hall).
    destruct Hf as [mq Emq]. rewrite Emq in *.
    assert (Hnlq : F.ltb (Fin mq) (Fin q) = false
                   /\ F.ltb (Fin mq) (Fin p) = false).
    { subst nl. simpl in *. destruct (Qltb q p) eqn:Eqp; simpl in Hge.
      - apply Qltb_lt in Eqp. apply Qltb_ge in Hge.
        split; apply Qltb_ge; lra.
      - apply Qltb_ge in Eqp. apply Qltb_ge in Hge.
        split; apply Qltb_ge; lra. }
    destruct Hnlq as [Hq Hp].
    repeat split.
    + eexists; reflexivity.
    + destruct Hin as [Hin | Hin].
      * subst nl. destruct (F.ltb (Fin q) (Fin p));
          [right; left | left]; exact Hin.
      * right; right; exact Hin.
    + exact Hq.
    + constructor; [exact Hp | exact Hall].
Qed.

Lemma findIndex_from_spec (mx : float) (l : list float) : forall i0,
  In mx l -> F.eqb mx mx = true ->
  let k := findIndex_from mx l i0 in
  i0 <= k < i0 + zlength l /\
  (exists x, zth l (k - i0) = Some x /\ F.eqb x mx = true) /\
  (forall i x, i0 <= i < k -> zth l (i - i0) = Some x -> F.eqb x mx = false).
Proof.
  unfold zlength. cbv zeta.
  induction l as [|x l IH]; intros i0 Hin Hrefl; [destruct Hin|].
  simpl findIndex_from. destruct (F.eqb x mx) eqn:E.
  - split; [simpl length; lia|]. split.
    + exists x. rewrite Z.sub_diag. split; [reflexivity | exact E].
    + intros i y Hi. lia.
  - assert (Hin' : In mx l).
    { destruct Hin as [-> | H]; [congruence | exact H]. }
    destruct (IH (i0 + 1) Hin' Hrefl) as (Hk & [y [Hy Ey]] & Hfirst).
    set (k := findIndex_from mx l (i0 + 1)) in *.
    split; [simpl length; lia|]. split.
    + exists y. split; [|exact Ey].
      unfold zth in *. destruct (Z.ltb_spec (k - i0) 0); [lia|].
      destruct (Z.ltb_spec (k - (i0 + 1)) 0); [lia|].
      replace (Z.to_nat (k - i0)) with (S (Z.to_nat (k - (i0 + 1)))) by lia.
      exact Hy.
    + intros i y' Hi Hy'.
      destruct (Z.eq_dec i i0) as [-> | Hne].
      * rewrite Z.sub_diag in Hy'. injection Hy' as <-. exact E.
      * apply (Hfirst i y'); [lia|].
        unfold zth in *. destruct (Z.ltb_spec (i - i0) 0); [lia|].
        destruct (Z.ltb_spec (i - (i0 + 1)) 0); [lia|].
        replace (Z.to_nat (i - i0)) with (S (Z.to_nat (i - (i0 + 1))))
          in Hy' by lia.
        exact Hy'.
Qed.

(** On a non-empty array of finite values, [findIndex] returns the first
    index that holds the largest value. *)
Lemma findIndex_argmax (data : list float) :
  data <> [] -> Forall fin data ->
  let k := findIndex data in
  0 <= k < zlength data /\
  exists mx,
    zth data k = Some mx /\
    (forall x, In x data -> F.ltb mx x = false) /\
    (forall i x, 0 <= i < k -> zth data i = Some x -> F.eqb x mx = false).
Proof.
  intros Hne Hfin k. subst k. unfold findIndex.
  destruct data as [|x l]; [congruence|]. clear Hne.
  inversion Hfin as [|x' l' Hx Hrest]; subst.
  destruct (max_element_from_spec l x Hx Hrest) as (Hf & Hin & Hge & Hall).
  simpl max_element. set (mx := max_element_from x l) in *.
  assert (Hrefl : F.eqb mx mx = true).
  { destruct Hf as [q ->]. simpl. apply Qeq_bool_iff. reflexivity. }
  destruct (findIndex_from_spec mx (x :: l) 0 Hin Hrefl)
    as (Hk & [y [Hy Ey]] & Hfirst).
  set (k := findIndex_from mx (x :: l) 0) in *.
  rewrite Z.sub_0_r in Hy. split; [lia|].
  exists y. split; [exact Hy|]. split.
  - intros z Hz.
    assert (Hmz : F.ltb mx z = false).
    { destruct Hz as [<- | Hz]; [exact Hge|].
      rewrite Forall_forall in Hall. apply Hall. exact Hz. }
    assert (Hfz : fin z).
    { rewrite Forall_forall in Hfin. apply Hfin. exact Hz. }
    apply zth_In in Hy. rewrite Forall_forall in Hfin.
    destruct (Hfin y Hy) as [qy ->]. destruct Hf as [qm Em].
    destruct Hfz as [qz ->]. rewrite Em in *. simpl in *.
    apply Qeq_bool_iff in Ey. apply Qltb_ge in Hmz. apply Qltb_ge. lra.
  - intros i z Hi Hz.
    specialize (Hfirst i z Hi). rewrite Z.sub_0_r in Hfirst.
    specialize (Hfirst Hz).
    assert (Hfz : fin z).
    { rewrite Forall_forall in Hfin. apply Hfin. apply zth_In in Hz.
      exact Hz. }
    apply zth_In in Hy. rewrite Forall_forall in Hfin.
    destruct (Hfin y Hy) as [qy ->]. destruct Hf as [qm Em].
    destruct Hfz as [qz ->]. rewrite Em in *. simpl in *.
    apply Qeq_bool_iff in Ey.
    destruct (Qeq_bool qz qy) eqn:Ezy; [|reflexivity].
    apply Qeq_bool_iff in Ezy.
    assert (Hzm : Qeq_bool qz qm = true) by (apply Qeq_bool_iff; lra).
    congruence.
Qed.

(* ================================================================== *)
(** ** Well-formed exposure sets and the value of [hueSquaredMean] *)
(* ================================================================== *)

Lemma forM_list_refines {S T} (Rel : S -> T -> Prop) (l : list Z)
  (f : Z -> S -> outcome S) (g : Z -> T -> T) :
  (forall i s t, In i l -> Rel s t ->
                 exists s', f i s = Done s' /\ Rel s' (g i t)) ->
  forall s t, Rel s t ->
    exists s', forM_list l f s = Done s' /\
               Rel s' (fold_left (fun t i => g i t) l t).
Proof.
  induction l as [|i l IH]; intros Hstep s t Hst; simpl.
  - exists s. split; [reflexivity | exact Hst].
  - destruct (Hstep i s t (or_introl eq_refl) Hst) as [s1 [E H1]].
    rewrite E. apply IH; [|exact H1].
    intros j u v Hj. apply Hstep. right; exact Hj.
Qed.

(** A loop that can fault, but does not, computes what the plain loop
    computes. *)
Lemma forM_refines {S T} (Rel : S -> T -> Prop) (a b : Z)
  (f : Z -> S -> outcome S) (g : Z -> T -> T) (s : S) (t : T) :
  Rel s t ->
  (forall i s t, a <= i < b -> Rel s t ->
                 exists s', f i s = Done s' /\ Rel s' (g i t)) ->
  exists s', forM a b f s = Done s' /\ Rel s' (for_ a b g t).
Proof.
  intros Hst Hstep. unfold forM, for_. apply forM_list_refines; [|exact Hst].
  intros i u v Hi. apply Hstep. apply range_In. exact Hi.
Qed.

Lemma mapM_ext_Done {A B} (f : A -> outcome B) (g : A -> B) (l : list A) :
  (forall a, In a l -> f a = Done (g a)) -> mapM f l = Done (map g l).
Proof.
  induction l as [|a l IH]; intros H; simpl; [reflexivity|].
  rewrite (H a (or_introl eq_refl)). simpl.
  rewrite IH by (intros b Hb; apply H; right; exact Hb). reflexivity.
Qed.

Lemma zth_map_range {A} (g : Z -> A) (n i : Z) :
  0 <= i < n -> zth (map g (range 0 n)) i = Some (g i).
Proof.
  intros H. unfold zth. destruct (Z.ltb_spec i 0); [lia|].
  rewrite nth_error_map, range_nth_error by lia.
  simpl. f_equal. f_equal. lia.
Qed.

Lemma zlength_map_range {A} (g : Z -> A) (n : Z) :
  0 <= n -> zlength (map g (range 0 n)) = n.
Proof.
  intros H. unfold zlength. rewrite length_map, range_length. lia.
Qed.

(** The array a set pointer points to. *)
Definition plane_at (l : Array2DfList) (i : Z) : Array2Df :=
  match zth l i with
  | Some (Some a) => a
  | _ => mkArray 0 0 []
  end.

Lemma deref_plane_at (l : Array2DfList) (i : Z) :
  all_set l -> 0 <= i < zlength l -> deref_at l i = Done (plane_at l i).
Proof.
  intros H Hi. destruct (H i Hi) as [a Ha].
  unfold deref_at, plane_at. rewrite Ha. reflexivity.
Qed.

(** A [w] by [h] plane all of whose samples are finite. *)
Definition finite_plane (w h : Z) (a : Array2Df) : Prop :=
  getCols a = w /\ getRows a = h /\
  forall k, 0 <= k < w * h -> fin (lin a k).

(** An exposure set as the consistency checks leave it: at least one
    exposure, the three lists of the same length, every pointer set, every
    plane [w] by [h] with finite samples. *)
Definition well_formed (ls : lists) (w h : Z) : Prop :=
  let '(lR, lG, lB) := ls in
  0 < w /\ 0 < h /\ 0 < zlength lR /\
  zlength lG = zlength lR /\ zlength lB = zlength lR /\
  all_set lR /\ all_set lG /\ all_set lB /\
  forall k, 0 <= k < zlength lR ->
    finite_plane w h (plane_at lR k) /\
    finite_plane w h (plane_at lG k) /\
    finite_plane w h (plane_at lB k).

Lemma finite_plane_px w h a x y :
  finite_plane w h a -> 0 <= x < w -> 0 <= y < h -> fin (px a x y).
Proof.
  intros (Hc & _ & Hfin) Hx Hy. unfold px. rewrite Hc. apply Hfin. nia.
Qed.

Section HueValue.
Variables (lR lG lB : Array2DfList) (w h : Z).
Hypothesis Hwf : well_formed (lR, lG, lB) w h.

(** The hue of pixel [(i, j)] of exposure [k], as a rational. *)
Definition hueQ (k i j : Z) : Q :=
  match hue (rgb2hsl (px (plane_at lR k) i j) (px (plane_at lG k) i j)
               (px (plane_at lB k) i j)) with
  | Fin q => q
  | _ => 0%Q
  end.

Definition sumQ (l : list Q) : Q := fold_left Qplus l 0%Q.

Definition meanHueQ (i j : Z) : Q :=
  (sumQ (map (fun k => hueQ k i j) (range 0 (zlength lR)))
   / inject_Z (zlength lR))%Q.

(** The sum of the squared deviations of exposure [k] from the mean hue. *)
Definition HSQ (k : Z) : Q :=
  for_ 0 h (fun j HS =>
    for_ 0 w (fun i HS =>
      (HS + (meanHueQ i j - hueQ k i j) * (meanHueQ i j - hueQ k i j))%Q)
      HS) 0%Q.

Definition HEQ (k : Z) : Q := (HSQ k / inject_Z (w * h))%Q.

Lemma hue_at_value k i j :
  0 <= k < zlength lR -> 0 <= i < w -> 0 <= j < h ->
  hue_at lR lG lB k i j = Done (Fin (hueQ k i j)).
Proof.
  intros Hk Hi Hj. destruct Hwf as (_ & _ & _ & HlG & HlB & HR & HG & HB & Hfin).
  unfold hue_at.
  rewrite (deref_plane_at lR k HR Hk).
  rewrite (deref_plane_at lG k HG) by lia.
  rewrite (deref_plane_at lB k HB) by lia.
  simpl. unfold hueQ.
  destruct (Hfin k Hk) as (FR & FG & FB).
  destruct (finite_plane_px _ _ _ i j FR Hi Hj) as [r ->].
  destruct (finite_plane_px _ _ _ i j FG Hi Hj) as [g ->].
  destruct (finite_plane_px _ _ _ i j FB Hi Hj) as [b ->].
  destruct (rgb2hsl_hue_fin r g b) as [q ->]. reflexivity.
Qed.

Lemma fill_hues_value (ws : list Z) i j :
  (forall k, In k ws -> 0 <= k < zlength lR) -> 0 <= i < w -> 0 <= j < h ->
  fill_hues lR lG lB ws i j = Done (map (fun k => Fin (hueQ k i j)) ws).
Proof.
  intros Hws Hi Hj. induction ws as [|k ws IH]; simpl; [reflexivity|].
  rewrite hue_at_value by (try apply Hws; try (left; reflexivity); assumption).
  simpl. rewrite IH by (intros k' Hk'; apply Hws; right; exact Hk').
  reflexivity.
Qed.

Lemma fold_add_fin (qs : list Q) : forall a,
  fold_left (fun H x => F.add H x) (map Fin qs) (Fin a)
  = Fin (fold_left Qplus qs a).
Proof.
  induction qs as [|q qs IH]; intros a; simpl; [reflexivity|]. apply IH.
Qed.

Lemma hueMean_value i j :
  hueMean (map (fun k => Fin (hueQ k i j)) (range 0 (zlength lR)))
  = Fin (meanHueQ i j).
Proof.
  destruct Hwf as (_ & _ & Hsize & _).
  unfold hueMean, meanHueQ, sumQ.
  rewrite <- (map_map (fun k => hueQ k i j) Fin).
  unfold f0. rewrite fold_add_fin.
  rewrite (map_map (fun k => hueQ k i j) Fin).
  rewrite zlength_map_range by lia.
  apply div_of_int_fin. lia.
Qed.

(** [hueSquaredMean] returns the mean over the pixels of the squared
    deviation of the hue of exposure [k] from the mean hue of all the
    exposures. *)
Lemma hueSquaredMean_value k :
  0 <= k < zlength lR ->
  hueSquaredMean lR lG lB k = Done (Fin (HEQ k)).
Proof.
  intros Hk.
  destruct Hwf as (Hw & Hh & Hsize & HlG & HlB & HR & HG & HB & Hfin).
  unfold hueSquaredMean.
  rewrite (deref_plane_at lR 0 HR) by lia. cbn [bind].
  destruct (Hfin 0 ltac:(lia)) as ((Hc & Hr & _) & _ & _).
  rewrite Hc, Hr.
  destruct (forM_refines (fun (s : float) (t : Q) => s = Fin t) 0 h
              (fun j HS =>
                 forM 0 w (fun i HS =>
                   bind (fill_hues lR lG lB (range 0 (zlength lR)) i j)
                     (fun hues =>
                   bind (hue_at lR lG lB k i j) (fun hk =>
                   Done (F.add HS (F.mul (F.sub (hueMean hues) hk)
                                         (F.sub (hueMean hues) hk)))))) HS)
              (fun j HS =>
                 for_ 0 w (fun i HS =>
                   (HS + (meanHueQ i j - hueQ k i j)
                         * (meanHueQ i j - hueQ k i j))%Q) HS)
              f0 0%Q eq_refl) as [HS [Erun EHS]].
  - intros j s t Hj ->.
    apply (forM_refines (fun (s : float) (t : Q) => s = Fin t));
      [reflexivity|].
    intros i s t' Hi ->.
    rewrite fill_hues_value by (try (intros k' Hk'; apply range_In in Hk');
                                assumption).
    cbn [bind]. rewrite hue_at_value by assumption. cbn [bind].
    rewrite hueMean_value. eexists. split; reflexivity.
  - rewrite Erun. cbn [bind]. rewrite EHS. f_equal.
    apply div_of_int_fin. nia.
Qed.

End HueValue.

(* ================================================================== *)
(** ** The detection returns on a well-formed set *)
(* ================================================================== *)

Definition exposure_count (ls : lists) : Z := zlength (fst (fst ls)).

(** The hue scores [HE] of a set whose planes are [w] by [h]. *)
Definition hueScores (ls : lists) (w h : Z) : list float :=
  let '(lR, lG, lB) := ls in
  map (fun k => Fin (HEQ lR lG lB w h k)) (range 0 (zlength lR)).

(** The reference exposure: [h0 = findIndex(HE, size)]. *)
Definition referenceIndex (ls : lists) (w h : Z) : Z :=
  findIndex (hueScores ls w h).

Lemma hueScores_fin ls w h : Forall fin (hueScores ls w h).
Proof.
  destruct ls as [[lR lG] lB]. unfold hueScores. apply Forall_forall.
  intros x Hx. apply in_map_iff in Hx. destruct Hx as [k [<- _]].
  eexists; reflexivity.
Qed.

Lemma referenceIndex_range ls w h :
  well_formed ls w h -> 0 <= referenceIndex ls w h < exposure_count ls.
Proof.
  intros Hwf. unfold referenceIndex.
  assert (Hlen : zlength (hueScores ls w h) = exposure_count ls).
  { destruct ls as [[lR lG] lB]. unfold hueScores, exposure_count. simpl.
    apply zlength_map_range. apply zlength_nonneg. }
  assert (Hne : hueScores ls w h <> []).
  { intros E. rewrite E in Hlen. unfold zlength in Hlen. simpl in Hlen.
    destruct ls as [[lR lG] lB]. unfold exposure_count in Hlen. simpl in *.
    destruct Hwf as (_ & _ & Hsize & _). lia. }
  destruct (findIndex_argmax _ Hne (hueScores_fin ls w h)) as [Hk _].
  lia.
Qed.

Section Returns.
Variable logf : float -> float.

Lemma flagPatches_returns ls w h expotimes h0 gridX gridY threshold :
  well_formed ls w h ->
  exposure_count ls <= zlength expotimes ->
  0 <= h0 < exposure_count ls ->
  exists p, flagPatches logf ls expotimes h0 gridX gridY threshold = Done p.
Proof.
  destruct ls as [[lR lG] lB]. unfold exposure_count. simpl.
  intros (_ & _ & Hsize & HlG & HlB & HR & HG & HB & _) Hexp Hh0.
  unfold flagPatches.
  destruct (forM_total (fun _ : grid => True) 0 (zlength lR)
    (fun h1 patches =>
       if h1 =? h0 then Done patches
       else forM 0 gridSize (fun j patches =>
              forM 0 gridSize (fun i patches =>
                bind (at_ expotimes h0) (fun e0 =>
                bind (at_ expotimes h1) (fun eh =>
                bind (deref_at lR h0) (fun R1 =>
                bind (deref_at lG h0) (fun G1 =>
                bind (deref_at lB h0) (fun B1 =>
                bind (deref_at lR h1) (fun R2 =>
                bind (deref_at lG h1) (fun G2 =>
                bind (deref_at lB h1) (fun B2 =>
                if comparePatches logf R1 G1 B1 R2 G2 B2 i j gridX gridY
                     threshold (F.sub (logf e0) (logf eh))
                then Done (grid_set patches i j)
                else Done patches))))))))) patches) patches)
    grid_init I) as [p [Hp _]].
  - intros h1 s Hh1 _. destruct (h1 =? h0); [exists s; split; trivial|].
    apply (forM_total (fun _ : grid => True)); [exact I|].
    intros j s1 _ _.
    apply (forM_total (fun _ : grid => True)); [exact I|].
    intros i s2 _ _.
    destruct (zth_in_range expotimes h0 ltac:(lia)) as [e0 He0].
    destruct (zth_in_range expotimes h1 ltac:(lia)) as [eh Heh].
    apply at_Done in He0, Heh. rewrite He0, Heh. cbn [bind].
    rewrite !deref_plane_at by (assumption || lia). cbn [bind].
    destruct (comparePatches _ _ _ _ _ _ _ _ _ _ _ _ _);
      eexists; split; trivial.
  - exists p. exact Hp.
Qed.

(** On a well-formed set with an exposure time for every exposure, the
    detection returns; its reference exposure is the first one with the
    largest hue score, and its cells are [w / gridSize] by [h / gridSize]
    pixels. *)
Lemma detectMDR_returns ls w h expotimes threshold :
  well_formed ls w h ->
  exposure_count ls <= zlength expotimes ->
  exists d,
    detectMDR logf ls expotimes threshold = Done d /\
    d_h0 d = referenceIndex ls w h /\
    zlength (d_scaleFactor d) = exposure_count ls /\
    d_gridX d = w / gridSize /\
    d_gridY d = h / gridSize.
Proof.
  intros Hwf Hexp.
  pose proof (referenceIndex_range ls w h Hwf) as Hh0.
  destruct (flagPatches_returns ls w h expotimes (referenceIndex ls w h)
              (w / gridSize) (h / gridSize) threshold Hwf Hexp Hh0)
    as [p Hp].
  destruct ls as [[lR lG] lB]. unfold exposure_count in *. simpl in *.
  pose proof Hwf as (Hw & Hh & Hsize & HlG & HlB & HR & HG & HB & Hfin).
  unfold detectMDR.
  rewrite (deref_plane_at lR 0 HR) by lia. cbn [bind].
  destruct (Hfin 0 ltac:(lia)) as ((Hc & Hr & _) & _ & _).
  rewrite Hc, Hr.
  rewrite (mapM_ext_Done _
             (fun i => averageLightness (plane_at lR i) (plane_at lG i)
                         (plane_at lB i))).
  2:{ intros i Hi. apply range_In in Hi.
      rewrite !deref_plane_at by (assumption || lia). reflexivity. }
  cbn [bind].
  rewrite (mapM_ext_Done _ (fun k => Fin (HEQ lR lG lB w h k))).
  2:{ intros k Hk. apply range_In in Hk.
      apply hueSquaredMean_value; assumption. }
  cbn [bind].
  change (map (fun k => Fin (HEQ lR lG lB w h k)) (range 0 (zlength lR)))
    with (hueScores (lR, lG, lB) w h).
  change (findIndex (hueScores (lR, lG, lB) w h))
    with (referenceIndex (lR, lG, lB) w h).
  set (avg := fun i => averageLightness (plane_at lR i) (plane_at lG i)
                         (plane_at lB i)).
  rewrite (mapM_ext_Done _
             (fun i => F.div (avg i) (avg (referenceIndex (lR, lG, lB) w h)))).
  2:{ intros i Hi. apply range_In in Hi.
      unfold at_. rewrite !zth_map_range by lia. reflexivity. }
  cbn [bind]. rewrite Hp. cbn [bind].
  eexists. split; [reflexivity|]. simpl.
  repeat split. apply zlength_map_range. lia.
Qed.

End Returns.

(* ================================================================== *)
(** ** Sets of two exposures *)
(* ================================================================== *)

(** A [w] by [h] plane with the same sample everywhere. *)
Definition uniform (w h : Z) (v : Q) : Array2Df :=
  mkArray w h (repeat (Fin v) (Z.to_nat (w * h))).

Lemma uniform_finite w h v : finite_plane w h (uniform w h v).
Proof.
  unfold finite_plane, uniform. simpl. repeat split.
  intros k Hk. exists v. unfold lin, zth. simpl.
  destruct (Z.ltb_spec k 0); [lia|].
  rewrite nth_error_repeat by lia. reflexivity.
Qed.

Lemma zth_pair {A} (x y : A) (i : Z) (a : A) :
  zth [x; y] i = Some a -> (i = 0 /\ a = x) \/ (i = 1 /\ a = y).
Proof.
  intros H. pose proof (zth_Some_range _ _ _ H) as Hr.
  unfold zlength in Hr. simpl in Hr.
  assert (Hi : i = 0 \/ i = 1) by lia.
  destruct Hi as [-> | ->]; unfold zth in H; simpl in H; injection H as <-;
    [left | right]; split; reflexivity.
Qed.

Lemma all_set_pair {A} (x y : A) : all_set [Some x; Some y].
Proof.
  intros i Hi. unfold zlength in Hi. simpl in Hi.
  assert (Hc : i = 0 \/ i = 1) by lia.
  destruct Hc as [-> | ->]; eexists; reflexivity.
Qed.

Lemma plane_at_pair (x y : Array2Df) (k : Z) :
  0 <= k < 2 -> plane_at [Some x; Some y] k = x \/
                plane_at [Some x; Some y] k = y.
Proof.
  intros Hk. assert (Hc : k = 0 \/ k = 1) by lia.
  destruct Hc as [-> | ->]; [left | right]; reflexivity.
Qed.

Lemma pair_well_formed w h R1 G1 B1 R2 G2 B2 :
  0 < w -> 0 < h ->
  finite_plane w h R1 -> finite_plane w h G1 -> finite_plane w h B1 ->
  finite_plane w h R2 -> finite_plane w h G2 -> finite_plane w h B2 ->
  well_formed ([Some R1; Some R2], [Some G1; Some G2], [Some B1; Some B2]) w h.
Proof.
  intros Hw Hh FR1 FG1 FB1 FR2 FG2 FB2. unfold well_formed.
  repeat (split; [first [assumption | reflexivity | apply all_set_pair]|]).
  intros k Hk. unfold zlength in Hk. simpl in Hk.
  assert (Hc : k = 0 \/ k = 1) by lia.
  destruct Hc as [-> | ->]; unfold plane_at, zth; simpl;
    (split; [|split]); assumption.
Qed.

(* ================================================================== *)
(** ** Identical exposures flag no cell *)
(* ================================================================== *)



(** A negative threshold flags every cell of identical exposures: the
    share of outliers, 0, is above it. *)
Example identical_exposures_negative_threshold :
  comparePatches (fun x => x) (uniform 40 40 128) (uniform 40 40 128)
    (uniform 40 40 128) (uniform 40 40 128) (uniform 40 40 128)
    (uniform 40 40 128) 0 0 1 1 (Fin (-1 # 2)) f0 = true.
Proof. vm_compute. reflexivity. Qed.

(* ================================================================== *)
(** ** Images smaller than the grid *)
(* ================================================================== *)

Section SmallImages.
Variable logf : float -> float.

Lemma comparePatches_degenerate R1 G1 B1 R2 G2 B2 i j gridX gridY
  threshold deltaEV :
  gridX * gridY = 0 ->
  comparePatches logf R1 G1 B1 R2 G2 B2 i j gridX gridY threshold deltaEV
  = false.
Proof.
  intros H. unfold comparePatches. rewrite H.
  unfold countOutliers. rewrite for_empty by lia.
  assert (E : F.div (F.of_int 0) (F.of_int 0) = NaN) by reflexivity.
  rewrite E. unfold F.gtb. destruct threshold; reflexivity.
Qed.

Lemma flagPatches_degenerate ls expotimes h0 gridX gridY threshold p :
  gridX * gridY = 0 ->
  flagPatches logf ls expotimes h0 gridX gridY threshold = Done p ->
  forall i j, p i j = false.
Proof.
  destruct ls as [[lR lG] lB]. intros Hg. unfold flagPatches.
  apply (forM_inv (fun p : grid => forall i j, p i j = false));
    [reflexivity|].
  intros h s s' _ Hs. destruct (h =? h0).
  { intros H. injection H as <-. exact Hs. }
  apply (forM_inv (fun p : grid => forall i j, p i j = false)); [exact Hs|].
  clear s s' Hs. intros j s s' _ Hs.
  apply (forM_inv (fun p : grid => forall i j, p i j = false)); [exact Hs|].
  clear s s' Hs. intros i s s' _ Hs Hbody.
  inv_binds; subst s'; [|exact Hs].
  rewrite comparePatches_degenerate in C by exact Hg. discriminate.
Qed.

Lemma copyPatches_no_flags ls patches h0 scalefactor gridX gridY :
  (forall i j, patches i j = false) ->
  copyPatches ls patches h0 scalefactor gridX gridY = Done ls.
Proof.
  intros Hnone. unfold copyPatches.
  destruct (forM_total (fun s => s = ls) 0 (zlength (fst (fst ls)))
    (fun h ls0 =>
       if h =? h0 then Done ls0
       else forM 0 gridSize (fun j ls1 =>
              forM 0 gridSize (fun i (ls2 : lists) =>
                if patches i j then
                  let '(listR, listG, listB) := ls2 in
                  bind (deref_at listR h0) (fun R1 =>
                  bind (deref_at listG h0) (fun G1 =>
                  bind (deref_at listB h0) (fun B1 =>
                  bind (deref_at listR h) (fun R2 =>
                  bind (deref_at listG h) (fun G2 =>
                  bind (deref_at listB h) (fun B2 =>
                  bind (at_ scalefactor h) (fun sf =>
                  Done (store_planes ls2 h
                          (copyPatch R1 G1 B1 R2 G2 B2 i j gridX gridY sf)))))))))
                else Done ls2) ls1) ls0) ls eq_refl) as [s' [Hrun ->]].
  - intros h s _ ->. destruct (h =? h0); [exists ls; split; reflexivity|].
    apply (forM_total (fun s => s = ls)); [reflexivity|].
    intros j s _ ->.
    apply (forM_total (fun s => s = ls)); [reflexivity|].
    intros i s _ ->. rewrite Hnone. exists ls. split; reflexivity.
  - exact Hrun.
Qed.

(** On images narrower or lower than the grid, the cells have no pixel,
    the detection returns with no cell flagged, and the correction returns
    the set as it was. *)
Lemma small_image_run ls w h expotimes threshold :
  well_formed ls w h ->
  exposure_count ls <= zlength expotimes ->
  w < gridSize \/ h < gridSize ->
  exists d,
    detectMDR logf ls expotimes threshold = Done d /\
    d_gridX d * d_gridY d = 0 /\
    (forall i j, d_patches d i j = false) /\
    doAutoAntiGhostingMDR logf ls expotimes threshold = Done ls.
Proof.
  intros Hwf Hexp Hsmall.
  destruct (detectMDR_returns logf ls w h expotimes threshold Hwf Hexp)
    as [d (Hd & Hh0 & Hsf & Hgx & Hgy)].
  assert (Hpos : 0 < w /\ 0 < h).
  { destruct ls as [[lR lG] lB]. destruct Hwf as (Hw & Hh & _). lia. }
  assert (Hg : d_gridX d * d_gridY d = 0).
  { rewrite Hgx, Hgy. destruct Hsmall as [Hs | Hs].
    - rewrite (Z.div_small w gridSize) by lia. lia.
    - rewrite (Z.div_small h gridSize) by lia. lia. }
  assert (Hnone : forall i j, d_patches d i j = false).
  { pose proof Hd as Hd'. destruct ls as [[lR lG] lB].
    unfold detectMDR in Hd'. inv_binds. subst d.
    cbn [d_patches d_gridX d_gridY] in *.
    eapply flagPatches_degenerate; [|eassumption]. exact Hg. }
  exists d. repeat (split; [assumption|]).
  unfold doAutoAntiGhostingMDR. rewrite Hd. cbn [bind].
  apply copyPatches_no_flags. exact Hnone.
Qed.

End SmallImages.


(** Two 10 by 10 exposures. *)
Definition ten_by_ten : lists :=
  ([Some (uniform 10 10 100); Some (uniform 10 10 200)],
   [Some (uniform 10 10 100); Some (uniform 10 10 200)],
   [Some (uniform 10 10 100); Some (uniform 10 10 200)]).

Lemma ten_by_ten_well_formed : well_formed ten_by_ten 10 10.
Proof.
  apply pair_well_formed; try lia; apply uniform_finite.
Qed.



(* ================================================================== *)
(** ** What the correction leaves alone *)
(* ================================================================== *)

Lemma px_set_px_ne (a : Array2Df) (x' y' x y : Z) (v : float) :
  0 <= x < getCols a -> 0 <= x' < getCols a ->
  x <> x' \/ y <> y' ->
  px (set_px a x' y' v) x y = px a x y.
Proof.
  intros Hx Hx' Hne. unfold px, set_px, lin. simpl.
  rewrite zth_zupd_ne; [reflexivity|].
  intros E. assert (Hy : y' = y) by nia. subst y'.
  destruct Hne as [Hne | Hne]; [apply Hne; lia | apply Hne; reflexivity].
Qed.

Lemma plane_at_zupd (l : Array2DfList) (i k : Z) (a : Array2Df) :
  0 <= i < zlength l ->
  plane_at (zupd l i (Some a)) k = if k =? i then a else plane_at l k.
Proof.
  intros H. unfold plane_at. rewrite zth_zupd by exact H.
  destruct (k =? i); reflexivity.
Qed.

(** Pixel [(x, y)] lies in cell [(i, j)]. *)
Definition in_cell (gridX gridY i j x y : Z) : Prop :=
  i * gridX <= x < (i + 1) * gridX /\ j * gridY <= y < (j + 1) * gridY.

(** The guard of [copyPatch]:
    [avgL >= max_lightness || avgL <= 0.0f]. *)
Definition saturated (avgL : float) : bool :=
  F.geb avgL max_lightness || F.leb avgL f0.

Definition same_px (a b : Array2Df) (x y : Z) : Prop := px a x y = px b x y.

Definition pR (t : planes) : Array2Df := fst (fst t).
Definition pG (t : planes) : Array2Df := snd (fst t).
Definition pB (t : planes) : Array2Df := snd t.

(** [copyPatch] keeps the shape of the target planes, writes nothing when
    the reference cell is saturated, and otherwise writes inside the cell
    only. *)
Lemma copyPatch_frame R1 G1 B1 R2 G2 B2 i j gridX gridY sf w :
  getCols R2 = w -> getCols G2 = w -> getCols B2 = w ->
  0 <= i -> 0 <= gridX -> (i + 1) * gridX <= w ->
  let t := copyPatch R1 G1 B1 R2 G2 B2 i j gridX gridY sf in
  getCols (pR t) = w /\ getCols (pG t) = w /\ getCols (pB t) = w /\
  (saturated (cellLightness R1 G1 B1 i j gridX gridY) = true ->
   t = (R2, G2, B2)) /\
  forall x y, 0 <= x < w -> ~ in_cell gridX gridY i j x y ->
    same_px (pR t) R2 x y /\ same_px (pG t) G2 x y /\ same_px (pB t) B2 x y.
Proof.
  intros HR HG HB Hi Hgx Hfit. unfold copyPatch.
  change (F.geb (cellLightness R1 G1 B1 i j gridX gridY) max_lightness
          || F.leb (cellLightness R1 G1 B1 i j gridX gridY) f0)
    with (saturated (cellLightness R1 G1 B1 i j gridX gridY)).
  destruct (saturated (cellLightness R1 G1 B1 i j gridX gridY)) eqn:Esat.
  { cbv zeta. repeat split; assumption. }
  set (P := fun t : planes =>
              getCols (pR t) = w /\ getCols (pG t) = w /\
              getCols (pB t) = w /\
              forall x y, 0 <= x < w -> ~ in_cell gridX gridY i j x y ->
                same_px (pR t) R2 x y /\ same_px (pG t) G2 x y /\
                same_px (pB t) B2 x y).
  cbv zeta.
  match goal with
  | |- getCols (pR ?t) = w /\ _ => assert (HP : P t); [|
      destruct HP as (H1 & H2 & H3 & H4);
      repeat split; try assumption; try discriminate; apply H4; assumption]
  end.
  apply (for_inv P).
  { unfold P. repeat split; assumption. }
  intros y' t Ht' Ht. apply (for_inv P); [exact Ht|]. clear t Ht.
  intros x' [[R' G'] B'] Hx' (H1 & H2 & H3 & H4). unfold P, pR, pG, pB in *.
  simpl in *. repeat split; try assumption.
  - unfold same_px. rewrite px_set_px_ne.
    + apply (H4 x y); assumption.
    + lia.
    + nia.
    + unfold in_cell in H0. lia.
  - unfold same_px. rewrite px_set_px_ne.
    + apply (H4 x y); assumption.
    + lia.
    + nia.
    + unfold in_cell in H0. lia.
  - unfold same_px. rewrite px_set_px_ne.
    + apply (H4 x y); assumption.
    + lia.
    + nia.
    + unfold in_cell in H0. lia.
Qed.

Definition lsR (ls : lists) : Array2DfList := fst (fst ls).
Definition lsG (ls : lists) : Array2DfList := snd (fst ls).
Definition lsB (ls : lists) : Array2DfList := snd ls.

(** The three lists have the same length, every pointer is set and every
    plane is [w] samples wide. *)
Definition shaped (ls : lists) (w : Z) : Prop :=
  zlength (lsG ls) = zlength (lsR ls) /\
  zlength (lsB ls) = zlength (lsR ls) /\
  all_set (lsR ls) /\ all_set (lsG ls) /\ all_set (lsB ls) /\
  forall k, 0 <= k < zlength (lsR ls) ->
    getCols (plane_at (lsR ls) k) = w /\
    getCols (plane_at (lsG ls) k) = w /\
    getCols (plane_at (lsB ls) k) = w.

Lemma well_formed_shaped ls w h : well_formed ls w h -> shaped ls w.
Proof.
  destruct ls as [[lR lG] lB].
  intros (_ & _ & _ & HlG & HlB & HR & HG & HB & Hfin).
  unfold shaped, lsR, lsG, lsB. simpl. repeat (split; [assumption|]).
  intros k Hk. destruct (Hfin k Hk) as ((H1 & _) & (H2 & _) & (H3 & _)).
  repeat split; assumption.
Qed.

Section Correction.
Variables (init : lists) (w h0 gridX gridY : Z) (patches : grid)
          (scalefactor : list float).

(** The average lightness of cell [(i, j)] of the reference exposure. *)
Definition referenceLightness (i j : Z) : float :=
  cellLightness (plane_at (lsR init) h0) (plane_at (lsG init) h0)
    (plane_at (lsB init) h0) i j gridX gridY.

(** Pixel [(x, y)] is in no cell that is flagged and whose reference cell
    is within the lightness bounds. *)
Definition kept (x y : Z) : Prop :=
  forall i j, 0 <= i < gridSize -> 0 <= j < gridSize ->
    in_cell gridX gridY i j x y ->
    patches i j = false \/ saturated (referenceLightness i j) = true.

Definition same_pixel (ls ls' : lists) (k x y : Z) : Prop :=
  same_px (plane_at (lsR ls') k) (plane_at (lsR ls) k) x y /\
  same_px (plane_at (lsG ls') k) (plane_at (lsG ls) k) x y /\
  same_px (plane_at (lsB ls') k) (plane_at (lsB ls) k) x y.

Definition same_exposure (ls ls' : lists) (k : Z) : Prop :=
  plane_at (lsR ls') k = plane_at (lsR ls) k /\
  plane_at (lsG ls') k = plane_at (lsG ls) k /\
  plane_at (lsB ls') k = plane_at (lsB ls) k.

(** What holds of the lists all along [copyPatches]. *)
Definition correction_inv (cur : lists) : Prop :=
  zlength (lsR cur) = zlength (lsR init) /\
  shaped cur w /\
  same_exposure init cur h0 /\
  forall k x y, 0 <= k < zlength (lsR init) -> 0 <= x < w -> kept x y ->
    same_pixel init cur k x y.

Hypothesis Hshaped : shaped init w.
Hypothesis Hh0 : 0 <= h0 < zlength (lsR init).
Hypothesis Hsf : zlength scalefactor = zlength (lsR init).
Hypothesis HgridX : 0 <= gridX.
Hypothesis Hfit : gridSize * gridX <= w.

Lemma correction_inv_init : correction_inv init.
Proof.
  unfold correction_inv, same_exposure, same_pixel, same_px.
  split; [reflexivity|]. split; [exact Hshaped|].
  split; [repeat split|]. intros k x y _ _ _. repeat split.
Qed.

Lemma correction_step h j i cur :
  0 <= h < zlength (lsR init) -> h <> h0 ->
  0 <= j < gridSize -> 0 <= i < gridSize ->
  correction_inv cur ->
  exists cur',
    (if patches i j then
       let '(listR, listG, listB) := cur in
       bind (deref_at listR h0) (fun R1 =>
       bind (deref_at listG h0) (fun G1 =>
       bind (deref_at listB h0) (fun B1 =>
       bind (deref_at listR h) (fun R2 =>
       bind (deref_at listG h) (fun G2 =>
       bind (deref_at listB h) (fun B2 =>
       bind (at_ scalefactor h) (fun sf =>
       Done (store_planes cur h
               (copyPatch R1 G1 B1 R2 G2 B2 i j gridX gridY sf)))))))))
     else Done cur) = Done cur' /\
    correction_inv cur'.
Proof.
  intros Hh Hne Hj Hi Hinv.
  destruct (patches i j) eqn:Eflag; [|exists cur; split; trivial].
  destruct cur as [[cR cG] cB].
  destruct Hinv as (Hlen & Hsh & Href & Hpix).
  destruct Hsh as (HlG & HlB & HsR & HsG & HsB & Hcols).
  unfold lsR, lsG, lsB in *. simpl in *.
  destruct Href as (HrefR & HrefG & HrefB). simpl in *.
  rewrite !deref_plane_at by (assumption || lia). cbn [bind].
  destruct (zth_in_range scalefactor h ltac:(lia)) as [sf Esf].
  apply at_Done in Esf. rewrite Esf. cbn [bind].
  eexists. split; [reflexivity|].
  destruct (Hcols h ltac:(lia)) as (HcR & HcG & HcB).
  assert (Hcell : (i + 1) * gridX <= w).
  { apply Z.le_trans with (gridSize * gridX); [|exact Hfit].
    apply Z.mul_le_mono_nonneg_r; lia. }
  pose proof (copyPatch_frame (plane_at cR h0) (plane_at cG h0)
                (plane_at cB h0) (plane_at cR h) (plane_at cG h)
                (plane_at cB h) i j gridX gridY sf w HcR HcG HcB
                ltac:(lia) HgridX Hcell) as Hcp.
  cbv zeta in Hcp.
  destruct (copyPatch _ _ _ _ _ _ i j gridX gridY sf) as [[R' G'] B'] eqn:Ecp.
  unfold pR, pG, pB in Hcp. simpl in Hcp.
  destruct Hcp as (HwR & HwG & HwB & Hsat & Hout).
  unfold store_planes, correction_inv, shaped, same_exposure, same_pixel,
    lsR, lsG, lsB. simpl.
  rewrite !zlength_zupd.
  split; [exact Hlen|]. split.
  { repeat (split; [first [assumption | apply all_set_zupd; assumption]|]).
    intros k Hk. rewrite !plane_at_zupd by lia.
    destruct (Z.eqb_spec k h) as [->|Hkh].
    - repeat split; assumption.
    - apply Hcols. exact Hk. }
  split.
  { rewrite !plane_at_zupd by lia.
    destruct (Z.eqb_spec h0 h) as [E|_]; [congruence|].
    repeat split; assumption. }
  intros k x y Hk Hx Hkept. rewrite !plane_at_zupd by lia.
  destruct (Z.eqb_spec k h) as [->|Hkh]; [|apply Hpix; assumption].
  destruct (Hpix h x y Hk Hx Hkept) as (HpR & HpG & HpB).
  unfold same_px, lsR, lsG, lsB in HpR, HpG, HpB |- *.
  cbn [fst snd] in HpR, HpG, HpB |- *.
  assert (Hcase : ~ in_cell gridX gridY i j x y
                  \/ saturated (referenceLightness i j) = true).
  { destruct (Z_le_dec (i * gridX) x), (Z_lt_dec x ((i + 1) * gridX)),
             (Z_le_dec (j * gridY) y), (Z_lt_dec y ((j + 1) * gridY));
      try (left; unfold in_cell; lia).
    destruct (Hkept i j Hi Hj) as [Hf | Hs];
      [unfold in_cell; lia | congruence | right; exact Hs]. }
  destruct Hcase as [Hnot | Hs].
  - destruct (Hout x y Hx Hnot) as (H1 & H2 & H3). unfold same_px in *.
    repeat split; congruence.
  - unfold referenceLightness in Hs.
    rewrite <- HrefR, <- HrefG, <- HrefB in Hs.
    specialize (Hsat Hs). injection Hsat as -> -> ->.
    repeat split; assumption.
Qed.

(** The frame of [copyPatches]: on a set whose planes are [w] wide, with
    cells that fit in that width, the call returns; the reference exposure
    is the same after it, and in every exposure every pixel is the same
    unless it lies in a flagged cell whose reference cell is within the
    lightness bounds. *)
Lemma copyPatches_frame :
  exists ls',
    copyPatches init patches h0 scalefactor gridX gridY = Done ls' /\
    correction_inv ls'.
Proof.
  unfold copyPatches. fold (lsR init).
  apply (forM_total correction_inv); [exact correction_inv_init|].
  intros h cur Hh Hinv.
  destruct (Z.eqb_spec h h0) as [->|Hne]; [exists cur; split; trivial|].
  apply (forM_total correction_inv); [exact Hinv|]. clear cur Hinv.
  intros j cur Hj Hinv.
  apply (forM_total correction_inv); [exact Hinv|]. clear cur Hinv.
  intros i cur Hi Hinv.
  apply correction_step; assumption.
Qed.

End Correction.


(* ================================================================== *)
(** ** Reference selection *)
(* ================================================================== *)

(** *** The rounding of binary32 *)

Local Open Scope Q_scope.

Lemma pow2_pos (k : Z) : 0 < pow2 k.
Proof. apply Qpower_0_lt. reflexivity. Qed.

Lemma pow2_plus (a b : Z) : pow2 (a + b) == pow2 a * pow2 b.
Proof. apply Qpower_plus. discriminate. Qed.

Lemma pow2_le (a b : Z) : (a <= b)%Z -> pow2 a <= pow2 b.
Proof. intros H. apply Qpower_le_compat_l; [exact H | discriminate]. Qed.

Lemma pow2_inject (k : Z) : (0 <= k)%Z -> pow2 k == inject_Z (2 ^ k).
Proof. intros H. unfold pow2. rewrite Zpower_Qpower by exact H. reflexivity. Qed.

Lemma inject_Z_log2 (n : Z) :
  (0 < n)%Z -> pow2 (Z.log2 n) <= inject_Z n < pow2 (Z.log2 n + 1).
Proof.
  intros Hn. destruct (Z.log2_spec n Hn) as [Hlo Hhi].
  pose proof (Z.log2_nonneg n) as H0.
  rewrite !pow2_inject by lia. rewrite <- Zle_Qle, <- Zlt_Qlt.
  replace (Z.log2 n + 1)%Z with (Z.succ (Z.log2 n)) by lia. split; assumption.
Qed.

Lemma ilog2_spec (a : Q) :
  0 < a -> pow2 (ilog2 a) <= a < pow2 (ilog2 a + 1).
Proof.
  intros Ha. destruct a as [n d].
  assert (Hn : (0 < n)%Z).
  { unfold Qlt in Ha. simpl in Ha. lia. }
  unfold ilog2. cbn [Qnum Qden].
  set (ln := Z.log2 n). set (ld := Z.log2 (Z.pos d)).
  destruct (inject_Z_log2 n Hn) as [Hn1 Hn2]. fold ln in Hn1, Hn2.
  destruct (inject_Z_log2 (Z.pos d) eq_refl) as [Hd1 Hd2].
  fold ld in Hd1, Hd2.
  assert (Ea : inject_Z n == (n # d) * inject_Z (Z.pos d)).
  { rewrite (Qmake_Qdiv n d). field. discriminate. }
  pose proof (pow2_pos ld) as Pld. pose proof (pow2_pos (ld + 1)) as Pld1.
  assert (Hup : (n # d) < pow2 (ln - ld + 1)).
  { apply Qmult_lt_r with (pow2 ld); [exact Pld|].
    rewrite <- pow2_plus. replace (ln - ld + 1 + ld)%Z with (ln + 1)%Z by lia.
    apply Qle_lt_trans with (inject_Z n); [|exact Hn2].
    rewrite Ea. apply Qmult_le_l; [exact Ha | exact Hd1]. }
  assert (Hdn : pow2 (ln - ld - 1) < (n # d)).
  { apply Qmult_lt_r with (pow2 (ld + 1)); [exact Pld1|].
    rewrite <- pow2_plus. replace (ln - ld - 1 + (ld + 1))%Z with ln by lia.
    apply Qle_lt_trans with (inject_Z n); [exact Hn1|].
    rewrite Ea. apply Qmult_lt_l; [exact Ha | exact Hd2]. }
  destruct (Qle_bool (pow2 (ln - ld)) (n # d)) eqn:E.
  - apply Qle_bool_iff in E. split; assumption.
  - split; [apply Qlt_le_weak; exact Hdn|].
    replace (ln - ld - 1 + 1)%Z with (ln - ld)%Z by lia.
    apply Qnot_le_lt. intros H. apply Qle_bool_iff in H. congruence.
Qed.

Lemma round_half_even_spec (x : Q) :
  x - (1 # 2) <= inject_Z (round_half_even x) <= x + (1 # 2).
Proof.
  unfold round_half_even.
  pose proof (Qfloor_le x) as Hlo. pose proof (Qlt_floor x) as Hhi.
  rewrite inject_Z_plus in Hhi. change (inject_Z 1) with 1 in Hhi.
  destruct (x - inject_Z (Qfloor x) ?= 1 # 2) eqn:E.
  - apply Qeq_alt in E.
    destruct (Z.even (Qfloor x)); [|rewrite inject_Z_plus;
      change (inject_Z 1) with 1]; lra.
  - apply Qlt_alt in E. lra.
  - apply Qgt_alt in E. rewrite inject_Z_plus. change (inject_Z 1) with 1. lra.
Qed.

Lemma round32_magnitude (a : Q) :
  0 < a -> a <= max32 ->
  let e := Z.max (ilog2 a - 23) (-149) in
  let r := inject_Z (round_half_even (a / pow2 e)) * pow2 e in
  Qabs (r - a) <= u32 * a + eta32 /\ r < pow2 128.
Proof.
  intros Ha Hmax e r.
  pose proof (pow2_pos e) as Pe.
  pose proof (round_half_even_spec (a / pow2 e)) as [Hlo Hhi].
  assert (Hr : a - (1 # 2) * pow2 e <= r <= a + (1 # 2) * pow2 e).
  { unfold r. split.
    - apply Qle_trans with ((a / pow2 e - (1 # 2)) * pow2 e).
      + apply Qle_lteq. right. field. lra.
      + apply Qmult_le_compat_r; [exact Hlo | lra].
    - apply Qle_trans with ((a / pow2 e + (1 # 2)) * pow2 e).
      + apply Qmult_le_compat_r; [exact Hhi | lra].
      + apply Qle_lteq. right. field. lra. }
  assert (Hhalf : (1 # 2) * pow2 e <= u32 * a + eta32).
  { assert (E2 : (1 # 2) * pow2 e == pow2 (e - 1)).
    { replace e with ((e - 1) + 1)%Z at 1 by lia. rewrite pow2_plus.
      change (pow2 1) with 2. field. }
    rewrite E2. unfold e.
    pose proof (pow2_pos (-24)) as P24. pose proof (pow2_pos (-150)) as P150.
    destruct (Z.max_spec (ilog2 a - 23) (-149)) as [[_ ->] | [_ ->]].
    - change (pow2 (-149 - 1)) with eta32. unfold u32, eta32.
      assert (0 <= pow2 (-24) * a) by (apply Qmult_le_0_compat; lra). lra.
    - replace (ilog2 a - 23 - 1)%Z with (-24 + ilog2 a)%Z by lia.
      rewrite pow2_plus. unfold u32, eta32.
      destruct (ilog2_spec a Ha) as [Hl _].
      assert (pow2 (-24) * pow2 (ilog2 a) <= pow2 (-24) * a)
        by (apply Qmult_le_l; assumption).
      lra. }
  split.
  - apply Qabs_Qle_condition. lra.
  - assert (Hb : u32 * a + eta32 <= u32 * max32 + eta32).
    { assert (u32 * a <= u32 * max32).
      { apply Qmult_le_l; [apply pow2_pos | exact Hmax]. }
      lra. }
    assert (Hc : max32 + (u32 * max32 + eta32) < pow2 128) by reflexivity.
    lra.
Qed.

Lemma round32_accurate : accurate round32.
Proof.
  intros x Hx. unfold round32.
  destruct (Qeq_bool x 0) eqn:E0.
  - apply Qeq_bool_iff in E0. exists 0. split; [reflexivity|].
    rewrite E0. change (Qabs (0 - 0)) with 0. change (Qabs 0) with 0.
    pose proof (pow2_pos (-150)). unfold eta32. lra.
  - apply Qeq_bool_neq in E0.
    assert (Ha : 0 < Qabs x).
    { pose proof (Qabs_nonneg x) as H.
      destruct (Qle_lt_or_eq _ _ H) as [Hlt | Heq]; [exact Hlt|].
      exfalso. apply E0. 
      destruct (Qabs_Qle_condition x 0) as [Hc _].
      destruct Hc as [H1 H2]; [rewrite <- Heq; apply Qle_refl|]. lra. }
    destruct (round32_magnitude (Qabs x) Ha Hx) as [Hacc Hov].
    set (e := Z.max (ilog2 (Qabs x) - 23) (-149)) in *.
    set (r := inject_Z (round_half_even (Qabs x / pow2 e)) * pow2 e) in *.
    cbv zeta in Hacc, Hov.
    destruct (Qle_bool (pow2 128) r) eqn:Eov.
    { apply Qle_bool_iff in Eov. lra. }
    eexists. split; [reflexivity|]. rewrite Qred_correct.
    unfold Qltb. destruct (Qle_bool 0 x) eqn:Es; cbn [negb].
    + apply Qle_bool_iff in Es. rewrite (Qabs_pos x Es) in Hacc.
      rewrite (Qabs_pos x Es). exact Hacc.
    + assert (Hneg : x <= 0).
      { apply Qlt_le_weak. apply Qnot_le_lt. intros H.
        apply Qle_bool_iff in H. congruence. }
      rewrite (Qabs_neg x Hneg) in Hacc. rewrite (Qabs_neg x Hneg).
      setoid_replace (- r - x) with (- (r - - x)) by ring.
      rewrite Qabs_opp. exact Hacc.
Qed.

Lemma round_half_even_bounds (x : Q) :
  (Qfloor x <= round_half_even x <= Qfloor x + 1)%Z.
Proof.
  unfold round_half_even.
  destruct (x - inject_Z (Qfloor x) ?= 1 # 2); [|lia|lia].
  destruct (Z.even (Qfloor x)); lia.
Qed.

Lemma round_half_even_mono (x y : Q) :
  x <= y -> (round_half_even x <= round_half_even y)%Z.
Proof.
  intros Hxy. pose proof (Qfloor_resp_le x y Hxy) as Hf.
  pose proof (round_half_even_bounds x) as Bx.
  pose proof (round_half_even_bounds y) as By.
  destruct (Z.eq_dec (Qfloor x) (Qfloor y)) as [E | N]; [|lia].
  unfold round_half_even in *. rewrite <- E in *.
  assert (Hx : x - inject_Z (Qfloor x) <= y - inject_Z (Qfloor x)) by lra.
  destruct (x - inject_Z (Qfloor x) ?= 1 # 2) eqn:Cx;
    destruct (y - inject_Z (Qfloor x) ?= 1 # 2) eqn:Cy;
    try (destruct (Z.even (Qfloor x))); try lia; exfalso;
    first [apply Qeq_alt in Cx | apply Qlt_alt in Cx | apply Qgt_alt in Cx];
    first [apply Qeq_alt in Cy | apply Qlt_alt in Cy | apply Qgt_alt in Cy];
    set (fx := x - inject_Z (Qfloor x)) in *;
    set (fy := y - inject_Z (Qfloor x)) in *; clearbody fx fy; lra.
Qed.

Lemma round_half_even_int (n : Z) : round_half_even (inject_Z n) = n.
Proof.
  unfold round_half_even. rewrite Qfloor_Z.
  assert (E : (inject_Z n - inject_Z n ?= 1 # 2) = Lt).
  { rewrite <- Qlt_alt. set (q := inject_Z n). clearbody q. lra. }
  rewrite E. reflexivity.
Qed.

Lemma round_half_even_ge (n : Z) (x : Q) :
  inject_Z n <= x -> (n <= round_half_even x)%Z.
Proof.
  intros H. rewrite <- (round_half_even_int n).
  apply round_half_even_mono. exact H.
Qed.

Lemma round_half_even_le (n : Z) (x : Q) :
  x <= inject_Z n -> (round_half_even x <= n)%Z.
Proof.
  intros H. rewrite <- (round_half_even_int n).
  apply round_half_even_mono. exact H.
Qed.

Lemma pow2_lt_inv (a b : Z) : pow2 a < pow2 b -> (a < b)%Z.
Proof.
  intros H. destruct (Z_lt_le_dec a b) as [L | L]; [exact L|].
  pose proof (pow2_le b a L). lra.
Qed.

Lemma ilog2_mono (a b : Q) : 0 < a -> a <= b -> (ilog2 a <= ilog2 b)%Z.
Proof.
  intros Ha Hab.
  destruct (ilog2_spec a Ha) as [La _].
  destruct (ilog2_spec b ltac:(lra)) as [_ Ub].
  assert (H : pow2 (ilog2 a) < pow2 (ilog2 b + 1)) by lra.
  apply pow2_lt_inv in H. lia.
Qed.

(** The magnitude of the rounded number. *)
Definition mag32 (a : Q) : Q :=
  let e := Z.max (ilog2 a - 23) (-149) in
  inject_Z (round_half_even (a / pow2 e)) * pow2 e.

Lemma div_pow2 (a : Q) (k e : Z) :
  a < pow2 k -> a / pow2 e < pow2 (k - e).
Proof.
  intros H. pose proof (pow2_pos e) as Pe.
  apply Qlt_shift_div_r; [exact Pe|].
  rewrite <- pow2_plus. replace (k - e + e)%Z with k by lia. exact H.
Qed.

Lemma pow2_div (a : Q) (k e : Z) :
  pow2 k <= a -> pow2 (k - e) <= a / pow2 e.
Proof.
  intros H. pose proof (pow2_pos e) as Pe.
  apply Qle_shift_div_l; [exact Pe|].
  rewrite <- pow2_plus. replace (k - e + e)%Z with k by lia. exact H.
Qed.

Lemma mag32_nonneg (a : Q) : 0 < a -> 0 <= mag32 a.
Proof.
  intros Ha. unfold mag32.
  set (e := Z.max (ilog2 a - 23) (-149)).
  pose proof (pow2_pos e) as Pe.
  apply Qmult_le_0_compat; [|lra].
  change 0 with (inject_Z 0). rewrite <- Zle_Qle.
  apply round_half_even_ge. change (inject_Z 0) with 0.
  apply Qle_shift_div_l; [exact Pe|]. lra.
Qed.

Lemma mag32_upper (a : Q) :
  0 < a -> mag32 a <= pow2 (Z.max (ilog2 a + 1) (-149)).
Proof.
  intros Ha. unfold mag32.
  set (k := ilog2 a). set (e := Z.max (k - 23) (-149)).
  destruct (ilog2_spec a Ha) as [_ Hup]. fold k in Hup.
  pose proof (pow2_pos e) as Pe.
  pose proof (div_pow2 a (k + 1) e Hup) as Hq.
  destruct (Z_lt_le_dec (k + 1 - e) 0) as [Hj | Hj].
  - assert (H1 : a / pow2 e <= inject_Z 1).
    { change (inject_Z 1) with (pow2 0).
      pose proof (pow2_le (k + 1 - e) 0 ltac:(lia)). lra. }
    apply round_half_even_le in H1.
    assert (H2 : inject_Z (round_half_even (a / pow2 e)) <= 1).
    { change 1 with (inject_Z 1). rewrite <- Zle_Qle. exact H1. }
    apply Qle_trans with (1 * pow2 e).
    + apply Qmult_le_compat_r; [exact H2 | lra].
    + rewrite Qmult_1_l. apply pow2_le. lia.
  - assert (H1 : a / pow2 e <= inject_Z (2 ^ (k + 1 - e))).
    { apply Qle_trans with (pow2 (k + 1 - e)); [lra|].
      rewrite (pow2_inject _ Hj). apply Qle_refl. }
    apply round_half_even_le in H1.
    assert (H2 : inject_Z (round_half_even (a / pow2 e)) <= pow2 (k + 1 - e)).
    { rewrite (pow2_inject (k + 1 - e) Hj). rewrite <- Zle_Qle. exact H1. }
    apply Qle_trans with (pow2 (k + 1 - e) * pow2 e).
    + apply Qmult_le_compat_r; [exact H2 | lra].
    + rewrite <- pow2_plus. apply pow2_le. lia.
Qed.

Lemma mag32_lower (a : Q) :
  0 < a -> (-126 <= ilog2 a)%Z -> pow2 (ilog2 a) <= mag32 a.
Proof.
  intros Ha Hk. unfold mag32.
  set (k := ilog2 a) in *.
  replace (Z.max (k - 23) (-149)) with (k - 23)%Z by lia.
  destruct (ilog2_spec a Ha) as [Hlo _]. fold k in Hlo.
  pose proof (pow2_pos (k - 23)) as Pe.
  pose proof (pow2_div a k (k - 23) Hlo) as Hq.
  replace (k - (k - 23))%Z with 23%Z in Hq by lia.
  rewrite pow2_inject in Hq by lia.
  apply round_half_even_ge in Hq.
  assert (H2 : pow2 23 <= inject_Z (round_half_even (a / pow2 (k - 23)))).
  { rewrite (pow2_inject 23) by lia. rewrite <- Zle_Qle. exact Hq. }
  apply Qle_trans with (pow2 23 * pow2 (k - 23)).
  - rewrite <- pow2_plus. apply pow2_le. lia.
  - apply Qmult_le_compat_r; [exact H2 | lra].
Qed.

Lemma mag32_mono (a b : Q) : 0 < a -> a <= b -> mag32 a <= mag32 b.
Proof.
  intros Ha Hab. assert (Hb : 0 < b) by lra.
  pose proof (ilog2_mono a b Ha Hab) as Hk.
  destruct (Z.eq_dec (Z.max (ilog2 a - 23) (-149))
                     (Z.max (ilog2 b - 23) (-149))) as [E | N].
  - unfold mag32. rewrite <- E.
    set (e := Z.max (ilog2 a - 23) (-149)).
    pose proof (pow2_pos e) as Pe.
    apply Qmult_le_compat_r; [|lra].
    rewrite <- Zle_Qle. apply round_half_even_mono.
    apply Qle_shift_div_l; [exact Pe|].
    setoid_replace (a / pow2 e * pow2 e) with a by (field; lra). exact Hab.
  - apply Qle_trans with (pow2 (Z.max (ilog2 a + 1) (-149)));
      [apply mag32_upper; exact Ha|].
    apply Qle_trans with (pow2 (ilog2 b));
      [apply pow2_le; lia | apply mag32_lower; [exact Hb | lia]].
Qed.

Lemma round32_cases (q a : Q) :
  round32 q = Fin a ->
  (q == 0 /\ a == 0) \/
  (0 < q /\ a == mag32 (Qabs q)) \/
  (q < 0 /\ a == - mag32 (Qabs q)).
Proof.
  unfold round32. fold (mag32 (Qabs q)).
  destruct (Qeq_bool q 0) eqn:E0.
  - apply Qeq_bool_iff in E0. intros H. injection H as <-.
    left. split; [exact E0 | reflexivity].
  - apply Qeq_bool_neq in E0.
    destruct (Qle_bool (pow2 128) (mag32 (Qabs q))); [discriminate|].
    intros H. injection H as <-. rewrite Qred_correct.
    destruct (Qltb q 0) eqn:Es.
    + apply Qltb_lt in Es. right. right. split; [exact Es | reflexivity].
    + apply Qltb_ge in Es. right. left. split; [|reflexivity].
      destruct (Qle_lt_or_eq _ _ Es) as [H | H]; [exact H|].
      exfalso. apply E0. symmetry. exact H.
Qed.

Lemma round32_monotone : monotone round32.
Proof.
  intros x y a b Hxy Ex Ey.
  apply round32_cases in Ex. apply round32_cases in Ey.
  assert (Hmag : forall q, ~ q == 0 -> 0 <= mag32 (Qabs q)).
  { intros q Hq. apply mag32_nonneg.
    pose proof (Qabs_nonneg q) as H.
    destruct (Qle_lt_or_eq _ _ H) as [L | L]; [exact L|].
    exfalso. apply Hq.
    destruct (Qabs_Qle_condition q 0) as [Hc _].
    destruct Hc as [H1 H2]; [rewrite <- L; apply Qle_refl|]. lra. }
  destruct Ex as [[Hx Ea] | [[Hx Ea] | [Hx Ea]]];
    destruct Ey as [[Hy Eb] | [[Hy Eb] | [Hy Eb]]];
    rewrite Ea, Eb; try lra.
  - pose proof (Hmag y ltac:(lra)). lra.
  - assert (H : mag32 (Qabs x) <= mag32 (Qabs y)).
    { apply mag32_mono.
      - rewrite (Qabs_pos x) by lra. exact Hx.
      - rewrite (Qabs_pos x), (Qabs_pos y) by lra. exact Hxy. }
    exact H.
  - pose proof (Hmag x ltac:(lra)). lra.
  - pose proof (Hmag x ltac:(lra)). pose proof (Hmag y ltac:(lra)). lra.
  - assert (H : mag32 (Qabs y) <= mag32 (Qabs x)).
    { apply mag32_mono.
      - rewrite (Qabs_neg y) by lra. lra.
      - rewrite (Qabs_neg x), (Qabs_neg y) by lra. lra. }
    lra.
Qed.

Lemma round32_keeps_small_integers : keeps_small_integers round32.
Proof.
  intros n Hn.
  assert (Hc : (n = 0 \/ n = 1 \/ n = 2 \/ n = 3 \/ n = 4 \/ n = 5 \/ n = 6)%Z)
    by lia.
  destruct Hc as [-> | [-> | [-> | [-> | [-> | [-> | ->]]]]]];
    vm_compute; reflexivity.
Qed.

Local Close Scope Q_scope.

(** *** The scores as the code computes them *)

(** The three lists have the same length, at least one exposure is there,
    every pointer is set and the first plane is [w] by [h]. *)
Definition scorable (ls : lists) (w h : Z) : Prop :=
  let '(lR, lG, lB) := ls in
  0 < zlength lR /\
  zlength lG = zlength lR /\ zlength lB = zlength lR /\
  all_set lR /\ all_set lG /\ all_set lB /\
  getCols (plane_at lR 0) = w /\ getRows (plane_at lR 0) = h.

Section RoundedScores.
Variable rnd : Q -> float.
Variables (lR lG lB : Array2DfList) (w h : Z).
Hypothesis Hwf : scorable (lR, lG, lB) w h.

(** The hue of pixel [(i, j)] of exposure [k], as the code computes it. *)
Definition hueF (k i j : Z) : float :=
  hue (Rounded.rgb2hsl rnd (px (plane_at lR k) i j) (px (plane_at lG k) i j)
         (px (plane_at lB k) i j)).

(** The mean hue of all the exposures at pixel [(i, j)]. *)
Definition meanHueF (i j : Z) : float :=
  Rounded.hueMean rnd (map (fun k => hueF k i j) (range 0 (zlength lR))).

(** The square of (mean hue minus hue of exposure [k]) at [(i, j)]. *)
Definition dev2F (k i j : Z) : float :=
  let H := Rounded.sub rnd (meanHueF i j) (hueF k i j) in
  Rounded.mul rnd H H.

(** Their sum over the pixels, row after row, and their mean. *)
Definition HSF (k : Z) : float :=
  for_ 0 h (fun j HS =>
    for_ 0 w (fun i HS => Rounded.add rnd HS (dev2F k i j)) HS) f0.

Definition HEF (k : Z) : float :=
  Rounded.div rnd (HSF k) (Rounded.of_int rnd (w * h)).

Lemma hue_at_rounded k i j :
  0 <= k < zlength lR ->
  Rounded.hue_at rnd lR lG lB k i j = Done (hueF k i j).
Proof.
  intros Hk. destruct Hwf as (_ & HlG & HlB & HR & HG & HB & _).
  unfold Rounded.hue_at.
  rewrite (deref_plane_at lR k HR Hk).
  rewrite (deref_plane_at lG k HG) by lia.
  rewrite (deref_plane_at lB k HB) by lia.
  reflexivity.
Qed.

Lemma fill_hues_rounded (ws : list Z) i j :
  (forall k, In k ws -> 0 <= k < zlength lR) ->
  Rounded.fill_hues rnd lR lG lB ws i j
  = Done (map (fun k => hueF k i j) ws).
Proof.
  intros Hws. induction ws as [|k ws IH]; [reflexivity|].
  cbn [Rounded.fill_hues map].
  rewrite hue_at_rounded by (apply Hws; left; reflexivity).
  cbn [bind]. rewrite IH by (intros k' Hk'; apply Hws; right; exact Hk').
  reflexivity.
Qed.

Lemma hueSquaredMean_rounded k :
  0 <= k < zlength lR ->
  Rounded.hueSquaredMean rnd lR lG lB k = Done (HEF k).
Proof.
  intros Hk.
  pose proof Hwf as (Hsize & HlG & HlB & HR & HG & HB & Hc & Hr).
  unfold Rounded.hueSquaredMean.
  rewrite (deref_plane_at lR 0 HR) by lia. cbn [bind].
  rewrite Hc, Hr.
  destruct (forM_refines (fun (s t : float) => s = t) 0 h
              (fun j HS =>
                 forM 0 w (fun i HS =>
                   bind (Rounded.fill_hues rnd lR lG lB
                           (range 0 (zlength lR)) i j)
                     (fun hues =>
                   bind (Rounded.hue_at rnd lR lG lB k i j) (fun hk =>
                   Done (Rounded.add rnd HS
                           (Rounded.mul rnd
                              (Rounded.sub rnd (Rounded.hueMean rnd hues) hk)
                              (Rounded.sub rnd (Rounded.hueMean rnd hues) hk))))))
                   HS)
              (fun j HS =>
                 for_ 0 w (fun i HS => Rounded.add rnd HS (dev2F k i j)) HS)
              f0 f0 eq_refl) as [HS [Erun EHS]].
  - intros j s t Hj ->.
    apply (forM_refines (fun (s t : float) => s = t)); [reflexivity|].
    intros i s t' Hi ->.
    rewrite fill_hues_rounded
      by (intros k' Hk'; apply range_In in Hk'; exact Hk').
    cbn [bind]. rewrite hue_at_rounded by exact Hk. cbn [bind].
    eexists. split; reflexivity.
  - rewrite Erun. cbn [bind]. rewrite EHS. reflexivity.
Qed.

(** The loop that fills [HE] returns the rounded means. *)
Lemma hueScores_rounded :
  Rounded.hueScores rnd (lR, lG, lB) = Done (map HEF (range 0 (zlength lR))).
Proof.
  unfold Rounded.hueScores. apply mapM_ext_Done.
  intros k Hk. apply range_In in Hk. apply hueSquaredMean_rounded. exact Hk.
Qed.

End RoundedScores.

(** *** Three exposures, the third with a rotated hue *)

(** The pixels in the order the two loops visit them. *)
Definition pixels (w h : Z) : list (Z * Z) :=
  flat_map (fun j => map (fun i => (i, j)) (range 0 w)) (range 0 h).

Lemma fold_left_map_arg {A B S} (f : S -> B -> S) (g : A -> B) (l : list A) :
  forall s, fold_left f (map g l) s = fold_left (fun s a => f s (g a)) l s.
Proof. induction l as [|a l IH]; intros s; simpl; [reflexivity | apply IH]. Qed.

Lemma for_pixels {S} (f : Z -> Z -> S -> S) (w h : Z) (s : S) :
  for_ 0 h (fun j s => for_ 0 w (fun i s => f i j s) s) s
  = fold_left (fun s p => f (fst p) (snd p) s) (pixels w h) s.
Proof.
  unfold for_, pixels. revert s.
  induction (range 0 h) as [|j js IH]; intros s; simpl; [reflexivity|].
  rewrite fold_left_app, fold_left_map_arg. simpl. apply IH.
Qed.

Lemma pixels_In (w h : Z) (p : Z * Z) :
  In p (pixels w h) -> 0 <= fst p < w /\ 0 <= snd p < h.
Proof.
  unfold pixels. rewrite in_flat_map. intros (j & Hj & Hp).
  apply in_map_iff in Hp. destruct Hp as (i & <- & Hi).
  apply range_In in Hj, Hi. simpl. lia.
Qed.

Lemma pixels_length (w h : Z) :
  0 <= w -> 0 <= h -> Z.of_nat (length (pixels w h)) = w * h.
Proof.
  intros Hw Hh. unfold pixels.
  assert (E : forall js : list Z, Z.of_nat (length (flat_map
                 (fun j : Z => map (fun i : Z => (i, j)) (range 0 w)) js))
              = w * Z.of_nat (length js)).
  { induction js as [|j js IH]; simpl; [lia|].
    rewrite length_app, length_map, range_length, Nat2Z.inj_add, IH. lia. }
  rewrite E, range_length. lia.
Qed.

Local Open Scope Q_scope.

(** The bounds below are stated with these numbers: [err] bounds the
    error of one operation on operands up to 4, [rel] the relative error
    of one operation on a result that is at least [2^-100]. *)
Definition err : Q := 1 # 2097152.
Definition rel : Q := 67108865 # 1125899906842624.
Definition tiny : Q := 1 # 1267650600228229401496703205376.
Definition huge : Q := 1267650600228229401496703205376.

(** The smallest hue rotation of the scenario, and a lower bound of the
    squared deviations it gives. *)
Definition rotation : Q := 1 # 10000.
Definition qmin : Q := 9 # 10000000000.

Section Accurate.
Variable rnd : Q -> float.
Hypothesis Hacc : accurate rnd.

Lemma acc_abs (x : Q) :
  -4 <= x <= 4 -> exists y, rnd x = Fin y /\ x - err <= y <= x + err.
Proof.
  intros Hx.
  assert (Ha : Qabs x <= 4) by (apply Qabs_Qle_condition; lra).
  destruct (Hacc x) as [y [Ey Hy]].
  { apply Qle_trans with 4; [exact Ha|]. discriminate. }
  exists y. split; [exact Ey|].
  assert (Hb : u32 * Qabs x + eta32 <= err).
  { assert (Eu : u32 == 1 # 16777216) by reflexivity.
    assert (Ee : eta32 <= 1 # 16777216) by discriminate.
    rewrite Eu. unfold err. pose proof (Qabs_nonneg x). lra. }
  apply Qabs_diff_Qle_condition.
  rewrite Qabs_Qminus. apply Qle_trans with (u32 * Qabs x + eta32); assumption.
Qed.

Lemma acc_rel (x : Q) :
  tiny <= x <= huge ->
  exists y, rnd x = Fin y /\ (1 - rel) * x <= y <= (1 + rel) * x.
Proof.
  intros Hx. unfold tiny, huge in Hx.
  assert (Hpos : 0 <= x) by lra.
  destruct (Hacc x) as [y [Ey Hy]].
  { rewrite (Qabs_pos x Hpos). apply Qle_trans with huge; [apply Hx|].
    discriminate. }
  exists y. split; [exact Ey|].
  rewrite (Qabs_pos x Hpos) in Hy.
  assert (Eu : u32 == 1 # 16777216) by reflexivity.
  assert (Ee : eta32 == 1 # 1427247692705959881058285969449495136382746624)
    by reflexivity.
  rewrite Eu, Ee in Hy.
  rewrite Qabs_Qminus in Hy. apply Qabs_diff_Qle_condition in Hy.
  unfold rel. lra.
Qed.


Lemma add_Fin (p q : Q) : Rounded.add rnd (Fin p) (Fin q) = rnd (p + q).
Proof. reflexivity. Qed.

Lemma sub_Fin (p q : Q) : Rounded.sub rnd (Fin p) (Fin q) = rnd (p + - q).
Proof. reflexivity. Qed.

Lemma mul_Fin (p q : Q) : Rounded.mul rnd (Fin p) (Fin q) = rnd (p * q).
Proof. reflexivity. Qed.

Lemma div_Fin (p q : Q) :
  ~ q == 0 -> Rounded.div rnd (Fin p) (Fin q) = rnd (p / q).
Proof.
  intros Hq. unfold Rounded.div. rewrite (div_fin p q Hq). reflexivity.
Qed.

Lemma of_int_Fin (z : Z) : Rounded.of_int rnd z = rnd (inject_Z z).
Proof. reflexivity. Qed.

Lemma div_between (p s lo hi : Q) :
  0 < s -> lo * s <= p -> p <= hi * s -> lo <= p / s <= hi.
Proof.
  intros Hs Hlo Hhi. split.
  - apply Qle_shift_div_l; assumption.
  - apply Qle_shift_div_r; assumption.
Qed.

(** The mean of the hues [a], [a], [b] is within [3 * err] of
    [(2a + b) / 3]. *)
Lemma hueMean_three (a b : Q) :
  0 <= a <= 1 -> 0 <= b <= 1 ->
  exists m,
    Rounded.hueMean rnd [Fin a; Fin a; Fin b] = Fin m /\
    2 * a + b - 9 * err <= 3 * m <= 2 * a + b + 9 * err.
Proof.
  intros Ha Hb. unfold err, Rounded.hueMean. cbn [fold_left].
  change (zlength [Fin a; Fin a; Fin b]) with 3%Z. unfold f0.
  rewrite add_Fin.
  destruct (acc_abs (0 + a)) as (H1 & E1 & B1); [lra|]. rewrite E1.
  rewrite add_Fin.
  destruct (acc_abs (H1 + a)) as (H2 & E2 & B2); [unfold err in *; lra|].
  rewrite E2. rewrite add_Fin.
  destruct (acc_abs (H2 + b)) as (H3 & E3 & B3); [unfold err in *; lra|].
  rewrite E3. rewrite of_int_Fin.
  destruct (acc_abs (inject_Z 3)) as (s3 & E4 & B4);
    [change (inject_Z 3) with 3; lra|].
  rewrite E4. change (inject_Z 3) with 3 in B4. unfold err in *.
  rewrite div_Fin by lra.
  assert (Hx : (2 * a + b) / 3 - (2 # 2097152) <= H3 / s3
               <= (2 * a + b) / 3 + (2 # 2097152)).
  { apply div_between; [lra | |];
      unfold Qdiv; change (/ 3) with (1 # 3); nra. }
  set (x := H3 / s3) in *. clearbody x.
  unfold Qdiv in Hx. change (/ 3) with (1 # 3) in Hx.
  destruct (acc_abs x) as (m & E5 & B5); [lra|].
  exists m. split; [exact E5|]. unfold err in B5. lra.
Qed.

(** The squared deviations of one pixel whose hue is [a] in exposures 0
    and 1 and [b], at least [rotation] away, in exposure 2. *)
Lemma deviations (a b : Q) :
  0 <= a <= 1 -> 0 <= b <= 1 ->
  a + rotation <= b \/ b + rotation <= a ->
  exists m q0 q2,
    Rounded.hueMean rnd [Fin a; Fin a; Fin b] = Fin m /\
    Rounded.mul rnd (Rounded.sub rnd (Fin m) (Fin a))
      (Rounded.sub rnd (Fin m) (Fin a)) = Fin q0 /\
    Rounded.mul rnd (Rounded.sub rnd (Fin m) (Fin b))
      (Rounded.sub rnd (Fin m) (Fin b)) = Fin q2 /\
    qmin <= q0 /\ 3 * q0 <= q2 /\ q2 <= 2.
Proof.
  intros Ha Hb Hrot.
  destruct (hueMean_three a b Ha Hb) as (m & Em & Bm).
  exists m. unfold err, rotation, qmin in *.
  rewrite !sub_Fin.
  destruct (acc_abs (m + - a)) as (d0 & E0 & B0); [unfold err; lra|].
  destruct (acc_abs (m + - b)) as (d2 & E2 & B2); [unfold err; lra|].
  rewrite E0, E2, !mul_Fin. unfold err in B0, B2.
  assert (Hsq0 : (98 # 100000000000) <= d0 * d0 <= 1).
  { destruct Hrot; nra. }
  assert (Hsq2 : (324 # 100) * (d0 * d0) <= d2 * d2 /\ d2 * d2 <= 1).
  { destruct Hrot; nra. }
  destruct (acc_rel (d0 * d0)) as (q0 & Eq0 & Bq0); [unfold tiny, huge; lra|].
  destruct (acc_rel (d2 * d2)) as (q2 & Eq2 & Bq2); [unfold tiny, huge; lra|].
  exists q0, q2. unfold rel in *.
  split; [exact Em|]. split; [exact Eq0|]. split; [exact Eq2|]. lra.
Qed.

(** The number of pixels the bounds are proved for. *)
Definition most_pixels : Z := 4194304.

(** A float sum [HS] of [n] terms in [[qmin, 2]] whose real sum is [S]. *)
Definition tracks (n : Z) (S HS : Q) : Prop :=
  inject_Z n * qmin <= S /\ S <= 2 * inject_Z n /\
  (1 - inject_Z n * rel) * S <= HS /\
  HS <= (1 + 2 * inject_Z n * rel) * S.

Lemma tracks_step (n : Z) (S HS q : Q) :
  (0 <= n)%Z -> (n + 1 <= most_pixels)%Z ->
  tracks n S HS -> qmin <= q <= 2 ->
  exists HS', Rounded.add rnd (Fin HS) (Fin q) = Fin HS' /\
              tracks (n + 1) (S + q) HS'.
Proof.
  intros Hn0 Hn (T1 & T2 & T3 & T4) Hq. unfold most_pixels in Hn.
  assert (N0 : 0 <= inject_Z n).
  { change 0 with (inject_Z 0). rewrite <- Zle_Qle. exact Hn0. }
  assert (N1 : inject_Z n + 1 <= 4194304).
  { change 1 with (inject_Z 1). rewrite <- inject_Z_plus.
    change 4194304 with (inject_Z 4194304). rewrite <- Zle_Qle. exact Hn. }
  unfold qmin, rel in *.
  assert (HS0 : 0 <= S) by nra.
  assert (HHS : 0 <= HS) by nra.
  assert (HHS2 : HS <= 2 * S) by nra.
  rewrite add_Fin.
  destruct (acc_rel (HS + q)) as (HS' & E & B); [unfold tiny, huge; lra|].
  exists HS'. split; [exact E|]. unfold tracks, qmin, rel in *.
  rewrite inject_Z_plus. change (inject_Z 1) with 1.
  split; [lra|]. split; [lra|]. split; nra.
Qed.

(** Two sums that run over the same pixels, the terms of the second one
    at least three times those of the first. *)
Lemma tracks_pair (ps : list (Z * Z)) (t0 t2 : Z * Z -> float) :
  (forall p, In p ps ->
     exists q0 q2, t0 p = Fin q0 /\ t2 p = Fin q2 /\
                   qmin <= q0 /\ 3 * q0 <= q2 /\ q2 <= 2) ->
  forall (n : Z) (S0 S2 HS0 HS2 : Q),
    (0 <= n)%Z -> (n + Z.of_nat (length ps) <= most_pixels)%Z ->
    tracks n S0 HS0 -> tracks n S2 HS2 -> 3 * S0 <= S2 ->
    exists S0' S2' HS0' HS2',
      fold_left (fun HS p => Rounded.add rnd HS (t0 p)) ps (Fin HS0)
      = Fin HS0' /\
      fold_left (fun HS p => Rounded.add rnd HS (t2 p)) ps (Fin HS2)
      = Fin HS2' /\
      tracks (n + Z.of_nat (length ps)) S0' HS0' /\
      tracks (n + Z.of_nat (length ps)) S2' HS2' /\ 3 * S0' <= S2'.
Proof.
  induction ps as [|p ps IH]; intros Hterms n S0 S2 HS0 HS2 Hn0 Hn T0 T2 H3.
  - exists S0, S2, HS0, HS2. simpl. rewrite Z.add_0_r.
    split; [reflexivity|]. split; [reflexivity|].
    split; [exact T0|]. split; [exact T2 | exact H3].
  - destruct (Hterms p (or_introl eq_refl))
      as (q0 & q2 & E0 & E2 & Hq0 & Hq2 & Hq2').
    cbn [fold_left length]. cbn [length] in Hn. rewrite E0, E2.
    rewrite Nat2Z.inj_succ in Hn |- *.
    unfold qmin in Hq0.
    destruct (tracks_step n S0 HS0 q0 Hn0 ltac:(lia) T0) as (HS0' & A0 & T0');
      [unfold qmin; lra|].
    destruct (tracks_step n S2 HS2 q2 Hn0 ltac:(lia) T2) as (HS2' & A2 & T2');
      [unfold qmin; lra|].
    rewrite A0, A2.
    destruct (IH (fun p' Hp' => Hterms p' (or_intror Hp')) (n + 1)%Z
                (S0 + q0) (S2 + q2) HS0' HS2' ltac:(lia) ltac:(lia) T0' T2'
                ltac:(lra))
      as (S0'' & S2'' & H0'' & H2'' & F0 & F2 & T0'' & T2'' & H3'').
    exists S0'', S2'', H0'', H2''.
    replace (n + Z.succ (Z.of_nat (length ps)))%Z
      with (n + 1 + Z.of_nat (length ps))%Z by lia.
    split; [exact F0|]. split; [exact F2|].
    split; [exact T0''|]. split; [exact T2'' | exact H3''].
Qed.

End Accurate.

Lemma div_scaled (p q s c : Q) :
  0 < s -> c * p <= q -> c * (p / s) <= q / s.
Proof.
  intros Hs H. apply Qle_shift_div_l; [exact Hs|].
  setoid_replace (c * (p / s) * s) with (c * p) by (field; lra). exact H.
Qed.

Section Gap.
Variable rnd : Q -> float.
Hypothesis Hacc : accurate rnd.

(** The means of two sums as [tracks_pair] leaves them differ. *)
Lemma mean_gap (n : Z) (S0 S2 HS0 HS2 : Q) :
  (1 <= n <= most_pixels)%Z ->
  tracks n S0 HS0 -> tracks n S2 HS2 -> 3 * S0 <= S2 ->
  exists e0 e2,
    Rounded.div rnd (Fin HS0) (Rounded.of_int rnd n) = Fin e0 /\
    Rounded.div rnd (Fin HS2) (Rounded.of_int rnd n) = Fin e2 /\
    e0 < e2.
Proof.
  intros Hn (A1 & A2 & A3 & A4) (B1 & B2 & B3 & B4) H3.
  unfold most_pixels in Hn.
  assert (N1 : 1 <= inject_Z n <= 4194304).
  { change 1 with (inject_Z 1). change 4194304 with (inject_Z 4194304).
    rewrite <- !Zle_Qle. exact Hn. }
  rewrite of_int_Fin.
  set (N := inject_Z n) in *. clearbody N.
  unfold qmin, rel in *.
  destruct (acc_rel rnd Hacc N) as (Nf & EN & BN); [unfold tiny, huge; lra|].
  rewrite EN. unfold rel in BN.
  assert (HS0pos : 0 <= S0) by nra.
  assert (HS2pos : 0 <= S2) by nra.
  assert (L0 : (7 # 10) * (9 # 10000000000) * Nf <= HS0) by nra.
  assert (U0 : HS0 <= 4 * Nf) by nra.
  assert (L2 : (7 # 10) * (9 # 10000000000) * Nf <= HS2) by nra.
  assert (U2 : HS2 <= 4 * Nf) by nra.
  assert (G : (14 # 10) * HS0 <= HS2) by nra.
  assert (HNf : 0 < Nf) by lra.
  rewrite !div_Fin by lra.
  pose proof (div_between HS0 Nf _ _ HNf L0 U0) as X0.
  pose proof (div_between HS2 Nf _ _ HNf L2 U2) as X2.
  pose proof (div_scaled HS0 HS2 Nf (14 # 10) HNf G) as X.
  set (x0 := HS0 / Nf) in *. set (x2 := HS2 / Nf) in *. clearbody x0 x2.
  destruct (acc_rel rnd Hacc x0) as (e0 & E0 & B0); [unfold tiny, huge; lra|].
  destruct (acc_rel rnd Hacc x2) as (e2 & E2 & B2'); [unfold tiny, huge; lra|].
  exists e0, e2. split; [exact E0|]. split; [exact E2|].
  unfold rel in *. lra.
Qed.

End Gap.

Section Rotated.
Variable rnd : Q -> float.
Hypothesis Hacc : accurate rnd.
Variables (lR lG lB : Array2DfList) (w h : Z).

(** Exposures 0 and 1 have the same hue [a] at pixel [(i, j)], a number
    of [[0, 1]], and the hue [b] of exposure 2, one too, is at least
    [rotation] away from it. *)
Definition rotated_at (i j : Z) : Prop :=
  exists a b,
    hueF rnd lR lG lB 0 i j = Fin a /\ hueF rnd lR lG lB 1 i j = Fin a /\
    hueF rnd lR lG lB 2 i j = Fin b /\
    0 <= a <= 1 /\ 0 <= b <= 1 /\
    (a + rotation <= b \/ b + rotation <= a).

Definition rotated : Prop :=
  forall i j, (0 <= i < w)%Z -> (0 <= j < h)%Z -> rotated_at i j.

Hypothesis Hthree : zlength lR = 3%Z.
Hypothesis Hw : (0 < w)%Z.
Hypothesis Hh : (0 < h)%Z.
Hypothesis Hfew : (w * h <= most_pixels)%Z.
Hypothesis Hrot : rotated.

Lemma rotated_terms (k : Z) (p : Z * Z) :
  (k = 0 \/ k = 1)%Z -> In p (pixels w h) ->
  exists q0 q2,
    dev2F rnd lR lG lB k (fst p) (snd p) = Fin q0 /\
    dev2F rnd lR lG lB 2 (fst p) (snd p) = Fin q2 /\
    qmin <= q0 /\ 3 * q0 <= q2 /\ q2 <= 2.
Proof.
  intros Hk Hp. apply pixels_In in Hp. destruct Hp as [Hi Hj].
  destruct (Hrot _ _ Hi Hj) as (a & b & E0 & E1 & E2 & Ha & Hb & Hab).
  destruct (deviations rnd Hacc a b Ha Hb Hab)
    as (m & q0 & q2 & Em & Eq0 & Eq2 & Hq).
  exists q0, q2.
  assert (Emean : meanHueF rnd lR lG lB (fst p) (snd p) = Fin m).
  { unfold meanHueF. rewrite Hthree.
    change (range 0 3) with [0%Z; 1%Z; 2%Z]. cbn [map].
    rewrite E0, E1, E2. exact Em. }
  unfold dev2F. rewrite Emean, E2.
  split; [|split; [exact Eq2 | exact Hq]].
  destruct Hk as [-> | ->]; [rewrite E0 | rewrite E1]; exact Eq0.
Qed.

Lemma rotated_gap (k : Z) :
  (k = 0 \/ k = 1)%Z ->
  exists e e2,
    HEF rnd lR lG lB w h k = Fin e /\ HEF rnd lR lG lB w h 2 = Fin e2 /\
    e < e2.
Proof.
  intros Hk. unfold HEF, HSF. rewrite !for_pixels.
  assert (T0 : tracks 0 0 0).
  { unfold tracks, qmin, rel. change (inject_Z 0) with 0. lra. }
  pose proof (pixels_length w h ltac:(lia) ltac:(lia)) as Hlen.
  destruct (tracks_pair rnd Hacc (pixels w h)
              (fun p => dev2F rnd lR lG lB k (fst p) (snd p))
              (fun p => dev2F rnd lR lG lB 2 (fst p) (snd p))
              (fun p => rotated_terms k p Hk) 0%Z 0 0 0 0 ltac:(lia) ltac:(lia) T0 T0
              ltac:(lra))
    as (S0 & S2 & HS0 & HS2 & F0 & F2 & T0' & T2' & H3).
  unfold f0. rewrite F0, F2.
  rewrite Z.add_0_l, Hlen in T0', T2'.
  apply (mean_gap rnd Hacc (w * h) S0 S2 HS0 HS2); try assumption.
  split; [nia | exact Hfew].
Qed.

(** With a rotated third exposure its score is strictly the largest and
    [findIndex] returns 2. *)
Lemma rotated_scores :
  exists e0 e1 e2,
    map (HEF rnd lR lG lB w h) (range 0 (zlength lR))
    = [Fin e0; Fin e1; Fin e2] /\
    e0 < e2 /\ e1 < e2 /\
    findIndex (map (HEF rnd lR lG lB w h) (range 0 (zlength lR))) = 2%Z.
Proof.
  destruct (rotated_gap 0 (or_introl eq_refl)) as (e0 & e2 & E0 & E2 & H02).
  destruct (rotated_gap 1 (or_intror eq_refl)) as (e1 & e2' & E1 & E2' & H12).
  rewrite E2 in E2'. injection E2' as <-.
  exists e0, e1, e2. rewrite Hthree.
  change (range 0 3) with [0%Z; 1%Z; 2%Z]. cbn [map].
  rewrite E0, E1, E2.
  split; [reflexivity|]. split; [exact H02|]. split; [exact H12|].
  unfold findIndex, max_element. cbn [max_element_from findIndex_from].
  cbn [F.ltb F.eqb].
  assert (L02 : Qltb e0 e2 = true) by (apply Qltb_lt; exact H02).
  assert (L12 : Qltb e1 e2 = true) by (apply Qltb_lt; exact H12).
  assert (N02 : Qeq_bool e0 e2 = false) by (apply Qeq_bool_false; lra).
  assert (N12 : Qeq_bool e1 e2 = false) by (apply Qeq_bool_false; lra).
  assert (R22 : Qeq_bool e2 e2 = true) by (apply Qeq_bool_iff; reflexivity).
  destruct (Qltb e0 e1); cbn [F.ltb F.eqb];
    rewrite ?L02, ?L12; cbn [F.eqb]; rewrite N02, N12, R22; reflexivity.
Qed.

End Rotated.

Local Close Scope Q_scope.

(** Three one-pixel exposures: two orange ones and one whose hue is
    rotated to green. *)
Definition orange_orange_green : lists :=
  ([Some (uniform 1 1 200); Some (uniform 1 1 200); Some (uniform 1 1 50)],
   [Some (uniform 1 1 100); Some (uniform 1 1 100); Some (uniform 1 1 200)],
   [Some (uniform 1 1 50); Some (uniform 1 1 50); Some (uniform 1 1 100)]).


Lemma orange_orange_green_scorable : scorable orange_orange_green 1 1.
Proof.
  unfold scorable, orange_orange_green.
  assert (Hset : forall x y z : Array2Df, all_set [Some x; Some y; Some z]).
  { intros x y z i Hi. unfold zlength in Hi. simpl in Hi.
    assert (Hc : i = 0 \/ i = 1 \/ i = 2) by lia.
    destruct Hc as [-> | [-> | ->]]; eexists; reflexivity. }
  repeat (split; [first [reflexivity | apply Hset]|]). reflexivity.
Qed.

(** The orange, orange and green exposures in binary32: the hues are
    [1864135 / 2^25] and [13048945 / 2^25], a third of a turn apart. *)
Lemma orange_orange_green_rotated :
  rotated round32 (lsR orange_orange_green) (lsG orange_orange_green)
    (lsB orange_orange_green) 1 1.
Proof.
  intros i j Hi Hj. assert (i = 0) by lia. assert (j = 0) by lia. subst.
  exists (1864135 # 33554432)%Q, (13048945 # 33554432)%Q.
  split; [vm_compute; reflexivity|]. split; [vm_compute; reflexivity|].
  split; [vm_compute; reflexivity|]. unfold rotation.
  split; [lra|]. split; [lra|]. left. lra.
Qed.


(** Three one-pixel exposures: two of the colour [(1/64, 0, 1)] and one
    whose red sample is [3 / 2^21] larger, which turns the hue by four
    units in the last place. *)
Definition slightly_rotated : lists :=
  ([Some (uniform 1 1 (1 # 64)); Some (uniform 1 1 (1 # 64));
    Some (uniform 1 1 (32771 # 2097152))],
   [Some (uniform 1 1 0); Some (uniform 1 1 0); Some (uniform 1 1 0)],
   [Some (uniform 1 1 1); Some (uniform 1 1 1); Some (uniform 1 1 1)]).


(** Two one-pixel exposures, a blue and a cyan one.  Without rounding both
    scores are [1/144] and [findIndex] returns 0; in binary32 the scores
    are [7456537 / 2^30] and [14913095 / 2^31], the second one larger,
    and the reference index is 1. *)
Definition blue_cyan : lists :=
  ([Some (uniform 1 1 0); Some (uniform 1 1 0)],
   [Some (uniform 1 1 0); Some (uniform 1 1 1)],
   [Some (uniform 1 1 1); Some (uniform 1 1 1)]).

Example blue_cyan_scores :
  Rounded.hueScores round32 blue_cyan
  = Done [Fin (7456537 # 1073741824); Fin (14913095 # 2147483648)] /\
  Rounded.referenceIndex round32 blue_cyan = Done 1.
Proof. split; vm_compute; reflexivity. Qed.

(* ================================================================== *)
(** ** The colour conversions in binary32 *)
(* ================================================================== *)

Local Open Scope Q_scope.

Lemma max3_spec (r g b : Q) :
  exists v, F.max (F.max (Fin r) (Fin g)) (Fin b) = Fin v /\
    (v = r \/ v = g \/ v = b) /\ (r <= v /\ g <= v /\ b <= v)%Q.
Proof.
  unfold F.max. simpl.
  destruct (Qltb r g) eqn:E1; simpl;
    [apply Qltb_lt in E1 | apply Qltb_ge in E1].
  - destruct (Qltb g b) eqn:E2;
      [apply Qltb_lt in E2 | apply Qltb_ge in E2];
      eexists; (split; [reflexivity|]); split; auto; lra.
  - destruct (Qltb r b) eqn:E2;
      [apply Qltb_lt in E2 | apply Qltb_ge in E2];
      eexists; (split; [reflexivity|]); split; auto; lra.
Qed.

Lemma min3_spec (r g b : Q) :
  exists m, F.min (F.min (Fin r) (Fin g)) (Fin b) = Fin m /\
    (m = r \/ m = g \/ m = b) /\ (m <= r /\ m <= g /\ m <= b)%Q.
Proof.
  unfold F.min. simpl.
  destruct (Qltb g r) eqn:E1; simpl;
    [apply Qltb_lt in E1 | apply Qltb_ge in E1].
  - destruct (Qltb b g) eqn:E2;
      [apply Qltb_lt in E2 | apply Qltb_ge in E2];
      eexists; (split; [reflexivity|]); split; auto; lra.
  - destruct (Qltb b r) eqn:E2;
      [apply Qltb_lt in E2 | apply Qltb_ge in E2];
      eexists; (split; [reflexivity|]); split; auto; lra.
Qed.

Section Ordered.
Variable rnd : Q -> float.
Hypothesis Hacc : accurate rnd.
Hypothesis Hmono : monotone rnd.
Hypothesis Hint : keeps_small_integers rnd.

Lemma rnd_fin (x : Q) : Qabs x <= max32 -> exists y, rnd x = Fin y.
Proof. intros H. destruct (Hacc x H) as (y & E & _). exists y. exact E. Qed.

(** A number between two small integers is rounded to a number between
    them. *)
Lemma rnd_between (lo hi : Z) (x : Q) :
  (0 <= lo <= 6)%Z -> (0 <= hi <= 6)%Z ->
  inject_Z lo <= x <= inject_Z hi ->
  exists y, rnd x = Fin y /\ inject_Z lo <= y <= inject_Z hi.
Proof.
  intros Hlo Hhi [H1 H2].
  assert (L0 : 0 <= inject_Z lo).
  { change 0 with (inject_Z 0). rewrite <- Zle_Qle. lia. }
  assert (H6 : inject_Z hi <= 6).
  { change 6 with (inject_Z 6). rewrite <- Zle_Qle. lia. }
  destruct (rnd_fin x) as [y Ey].
  { apply Qabs_Qle_condition. split.
    - apply Qle_trans with 0; [discriminate | lra].
    - apply Qle_trans with 6; [lra | discriminate]. }
  exists y. split; [exact Ey|]. split.
  - apply (Hmono (inject_Z lo) x); [exact H1 | apply Hint; exact Hlo | exact Ey].
  - apply (Hmono x (inject_Z hi)); [exact H2 | exact Ey | apply Hint; exact Hhi].
Qed.

(** The share [(v - c) / vm] of a channel between the smallest and the
    largest one is a number of [[0, 1]]. *)
Lemma share_rounded (v m c d : Q) :
  m <= c <= v -> Qabs (v + - m) <= max32 ->
  rnd (v + - m) = Fin d -> 0 < d ->
  exists c2,
    Rounded.div rnd (Rounded.sub rnd (Fin v) (Fin c)) (Fin d) = Fin c2 /\
    0 <= c2 <= 1.
Proof.
  intros Hc Hfit Ed Hd. rewrite sub_Fin.
  destruct (rnd_fin (v + - c)) as [x Ex].
  { apply Qle_trans with (Qabs (v + - m)); [|exact Hfit].
    rewrite !Qabs_pos by lra. lra. }
  rewrite Ex.
  assert (Hx0 : 0 <= x).
  { apply (Hmono (inject_Z 0) (v + - c));
      [change (inject_Z 0) with 0; lra | apply Hint; lia | exact Ex]. }
  assert (Hxd : x <= d).
  { apply (Hmono (v + - c) (v + - m)); [lra | exact Ex | exact Ed]. }
  rewrite div_Fin by lra.
  apply (rnd_between 0 1); [lia | lia|].
  change (inject_Z 0) with 0. change (inject_Z 1) with 1. split.
  - apply Qle_shift_div_l; [exact Hd | lra].
  - apply Qle_shift_div_r; [exact Hd | lra].
Qed.

Lemma sixth_rounded (lo hi : Z) (x : Q) :
  (0 <= lo <= 6)%Z -> (0 <= hi <= 6)%Z ->
  inject_Z lo <= x <= inject_Z hi ->
  exists h, Rounded.div rnd (rnd x) f6 = Fin h /\ 0 <= h <= 1.
Proof.
  intros Hlo Hhi Hx.
  destruct (rnd_between lo hi x Hlo Hhi Hx) as (y & -> & Hy).
  assert (L0 : 0 <= inject_Z lo).
  { change 0 with (inject_Z 0). rewrite <- Zle_Qle. lia. }
  assert (H6 : inject_Z hi <= 6).
  { change 6 with (inject_Z 6). rewrite <- Zle_Qle. lia. }
  unfold f6. rewrite div_Fin by lra.
  apply (rnd_between 0 1); [lia | lia|].
  change (inject_Z 0) with 0. change (inject_Z 1) with 1.
  unfold Qdiv. change (/ 6) with (1 # 6). lra.
Qed.

End Ordered.

(** The hue that [rgb2hsl] computes, with every operation rounded by a
    monotone rounding that is accurate and keeps the integers up to 6,
    as the one of binary32 does, is a number between 0 and 1, both ends
    included, for all channel values up to [2^126] in magnitude,
    whatever their sign.  (Beyond, [v - m] can overflow and the hue be a
    NaN.) *)
Theorem rgb2hsl_hue_in_unit_interval (rnd : Q -> float) (r g b : Q) :
  accurate rnd -> monotone rnd -> keeps_small_integers rnd ->
  Qabs r <= pow2 126 -> Qabs g <= pow2 126 -> Qabs b <= pow2 126 ->
  exists h,
    hue (Rounded.rgb2hsl rnd (Fin r) (Fin g) (Fin b)) = Fin h /\ 0 <= h <= 1.
Proof.
  intros Hacc Hmono Hint Hr Hg Hb.
  apply Qabs_Qle_condition in Hr, Hg, Hb.
  unfold Rounded.rgb2hsl.
  destruct (max3_spec r g b) as (v & -> & Hvin & Hv).
  destruct (min3_spec r g b) as (m & -> & Hmin & Hm).
  destruct (F.leb (Rounded.div rnd (Rounded.add rnd (Fin m) (Fin v)) f2) f0);
    [exists 0; split; [reflexivity | lra]|].
  assert (Hfit : Qabs (v + - m) <= max32).
  { assert (E : pow2 126 + pow2 126 == max32) by reflexivity.
    apply Qabs_Qle_condition. rewrite <- E.
    destruct Hvin as [-> | [-> | ->]], Hmin as [-> | [-> | ->]]; lra. }
  rewrite (sub_Fin rnd v m).
  destruct (rnd_fin rnd Hacc (v + - m) Hfit) as [d Ed]. rewrite Ed.
  destruct (F.gtb (Fin d) f0) eqn:Epos;
    [|exists 0; split; [reflexivity | lra]].
  assert (Hd : 0 < d).
  { unfold F.gtb, f0 in Epos. simpl in Epos. apply Qltb_lt in Epos. exact Epos. }
  destruct (share_rounded rnd Hacc Hmono Hint v m r d ltac:(lra) Hfit Ed Hd)
    as (r2 & -> & Hr2).
  destruct (share_rounded rnd Hacc Hmono Hint v m g d ltac:(lra) Hfit Ed Hd)
    as (g2 & -> & Hg2).
  destruct (share_rounded rnd Hacc Hmono Hint v m b d ltac:(lra) Hfit Ed Hd)
    as (b2 & -> & Hb2).
  cbn [hue]. unfold f1, f3, f5.
  rewrite ?add_Fin, ?sub_Fin.
  destruct (F.eqb (Fin r) (Fin v)); [destruct (F.eqb (Fin g) (Fin m))|
    destruct (F.eqb (Fin g) (Fin v));
      [destruct (F.eqb (Fin b) (Fin m)) | destruct (F.eqb (Fin r) (Fin m))]].
  - apply (sixth_rounded rnd Hacc Hmono Hint 5 6); [lia | lia|].
    change (inject_Z 5) with 5. change (inject_Z 6) with 6. lra.
  - apply (sixth_rounded rnd Hacc Hmono Hint 0 1); [lia | lia|].
    change (inject_Z 0) with 0. change (inject_Z 1) with 1. lra.
  - apply (sixth_rounded rnd Hacc Hmono Hint 1 2); [lia | lia|].
    change (inject_Z 1) with 1. change (inject_Z 2) with 2. lra.
  - apply (sixth_rounded rnd Hacc Hmono Hint 2 3); [lia | lia|].
    change (inject_Z 2) with 2. change (inject_Z 3) with 3. lra.
  - apply (sixth_rounded rnd Hacc Hmono Hint 3 4); [lia | lia|].
    change (inject_Z 3) with 3. change (inject_Z 4) with 4. lra.
  - apply (sixth_rounded rnd Hacc Hmono Hint 4 5); [lia | lia|].
    change (inject_Z 4) with 4. change (inject_Z 5) with 5. lra.
Qed.

(** A dark saturated colour with a negative channel, in binary32: the
    hue is [1/3] rounded. *)
Lemma rgb2hsl_hue_in_unit_interval_witness :
  exists h,
    hue (Rounded.rgb2hsl round32 (Fin (-(1 # 4))) (Fin (3 # 4)) (Fin (-(1 # 4))))
    = Fin h /\
    0 <= h <= 1.
Proof.
  apply (rgb2hsl_hue_in_unit_interval round32 (-(1 # 4)) (3 # 4) (-(1 # 4))).
  - exact round32_accurate.
  - exact round32_monotone.
  - exact round32_keeps_small_integers.
  - vm_compute. discriminate.
  - vm_compute. discriminate.
  - vm_compute. discriminate.
Defined.

(** Beyond that range the hue can be a NaN: the difference of the largest
    and the smallest channel overflows in binary32. *)
Example rgb2hsl_hue_overflow :
  hue (Rounded.rgb2hsl round32 (Fin (3 * pow2 126)) (Fin (- pow2 126))
         (Fin (- pow2 126))) = NaN.
Proof. vm_compute. reflexivity. Qed.

(** The numbers of binary32: a significand of at most 24 bits times a
    power of two that is at least [2^-149]. *)
Definition bin32 (q : Q) : Prop :=
  exists N e, q == inject_Z N * pow2 e /\ (Z.abs N < 2 ^ 24)%Z /\ (-149 <= e)%Z.

Lemma bin32_eq (q q' : Q) : q == q' -> bin32 q -> bin32 q'.
Proof.
  intros E (N & e & Eq & HN & He). exists N, e.
  split; [rewrite <- E; exact Eq|]. split; assumption.
Qed.

Lemma bin32_double (q : Q) : bin32 q -> bin32 (q + q).
Proof.
  intros (N & e & Eq & HN & He). exists N, (e + 1)%Z.
  split; [|split; [exact HN | lia]].
  rewrite pow2_plus. change (pow2 1) with 2. rewrite Eq. ring.
Qed.

Lemma round_half_even_eq_int (x : Q) (n : Z) :
  x == inject_Z n -> round_half_even x = n.
Proof.
  intros E. unfold round_half_even.
  assert (Ef : Qfloor x = n) by (rewrite E; apply Qfloor_Z).
  rewrite Ef.
  assert (Ec : (x - inject_Z n ?= 1 # 2) = Lt).
  { rewrite <- Qlt_alt. rewrite E. set (q := inject_Z n). clearbody q. lra. }
  rewrite Ec. reflexivity.
Qed.

Lemma round32_zero (q : Q) : q == 0 -> round32 q = Fin 0.
Proof.
  intros E. unfold round32.
  assert (Eb : Qeq_bool q 0 = true) by (apply Qeq_bool_iff; exact E).
  rewrite Eb. reflexivity.
Qed.

Lemma Qabs_pos_lt (q : Q) : ~ q == 0 -> 0 < Qabs q.
Proof.
  intros Hq. pose proof (Qabs_nonneg q) as H.
  destruct (Qle_lt_or_eq _ _ H) as [L | L]; [exact L|].
  exfalso. apply Hq.
  destruct (Qabs_Qle_condition q 0) as [Hc _].
  destruct Hc as [H1 H2]; [rewrite <- L; apply Qle_refl|]. lra.
Qed.

(** [mag32] leaves the magnitude of a number of the format as it is. *)
Lemma mag32_fixes (a : Q) (N e : Z) :
  0 < a -> a == inject_Z N * pow2 e -> (0 < N < 2 ^ 24)%Z -> (-149 <= e)%Z ->
  mag32 a == a.
Proof.
  intros Ha Ea HN He. unfold mag32.
  set (k := ilog2 a). set (E := Z.max (k - 23) (-149)).
  destruct (ilog2_spec a Ha) as [Hk _]. fold k in Hk.
  assert (HkE : (E <= e)%Z).
  { assert (H : pow2 k < pow2 (24 + e)).
    { apply Qle_lt_trans with a; [exact Hk|]. rewrite Ea, pow2_plus.
      apply Qmult_lt_compat_r; [apply pow2_pos|].
      rewrite (pow2_inject 24) by lia. rewrite <- Zlt_Qlt. lia. }
    apply pow2_lt_inv in H. unfold E. lia. }
  pose proof (pow2_pos E) as PE.
  assert (Eint : a / pow2 E == inject_Z (N * 2 ^ (e - E))).
  { rewrite inject_Z_mult, <- (pow2_inject (e - E)) by lia.
    rewrite Ea. replace e with ((e - E) + E)%Z at 1 by lia.
    rewrite pow2_plus. field. lra. }
  rewrite (round_half_even_eq_int _ _ Eint), <- Eint. field. lra.
Qed.

Lemma round32_bin32 (q c : Q) :
  q == c -> bin32 c -> Qabs c < pow2 128 ->
  exists y, round32 q = Fin y /\ y == c.
Proof.
  intros Eqc (N & e & Ec & HN & He) Hfit.
  destruct (Qeq_dec q 0) as [E0 | N0].
  - exists 0. split; [apply round32_zero; exact E0|]. rewrite <- Eqc, E0.
    reflexivity.
  - unfold round32. fold (mag32 (Qabs q)).
    assert (Eb : Qeq_bool q 0 = false) by (apply Qeq_bool_false; exact N0).
    rewrite Eb.
    pose proof (Qabs_pos_lt q N0) as Ha.
    assert (HN0 : N <> 0%Z).
    { intros ->. apply N0. rewrite Eqc, Ec. ring. }
    assert (Eabs : Qabs q == inject_Z (Z.abs N) * pow2 e).
    { rewrite Eqc, Ec, Qabs_Qmult, (Qabs_pos (pow2 e)).
      - destruct N as [|p|p]; [congruence | reflexivity | reflexivity].
      - apply Qlt_le_weak. apply pow2_pos. }
    pose proof (mag32_fixes (Qabs q) (Z.abs N) e Ha Eabs ltac:(lia) He) as Em.
    assert (Hov : Qle_bool (pow2 128) (mag32 (Qabs q)) = false).
    { destruct (Qle_bool (pow2 128) (mag32 (Qabs q))) eqn:Eo; [|reflexivity].
      apply Qle_bool_iff in Eo.
      assert (Ha2 : Qabs q == Qabs c) by (apply Qabs_wd; exact Eqc).
      set (x := mag32 (Qabs q)) in *. set (aq := Qabs q) in *.
      set (ac := Qabs c) in *. clearbody x aq ac. lra. }
    rewrite Hov. eexists. split; [reflexivity|]. rewrite Qred_correct.
    destruct (Qltb q 0) eqn:Es.
    + apply Qltb_lt in Es.
      assert (Hq : Qabs q == - q) by (apply Qabs_neg; lra).
      set (x := mag32 (Qabs q)) in *. set (aq := Qabs q) in *.
      clearbody x aq. lra.
    + apply Qltb_ge in Es.
      assert (Hq : Qabs q == q) by (apply Qabs_pos; exact Es).
      set (x := mag32 (Qabs q)) in *. set (aq := Qabs q) in *.
      clearbody x aq. lra.
Qed.

Section Grey.
Variable c : Q.
Hypothesis Hbin : bin32 c.
Hypothesis Hfit : Qabs c <= pow2 126.

Lemma grey_fits : Qabs c < pow2 128.
Proof.
  apply Qle_lt_trans with (pow2 126); [exact Hfit | reflexivity].
Qed.

Lemma grey_double_fits : Qabs (c + c) < pow2 128.
Proof.
  assert (H : pow2 126 + pow2 126 < pow2 128) by reflexivity.
  apply Qabs_Qle_condition in Hfit.
  destruct (Qlt_le_dec c 0) as [L | L].
  - rewrite Qabs_neg by lra. lra.
  - rewrite Qabs_pos by lra. lra.
Qed.

(** An operation whose exact result is [c] gives [c]. *)
Lemma grey_same (q : Q) :
  q == c -> exists y, round32 q = Fin y /\ y == c.
Proof. intros E. apply round32_bin32; [exact E | exact Hbin | exact grey_fits]. Qed.

Lemma grey_double (q : Q) :
  q == c + c -> exists y, round32 q = Fin y /\ y == c + c.
Proof.
  intros E. apply round32_bin32;
    [exact E | apply bin32_double; exact Hbin | exact grey_double_fits].
Qed.

Lemma grey_light :
  exists l,
    Rounded.div round32 (Rounded.add round32 (Fin c) (Fin c)) f2 = Fin l /\
    l == c.
Proof.
  rewrite add_Fin. destruct (grey_double (c + c)) as (y & -> & Ey);
    [reflexivity|].
  unfold f2. rewrite div_Fin by lra.
  apply grey_same. rewrite Ey. field.
Qed.

Lemma grey_rgb2hsl :
  exists s l,
    Rounded.rgb2hsl round32 (Fin c) (Fin c) (Fin c) = HSL f0 (Fin s) (Fin l) /\
    s == 0 /\ l == c.
Proof.
  unfold Rounded.rgb2hsl.
  destruct (max3_spec c c c) as (v & -> & Hv & _).
  assert (v = c) by (destruct Hv as [E | [E | E]]; exact E). subst v.
  destruct (min3_spec c c c) as (m & -> & Hm & _).
  assert (m = c) by (destruct Hm as [E | [E | E]]; exact E). subst m.
  destruct grey_light as (l & -> & El).
  destruct (F.leb (Fin l) f0).
  - exists 0, l. split; [reflexivity|]. split; [reflexivity | exact El].
  - rewrite sub_Fin, (round32_zero (c + - c)) by ring.
    assert (E : F.gtb (Fin 0) f0 = false) by reflexivity.
    rewrite E. exists 0, l.
    split; [reflexivity|]. split; [reflexivity | exact El].
Qed.

(** The value [v] of [hsl2rgb] for saturation 0 and lightness [c]. *)
Lemma grey_hsl2rgb_value (s l : Q) :
  s == 0 -> l == c ->
  exists v,
    (if F.leb (Fin l) f0_5
     then Rounded.mul round32 (Fin l) (Rounded.add round32 f1 (Fin s))
     else Rounded.sub round32 (Rounded.add round32 (Fin l) (Fin s))
            (Rounded.mul round32 (Fin l) (Fin s))) = Fin v /\
    v == c.
Proof.
  intros Es El. destruct (F.leb (Fin l) f0_5).
  - unfold f1. rewrite add_Fin.
    destruct (round32_bin32 (1 + s) 1) as (one & -> & E1).
    + rewrite Es. reflexivity.
    + exists 1%Z, 0%Z. split; [reflexivity|]. split; [reflexivity | lia].
    + reflexivity.
    + rewrite mul_Fin. apply grey_same. rewrite El, E1. ring.
  - rewrite add_Fin, mul_Fin.
    destruct (grey_same (l + s)) as (y & -> & Ey); [rewrite El, Es; ring|].
    rewrite (round32_zero (l * s)) by (rewrite Es; ring).
    rewrite sub_Fin. apply grey_same. rewrite Ey. ring.
Qed.

Lemma grey_hsl2rgb (s l : Q) :
  s == 0 -> l == c ->
  exists x y z,
    Rounded.hsl2rgb round32 f0 (Fin s) (Fin l) = RGB (Fin x) (Fin y) (Fin z) /\
    x == c /\ y == c /\ z == c.
Proof.
  intros Es El. unfold Rounded.hsl2rgb.
  destruct (grey_hsl2rgb_value s l Es El) as (v & -> & Ev).
  destruct (F.gtb (Fin v) f0) eqn:Epos.
  2:{ exists l, l, l. split; [reflexivity|]. split; [|split]; exact El. }
  assert (Hv : 0 < v).
  { unfold F.gtb, f0 in Epos. simpl in Epos. apply Qltb_lt in Epos. exact Epos. }
  rewrite (add_Fin round32 l l).
  destruct (grey_double (l + l)) as (y2 & -> & E2); [rewrite El; reflexivity|].
  rewrite (sub_Fin round32 y2 v).
  destruct (grey_same (y2 + - v)) as (m & -> & Em); [rewrite E2, Ev; ring|].
  rewrite (sub_Fin round32 v m), (round32_zero (v + - m))
    by (rewrite Ev, Em; ring).
  rewrite (div_Fin round32 0 v) by lra.
  rewrite (round32_zero (0 / v)) by (field; lra).
  unfold f0, f6. rewrite (mul_Fin round32 0 6).
  rewrite (round32_zero (0 * 6)) by reflexivity.
  change (F.to_int (Fin 0)) with 0%Z. cbv iota.
  rewrite (mul_Fin round32 v 0), (round32_zero (v * 0)) by ring.
  rewrite of_int_Fin, (round32_zero (inject_Z 0)) by reflexivity.
  rewrite (sub_Fin round32 0 0), (round32_zero (0 + - 0)) by reflexivity.
  rewrite (mul_Fin round32 0 0), (round32_zero (0 * 0)) by reflexivity.
  rewrite (add_Fin round32 m 0).
  destruct (grey_same (m + 0)) as (mid1 & -> & Emid); [rewrite Em; ring|].
  exists v, mid1, m. split; [reflexivity|].
  split; [exact Ev|]. split; [exact Emid | exact Em].
Qed.

End Grey.

(** In binary32 a grey pixel [(c, c, c)] gets hue 0, saturation 0 and
    lightness [c] from [rgb2hsl], and [hsl2rgb] gives the pixel back, for
    every number [c] of the format up to [2^126] in magnitude, negative
    ones and ones above 1 too: nothing is rounded on the way. *)
Theorem roundtrip_grey (c : Q) :
  bin32 c -> Qabs c <= pow2 126 ->
  let p := Rounded.rgb2hsl round32 (Fin c) (Fin c) (Fin c) in
  let o := Rounded.hsl2rgb round32 (hue p) (sat p) (light p) in
  hue p = f0 /\ F.eqb (sat p) f0 = true /\
  F.eqb (light p) (Fin c) = true /\
  F.eqb (red o) (Fin c) = true /\
  F.eqb (green o) (Fin c) = true /\
  F.eqb (blue o) (Fin c) = true.
Proof.
  intros Hbin Hfit p o. subst o p.
  destruct (grey_rgb2hsl c Hbin Hfit) as (s & l & -> & Es & El).
  cbn [hue sat light].
  destruct (grey_hsl2rgb c Hbin Hfit s l Es El) as (x & y & z & -> & Ex & Ey & Ez).
  cbn [red green blue]. unfold f0. cbn [F.eqb].
  split; [reflexivity|].
  repeat split; apply Qeq_bool_iff; assumption.
Qed.

(** The binary32 number nearest to 0.3. *)
Lemma roundtrip_grey_witness :
  let c := 10066330 # 33554432 in
  let p := Rounded.rgb2hsl round32 (Fin c) (Fin c) (Fin c) in
  let o := Rounded.hsl2rgb round32 (hue p) (sat p) (light p) in
  hue p = f0 /\ F.eqb (sat p) f0 = true /\
  F.eqb (light p) (Fin c) = true /\
  F.eqb (red o) (Fin c) = true /\
  F.eqb (green o) (Fin c) = true /\
  F.eqb (blue o) (Fin c) = true.
Proof.
  apply (roundtrip_grey (10066330 # 33554432)).
  - exists 10066330%Z, (-25)%Z.
    split; [reflexivity|]. split; [reflexivity | lia].
  - vm_compute. discriminate.
Defined.

Local Close Scope Q_scope.

(* ================================================================== *)
(** ** Runs on concrete sets *)
(* ================================================================== *)

(** Two grey 40 by 40 exposures, one three times as light as the other:
    every cell is one pixel. *)
Definition grey_pair : lists :=
  ([Some (uniform 40 40 100); Some (uniform 40 40 300)],
   [Some (uniform 40 40 100); Some (uniform 40 40 300)],
   [Some (uniform 40 40 100); Some (uniform 40 40 300)]).

Lemma grey_pair_well_formed : well_formed grey_pair 40 40.
Proof. apply pair_well_formed; try lia; apply uniform_finite. Qed.

Lemma raising_threshold_flags_no_more_witness :
  F.leb (Fin (1 # 4)) (Fin (1 # 2)) = true /\
  exists d2,
    detectMDR (fun x => x) grey_pair [Fin 1; Fin 2] (Fin (1 # 2)) = Done d2 /\
    exists d1,
      detectMDR (fun x => x) grey_pair [Fin 1; Fin 2] (Fin (1 # 4)) = Done d1 /\
      d_h0 d1 = d_h0 d2 /\
      (forall i j, d_patches d2 i j = true -> d_patches d1 i j = true) /\
      countPatches (d_patches d2) <= countPatches (d_patches d1).
Proof.
  split; [reflexivity|].
  destruct (detectMDR_returns (fun x => x) grey_pair 40 40 [Fin 1; Fin 2]
              (Fin (1 # 2)) grey_pair_well_formed) as [d2 [Hd2 _]].
  { unfold exposure_count, zlength. simpl. lia. }
  exists d2. split; [exact Hd2|].
  apply (raising_threshold_flags_no_more (fun x => x) grey_pair
           [Fin 1; Fin 2] (Fin (1 # 4)) (Fin (1 # 2)) d2).
  - reflexivity.
  - exact Hd2.
Defined.

(** With [logf] the identity, the log ratios of [grey_pair] are
    [100 - 300 + 1], outliers all of them: a threshold of [1/2] flags the
    1600 cells, a threshold of [1] flags none. *)
Example grey_pair_thresholds :
  (exists d, detectMDR (fun x => x) grey_pair [Fin 1; Fin 2] (Fin (1 # 2))
             = Done d /\ countPatches (d_patches d) = 1600) /\
  (exists d, detectMDR (fun x => x) grey_pair [Fin 1; Fin 2] (Fin 1)
             = Done d /\ countPatches (d_patches d) = 0).
Proof.
  split; eexists; (split; [vm_compute; reflexivity|]); vm_compute;
    reflexivity.
Qed.


(** One flagged cell of a small set, run through the code with cells of
    two pixels by one: the two pixels of the flagged cell of the second
    exposure become 200 (the reference value 100 times the scale factor
    2), the pixel next to them keeps its 300, and the reference exposure
    stays. *)
Definition wide_pair : lists :=
  ([Some (uniform 80 1 100); Some (uniform 80 1 300)],
   [Some (uniform 80 1 100); Some (uniform 80 1 300)],
   [Some (uniform 80 1 100); Some (uniform 80 1 300)]).

Example copyPatches_one_cell :
  exists ls',
    copyPatches wide_pair (fun i j => (i =? 0) && (j =? 0)) 0
      [Fin 1; Fin 2] 2 1 = Done ls' /\
    plane_at (lsR ls') 0 = uniform 80 1 100 /\
    F.eqb (px (plane_at (lsR ls') 1) 0 0) (Fin 200) = true /\
    F.eqb (px (plane_at (lsR ls') 1) 1 0) (Fin 200) = true /\
    px (plane_at (lsR ls') 1) 2 0 = Fin 300.
Proof.
  eexists. split; [vm_compute; reflexivity|].
  repeat split; vm_compute; reflexivity.
Qed.

Definition ramp : Array2Df := mkArray 2 1 [Fin 100; Fin 200].

Definition grey_manager : HdrCreationManager :=
  mkManager [] MDR_INPUT_TYPE false false 0 2 2 1
    ["a.tif"; "b.tif"]%string [""; ""]%string [] [Fin 1; Fin 2]
    [None; None] [None; None]
    [Some (transparent_image 2 1); Some (mkImage 2 1 [Z.shiftl 255 24; 0])]
    [Some ramp; Some (uniform 2 1 300)]
    [Some ramp; Some (uniform 2 1 300)]
    [Some ramp; Some (uniform 2 1 300)] [].

Definition no_hsv (p : Z) : float * float * float := (f0, f0, f0).

Lemma grey_manager_blendable : blendable grey_manager 1.
Proof.
  unfold blendable, grey_manager. simpl.
  repeat (split; [first [apply all_set_pair | reflexivity
                        | unfold zlength; simpl; lia]|]).
  reflexivity.
Qed.

Lemma doAntiGhosting_keeps_good_exposure_witness :
  blendable grey_manager 1 /\
  exists m',
    doAntiGhosting (fun _ => 0) no_hsv (fun _ _ _ => 0) grey_manager 1
    = Done m' /\
    good_untouched grey_manager m' 1.
Proof.
  split; [exact grey_manager_blendable|].
  apply (doAntiGhosting_keeps_good_exposure (fun _ => 0) no_hsv
           (fun _ _ _ => 0) grey_manager 1).
  exact grey_manager_blendable.
Defined.

(** The run itself.  The mask of the good exposure 1 is opaque at the
    first pixel and transparent at the second; the scale factor is
    [150 / 300].  The first pixel of exposure 0 becomes 150, its second
    pixel keeps its 200, and the good exposure keeps its planes. *)
Example doAntiGhosting_run :
  exists m',
    doAntiGhosting (fun _ => 0) no_hsv (fun _ _ _ => 0) grey_manager 1
    = Done m' /\
    plane_at (listmdrR m') 1 = uniform 2 1 300 /\
    F.eqb (px (plane_at (listmdrR m') 0) 0 0) (Fin 150) = true /\
    px (plane_at (listmdrR m') 0) 1 0 = Fin 200.
Proof.
  eexists. split; [vm_compute; reflexivity|].
  repeat split; vm_compute; reflexivity.
Qed.

(* ================================================================== *)
(** ** The same on 8-bit images *)
(* ================================================================== *)

(** The image a set pointer points to. *)
Definition image_at (l : ptrlist QImage) (i : Z) : QImage :=
  match zth l i with
  | Some (Some a) => a
  | _ => mkImage 0 0 []
  end.

Lemma deref_image_at (l : ptrlist QImage) (i : Z) :
  all_set l -> 0 <= i < zlength l -> deref_at l i = Done (image_at l i).
Proof.
  intros H Hi. destruct (H i Hi) as [a Ha].
  unfold deref_at, image_at. rewrite Ha. reflexivity.
Qed.

Lemma image_at_zupd (l : ptrlist QImage) (i k : Z) (a : QImage) :
  0 <= i < zlength l ->
  image_at (zupd l i (Some a)) k = if k =? i then a else image_at l k.
Proof.
  intros H. unfold image_at. rewrite zth_zupd by exact H.
  destruct (k =? i); reflexivity.
Qed.

Lemma pixel_setPixel_ne (img : QImage) (x' y' x y v : Z) :
  x <> x' \/ y <> y' ->
  pixel (setPixel img x' y' v) x y = pixel img x y.
Proof.
  intros Hne. unfold setPixel.
  destruct (valid_coord img x' y') eqn:E'; [|reflexivity].
  unfold pixel, valid_coord in *. simpl.
  destruct ((0 <=? x) && (x <? qwidth img) && (0 <=? y) && (y <? qheight img))
    eqn:E; [|reflexivity].
  rewrite zth_zupd_ne; [reflexivity|].
  intros Heq.
  assert (Hy : y' = y) by nia. subst y'.
  destruct Hne as [Hne | Hne]; [apply Hne; lia | apply Hne; reflexivity].
Qed.

Lemma setPixel_size (img : QImage) (x y v : Z) :
  qwidth (setPixel img x y v) = qwidth img /\
  qheight (setPixel img x y v) = qheight img.
Proof.
  unfold setPixel. destruct (valid_coord img x y); split; reflexivity.
Qed.

Section EightBit.
Variable hslHueF : Z -> float.
Variable hsvValue : Z -> Z.
Variable getRgbF : Z -> float * float * float.
Variable getHsvF : Z -> float * float * float.
Variable hsvF_rgb : float -> float -> float -> Z.
Variable logf : float -> float.

(** The guard of [copyPatch] on [QImage]:
    [avgL >= 255.0f || avgL == 0.0f]. *)
Definition saturated8 (avgL : float) : bool :=
  F.geb avgL (Fin 255) || F.eqb avgL f0.

(** [copyPatch] on [QImage] keeps the size of the target image, writes
    nothing when the reference cell is saturated, and otherwise writes
    inside the cell only. *)
Lemma copyPatch8_frame image1 image2 i j gridX gridY sf :
  let img := LDR.copyPatch hsvValue getHsvF hsvF_rgb image1 image2
               i j gridX gridY sf in
  (saturated8 (LDR.cellLightness hsvValue image1 i j gridX gridY) = true ->
   img = image2) /\
  forall x y, ~ in_cell gridX gridY i j x y ->
    pixel img x y = pixel image2 x y.
Proof.
  unfold LDR.copyPatch.
  change (F.geb (LDR.cellLightness hsvValue image1 i j gridX gridY) (Fin 255)
          || F.eqb (LDR.cellLightness hsvValue image1 i j gridX gridY) f0)
    with (saturated8 (LDR.cellLightness hsvValue image1 i j gridX gridY)).
  destruct (saturated8 _) eqn:Esat; cbv zeta.
  { split; reflexivity. }
  split; [discriminate|].
  intros x y Hout.
  apply (for_inv (fun img => pixel img x y = pixel image2 x y));
    [reflexivity|].
  intros y' img Hy' Himg.
  apply (for_inv (fun img => pixel img x y = pixel image2 x y));
    [exact Himg|]. clear img Himg.
  intros x' img Hx' Himg.
  destruct (getHsvF (pixel image1 x' y')) as [[hh ss] vv].
  rewrite pixel_setPixel_ne; [exact Himg|].
  unfold in_cell in Hout. lia.
Qed.

Section Correction8.
Variables (init : ptrlist QImage) (h0 gridX gridY : Z) (patches : grid)
          (scalefactor : list float).

Definition referenceLightness8 (i j : Z) : float :=
  LDR.cellLightness hsvValue (image_at init h0) i j gridX gridY.

Definition kept8 (x y : Z) : Prop :=
  forall i j, 0 <= i < gridSize -> 0 <= j < gridSize ->
    in_cell gridX gridY i j x y ->
    patches i j = false \/ saturated8 (referenceLightness8 i j) = true.

Definition correction8_inv (cur : ptrlist QImage) : Prop :=
  zlength cur = zlength init /\
  all_set cur /\
  image_at cur h0 = image_at init h0 /\
  forall k x y, kept8 x y ->
    pixel (image_at cur k) x y = pixel (image_at init k) x y.

Hypothesis Hset : all_set init.
Hypothesis Hh0 : 0 <= h0 < zlength init.
Hypothesis Hsf : zlength scalefactor = zlength init.

Lemma copyPatches8_frame :
  exists lst',
    LDR.copyPatches hsvValue getHsvF hsvF_rgb init patches h0 scalefactor
      gridX gridY = Done lst' /\
    correction8_inv lst'.
Proof.
  unfold LDR.copyPatches.
  apply (forM_total correction8_inv).
  { repeat split; try reflexivity. exact Hset. }
  intros h cur Hh Hinv.
  destruct (Z.eqb_spec h h0) as [->|Hne]; [exists cur; split; trivial|].
  apply (forM_total correction8_inv); [exact Hinv|]. clear cur Hinv.
  intros j cur Hj Hinv.
  apply (forM_total correction8_inv); [exact Hinv|]. clear cur Hinv.
  intros i cur Hi (Hlen & Hcur & Href & Hpix).
  destruct (patches i j) eqn:Eflag.
  2:{ exists cur. split; [reflexivity|]. repeat split; assumption. }
  rewrite !deref_image_at by (assumption || lia). cbn [bind].
  destruct (zth_in_range scalefactor h ltac:(lia)) as [sf Esf].
  apply at_Done in Esf. rewrite Esf. cbn [bind].
  eexists. split; [reflexivity|].
  pose proof (copyPatch8_frame (image_at cur h0) (image_at cur h)
                i j gridX gridY sf) as Hcp.
  cbv zeta in Hcp. destruct Hcp as [Hsat Hout].
  unfold correction8_inv. rewrite zlength_zupd.
  split; [exact Hlen|]. split; [apply all_set_zupd; exact Hcur|].
  split.
  { rewrite image_at_zupd by lia.
    destruct (Z.eqb_spec h0 h) as [E|_]; [congruence | exact Href]. }
  intros k x y Hkept. rewrite image_at_zupd by lia.
  destruct (Z.eqb_spec k h) as [->|Hkh]; [|apply Hpix; exact Hkept].
  rewrite <- (Hpix h x y Hkept).
  assert (Hcase : ~ in_cell gridX gridY i j x y
                  \/ saturated8 (referenceLightness8 i j) = true).
  { destruct (Z_le_dec (i * gridX) x), (Z_lt_dec x ((i + 1) * gridX)),
             (Z_le_dec (j * gridY) y), (Z_lt_dec y ((j + 1) * gridY));
      try (left; unfold in_cell; lia).
    destruct (Hkept i j Hi Hj) as [Hf | Hs];
      [unfold in_cell; lia | congruence | right; exact Hs]. }
  destruct Hcase as [Hnot | Hs].
  - apply Hout. exact Hnot.
  - unfold referenceLightness8 in Hs. rewrite <- Href in Hs.
    rewrite (Hsat Hs). reflexivity.
Qed.

End Correction8.

(** The frame of [copyPatches] on 8-bit images: with every image there, a
    reference index in range and a scale factor for every image, the call
    returns; the reference image is what it was, and so is every pixel of
    every image that lies in no flagged cell, or only in flagged cells
    whose average value in the reference image is [>= 255] or [0]. *)
Theorem copyPatches8_leaves_alone
  (lst : ptrlist QImage) (h0 gridX gridY : Z) (patches : grid)
  (scalefactor : list float) :
  all_set lst ->
  0 <= h0 < zlength lst ->
  zlength scalefactor = zlength lst ->
  exists lst',
    LDR.copyPatches hsvValue getHsvF hsvF_rgb lst patches h0 scalefactor
      gridX gridY = Done lst' /\
    image_at lst' h0 = image_at lst h0 /\
    forall k x y,
      (forall i j, 0 <= i < gridSize -> 0 <= j < gridSize ->
         in_cell gridX gridY i j x y ->
         patches i j = false \/
         saturated8 (referenceLightness8 lst h0 gridX gridY i j) = true) ->
      pixel (image_at lst' k) x y = pixel (image_at lst k) x y.
Proof.
  intros Hset Hh0 Hsf.
  destruct (copyPatches8_frame lst h0 gridX gridY patches scalefactor
              Hset Hh0 Hsf) as [lst' [Hrun (_ & _ & Href & Hpix)]].
  exists lst'. split; [exact Hrun|]. split; [exact Href | exact Hpix].
Qed.

End EightBit.

Lemma mapM_total {A B} (P : B -> Prop) (f : A -> outcome B) (l : list A) :
  (forall a, In a l -> exists b, f a = Done b /\ P b) ->
  exists bs, mapM f l = Done bs /\ Forall P bs /\ length bs = length l.
Proof.
  induction l as [|a l IH]; intros H; simpl.
  { exists []. repeat split. constructor. }
  destruct (H a (or_introl eq_refl)) as [b [Hb Pb]].
  destruct IH as [bs (Hbs & Pbs & Hlen)];
    [intros x Hx; apply H; right; exact Hx|].
  rewrite Hb. cbn [bind]. rewrite Hbs. cbn [bind].
  exists (b :: bs). repeat split; [constructor; assumption | simpl; lia].
Qed.

Lemma hueMean_fin (qs : list Q) : qs <> [] -> fin (hueMean (map Fin qs)).
Proof.
  intros Hne. unfold hueMean, f0. rewrite fold_add_fin.
  rewrite div_of_int_fin; [eexists; reflexivity|].
  unfold zlength. rewrite length_map. destruct qs; [congruence | simpl; lia].
Qed.

Section SmallImages8.
Variable hslHueF : Z -> float.
Variable hsvValue : Z -> Z.
Variable getRgbF : Z -> float * float * float.
Variable getHsvF : Z -> float * float * float.
Variable hsvF_rgb : float -> float -> float -> Z.
Variable logf : float -> float.

(** [hueF()] is a number: a hue in [0, 1), or -1 for a grey. *)
Hypothesis hue_is_finite : forall p, fin (hslHueF p).

Definition hue8 (p : Z) : Q :=
  match hslHueF p with Fin q => q | _ => 0%Q end.

Lemma hslHueF_hue8 (p : Z) : hslHueF p = Fin (hue8 p).
Proof.
  unfold hue8. destruct (hue_is_finite p) as [q ->]. reflexivity.
Qed.

Lemma fill_hues8_value (lst : ptrlist QImage) (hs : list Z) (i j : Z) :
  all_set lst ->
  (forall h, In h hs -> 0 <= h < zlength lst) ->
  LDR.fill_hues hslHueF lst hs i j
  = Done (map Fin (map (fun k => hue8 (pixel (image_at lst k) i j)) hs)).
Proof.
  intros Hset. induction hs as [|h hs IH]; intros Hin; simpl;
    [reflexivity|].
  unfold LDR.hue_at.
  rewrite deref_image_at by (auto using in_eq). cbn [bind].
  rewrite IH by (intros k Hk; apply Hin; right; exact Hk). cbn [bind].
  rewrite hslHueF_hue8. reflexivity.
Qed.

Lemma hueSquaredMean8_returns (lst : ptrlist QImage) (k : Z) :
  all_set lst ->
  0 <= k < zlength lst ->
  0 < qwidth (image_at lst 0) -> 0 < qheight (image_at lst 0) ->
  exists s, LDR.hueSquaredMean hslHueF lst k = Done s /\ fin s.
Proof.
  intros Hset Hk Hw Hh. unfold LDR.hueSquaredMean.
  rewrite deref_image_at by (assumption || lia). cbn [bind].
  set (w := qwidth (image_at lst 0)) in *.
  set (h := qheight (image_at lst 0)) in *.
  destruct (forM_total fin 0 h
    (fun j HS =>
       forM 0 w (fun i HS0 =>
         bind (LDR.fill_hues hslHueF lst (range 0 (zlength lst)) i j)
           (fun hues =>
         bind (LDR.hue_at hslHueF lst k i j) (fun Fk =>
         Done (F.add HS0 (F.mul (F.sub (hueMean hues) Fk)
                                (F.sub (hueMean hues) Fk)))))) HS)
    f0) as [HS [Hrun [q ->]]].
  - eexists; reflexivity.
  - intros j s _ Hs. apply (forM_total fin); [exact Hs|].
    clear s Hs. intros i s _ [a ->].
    rewrite fill_hues8_value
      by (assumption || (intros x Hx; apply range_In in Hx; exact Hx)).
    cbn [bind]. unfold LDR.hue_at.
    rewrite deref_image_at by assumption. cbn [bind].
    destruct (hueMean_fin
                (map (fun k0 => hue8 (pixel (image_at lst k0) i j))
                   (range 0 (zlength lst)))) as [m ->].
    { intros E. apply (f_equal (@length Q)) in E.
      rewrite length_map, range_length in E. simpl in E. lia. }
    rewrite hslHueF_hue8. eexists. split; [reflexivity|].
    eexists; reflexivity.
  - rewrite Hrun. cbn [bind]. eexists. split; [reflexivity|].
    rewrite div_of_int_fin by nia. eexists; reflexivity.
Qed.

Lemma comparePatches8_degenerate image1 image2 i j gridX gridY
  threshold deltaEV :
  gridX * gridY = 0 ->
  LDR.comparePatches getRgbF logf image1 image2 i j gridX gridY threshold
    deltaEV = false.
Proof.
  intros H. unfold LDR.comparePatches. rewrite H.
  unfold countOutliers. rewrite for_empty by lia.
  assert (E : F.div (F.of_int 0) (F.of_int 0) = NaN) by reflexivity.
  rewrite E. unfold F.gtb. destruct threshold; reflexivity.
Qed.

Lemma flagPatches8_returns lst expotimes h0 gridX gridY threshold :
  all_set lst ->
  zlength lst <= zlength expotimes ->
  0 <= h0 < zlength lst ->
  exists p,
    LDR.flagPatches getRgbF logf lst expotimes h0 gridX gridY threshold
    = Done p /\
    (gridX * gridY = 0 -> forall i j, p i j = false).
Proof.
  intros Hset Hexp Hh0. unfold LDR.flagPatches.
  apply (forM_total
           (fun p : grid => gridX * gridY = 0 -> forall i j, p i j = false)).
  { reflexivity. }
  intros h s Hh Hs. destruct (h =? h0); [exists s; split; trivial|].
  apply (forM_total
           (fun p : grid => gridX * gridY = 0 -> forall i j, p i j = false));
    [exact Hs|]. clear s Hs. intros j s _ Hs.
  apply (forM_total
           (fun p : grid => gridX * gridY = 0 -> forall i j, p i j = false));
    [exact Hs|]. clear s Hs. intros i s _ Hs.
  destruct (zth_in_range expotimes h0 ltac:(lia)) as [e0 He0].
  destruct (zth_in_range expotimes h ltac:(lia)) as [eh Heh].
  apply at_Done in He0, Heh. rewrite He0, Heh. cbn [bind].
  rewrite !deref_image_at by (assumption || lia). cbn [bind].
  destruct (LDR.comparePatches _ _ _ _ _ _ _ _ _ _) eqn:C;
    eexists; (split; [reflexivity|]); [|exact Hs].
  intros Hg. rewrite comparePatches8_degenerate in C by exact Hg.
  discriminate.
Qed.

Lemma copyPatches8_no_flags lst patches h0 scalefactor gridX gridY :
  (forall i j, patches i j = false) ->
  LDR.copyPatches hsvValue getHsvF hsvF_rgb lst patches h0 scalefactor
    gridX gridY = Done lst.
Proof.
  intros Hnone. unfold LDR.copyPatches.
  destruct (forM_total (fun s => s = lst) 0 (zlength lst)
    (fun h l0 =>
       if h =? h0 then Done l0
       else forM 0 gridSize (fun j l1 =>
              forM 0 gridSize (fun i (l2 : ptrlist QImage) =>
                if patches i j then
                  bind (deref_at l2 h0) (fun image1 =>
                  bind (deref_at l2 h) (fun image2 =>
                  bind (at_ scalefactor h) (fun sf =>
                  Done (zupd l2 h
                          (Some (LDR.copyPatch hsvValue getHsvF hsvF_rgb
                                   image1 image2 i j gridX gridY sf))))))
                else Done l2) l1) l0) lst eq_refl) as [s' [Hrun ->]].
  - intros h s _ ->. destruct (h =? h0); [exists lst; split; reflexivity|].
    apply (forM_total (fun s => s = lst)); [reflexivity|].
    intros j s _ ->.
    apply (forM_total (fun s => s = lst)); [reflexivity|].
    intros i s _ ->. rewrite Hnone. exists lst. split; reflexivity.
  - exact Hrun.
Qed.

(** With every image there, a first image that has pixels and an exposure
    time for every image, the detection on 8-bit images returns, with a
    reference index in range, a scale factor for every image and cells of
    [width / gridSize] by [height / gridSize] pixels; when these cells
    have no pixel, no cell is flagged. *)
Lemma detectLDR_returns lst expotimes threshold :
  all_set lst ->
  0 < zlength lst ->
  0 < qwidth (image_at lst 0) -> 0 < qheight (image_at lst 0) ->
  zlength lst <= zlength expotimes ->
  exists d,
    LDR.detectLDR hslHueF hsvValue getRgbF logf lst expotimes threshold
    = Done d /\
    0 <= d_h0 d < zlength lst /\
    zlength (d_scaleFactor d) = zlength lst /\
    d_gridX d = qwidth (image_at lst 0) / gridSize /\
    d_gridY d = qheight (image_at lst 0) / gridSize /\
    (d_gridX d * d_gridY d = 0 -> forall i j, d_patches d i j = false).
Proof.
  intros Hset Hn Hw Hh Hexp. unfold LDR.detectLDR.
  rewrite deref_image_at by (assumption || lia). cbn [bind].
  rewrite (mapM_ext_Done _
             (fun i => LDR.averageLightness hsvValue (image_at lst i))).
  2:{ intros i Hi. apply range_In in Hi.
      rewrite deref_image_at by assumption. reflexivity. }
  cbn [bind].
  destruct (mapM_total fin (fun i => LDR.hueSquaredMean hslHueF lst i)
              (range 0 (zlength lst))) as [HE (HHE & Hfin & Hlen)].
  { intros k Hk. apply range_In in Hk.
    apply hueSquaredMean8_returns; assumption. }
  rewrite HHE. cbn [bind].
  rewrite range_length in Hlen.
  assert (Hne : HE <> []).
  { intros ->. simpl in Hlen. lia. }
  destruct (findIndex_argmax HE Hne Hfin) as [Hh0 _].
  assert (HlenZ : zlength HE = zlength lst).
  { unfold zlength in *. lia. }
  rewrite HlenZ in Hh0.
  set (avg := fun i => LDR.averageLightness hsvValue (image_at lst i)).
  rewrite (mapM_ext_Done _ (fun i => F.div (avg i) (avg (findIndex HE)))).
  2:{ intros i Hi. apply range_In in Hi.
      unfold at_. rewrite !zth_map_range by lia. reflexivity. }
  cbn [bind].
  destruct (flagPatches8_returns lst expotimes (findIndex HE)
              (qwidth (image_at lst 0) / gridSize)
              (qheight (image_at lst 0) / gridSize) threshold
              Hset Hexp Hh0) as [p [Hp Hnone]].
  rewrite Hp. cbn [bind].
  eexists. split; [reflexivity|]. cbn [d_h0 d_scaleFactor d_gridX d_gridY
                                       d_patches].
  split; [exact Hh0|]. split; [apply zlength_map_range; lia|].
  split; [reflexivity|]. split; [reflexivity | exact Hnone].
Qed.

End SmallImages8.

(** [doAutoAntiGhostingLDR] on images narrower or lower than the grid.  It
    has no check of the image size either.  With every image there, a
    first image of at least one pixel and less than [gridSize] pixels wide
    or high, an exposure time for every image and hues that are numbers,
    the cell extent [gridX * gridY] is 0 and the call raises nothing: it
    returns, no cell is flagged whatever the threshold, and every image is
    left as it was. *)
Theorem small_8bit_image_detection_is_silent
  (hslHueF : Z -> float) (hsvValue : Z -> Z)
  (getRgbF getHsvF : Z -> float * float * float)
  (hsvF_rgb : float -> float -> float -> Z) (logf : float -> float)
  (lst : ptrlist QImage) (expotimes : list float) (threshold : float) :
  (forall p, fin (hslHueF p)) ->
  all_set lst ->
  0 < zlength lst ->
  0 < qwidth (image_at lst 0) -> 0 < qheight (image_at lst 0) ->
  zlength lst <= zlength expotimes ->
  qwidth (image_at lst 0) < gridSize \/ qheight (image_at lst 0) < gridSize ->
  LDR.doAutoAntiGhostingLDR hslHueF hsvValue getRgbF getHsvF hsvF_rgb logf
    lst expotimes threshold = Done lst /\
  exists d,
    LDR.detectLDR hslHueF hsvValue getRgbF logf lst expotimes threshold
    = Done d /\
    d_gridX d * d_gridY d = 0 /\
    (forall i j, d_patches d i j = false).
Proof.
  intros Hhue Hset Hn Hw Hh Hexp Hsmall.
  destruct (detectLDR_returns hslHueF hsvValue getRgbF logf Hhue lst
              expotimes threshold Hset Hn Hw Hh Hexp)
    as [d (Hd & _ & _ & Hgx & Hgy & Hnone)].
  assert (Hg : d_gridX d * d_gridY d = 0).
  { rewrite Hgx, Hgy. destruct Hsmall as [Hs | Hs].
    - rewrite (Z.div_small (qwidth _) gridSize) by lia. lia.
    - rewrite (Z.div_small (qheight _) gridSize) by lia. lia. }
  split.
  - unfold LDR.doAutoAntiGhostingLDR. rewrite Hd. cbn [bind].
    apply copyPatches8_no_flags. exact (Hnone Hg).
  - exists d. split; [exact Hd|]. split; [exact Hg | exact (Hnone Hg)].
Qed.

(** Stand-ins for the Qt conversions on grey pixels stored as their
    value: the hue of a grey is -1, the HSV value is the pixel, as a share
    of 1000 in [getHsvF]. *)
Definition grey_hue (p : Z) : float := Fin (-1).
Definition grey_value (p : Z) : Z := p.
Definition grey_rgbF (p : Z) : float * float * float :=
  (F.of_int p, F.of_int p, F.of_int p).
Definition grey_hsvF (p : Z) : float * float * float :=
  (f0, f0, F.div (F.of_int p) (Fin 1000)).
Definition grey_of_hsvF (h s v : float) : Z := F.to_int (F.mul v (Fin 1000)).

(** Two 10 by 10 images. *)
Definition ten_by_ten8 : ptrlist QImage :=
  [Some (mkImage 10 10 (repeat 100 100)); Some (mkImage 10 10 (repeat 50 100))].

Lemma small_8bit_image_detection_is_silent_witness :
  LDR.doAutoAntiGhostingLDR grey_hue grey_value grey_rgbF grey_hsvF
    grey_of_hsvF (fun x => x) ten_by_ten8 [Fin 1; Fin 2] (Fin (1 # 10))
  = Done ten_by_ten8 /\
  exists d,
    LDR.detectLDR grey_hue grey_value grey_rgbF (fun x => x) ten_by_ten8
      [Fin 1; Fin 2] (Fin (1 # 10)) = Done d /\
    d_gridX d * d_gridY d = 0 /\
    (forall i j, d_patches d i j = false).
Proof.
  apply (small_8bit_image_detection_is_silent grey_hue grey_value grey_rgbF
           grey_hsvF grey_of_hsvF (fun x => x) ten_by_ten8 [Fin 1; Fin 2]
           (Fin (1 # 10))).
  - intros p. eexists; reflexivity.
  - apply all_set_pair.
  - reflexivity.
  - reflexivity.
  - reflexivity.
  - unfold zlength. simpl. lia.
  - left. reflexivity.
Defined.

(** Two images of three pixels in a row, with cells of two pixels by one
    and the first cell flagged. *)
Definition row_pair : ptrlist QImage :=
  [Some (mkImage 3 1 [100; 100; 100]); Some (mkImage 3 1 [7; 7; 7])].

Definition first_cell : grid := fun i j => (i =? 0) && (j =? 0).

Lemma copyPatches8_leaves_alone_witness :
  exists lst',
    LDR.copyPatches grey_value grey_hsvF grey_of_hsvF row_pair first_cell 0
      [Fin 1; Fin 2] 2 1 = Done lst' /\
    image_at lst' 0 = image_at row_pair 0 /\
    forall k x y,
      (forall i j, 0 <= i < gridSize -> 0 <= j < gridSize ->
         in_cell 2 1 i j x y ->
         first_cell i j = false \/
         saturated8 (referenceLightness8 grey_value row_pair 0 2 1 i j)
         = true) ->
      pixel (image_at lst' k) x y = pixel (image_at row_pair k) x y.
Proof.
  apply (copyPatches8_leaves_alone grey_value grey_hsvF grey_of_hsvF
           row_pair 0 2 1 first_cell [Fin 1; Fin 2]).
  - apply all_set_pair.
  - unfold zlength. simpl. lia.
  - reflexivity.
Defined.

(** The same call, run: the two pixels of the flagged cell of the second
    image become 200 (the reference value 100 times the scale factor 2),
    the third pixel keeps its 7, and the reference image stays. *)
Example copyPatches8_one_cell :
  LDR.copyPatches grey_value grey_hsvF grey_of_hsvF row_pair first_cell 0
    [Fin 1; Fin 2] 2 1
  = Done [Some (mkImage 3 1 [100; 100; 100]);
          Some (mkImage 3 1 [200; 200; 7])].
Proof. vm_compute. reflexivity. Qed.

(* ================================================================== *)
(** ** The reference index and images without pixels *)
(* ================================================================== *)

(** On a non-empty array of numbers [findIndex] is the index of the first
    occurrence of the largest element: it is in range, no element is
    larger than the one it points at, and every element before it is
    strictly smaller. *)
Theorem findIndex_first_largest (data : list float) :
  data <> [] -> Forall fin data ->
  0 <= findIndex data < zlength data /\
  exists mx,
    zth data (findIndex data) = Some mx /\
    (forall x, In x data -> F.leb x mx = true) /\
    (forall i x, 0 <= i < findIndex data -> zth data i = Some x ->
       F.ltb x mx = true).
Proof.
  intros Hne Hfin.
  destruct (findIndex_argmax data Hne Hfin) as (Hk & mx & Hmx & Hge & Hfirst).
  split; [exact Hk|]. exists mx. split; [exact Hmx|].
  rewrite Forall_forall in Hfin.
  destruct (Hfin mx (zth_In _ _ _ Hmx)) as [qm ->].
  assert (Hle : forall x, In x data -> exists qx, x = Fin qx /\ (qx <= qm)%Q).
  { intros x Hx. destruct (Hfin x Hx) as [qx ->]. exists qx.
    split; [reflexivity|]. specialize (Hge _ Hx). simpl in Hge.
    apply Qltb_ge in Hge. exact Hge. }
  split.
  - intros x Hx. destruct (Hle x Hx) as (qx & -> & Hq).
    unfold F.leb. simpl. destruct (Qltb qx qm) eqn:E; [reflexivity|].
    apply Qltb_ge in E. apply Qeq_bool_iff. lra.
  - intros i x Hi Hx.
    destruct (Hle x (zth_In _ _ _ Hx)) as (qx & -> & Hq).
    specialize (Hfirst i _ Hi Hx). simpl in Hfirst.
    apply Qeq_bool_neq in Hfirst. simpl. apply Qltb_lt.
    destruct (Qlt_le_dec qx qm) as [H | H]; [exact H|].
    exfalso. apply Hfirst. lra.
Qed.

Lemma max_element_from_nan (l : list float) : max_element_from NaN l = NaN.
Proof. induction l as [|x l IH]; simpl; [reflexivity | exact IH]. Qed.

Lemma findIndex_from_nan (l : list float) : forall i,
  findIndex_from NaN l i = i + zlength l.
Proof.
  unfold zlength. induction l as [|x l IH]; intros i; simpl findIndex_from.
  - simpl. lia.
  - assert (E : F.eqb x NaN = false) by (destruct x; reflexivity).
    rewrite E, IH. simpl length. lia.
Qed.

(** On an array that starts with a NaN, [findIndex] returns the size of
    the array, an index past its end: [std::max_element] keeps the NaN,
    and no element compares equal to it. *)
Theorem findIndex_nan_first (rest : list float) :
  findIndex (NaN :: rest) = zlength (NaN :: rest).
Proof.
  unfold findIndex. simpl max_element. rewrite max_element_from_nan.
  rewrite findIndex_from_nan. reflexivity.
Qed.

Lemma range_head (a b : Z) : a < b -> exists tl, range a b = a :: tl.
Proof.
  intros H. unfold range.
  destruct (Z.to_nat (b - a)) as [|k] eqn:E; [lia|].
  simpl. rewrite Z.add_0_r. eexists. reflexivity.
Qed.

Lemma findIndex_all_nan (l : list float) :
  l <> [] -> (forall x, In x l -> x = NaN) -> findIndex l = zlength l.
Proof.
  intros Hne Hall. destruct l as [|x rest]; [congruence|].
  rewrite (Hall x (or_introl eq_refl)).
  unfold findIndex. simpl max_element. rewrite max_element_from_nan.
  rewrite findIndex_from_nan. reflexivity.
Qed.

Section NoPixels.
Variable logf : float -> float.

Lemma hueSquaredMean_no_pixels (lR lG lB : Array2DfList) (k : Z) :
  all_set lR -> 0 < zlength lR ->
  getCols (plane_at lR 0) * getRows (plane_at lR 0) = 0 ->
  hueSquaredMean lR lG lB k = Done NaN.
Proof.
  intros HR Hn Hzero. unfold hueSquaredMean.
  rewrite (deref_plane_at lR 0 HR) by lia. cbn [bind].
  set (w := getCols (plane_at lR 0)) in *.
  set (h := getRows (plane_at lR 0)) in *.
  destruct (forM_total (fun HS => HS = f0) 0 h
    (fun j HS =>
       forM 0 w (fun i HS0 =>
         bind (fill_hues lR lG lB (range 0 (zlength lR)) i j) (fun hues =>
         bind (hue_at lR lG lB k i j) (fun hk =>
         Done (F.add HS0 (F.mul (F.sub (hueMean hues) hk)
                                (F.sub (hueMean hues) hk)))))) HS)
    f0 eq_refl) as [HS [Hrun ->]].
  - intros j s Hj ->. exists f0. split; [|reflexivity].
    apply forM_empty. nia.
  - rewrite Hrun. cbn [bind]. rewrite Hzero. reflexivity.
Qed.

(** [doAutoAntiGhostingMDR] on exposures that have no pixel (no column or
    no row).  The hue scores are all [0 / 0], so the reference index is
    the number of exposures, and the scale factor of the first exposure
    reads [avgLightness] one past its end: the run is undefined there,
    which the embedding gives as a fault. *)
Theorem empty_images_raise (lR lG lB : Array2DfList)
  (expotimes : list float) (threshold : float) :
  all_set lR -> all_set lG -> all_set lB ->
  zlength lG = zlength lR -> zlength lB = zlength lR ->
  0 < zlength lR ->
  getCols (plane_at lR 0) * getRows (plane_at lR 0) = 0 ->
  raises (doAutoAntiGhostingMDR logf (lR, lG, lB) expotimes threshold).
Proof.
  intros HR HG HB HlG HlB Hn Hzero.
  unfold doAutoAntiGhostingMDR, detectMDR.
  rewrite (deref_plane_at lR 0 HR) by lia. cbn [bind].
  rewrite (mapM_ext_Done _
             (fun i => averageLightness (plane_at lR i) (plane_at lG i)
                         (plane_at lB i))).
  2:{ intros i Hi. apply range_In in Hi.
      rewrite !deref_plane_at by (assumption || lia). reflexivity. }
  cbn [bind].
  rewrite (mapM_ext_Done _ (fun _ => NaN)).
  2:{ intros k _. apply hueSquaredMean_no_pixels; assumption. }
  cbn [bind].
  rewrite findIndex_all_nan.
  2:{ intros E. apply (f_equal (@length float)) in E.
      rewrite length_map, range_length in E. simpl in E. lia. }
  2:{ intros x Hx. apply in_map_iff in Hx. destruct Hx as (k & <- & _).
      reflexivity. }
  rewrite (zlength_map_range (fun _ : Z => NaN)) by lia.
  set (avg := map (fun i => averageLightness (plane_at lR i) (plane_at lG i)
                              (plane_at lB i)) (range 0 (zlength lR))).
  assert (Hpast : at_ avg (zlength lR) = Fault).
  { unfold at_, zth.
    destruct (Z.ltb_spec (zlength lR) 0) as [H | H]; [reflexivity|].
    assert (E : nth_error avg (Z.to_nat (zlength lR)) = None).
    { apply nth_error_None. unfold avg.
      rewrite length_map, range_length. lia. }
    rewrite E. reflexivity. }
  destruct (range_head 0 (zlength lR) Hn) as [tl ->].
  cbn [mapM]. rewrite Hpast.
  destruct (at_ avg 0); exact I.
Qed.

End NoPixels.

(* ================================================================== *)
(** ** Blending under the masks *)
(* ================================================================== *)

(** A mask nowhere painted: the alpha of every value it gives is 0. *)
Definition transparent (mask : QImage) : Prop :=
  (forall k, qAlpha (bits_at mask k) = 0) /\
  (forall x y, qAlpha (pixel mask x y) = 0).

Lemma zth_repeat {A} (a : A) (n : nat) (k : Z) (v : A) :
  zth (repeat a n) k = Some v -> v = a.
Proof.
  unfold zth. destruct (k <? 0); [discriminate|]. intros H.
  apply nth_error_In in H. apply repeat_spec in H. exact H.
Qed.

Lemma transparent_image_transparent (w h : Z) :
  transparent (transparent_image w h).
Proof.
  split.
  - intros k. unfold bits_at, transparent_image. simpl.
    destruct (zth (repeat 0 (Z.to_nat (w * h))) k) as [v|] eqn:E;
      [|reflexivity].
    apply zth_repeat in E. subst v. reflexivity.
  - intros x y. unfold pixel, transparent_image. simpl.
    destruct (valid_coord _ x y); [|reflexivity].
    destruct (zth (repeat 0 (Z.to_nat (w * h))) (y * w + x)) as [v|] eqn:E;
      [|reflexivity].
    apply zth_repeat in E. subst v. reflexivity.
Qed.

Lemma zupd_same {A} (l : list A) (i : Z) (v : A) :
  zth l i = Some v -> zupd l i v = l.
Proof.
  unfold zth, zupd. destruct (i <? 0); [discriminate|].
  generalize (Z.to_nat i). clear i.
  induction l as [|x l IH]; intros [|n]; simpl; try discriminate.
  - intros H. injection H as ->. reflexivity.
  - intros H. rewrite (IH n H). reflexivity.
Qed.

Lemma bits_at_set_bits_at_ne (img : QImage) (i k v : Z) :
  i <> k -> bits_at (set_bits_at img i v) k = bits_at img k.
Proof.
  intros H. unfold bits_at, set_bits_at. simpl.
  rewrite zth_zupd_ne by exact H. reflexivity.
Qed.

Section Blend8.
Variable hsvValue : Z -> Z.
Variable getHsvF : Z -> float * float * float.
Variable hsvF_rgb : float -> float -> float -> Z.

Lemma blend8_transparent (img1 img2 mask maskGoodImage : QImage) :
  (forall k, qAlpha (bits_at mask k) = 0) ->
  (forall k, qAlpha (bits_at maskGoodImage k) = 0) ->
  LDR.blend hsvValue getHsvF hsvF_rgb img1 img2 mask maskGoodImage = img1.
Proof.
  intros Hm Hg. unfold LDR.blend.
  apply (for_inv (fun s => s = img1)); [reflexivity|].
  intros i s _ ->. rewrite Hm, Hg. reflexivity.
Qed.

(** [blend] on 8-bit images keeps the size of the first image, and keeps
    the value at every position where both masks have alpha 0. *)
Theorem blend8_keeps_unmasked (img1 img2 mask maskGoodImage : QImage)
  (k : Z) :
  qAlpha (bits_at mask k) = 0 ->
  qAlpha (bits_at maskGoodImage k) = 0 ->
  let img := LDR.blend hsvValue getHsvF hsvF_rgb img1 img2 mask
               maskGoodImage in
  qwidth img = qwidth img1 /\ qheight img = qheight img1 /\
  bits_at img k = bits_at img1 k.
Proof.
  intros Hm Hg. cbv zeta. unfold LDR.blend.
  apply (for_inv (fun s => qwidth s = qwidth img1 /\
                           qheight s = qheight img1 /\
                           bits_at s k = bits_at img1 k)).
  { repeat split. }
  intros i s _ (Hw & Hh & Hk).
  destruct ((qAlpha (bits_at mask i) =? 0)
            && (qAlpha (bits_at maskGoodImage i) =? 0)) eqn:E.
  { repeat split; assumption. }
  destruct (getHsvF (bits_at img2 i)) as [[hh ss] vv].
  split; [exact Hw|]. split; [exact Hh|].
  rewrite bits_at_set_bits_at_ne; [exact Hk|].
  intros ->. rewrite Hm, Hg in E. discriminate E.
Qed.

End Blend8.

Lemma blend_transparent (R1 G1 B1 R2 G2 B2 : Array2Df)
  (mask maskGoodImage : QImage) :
  (forall x y, qAlpha (pixel mask x y) = 0) ->
  (forall x y, qAlpha (pixel maskGoodImage x y) = 0) ->
  blend R1 G1 B1 R2 G2 B2 mask maskGoodImage = (R1, G1, B1).
Proof.
  intros Hm Hg. unfold blend.
  apply (for_inv (fun t => t = (R1, G1, B1))); [reflexivity|].
  intros j t _ ->.
  apply (for_inv (fun t => t = (R1, G1, B1))); [reflexivity|].
  intros i t _ ->. rewrite Hm, Hg. reflexivity.
Qed.

(** [blend] on planes keeps, in all three planes of the first exposure,
    every pixel (in a column of the planes) where both masks have
    alpha 0. *)
Theorem blend_keeps_unmasked (R1 G1 B1 R2 G2 B2 : Array2Df)
  (mask maskGoodImage : QImage) (w x y : Z) :
  getCols R1 = w -> getCols G1 = w -> getCols B1 = w ->
  0 <= x < w ->
  qAlpha (pixel mask x y) = 0 ->
  qAlpha (pixel maskGoodImage x y) = 0 ->
  let t := blend R1 G1 B1 R2 G2 B2 mask maskGoodImage in
  px (pR t) x y = px R1 x y /\
  px (pG t) x y = px G1 x y /\
  px (pB t) x y = px B1 x y.
Proof.
  intros HR HG HB Hx Hm Hg. cbv zeta. unfold blend.
  set (P := fun t : planes =>
              getCols (pR t) = w /\ getCols (pG t) = w /\
              getCols (pB t) = w /\
              px (pR t) x y = px R1 x y /\
              px (pG t) x y = px G1 x y /\
              px (pB t) x y = px B1 x y).
  match goal with
  | |- px (pR ?t) x y = _ /\ _ =>
      assert (HP : P t); [|destruct HP as (_ & _ & _ & H); exact H]
  end.
  rewrite HR.
  apply (for_inv P).
  { unfold P, pR, pG, pB. cbn [fst snd]. repeat split; assumption. }
  intros j t Hj Ht. apply (for_inv P); [exact Ht|]. clear t Ht.
  intros i [[R' G'] B'] Hi (H1 & H2 & H3 & H4 & H5 & H6).
  unfold pR, pG, pB in H1, H2, H3, H4, H5, H6. cbn [fst snd] in *.
  cbv beta iota zeta.
  destruct ((qAlpha (pixel mask i j) =? 0)
            && (qAlpha (pixel maskGoodImage i j) =? 0)) eqn:E.
  { unfold P, pR, pG, pB. cbn [fst snd]. repeat split; assumption. }
  assert (Hne : x <> i \/ y <> j).
  { destruct (Z.eq_dec x i) as [->|]; [|left; assumption].
    destruct (Z.eq_dec y j) as [->|]; [|right; assumption].
    rewrite Hm, Hg in E. discriminate E. }
  unfold P, pR, pG, pB. cbn [fst snd].
  split; [exact H1|]. split; [exact H2|]. split; [exact H3|].
  rewrite !px_set_px_ne by (lia || assumption).
  repeat split; assumption.
Qed.

Lemma set_ldrImagesList_same (m : HdrCreationManager) :
  set_ldrImagesList (ldrImagesList m) m = m.
Proof. destruct m; reflexivity. Qed.

Lemma set_listmdr_same (m : HdrCreationManager) :
  set_listmdr (get_listmdr m) m = m.
Proof. destruct m; reflexivity. Qed.

Section TransparentMasks.
Variable hsvValue : Z -> Z.
Variable getHsvF : Z -> float * float * float.
Variable hsvF_rgb : float -> float -> float -> Z.

(** [doAntiGhosting] with masks that are nowhere painted changes nothing:
    with every exposure and every mask there and the good image in range,
    the call returns the manager it was given, for both kinds of
    input. *)
Theorem doAntiGhosting_transparent_masks (m : HdrCreationManager)
  (goodImageIndex : Z) :
  blendable m goodImageIndex ->
  (forall k mask, zth (antiGhostingMasksList m) k = Some (Some mask) ->
     transparent mask) ->
  doAntiGhosting hsvValue getHsvF hsvF_rgb m goodImageIndex = Done m.
Proof.
  intros [Hmask Hm] Hclear. unfold doAntiGhosting.
  assert (Hstep : forall (a b : Z) (body : Z -> HdrCreationManager ->
                                            outcome HdrCreationManager),
             (forall idx, a <= idx < b -> body idx m = Done m) ->
             forM a b body m = Done m).
  { intros a b body Hbody.
    destruct (forM_total (fun s => s = m) a b body m eq_refl)
      as [s [Hrun ->]]; [|exact Hrun].
    intros idx s Hidx ->. exists m. split; [apply Hbody; exact Hidx|].
    reflexivity. }
  destruct (inputType m) eqn:Ht; cbn [input_type_eqb].
  - destruct Hm as (HR & HG & HB & Hgood & HlG & HlB & Hlm).
    apply Hstep. intros idx Hidx.
    destruct (negb (idx =? goodImageIndex)); [|reflexivity].
    destruct (all_set_deref _ idx HR ltac:(lia)) as [R1 ER1].
    destruct (all_set_deref _ idx HG ltac:(lia)) as [G1 EG1].
    destruct (all_set_deref _ idx HB ltac:(lia)) as [B1 EB1].
    destruct (all_set_deref _ goodImageIndex HR ltac:(lia)) as [R2 ER2].
    destruct (all_set_deref _ goodImageIndex HG ltac:(lia)) as [G2 EG2].
    destruct (all_set_deref _ goodImageIndex HB ltac:(lia)) as [B2 EB2].
    destruct (all_set_deref _ idx Hmask ltac:(lia)) as [mk Emk].
    destruct (all_set_deref _ goodImageIndex Hmask ltac:(lia)) as [mg Emg].
    rewrite ER1, EG1, EB1, ER2, EG2, EB2, Emk, Emg. cbn [bind].
    apply deref_at_Done in ER1, EG1, EB1, Emk, Emg.
    rewrite (blend_transparent R1 G1 B1 R2 G2 B2 mk mg
               (proj2 (Hclear _ _ Emk)) (proj2 (Hclear _ _ Emg))).
    unfold store_planes, get_listmdr.
    rewrite !zupd_same by assumption.
    f_equal. apply set_listmdr_same.
  - destruct Hm as (HL & Hgood & Hlm).
    apply Hstep. intros idx Hidx.
    destruct (negb (idx =? goodImageIndex)); [|reflexivity].
    destruct (all_set_deref _ idx HL ltac:(lia)) as [img1 E1].
    destruct (all_set_deref _ goodImageIndex HL ltac:(lia)) as [img2 E2].
    destruct (all_set_deref _ idx Hmask ltac:(lia)) as [mk Emk].
    destruct (all_set_deref _ goodImageIndex Hmask ltac:(lia)) as [mg Emg].
    rewrite E1, E2, Emk, Emg. cbn [bind].
    apply deref_at_Done in E1, Emk, Emg.
    rewrite (blend8_transparent hsvValue getHsvF hsvF_rgb img1 img2 mk mg
               (proj1 (Hclear _ _ Emk)) (proj1 (Hclear _ _ Emg))).
    rewrite zupd_same by assumption.
    f_equal. apply set_ldrImagesList_same.
  - destruct Hm as (HR & HG & HB & Hgood & HlG & HlB & Hlm).
    apply Hstep. intros idx Hidx.
    destruct (negb (idx =? goodImageIndex)); [|reflexivity].
    destruct (all_set_deref _ idx HR ltac:(lia)) as [R1 ER1].
    destruct (all_set_deref _ idx HG ltac:(lia)) as [G1 EG1].
    destruct (all_set_deref _ idx HB ltac:(lia)) as [B1 EB1].
    destruct (all_set_deref _ goodImageIndex HR ltac:(lia)) as [R2 ER2].
    destruct (all_set_deref _ goodImageIndex HG ltac:(lia)) as [G2 EG2].
    destruct (all_set_deref _ goodImageIndex HB ltac:(lia)) as [B2 EB2].
    destruct (all_set_deref _ idx Hmask ltac:(lia)) as [mk Emk].
    destruct (all_set_deref _ goodImageIndex Hmask ltac:(lia)) as [mg Emg].
    rewrite ER1, EG1, EB1, ER2, EG2, EB2, Emk, Emg. cbn [bind].
    apply deref_at_Done in ER1, EG1, EB1, Emk, Emg.
    rewrite (blend_transparent R1 G1 B1 R2 G2 B2 mk mg
               (proj2 (Hclear _ _ Emk)) (proj2 (Hclear _ _ Emg))).
    unfold store_planes, get_listmdr.
    rewrite !zupd_same by assumption.
    f_equal. apply set_listmdr_same.
Qed.

End TransparentMasks.

(* ================================================================== *)
(** ** Size checks and accepted arrivals *)
(* ================================================================== *)

Lemma ldrsHaveSameSize_from_spec (l : ptrlist QImage) (w h : Z) :
  ldrsHaveSameSize_from l w h = true <->
  forall img, In (Some img) l -> qwidth img = w /\ qheight img = h.
Proof.
  induction l as [|p l IH]; simpl.
  - split; [intros _ img [] | reflexivity].
  - destruct p as [img0|].
    + destruct (Z.eqb_spec (qwidth img0) w) as [Ew | Ew];
        destruct (Z.eqb_spec (qheight img0) h) as [Eh | Eh]; simpl.
      * rewrite IH. split.
        -- intros H img [E | Hin]; [injection E as <-; split; assumption|].
           apply H. exact Hin.
        -- intros H img Hin. apply H. right. exact Hin.
      * split; [discriminate|]. intros H.
        destruct (H img0 (or_introl eq_refl)). contradiction.
      * split; [discriminate|]. intros H.
        destruct (H img0 (or_introl eq_refl)). contradiction.
      * split; [discriminate|]. intros H.
        destruct (H img0 (or_introl eq_refl)). contradiction.
    + rewrite IH. split.
      * intros H img [E | Hin]; [discriminate E | apply H; exact Hin].
      * intros H img Hin. apply H. right. exact Hin.
Qed.

(** [ldrsHaveSameSize(w, h)] is true exactly when every image that is
    there (every pointer of [ldrImagesList] that is not null) is [w] wide
    and [h] high; null pointers are passed over, and an empty list
    gives true. *)
Theorem ldrsHaveSameSize_iff (m : HdrCreationManager) (w h : Z) :
  ldrsHaveSameSize m w h = true <->
  forall k img, zth (ldrImagesList m) k = Some (Some img) ->
    qwidth img = w /\ qheight img = h.
Proof.
  unfold ldrsHaveSameSize. rewrite ldrsHaveSameSize_from_spec. split.
  - intros H k img Hk. apply H. eapply zth_In. exact Hk.
  - intros H img Hin. apply In_nth_error in Hin. destruct Hin as [n Hn].
    apply (H (Z.of_nat n)). unfold zth.
    destruct (Z.ltb_spec (Z.of_nat n) 0); [lia|].
    rewrite Nat2Z.id. exact Hn.
Qed.

(** The three planes of exposure [i], when all three are there. *)
Definition triple_at (m : HdrCreationManager) (i : Z)
  (R G B : Array2Df) : Prop :=
  zth (listmdrR m) i = Some (Some R) /\
  zth (listmdrG m) i = Some (Some G) /\
  zth (listmdrB m) i = Some (Some B).

Definition sized (a : Array2Df) (w h : Z) : Prop :=
  getCols a = w /\ getRows a = h.

Lemma differs_false (a : Array2Df) (w h : Z) :
  differs a w h = false <-> sized a w h.
Proof.
  unfold differs, sized.
  destruct (Z.eqb_spec (getCols a) w), (Z.eqb_spec (getRows a) h); simpl;
    split; intros H; try discriminate; try tauto; destruct H; contradiction.
Qed.

Lemma mdrsHaveSameSize_from_spec (m : HdrCreationManager) (w h : Z)
  (idx : list Z) :
  (forall i, In i idx ->
     0 <= i < zlength (listmdrR m) /\ i < zlength (listmdrG m) /\
     i < zlength (listmdrB m)) ->
  exists same,
    mdrsHaveSameSize_from m idx w h = Done same /\
    (same = true <->
     forall i R G B, In i idx -> triple_at m i R G B ->
       sized R w h /\ sized G w h /\ sized B w h).
Proof.
  induction idx as [|i idx IH]; intros Hin.
  - exists true. split; [reflexivity|]. split; [intros _ i R G B []|reflexivity].
  - destruct (Hin i (or_introl eq_refl)) as (HiR & HiG & HiB).
    destruct IH as [same [Hrun Hsame]];
      [intros k Hk; apply Hin; right; exact Hk|].
    destruct (zth_in_range (listmdrR m) i ltac:(lia)) as [pR EpR].
    destruct (zth_in_range (listmdrG m) i ltac:(lia)) as [pG EpG].
    destruct (zth_in_range (listmdrB m) i ltac:(lia)) as [pB EpB].
    simpl mdrsHaveSameSize_from. unfold at_. rewrite EpR, EpG, EpB.
    cbn [bind].
    assert (Hskip : (forall R G B, ~ triple_at m i R G B) ->
              exists same0,
                mdrsHaveSameSize_from m idx w h = Done same0 /\
                (same0 = true <->
                 forall k R G B, In k (i :: idx) -> triple_at m k R G B ->
                   sized R w h /\ sized G w h /\ sized B w h)).
    { intros Hno. exists same. split; [exact Hrun|]. rewrite Hsame. split.
      - intros H k R G B [<- | Hk] Ht; [destruct (Hno _ _ _ Ht)|].
        apply (H k); assumption.
      - intros H k R G B Hk. apply H. right. exact Hk. }
    destruct pR as [R|];
      [|apply Hskip; intros R G B (E & _ & _); congruence].
    destruct pG as [G|];
      [|apply Hskip; intros R' G B (_ & E & _); congruence].
    destruct pB as [B|];
      [|apply Hskip; intros R' G' B (_ & _ & E); congruence].
    destruct (differs R w h || differs G w h || differs B w h) eqn:Ed.
    + exists false. split; [reflexivity|]. split; [discriminate|].
      intros H. exfalso.
      destruct (H i R G B (or_introl eq_refl)) as (HR & HG & HB).
      { repeat split; assumption. }
      apply differs_false in HR, HG, HB. rewrite HR, HG, HB in Ed.
      discriminate Ed.
    + exists same. split; [exact Hrun|]. rewrite Hsame.
      apply orb_false_iff in Ed. destruct Ed as [Ed EB].
      apply orb_false_iff in Ed. destruct Ed as [ER EG].
      apply differs_false in ER, EG, EB. split.
      * intros H k R' G' B' [<- | Hk] (E1 & E2 & E3).
        -- assert (R' = R) by congruence. assert (G' = G) by congruence.
           assert (B' = B) by congruence. subst R' G' B'.
           split; [exact ER | split; [exact EG | exact EB]].
        -- apply (H k); [exact Hk | repeat split; assumption].
      * intros H k R' G' B' Hk. apply H. right. exact Hk.
Qed.

(** [mdrsHaveSameSize(w, h)], on lists [listmdrG] and [listmdrB] at least
    as long as [listmdrR], returns, and returns true exactly when at every
    index where all three planes are there, all three have [w] columns
    and [h] rows.  An index with one of the three pointers null is not
    checked. *)
Theorem mdrsHaveSameSize_spec (m : HdrCreationManager) (w h : Z) :
  zlength (listmdrR m) <= zlength (listmdrG m) ->
  zlength (listmdrR m) <= zlength (listmdrB m) ->
  exists same,
    mdrsHaveSameSize m w h = Done same /\
    (same = true <->
     forall i R G B, triple_at m i R G B ->
       sized R w h /\ sized G w h /\ sized B w h).
Proof.
  intros HG HB. unfold mdrsHaveSameSize.
  destruct (mdrsHaveSameSize_from_spec m w h (range 0 (zlength (listmdrR m))))
    as [same [Hrun Hsame]].
  { intros i Hi. apply range_In in Hi. lia. }
  exists same. split; [exact Hrun|]. rewrite Hsame. split.
  - intros H i R G B Ht. apply (H i); [|exact Ht].
    apply range_In. destruct Ht as (E & _ & _).
    apply zth_Some_range in E. exact E.
  - intros H i R G B _. apply H.
Qed.

(** The width and height an arrival is checked with. *)
Definition arrival_size (a : arrival) : Z * Z :=
  match a with
  | LdrArrival img _ _ _ _ => (qwidth img, qheight img)
  | MdrArrival fr _ _ _ => (getCols (chanX fr), getRows (chanX fr))
  end.

Definition arrival_name (a : arrival) : string :=
  match a with
  | LdrArrival _ _ _ n _ => n
  | MdrArrival _ _ _ n => n
  end.

Section ArrivalFacts.
Variable fromHDRPFStoQImage : Frame -> QImage.
Variable fileName : string -> string.

Lemma size_mismatch_step m1 a b :
  m_loadingError m1 = false ->
  inputType m1 = arrival_kind a -> holds m1 a ->
  arrival_kind b = arrival_kind a ->
  arrival_size b <> arrival_size a ->
  zlength (listmdrG m1) = zlength (listmdrR m1) ->
  zlength (listmdrB m1) = zlength (listmdrR m1) ->
  exists m2,
    deliver fromHDRPFStoQImage fileName m1 b = Done m2 /\
    emitted m2
    = emitted m1 ++ [errorWhileLoading (msg_invalid_size (arrival_name b))] /\
    m_loadingError m2 = true /\
    same_set m1 m2.
Proof.
  intros Hok Htype Hheld Hkind Hsize HlG HlB.
  destruct b as [img i t n tiff | fr i t n];
    destruct a as [img' i' t' n' tiff' | fr' i' t' n'];
    simpl in Hkind, Htype, Hheld, Hsize; try discriminate Hkind.
  - simpl. unfold ldrReady. rewrite Hok, Htype. cbn [input_type_eqb].
    destruct (ldrsHaveSameSize (set_inputType LDR_INPUT_TYPE m1)
                (qwidth img) (qheight img)) eqn:Esame.
    { exfalso. apply Hsize.
      unfold ldrsHaveSameSize in Esame.
      rewrite ldrsHaveSameSize_from_spec in Esame.
      destruct (Esame img') as [Ew Eh].
      { eapply zth_In. exact Hheld. }
      rewrite Ew, Eh. reflexivity. }
    cbn [negb]. eexists. split; [reflexivity|].
    split; [reflexivity|]. split; [reflexivity|].
    unfold same_set. simpl. rewrite Htype. reflexivity.
  - simpl. unfold mdrReady. rewrite Hok, Htype. cbn [input_type_eqb].
    destruct (mdrsHaveSameSize_from_spec
                (set_inputType MDR_INPUT_TYPE m1)
                (getCols (chanX fr)) (getRows (chanX fr))
                (range 0 (zlength (listmdrR m1))))
      as [same [Hrun Hsame]].
    { intros k Hk. apply range_In in Hk. simpl. lia. }
    unfold mdrsHaveSameSize.
    change (listmdrR (set_inputType MDR_INPUT_TYPE m1)) with (listmdrR m1).
    rewrite Hrun. cbn [bind].
    destruct same.
    { exfalso. apply Hsize.
      destruct Hheld as (ER & EG & EB).
      destruct (proj1 Hsame eq_refl i' (chanX fr') (chanY fr') (chanZ fr'))
        as ((Ew & Eh) & _).
      { apply range_In. apply zth_Some_range in ER. exact ER. }
      { repeat split; assumption. }
      rewrite Ew, Eh. reflexivity. }
    cbn [negb]. eexists. split; [reflexivity|].
    split; [reflexivity|]. split; [reflexivity|].
    unfold same_set. simpl. rewrite Htype. reflexivity.
Qed.

(** Let an arrival [a] be accepted, and let an arrival [b] of the same
    kind but of another width or height come next.  Then [b] raises the
    invalid-size error with its file name, the error flag goes up, the set
    is left as it was, with the data of [a] in it, and every further
    arrival only emits [processed]. *)
Theorem size_mismatch_is_fatal m0 a m1 b :
  deliver fromHDRPFStoQImage fileName m0 a = Done m1 ->
  m_loadingError m1 = false ->
  arrival_kind b = arrival_kind a ->
  arrival_size b <> arrival_size a ->
  zlength (listmdrG m1) = zlength (listmdrR m1) ->
  zlength (listmdrB m1) = zlength (listmdrR m1) ->
  exists m2,
    deliver fromHDRPFStoQImage fileName m1 b = Done m2 /\
    emitted m2
    = emitted m1 ++ [errorWhileLoading (msg_invalid_size (arrival_name b))] /\
    m_loadingError m2 = true /\
    same_set m1 m2 /\
    holds m2 a /\
    forall rest, exists m3,
      deliver_all fromHDRPFStoQImage fileName m2 rest = Done m3 /\
      same_set m2 m3 /\
      holds m3 a /\
      m_loadingError m3 = true /\
      emitted m3 = emitted m2 ++ repeat processed (length rest).
Proof.
  intros Hrun Hok Hkind Hsize HlG HlB.
  destruct (accepted_arrival fromHDRPFStoQImage fileName m0 a m1 Hrun Hok)
    as [Htype Hheld].
  destruct (size_mismatch_step m1 a b Hok Htype Hheld Hkind Hsize HlG HlB)
    as (m2 & Hb & Hsig & Herr & Hsame).
  exists m2. repeat (split; [assumption|]).
  split; [eapply holds_same_set; eassumption|].
  intros rest.
  destruct (deliver_all_errored fromHDRPFStoQImage fileName rest m2 Herr)
    as [m3 (Hrest & Hsame3 & Herr3 & Hsig3)].
  exists m3. repeat (split; [assumption|]).
  split; [|split; assumption].
  eapply holds_same_set; [exact Hsame3|].
  eapply holds_same_set; eassumption.
Qed.

(** After [loadFailed] every arrival is turned away: the containers stay
    as they were before the failure, the error flag stays up, and the
    signals are the error with its message followed by one [processed]
    for each arrival. *)
Theorem loadFailed_is_fatal (m : HdrCreationManager) (msg : string)
  (index : Z) (rest : list arrival) :
  exists m',
    deliver_all fromHDRPFStoQImage fileName (loadFailed m msg index) rest
    = Done m' /\
    same_set m m' /\
    m_loadingError m' = true /\
    emitted m'
    = emitted m ++ errorWhileLoading (msg_other msg)
                   :: repeat processed (length rest).
Proof.
  destruct (deliver_all_errored fromHDRPFStoQImage fileName rest
              (loadFailed m msg index) eq_refl)
    as [m' (Hrun & Hsame & Herr & Hsig)].
  exists m'. split; [exact Hrun|]. split; [|split; [exact Herr|]].
  - unfold same_set in *. rewrite Hsame. reflexivity.
  - rewrite Hsig. simpl. rewrite <- app_assoc. reflexivity.
Qed.

End ArrivalFacts.

(** A manager whose per-file containers all have [n] slots, as
    [setFileList] sizes them. *)
Definition slots (m : HdrCreationManager) (n : Z) : Prop :=
  zlength (fileList m) = n /\ zlength (filesToRemove m) = n /\
  zlength (expotimes m) = n /\ zlength (ldrImagesList m) = n /\
  zlength (mdrImagesList m) = n /\ zlength (antiGhostingMasksList m) = n /\
  zlength (listmdrR m) = n /\ zlength (listmdrG m) = n /\
  zlength (listmdrB m) = n.

Lemma store_in_range {A} (l : list A) (i : Z) (v : A) :
  0 <= i < zlength l -> store l i v = Done (zupd l i v).
Proof.
  intros H. unfold store.
  destruct (Z.leb_spec 0 i); [|lia]. destruct (Z.ltb_spec i (zlength l));
    [reflexivity | lia].
Qed.

(** Unfolds the field updates and reads the fields of the result. *)
Ltac fields :=
  unfold set_m_data, set_inputType, set_m_loadingError, set_counters,
    set_mdrSize, set_filesToRemove, set_filesLackingExif, set_expotimes,
    set_ldrImagesList, set_mdrImagesList, set_antiGhostingMasksList,
    set_listmdr, get_listmdr, emit;
  cbn [m_data inputType m_loadingError fromCommandLine m_runningThreads
       m_processedFiles m_mdrWidth m_mdrHeight fileList filesToRemove
       filesLackingExif expotimes ldrImagesList mdrImagesList
       antiGhostingMasksList listmdrR listmdrG listmdrB emitted fst snd].

Lemma mdrsHaveSameSize_from_ext (m m' : HdrCreationManager) (w h : Z)
  (idx : list Z) :
  get_listmdr m = get_listmdr m' ->
  mdrsHaveSameSize_from m idx w h = mdrsHaveSameSize_from m' idx w h.
Proof.
  unfold get_listmdr. intros E. injection E as ER EG EB.
  induction idx as [|i idx IH]; simpl; [reflexivity|].
  rewrite ER, EG, EB, IH. reflexivity.
Qed.

Lemma mdrsHaveSameSize_ext (m m' : HdrCreationManager) (w h : Z) :
  get_listmdr m = get_listmdr m' ->
  mdrsHaveSameSize m w h = mdrsHaveSameSize m' w h.
Proof.
  intros E. unfold mdrsHaveSameSize.
  rewrite (mdrsHaveSameSize_from_ext m m' w h _ E).
  unfold get_listmdr in E. injection E as -> _ _. reflexivity.
Qed.

Section Accepted.
Variable fromHDRPFStoQImage : Frame -> QImage.
Variable fileName : string -> string.

(** What [ldrReady] does with an image it accepts.  With containers of
    [n] slots, an index in range, the error flag down, no HDR frame
    accepted before and every image already there of the size of the new
    one, the call returns; the containers keep their [n] slots, the image
    is stored at its index and no other image moves, the exposure time
    is stored, a transparent mask of the size of the image is stored
    unless the run is from the command line, one thread less is counted
    running and one file more processed, and the signals are [fileLoaded]
    with the name of the requested file, then [processed]. *)
Theorem ldrReady_accepts (m : HdrCreationManager) (n : Z)
  (newImage : QImage) (index : Z) (expotime : float) (newfname : string)
  (ldrtiff : bool) :
  slots m n -> 0 <= index < n ->
  m_loadingError m = false ->
  inputType m <> MDR_INPUT_TYPE ->
  ldrsHaveSameSize m (qwidth newImage) (qheight newImage) = true ->
  exists m' fname,
    ldrReady fileName m newImage index expotime newfname ldrtiff = Done m' /\
    zth (fileList m) index = Some fname /\
    slots m' n /\
    m_loadingError m' = false /\
    inputType m' = LDR_INPUT_TYPE /\
    zth (ldrImagesList m') index = Some (Some newImage) /\
    (forall k, k <> index ->
       zth (ldrImagesList m') k = zth (ldrImagesList m) k) /\
    zth (expotimes m') index = Some expotime /\
    (fromCommandLine m = false ->
     zth (antiGhostingMasksList m') index
     = Some (Some (transparent_image (qwidth newImage) (qheight newImage)))) /\
    m_runningThreads m' = m_runningThreads m - 1 /\
    m_processedFiles m' = m_processedFiles m + 1 /\
    emitted m' = emitted m ++ [fileLoaded index fname expotime; processed].
Proof.
  destruct m as [d it e fc rt pf mw mh fl ftr fle et ldr mdr masks lR lG lB em].
  unfold slots. fields.
  intros (HfL & HfR & Het & HlL & HlM & HlA & HlR & HlG & HlB) Hidx -> Htype
    Hsame.
  destruct (zth_in_range fl index ltac:(lia)) as [fname Efn].
  unfold ldrReady. fields.
  assert (Et : input_type_eqb it MDR_INPUT_TYPE = false)
    by (destruct it; [reflexivity | reflexivity | congruence]).
  rewrite Et.
  change (ldrsHaveSameSize _ (qwidth newImage) (qheight newImage))
    with (ldrsHaveSameSize
            (mkManager d it false fc rt pf mw mh fl ftr fle et ldr mdr masks
               lR lG lB em) (qwidth newImage) (qheight newImage)).
  rewrite Hsame. cbn [negb].
  rewrite (store_in_range ldr) by lia. cbn [bind].
  unfold newResult, at_.
  destruct fc; cbn [negb bind]; fields;
    rewrite ?(store_in_range masks) by lia; cbn [bind]; fields;
    rewrite Efn; cbn [bind];
    (destruct (negb (String.eqb fname newfname)); cbn [bind]; fields;
     rewrite ?(store_in_range ftr) by lia; cbn [bind]; fields;
     rewrite (store_in_range et) by lia; cbn [bind]; fields;
     destruct (F.eqb expotime (Fin (-1))); fields;
     (eexists; exists fname; split; [reflexivity|]); fields;
     rewrite ?zlength_zupd;
     repeat match goal with
     | |- _ /\ _ => split
     | |- forall _, _ => intro
     end;
     try assumption; try reflexivity; try discriminate;
     try (apply zth_zupd_eq; lia);
     try (apply zth_zupd_ne; congruence);
     try (rewrite <- app_assoc; reflexivity)).
Qed.

(** What [mdrReady] does with a frame it accepts.  With containers of [n]
    slots, an index in range, the error flag down, no 8-bit image
    accepted before and every frame already there of the size of the new
    one, the call returns; the three planes of the frame are stored at
    the index and no other plane moves, the size of the frame is
    recorded, the exposure time is stored, the preview and a transparent
    mask are stored unless the run is from the command line, the counters
    move by one and the signals are [fileLoaded], then [processed]. *)
Theorem mdrReady_accepts (m : HdrCreationManager) (n : Z)
  (newFrame : Frame) (index : Z) (expotime : float) (newfname : string) :
  slots m n -> 0 <= index < n ->
  m_loadingError m = false ->
  inputType m <> LDR_INPUT_TYPE ->
  mdrsHaveSameSize m (getCols (chanX newFrame)) (getRows (chanX newFrame))
  = Done true ->
  exists m' fname,
    mdrReady fromHDRPFStoQImage fileName m newFrame index expotime newfname
    = Done m' /\
    zth (fileList m) index = Some fname /\
    slots m' n /\
    m_loadingError m' = false /\
    inputType m' = MDR_INPUT_TYPE /\
    triple_at m' index (chanX newFrame) (chanY newFrame) (chanZ newFrame) /\
    (forall k, k <> index ->
       zth (listmdrR m') k = zth (listmdrR m) k /\
       zth (listmdrG m') k = zth (listmdrG m) k /\
       zth (listmdrB m') k = zth (listmdrB m) k) /\
    m_mdrWidth m' = getCols (chanX newFrame) /\
    m_mdrHeight m' = getRows (chanX newFrame) /\
    zth (expotimes m') index = Some expotime /\
    (fromCommandLine m = false ->
     zth (mdrImagesList m') index = Some (Some (fromHDRPFStoQImage newFrame)) /\
     zth (antiGhostingMasksList m') index
     = Some (Some (transparent_image (getCols (chanX newFrame))
                     (getRows (chanX newFrame))))) /\
    m_runningThreads m' = m_runningThreads m - 1 /\
    m_processedFiles m' = m_processedFiles m + 1 /\
    emitted m' = emitted m ++ [fileLoaded index fname expotime; processed].
Proof.
  destruct m as [d it e fc rt pf mw mh fl ftr fle et ldr mdr masks lR lG lB em].
  unfold slots, triple_at. fields.
  intros (HfL & HfR & Het & HlL & HlM & HlA & HlR & HlG & HlB) Hidx -> Htype
    Hsame.
  destruct (zth_in_range fl index ltac:(lia)) as [fname Efn].
  unfold mdrReady. fields.
  assert (Et : input_type_eqb it LDR_INPUT_TYPE = false)
    by (destruct it; [reflexivity | congruence | reflexivity]).
  rewrite Et.
  rewrite (mdrsHaveSameSize_ext _
             (mkManager d it false fc rt pf mw mh fl ftr fle et ldr mdr masks
                lR lG lB em)) by reflexivity.
  rewrite Hsame. cbn [negb bind].
  unfold newResult, at_.
  destruct fc; cbn [negb bind]; fields;
    rewrite ?(store_in_range mdr) by lia; cbn [bind]; fields;
    rewrite ?(store_in_range masks) by lia; cbn [bind]; fields;
    rewrite (store_in_range lR) by lia; cbn [bind];
    rewrite (store_in_range lG) by lia; cbn [bind];
    rewrite (store_in_range lB) by lia; cbn [bind]; fields;
    rewrite Efn; cbn [bind];
    (destruct (negb (String.eqb fname newfname)); cbn [bind]; fields;
     rewrite ?(store_in_range ftr) by lia; cbn [bind]; fields;
     rewrite (store_in_range et) by lia; cbn [bind]; fields;
     destruct (F.eqb expotime (Fin (-1))); fields;
     (eexists; exists fname; split; [reflexivity|]); fields;
     rewrite ?zlength_zupd;
     repeat match goal with
     | |- _ /\ _ => split
     | |- forall _, _ => intro
     end;
     try assumption; try reflexivity; try discriminate;
     try (apply zth_zupd_eq; lia);
     try (apply zth_zupd_ne; congruence);
     try (rewrite <- app_assoc; reflexivity)).
Qed.

End Accepted.

(** An exposure time that is the sentinel of a missing EXIF value. *)
Definition missing (t : float) : bool := F.eqb t (Fin (-1)).

Definition count_missing (l : list float) : Z := zlength (filter missing l).

Lemma count_missing_upd (l : list float) : forall (k : nat) (old v : float),
  nth_error l k = Some old ->
  count_missing (upd k v l)
  = count_missing l - (if missing old then 1 else 0)
    + (if missing v then 1 else 0).
Proof.
  unfold count_missing, zlength.
  induction l as [|x l IH]; intros [|k] old v H; simpl in H; try discriminate.
  - injection H as ->. simpl.
    destruct (missing old), (missing v); simpl length; lia.
  - simpl. specialize (IH k old v H).
    destruct (missing x); simpl length; lia.
Qed.

Section SetEV.
Variable exp2f : float -> float.

(** [setEV] keeps the list of the files without exposure data as long as
    the number of exposure times that are the marker [-1].  With the
    index in range, the two numbers equal before the call and a new
    exposure time that is not [-1], the call returns, stores [exp2f] of
    the new value at the index and nowhere else, the two numbers are
    equal again, and [expotimeValueChanged] is emitted. *)
Theorem setEV_keeps_missing_count (m : HdrCreationManager) (new_ev : float)
  (image_idx : Z) :
  0 <= image_idx < zlength (expotimes m) ->
  zlength (filesLackingExif m) = count_missing (expotimes m) ->
  missing (exp2f new_ev) = false ->
  exists m',
    setEV exp2f m new_ev image_idx = Done m' /\
    zth (expotimes m') image_idx = Some (exp2f new_ev) /\
    (forall k, k <> image_idx ->
       zth (expotimes m') k = zth (expotimes m) k) /\
    zlength (filesLackingExif m') = count_missing (expotimes m') /\
    emitted m'
    = emitted m ++ [expotimeValueChanged (exp2f new_ev) image_idx].
Proof.
  intros Hidx Hinv Hnew.
  destruct (zth_in_range (expotimes m) image_idx Hidx) as [old Eold].
  unfold setEV, at_. rewrite Eold. cbn [bind].
  assert (Hcount : count_missing (zupd (expotimes m) image_idx (exp2f new_ev))
                   = count_missing (expotimes m)
                     - (if missing old then 1 else 0)).
  { unfold zupd. destruct (Z.ltb_spec image_idx 0); [lia|].
    rewrite (count_missing_upd _ _ old).
    - rewrite Hnew. lia.
    - unfold zth in Eold. destruct (Z.ltb_spec image_idx 0); [lia|].
      exact Eold. }
  fold (missing old). destruct (missing old) eqn:Emiss; fields;
    rewrite store_in_range by exact Hidx; cbn [bind];
    (eexists; split; [reflexivity|]); fields.
  - split; [apply zth_zupd_eq; exact Hidx|].
    split; [intros k Hk; apply zth_zupd_ne; congruence|].
    split; [|reflexivity].
    rewrite Hcount.
    assert (Hpos : 0 < count_missing (expotimes m)).
    { unfold count_missing, zlength, zth in *.
      destruct (Z.ltb_spec image_idx 0); [lia|].
      apply nth_error_In in Eold.
      assert (Hin : In old (filter missing (expotimes m)))
        by (apply filter_In; split; assumption).
      destruct (filter missing (expotimes m)); [destruct Hin|].
      simpl length. lia. }
    unfold zlength in *. destruct (filesLackingExif m); simpl in *; lia.
  - split; [apply zth_zupd_eq; exact Hidx|].
    split; [intros k Hk; apply zth_zupd_ne; congruence|].
    split; [|reflexivity]. rewrite Hcount. lia.
Qed.

End SetEV.

(* ================================================================== *)
(** ** Loading and removing files *)
(* ================================================================== *)

Lemma set_m_data_same (m : HdrCreationManager) : set_m_data (m_data m) m = m.
Proof. destruct m; reflexivity. Qed.

Lemma zth_app_l {A} (l1 l2 : list A) (k : Z) :
  k < zlength l1 -> zth (l1 ++ l2) k = zth l1 k.
Proof.
  unfold zth, zlength. intros H. destruct (Z.ltb_spec k 0); [reflexivity|].
  apply nth_error_app1. lia.
Qed.

Lemma zth_firstn_skipn {A} (l : list A) (n : nat) (k : Z) :
  (n < length l)%nat ->
  zlength (firstn n l ++ skipn (S n) l) = zlength l - 1 /\
  (0 <= k < Z.of_nat n -> zth (firstn n l ++ skipn (S n) l) k = zth l k) /\
  (Z.of_nat n <= k -> zth (firstn n l ++ skipn (S n) l) k = zth l (k + 1)).
Proof.
  intros Hn. unfold zlength, zth.
  assert (Hf : length (firstn n l) = n) by (apply firstn_length_le; lia).
  split; [|split].
  - rewrite length_app, Hf, length_skipn. lia.
  - intros Hk. destruct (Z.ltb_spec k 0); [lia|].
    rewrite nth_error_app1 by lia.
    rewrite nth_error_firstn.
    destruct (Nat.ltb_spec (Z.to_nat k) n); [reflexivity | lia].
  - intros Hk. destruct (Z.ltb_spec k 0); [lia|].
    destruct (Z.ltb_spec (k + 1) 0); [lia|].
    rewrite nth_error_app2 by lia. rewrite Hf.
    rewrite nth_error_skipn. f_equal. lia.
Qed.

Section LoadingFacts.
Variable readFrame : string -> option Frame.
Variable getAverageLuminance : string -> option float.
Variable convertSample : float -> Z.

(** A requested path enters the set when no item of the set has it as file
    name and its frame can be read. *)
Definition enters (data : list HdrCreationItem) (f : string) : bool :=
  match find (fun item => checkFileName item f) data with
  | Some _ => false
  | None => match readFrame f with Some _ => true | None => false end
  end.

Lemma isValid_LoadFile (f : string) :
  isValid (LoadFile readFrame getAverageLuminance convertSample (new_item f))
  = match readFrame f with Some _ => true | None => false end.
Proof.
  unfold LoadFile. simpl. destruct (readFrame f); [|reflexivity].
  destruct (getAverageLuminance f); reflexivity.
Qed.

Lemma loaded_names (data : list HdrCreationItem) (filenames : list string) :
  map filename
    (filter isValid
       (map (LoadFile readFrame getAverageLuminance convertSample)
          (schedule data filenames)))
  = filter (enters data) filenames.
Proof.
  induction filenames as [|f rest IH]; simpl; [reflexivity|].
  unfold enters at 1.
  destruct (find (fun item => checkFileName item f) data); [exact IH|].
  simpl. rewrite isValid_LoadFile.
  destruct (readFrame f) eqn:E; [|exact IH].
  simpl. rewrite LoadFile_filename, IH. reflexivity.
Qed.

(** What [loadFiles] adds.  A canceled load leaves the set as it was.
    Otherwise the items of the set are kept, in order, and the new items
    come after them: one valid item for each requested path that is the
    file name of no item the set had before the call and whose frame can
    be read, in the order of the request.  A path requested twice is
    added twice. *)
Theorem loadFiles_appends_readable (m : HdrCreationManager)
  (filenames : list string) :
  loadFiles readFrame getAverageLuminance convertSample m filenames true = m /\
  exists added,
    loadFiles readFrame getAverageLuminance convertSample m filenames false
    = set_m_data (m_data m ++ added) m /\
    map filename added = filter (enters (m_data m)) filenames /\
    Forall (fun item => isValid item = true) added.
Proof.
  split; [reflexivity|].
  eexists. split; [reflexivity|]. split; [apply loaded_names|].
  apply Forall_forall. intros item Hin. apply filter_In in Hin. tauto.
Qed.

(** Loading one file that enters the set and then removing the item at
    the index the set had as size gives back the manager as it was. *)
Theorem removeFile_undoes_loadFiles (m : HdrCreationManager) (f : string) :
  enters (m_data m) f = true ->
  removeFile
    (loadFiles readFrame getAverageLuminance convertSample m [f] false)
    (zlength (m_data m))
  = Done m.
Proof.
  intros Hin. unfold enters in Hin. unfold loadFiles. simpl schedule.
  destruct (find (fun item => checkFileName item f) (m_data m));
    [discriminate|].
  simpl map. simpl filter. rewrite isValid_LoadFile.
  destruct (readFrame f); [|discriminate].
  unfold removeFile, zlength. destruct m as [d ? ? ? ? ? ? ? ? ? ? ? ? ? ? ? ? ? ?].
  simpl m_data. rewrite length_app. simpl length.
  destruct (Z.leb_spec 0 (Z.of_nat (length d))); [|lia].
  destruct (Z.ltb_spec (Z.of_nat (length d)) (Z.of_nat (length d + 1)));
    [|lia].
  simpl andb. cbv iota. rewrite Nat2Z.id.
  rewrite firstn_app, Nat.sub_diag, firstn_all. simpl firstn.
  rewrite app_nil_r.
  rewrite skipn_all2 by (rewrite length_app; simpl; lia).
  rewrite app_nil_r. reflexivity.
Qed.

End LoadingFacts.

(** [removeFile(idx)] with an index in range returns; it changes the
    items only, the set has one item less, the items before [idx] stay
    and the items after it move down by one. *)
Theorem removeFile_erases (m : HdrCreationManager) (idx : Z) :
  0 <= idx < zlength (m_data m) ->
  exists m',
    removeFile m idx = Done m' /\
    m' = set_m_data (m_data m') m /\
    zlength (m_data m') = zlength (m_data m) - 1 /\
    (forall k, 0 <= k < idx -> zth (m_data m') k = zth (m_data m) k) /\
    (forall k, idx <= k -> zth (m_data m') k = zth (m_data m) (k + 1)).
Proof.
  unfold removeFile. intros Hidx.
  destruct (Z.leb_spec 0 idx); [|lia].
  destruct (Z.ltb_spec idx (zlength (m_data m))); [|lia].
  simpl andb. cbv iota. eexists. split; [reflexivity|].
  destruct m as [d ? ? ? ? ? ? ? ? ? ? ? ? ? ? ? ? ? ?]. simpl m_data in *.
  split; [reflexivity|].
  destruct (zth_firstn_skipn d (Z.to_nat idx) 0) as (Hlen & _ & _).
  { unfold zlength in *. lia. }
  split; [exact Hlen|]. split.
  - intros k Hk.
    destruct (zth_firstn_skipn d (Z.to_nat idx) k) as (_ & Hlo & _).
    { unfold zlength in *. lia. }
    apply Hlo. lia.
  - intros k Hk.
    destruct (zth_firstn_skipn d (Z.to_nat idx) k) as (_ & _ & Hhi).
    { unfold zlength in *. lia. }
    apply Hhi. lia.
Qed.

Lemma removeFile_out_of_range (m : HdrCreationManager) (idx : Z) :
  ~ 0 <= idx < zlength (m_data m) -> raises (removeFile m idx).
Proof.
  unfold removeFile. intros Hidx.
  destruct (Z.leb_spec 0 idx); destruct (Z.ltb_spec idx (zlength (m_data m)));
    simpl; try exact I. lia.
Qed.

(* ================================================================== *)
(** ** Conversion to planes and the image stack *)
(* ================================================================== *)

Lemma range_cons (a b : Z) : a < b -> range a b = a :: range (a + 1) b.
Proof.
  intros H. unfold range.
  replace (Z.to_nat (b - a)) with (S (Z.to_nat (b - (a + 1)))) by lia.
  simpl. rewrite Z.add_0_r. f_equal.
  rewrite <- seq_shift, map_map. apply map_ext. intros k. lia.
Qed.

(** Induction on a loop with an invariant that depends on the index. *)
Lemma for_ind_from {S} (P : Z -> S -> Prop) (a0 b : Z) (body : Z -> S -> S) :
  (forall i s, a0 <= i < b -> P i s -> P (i + 1) (body i s)) ->
  forall (n : nat) (a : Z) (s : S),
    a0 <= a -> Z.of_nat n = b - a -> P a s -> P b (for_ a b body s).
Proof.
  intros Hstep. induction n as [|n IH]; intros a s Ha Hn Hs.
  - assert (a = b) by lia. subst a. unfold for_.
    rewrite range_empty by lia. exact Hs.
  - unfold for_. rewrite range_cons by lia. simpl.
    apply (IH (a + 1)); [lia | lia |]. apply Hstep; [lia | exact Hs].
Qed.

Lemma for_ind {S} (P : Z -> S -> Prop) (a b : Z) (body : Z -> S -> S)
  (s : S) :
  a <= b -> P a s ->
  (forall i s, a <= i < b -> P i s -> P (i + 1) (body i s)) ->
  P b (for_ a b body s).
Proof.
  intros Hab Hs Hstep.
  apply (for_ind_from P a b body Hstep (Z.to_nat (b - a)) a s);
    [lia | lia | exact Hs].
Qed.

Lemma forM_ind_from {S} (P : Z -> S -> Prop) (a0 b : Z)
  (body : Z -> S -> outcome S) :
  (forall i s, a0 <= i < b -> P i s ->
     exists s', body i s = Done s' /\ P (i + 1) s') ->
  forall (n : nat) (a : Z) (s : S),
    a0 <= a -> Z.of_nat n = b - a -> P a s ->
    exists s', forM a b body s = Done s' /\ P b s'.
Proof.
  intros Hstep. induction n as [|n IH]; intros a s Ha Hn Hs.
  - assert (a = b) by lia. subst a. unfold forM.
    rewrite range_empty by lia. exists s. split; [reflexivity | exact Hs].
  - unfold forM. rewrite range_cons by lia. simpl.
    destruct (Hstep a s ltac:(lia) Hs) as [s1 [E H1]]. rewrite E.
    apply (IH (a + 1)); [lia | lia | exact H1].
Qed.

Lemma forM_ind {S} (P : Z -> S -> Prop) (a b : Z)
  (body : Z -> S -> outcome S) (s : S) :
  a <= b -> P a s ->
  (forall i s, a <= i < b -> P i s ->
     exists s', body i s = Done s' /\ P (i + 1) s') ->
  exists s', forM a b body s = Done s' /\ P b s'.
Proof.
  intros Hab Hs Hstep.
  apply (forM_ind_from P a b body Hstep (Z.to_nat (b - a)) a s);
    [lia | lia | exact Hs].
Qed.

Lemma lin_set_px (a : Array2Df) (x y k : Z) (v : float) :
  0 <= y * getCols a + x < zlength (elems a) ->
  lin (set_px a x y v) k
  = if k =? y * getCols a + x then v else lin a k.
Proof.
  intros H. unfold lin, set_px. simpl. rewrite zth_zupd by exact H.
  destruct (k =? y * getCols a + x); reflexivity.
Qed.

Lemma zlength_set_px (a : Array2Df) (x y : Z) (v : float) :
  zlength (elems (set_px a x y v)) = zlength (elems a).
Proof. unfold set_px. simpl. apply zlength_zupd. Qed.

Lemma getCols_set_px (a : Array2Df) (x y : Z) (v : float) :
  getCols (set_px a x y v) = getCols a.
Proof. reflexivity. Qed.

(** What [interleavedToPlanar] has written once it is at [(col, row)]. *)
Definition planar_upto (image : QImage) (r0 g0 b0 : Array2Df) (n : Z)
  (t : planes) : Prop :=
  let '(r, g, b) := t in
  b = b0 /\
  getCols r = getCols r0 /\ zlength (elems r) = zlength (elems r0) /\
  getCols g = getCols g0 /\ zlength (elems g) = zlength (elems g0) /\
  forall k, 0 <= k < n ->
    lin r k = toFloat (qRed (bits_at image k)) /\
    lin g k = toFloat (qBlue (bits_at image k)).

Lemma interleavedToPlanar_upto (image : QImage) (r g b : Array2Df) :
  0 <= qwidth image -> 0 <= qheight image ->
  getCols r = qwidth image -> getCols g = qwidth image ->
  zlength (elems r) = qwidth image * qheight image ->
  zlength (elems g) = qwidth image * qheight image ->
  planar_upto image r g b (qwidth image * qheight image)
    (interleavedToPlanar image r g b).
Proof.
  intros Hw Hh Hcr Hcg Hlr Hlg. unfold interleavedToPlanar.
  set (w := qwidth image) in *. set (h := qheight image) in *.
  replace (w * h) with (h * w) by lia.
  apply (for_ind (fun row t => planar_upto image r g b (row * w) t));
    [exact Hh | |].
  { unfold planar_upto. repeat split; try reflexivity; lia. }
  intros row t Hrow Ht.
  replace ((row + 1) * w) with (row * w + w) by lia.
  apply (for_ind (fun col t => planar_upto image r g b (row * w + col) t));
    [exact Hw | |].
  { rewrite Z.add_0_r. exact Ht. }
  clear t Ht.
  intros col [[r' g'] b'] Hcol (Hb & Hcr' & Hlr' & Hcg' & Hlg' & Hk).
  unfold planar_upto. cbv beta iota zeta.
  assert (Hin : 0 <= row * w + col < w * h) by nia.
  split; [exact Hb|]. split; [exact Hcr'|].
  split; [rewrite zlength_set_px; exact Hlr'|].
  split; [exact Hcg'|].
  split; [rewrite !zlength_set_px; exact Hlg'|].
  intros k Hk'.
  rewrite !lin_set_px
    by (rewrite ?zlength_set_px, ?getCols_set_px; lia).
  rewrite ?getCols_set_px, Hcr', Hcg', Hcr, Hcg.
  destruct (Z.eqb_spec k (row * w + col)) as [-> | Hne].
  - split; reflexivity.
  - apply Hk. lia.
Qed.

(** [interleavedToPlanar] never writes to the blue plane.  [itBlue] is
    taken from [g], so on planes of the size of the image the call leaves
    [b] as it was, the red plane holds the red of every pixel and the
    green plane holds the blue of every pixel, each divided by 255: the
    green of the image is lost. *)
Theorem interleavedToPlanar_blue_lands_in_green
  (image : QImage) (r g b : Array2Df) :
  0 <= qwidth image -> 0 <= qheight image ->
  zlength (qbits image) = qwidth image * qheight image ->
  getCols r = qwidth image -> getCols g = qwidth image ->
  zlength (elems r) = qwidth image * qheight image ->
  zlength (elems g) = qwidth image * qheight image ->
  let t := interleavedToPlanar image r g b in
  pB t = b /\
  forall x y, 0 <= x < qwidth image -> 0 <= y < qheight image ->
    px (pR t) x y = toFloat (qRed (pixel image x y)) /\
    px (pG t) x y = toFloat (qBlue (pixel image x y)).
Proof.
  intros Hw Hh Hbits Hcr Hcg Hlr Hlg t.
  pose proof (interleavedToPlanar_upto image r g b Hw Hh Hcr Hcg Hlr Hlg)
    as H.
  fold t in H. destruct t as [[r' g'] b']. unfold pR, pG, pB. cbn [fst snd].
  destruct H as (Hb & Hcr' & _ & Hcg' & _ & Hk).
  split; [exact Hb|]. intros x y Hx Hy.
  assert (Epx : pixel image x y = bits_at image (y * qwidth image + x)).
  { unfold pixel, valid_coord, bits_at.
    destruct (Z.leb_spec 0 x); [|lia].
    destruct (Z.ltb_spec x (qwidth image)); [|lia].
    destruct (Z.leb_spec 0 y); [|lia].
    destruct (Z.ltb_spec y (qheight image)); [|lia].
    simpl.
    destruct (zth_in_range (qbits image) (y * qwidth image + x)) as [v ->];
      [nia | reflexivity]. }
  rewrite Epx. unfold px. rewrite Hcr', Hcg', Hcr, Hcg.
  apply Hk. nia.
Qed.
Lemma all_set_map_Some {A} (l : ptrlist A) :
  all_set l -> exists imgs, l = map Some imgs.
Proof.
  induction l as [|p l IH]; intros H.
  - exists []. reflexivity.
  - destruct (H 0) as [a Ha]; [unfold zlength; simpl; lia|].
    unfold zth in Ha. simpl in Ha. injection Ha as ->.
    destruct IH as [imgs ->].
    { intros k Hk. destruct (H (k + 1)) as [b Hb].
      { unfold zlength in *. simpl length. lia. }
      exists b. unfold zth in *.
      destruct (Z.ltb_spec (k + 1) 0); [lia|].
      destruct (Z.ltb_spec k 0); [lia|].
      replace (Z.to_nat (k + 1)) with (S (Z.to_nat k)) in Hb by lia.
      exact Hb. }
    exists (a :: imgs). reflexivity.
Qed.

(** The loop of [replace_front] on a list whose pointers are all set
    leaves [f] of every image, in the order of the list. *)
Lemma replace_front_all (f : QImage -> QImage) (imgs : list QImage) :
  forall (acc : ptrlist QImage) (idx : list Z),
    length idx = length imgs ->
    forM_list idx (fun _ l => replace_front f l) (map Some imgs ++ acc)
    = Done (acc ++ map (fun a => Some (f a)) imgs).
Proof.
  induction imgs as [|a imgs IH]; intros acc idx Hlen.
  - destruct idx; [|discriminate]. simpl. rewrite app_nil_r. reflexivity.
  - destruct idx as [|i idx]; [discriminate|]. simpl.
    unfold replace_front at 1. unfold deref_at, zth. simpl.
    rewrite <- app_assoc. rewrite IH by (simpl in Hlen; lia).
    rewrite <- app_assoc. reflexivity.
Qed.

(** With a null pointer in the list the loop reaches it and faults. *)
Lemma replace_front_null (f : QImage -> QImage) (pre : list QImage) :
  forall (post : ptrlist QImage) (idx : list Z),
    (length pre < length idx)%nat ->
    forM_list idx (fun _ l => replace_front f l) (map Some pre ++ None :: post)
    = Fault.
Proof.
  induction pre as [|a pre IH]; intros post idx Hlen.
  - destruct idx as [|i idx]; [simpl in Hlen; lia|]. reflexivity.
  - destruct idx as [|i idx]; [simpl in Hlen; lia|]. simpl.
    unfold replace_front at 1. unfold deref_at, zth. simpl.
    rewrite <- app_assoc. simpl. apply IH. simpl in Hlen. lia.
Qed.

(** The loop on a field of a state is the loop on the list. *)
Lemma replace_front_field {S} (get : S -> ptrlist QImage)
  (set : ptrlist QImage -> S -> S) (f : QImage -> QImage) :
  (forall l s, get (set l s) = l) ->
  (forall l l' s, set l (set l' s) = set l s) ->
  (forall s, set (get s) s = s) ->
  forall (idx : list Z) (s : S),
    forM_list idx (fun _ s => bind (replace_front f (get s))
                                (fun l => Done (set l s))) s
    = bind (forM_list idx (fun _ l => replace_front f l) (get s))
        (fun l => Done (set l s)).
Proof.
  intros Hgs Hss Hsg. induction idx as [|i idx IH]; intros s; simpl.
  - rewrite Hsg. reflexivity.
  - destruct (replace_front f (get s)) as [l1|]; simpl; [|reflexivity].
    rewrite IH, Hgs.
    destruct (forM_list idx _ l1); simpl; [|reflexivity].
    rewrite Hss. reflexivity.
Qed.

Lemma null_split {A} (l : ptrlist A) :
  In None l -> exists pre post, l = map Some pre ++ None :: post.
Proof.
  induction l as [|p l IH]; intros Hin; [destruct Hin|].
  destruct p as [a|].
  - destruct Hin as [E | Hin]; [discriminate|].
    destruct (IH Hin) as (pre & post & ->).
    exists (a :: pre), post. reflexivity.
  - exists [], l. reflexivity.
Qed.

Lemma set_antiGhostingMasksList_same (m : HdrCreationManager) :
  set_antiGhostingMasksList (antiGhostingMasksList m) m = m.
Proof. destruct m; reflexivity. Qed.

Section ImageStackFacts.
Variable QRect : Type.
Variable copy : QImage -> QRect -> QImage.
Variable isRGB32 : QImage -> bool.
Variable toARGB32 : QImage -> QImage.
Variable shiftQImage : QImage -> Z -> Z -> QImage.

(** Every image of the list with [f] applied, a null pointer staying
    null. *)
Definition each (f : QImage -> QImage) (l : ptrlist QImage)
  : ptrlist QImage :=
  map (option_map f) l.

Lemma each_map_Some (f : QImage -> QImage) (imgs : list QImage) :
  each f (map Some imgs) = map (fun a => Some (f a)) imgs.
Proof. unfold each. rewrite map_map. reflexivity. Qed.

Lemma ldr_loop (f : QImage -> QImage) (m : HdrCreationManager) :
  (all_set (ldrImagesList m) ->
   forM 0 (zlength (ldrImagesList m)) (fun _ m =>
     bind (replace_front f (ldrImagesList m))
       (fun l => Done (set_ldrImagesList l m))) m
   = Done (set_ldrImagesList (each f (ldrImagesList m)) m)) /\
  (In None (ldrImagesList m) ->
   forM 0 (zlength (ldrImagesList m)) (fun _ m =>
     bind (replace_front f (ldrImagesList m))
       (fun l => Done (set_ldrImagesList l m))) m
   = Fault).
Proof.
  unfold forM.
  rewrite (replace_front_field ldrImagesList set_ldrImagesList f);
    [|reflexivity | reflexivity | apply set_ldrImagesList_same].
  split.
  - intros Hset. destruct (all_set_map_Some _ Hset) as [imgs E].
    rewrite E at 2. rewrite <- (app_nil_r (map Some imgs)).
    rewrite replace_front_all.
    + rewrite E, each_map_Some. reflexivity.
    + rewrite range_length, E. unfold zlength. rewrite length_map. lia.
  - intros Hnull. destruct (null_split _ Hnull) as (pre & post & E).
    rewrite E at 2. rewrite replace_front_null; [reflexivity|].
    rewrite range_length, E. unfold zlength.
    rewrite length_app, length_map. simpl. lia.
Qed.

Lemma mask_loop (f : QImage -> QImage) (m : HdrCreationManager) :
  (all_set (antiGhostingMasksList m) ->
   forM 0 (zlength (antiGhostingMasksList m)) (fun _ m =>
     bind (replace_front f (antiGhostingMasksList m))
       (fun l => Done (set_antiGhostingMasksList l m))) m
   = Done (set_antiGhostingMasksList (each f (antiGhostingMasksList m)) m)) /\
  (In None (antiGhostingMasksList m) ->
   forM 0 (zlength (antiGhostingMasksList m)) (fun _ m =>
     bind (replace_front f (antiGhostingMasksList m))
       (fun l => Done (set_antiGhostingMasksList l m))) m
   = Fault).
Proof.
  unfold forM.
  rewrite (replace_front_field antiGhostingMasksList
             set_antiGhostingMasksList f);
    [|reflexivity | reflexivity | apply set_antiGhostingMasksList_same].
  split.
  - intros Hset. destruct (all_set_map_Some _ Hset) as [imgs E].
    rewrite E at 2. rewrite <- (app_nil_r (map Some imgs)).
    rewrite replace_front_all.
    + rewrite E, each_map_Some. reflexivity.
    + rewrite range_length, E. unfold zlength. rewrite length_map. lia.
  - intros Hnull. destruct (null_split _ Hnull) as (pre & post & E).
    rewrite E at 2. rewrite replace_front_null; [reflexivity|].
    rewrite range_length, E. unfold zlength.
    rewrite length_app, length_map. simpl. lia.
Qed.

(** [cropLDR(ca)], with every image and every mask there, returns; every
    image and every mask is replaced by its copy of the rectangle [ca],
    the order of both lists is kept, and nothing else changes. *)
Theorem cropLDR_crops_in_place (m : HdrCreationManager) (ca : QRect) :
  all_set (ldrImagesList m) -> all_set (antiGhostingMasksList m) ->
  cropLDR QRect copy m ca
  = Done (set_antiGhostingMasksList
            (each (fun img => copy img ca) (antiGhostingMasksList m))
            (set_ldrImagesList
               (each (fun img => copy img ca) (ldrImagesList m)) m)).
Proof.
  unfold cropLDR, cropAgMasks. intros HL HM.
  rewrite (proj1 (ldr_loop (fun img => copy img ca) m) HL). cbn [bind].
  apply (proj1 (mask_loop (fun img => copy img ca)
                  (set_ldrImagesList
                     (each (fun img => copy img ca) (ldrImagesList m)) m))).
  exact HM.
Qed.

Lemma cropLDR_null_image (m : HdrCreationManager) (ca : QRect) :
  In None (ldrImagesList m) -> raises (cropLDR QRect copy m ca).
Proof.
  unfold cropLDR, cropAgMasks. intros Hnull.
  rewrite (proj2 (ldr_loop (fun img => copy img ca) m) Hnull).
  exact I.
Qed.

(** [makeSureLDRsHaveAlpha] looks at the format of the first image only.
    With every image there: when the first image is of format [RGB32]
    every image of the list is converted, whatever its own format, and
    the order is kept; otherwise nothing is converted. *)
Theorem makeSureLDRsHaveAlpha_follows_first_image (m : HdrCreationManager)
  (img0 : QImage) :
  all_set (ldrImagesList m) ->
  zth (ldrImagesList m) 0 = Some (Some img0) ->
  makeSureLDRsHaveAlpha isRGB32 toARGB32 m
  = Done (if isRGB32 img0
          then set_ldrImagesList (each toARGB32 (ldrImagesList m)) m
          else m).
Proof.
  unfold makeSureLDRsHaveAlpha. intros Hset E0.
  unfold deref_at. rewrite E0. cbn [bind].
  destruct (isRGB32 img0); [|reflexivity].
  apply (proj1 (ldr_loop toARGB32 m) Hset).
Qed.

Lemma makeSureLDRsHaveAlpha_no_image (m : HdrCreationManager) :
  ldrImagesList m = [] -> raises (makeSureLDRsHaveAlpha isRGB32 toARGB32 m).
Proof. unfold makeSureLDRsHaveAlpha. intros E. rewrite E. exact I. Qed.

(** [applyShiftsToImageStack], with every image there and an offset for
    every image, returns; only the list of images changes, it keeps its
    length, and the image at each index is the shifted image when one of
    its two offsets is not 0 and the image as it was when both
    are 0. *)
Theorem applyShiftsToImageStack_shifts_in_place (m : HdrCreationManager)
  (hvOffsets : list (Z * Z)) :
  all_set (ldrImagesList m) ->
  zlength (ldrImagesList m) <= zlength hvOffsets ->
  exists l',
    applyShiftsToImageStack shiftQImage m hvOffsets
    = Done (set_ldrImagesList l' m) /\
    zlength l' = zlength (ldrImagesList m) /\
    forall i img dx dy,
      zth (ldrImagesList m) i = Some (Some img) ->
      zth hvOffsets i = Some (dx, dy) ->
      zth l' i
      = Some (Some (if (dx =? 0) && (dy =? 0) then img
                    else shiftQImage img dx dy)).
Proof.
  intros Hset Hoffs. unfold applyShiftsToImageStack.
  pose (l := ldrImagesList m).
  assert (El : l = ldrImagesList m) by reflexivity. clearbody l.
  rewrite <- El in Hset, Hoffs |- *.
  set (want := fun (l' : ptrlist QImage) (i : Z) =>
         forall img dx dy,
           zth l i = Some (Some img) -> zth hvOffsets i = Some (dx, dy) ->
           zth l' i
           = Some (Some (if (dx =? 0) && (dy =? 0) then img
                         else shiftQImage img dx dy))).
  set (P := fun (i : Z) (s : HdrCreationManager) =>
         s = set_ldrImagesList (ldrImagesList s) m /\
         zlength (ldrImagesList s) = zlength l /\
         (forall k, 0 <= k < i -> want (ldrImagesList s) k) /\
         (forall k, i <= k -> zth (ldrImagesList s) k = zth l k)).
  destruct (forM_ind P 0 (zlength l)
    (fun i m0 =>
       bind (at_ hvOffsets i) (fun off =>
       if (fst off =? snd off) && (fst off =? 0) then Done m0
       else
         bind (deref_at (ldrImagesList m0) i) (fun img =>
         Done (set_ldrImagesList
                 (zupd (ldrImagesList m0) i
                    (Some (shiftQImage img (fst off) (snd off)))) m0)))) m)
    as [s [Hrun (Hs & Hlen & Hdone & _)]].
  - apply zlength_nonneg.
  - unfold P. subst l. split; [symmetry; apply set_ldrImagesList_same|].
    split; [reflexivity|]. split; [intros k Hk; lia | reflexivity].
  - intros i s Hi (Hs & Hlen & Hdone & Hrest).
    destruct (zth_in_range hvOffsets i ltac:(lia)) as [[dx dy] Eoff].
    unfold at_. rewrite Eoff. cbn [bind fst snd].
    destruct (Hset i ltac:(lia)) as [img Eimg].
    assert (Ecur : zth (ldrImagesList s) i = Some (Some img)).
    { rewrite Hrest by lia. exact Eimg. }
    assert (Ecase : ((dx =? dy) && (dx =? 0)) = ((dx =? 0) && (dy =? 0))).
    { destruct (Z.eqb_spec dx dy), (Z.eqb_spec dx 0), (Z.eqb_spec dy 0);
        simpl; try reflexivity; lia. }
    rewrite Ecase.
    destruct ((dx =? 0) && (dy =? 0)) eqn:Ez.
    + exists s. split; [reflexivity|]. unfold P.
      split; [exact Hs|]. split; [exact Hlen|]. split.
      * intros k Hk. destruct (Z.eq_dec k i) as [-> | Hne];
          [|apply Hdone; lia].
        intros img' dx' dy' E1 E2.
        assert (img' = img) by congruence.
        assert (dx' = dx /\ dy' = dy) as [-> ->]
          by (split; congruence).
        subst img'. rewrite Ez. exact Ecur.
      * intros k Hk. apply Hrest. lia.
    + unfold deref_at. rewrite Ecur. cbn [bind].
      eexists. split; [reflexivity|]. unfold P.
      split.
      { transitivity
          (set_ldrImagesList
             (zupd (ldrImagesList s) i (Some (shiftQImage img dx dy)))
             (set_ldrImagesList (ldrImagesList s) m));
          [f_equal; exact Hs | reflexivity]. }
      change (ldrImagesList (set_ldrImagesList ?v s)) with v.
      split; [rewrite zlength_zupd; exact Hlen|]. split.
      * intros k Hk. destruct (Z.eq_dec k i) as [-> | Hne].
        -- intros img' dx' dy' E1 E2.
           assert (img' = img) by congruence.
           assert (dx' = dx /\ dy' = dy) as [-> ->]
             by (split; congruence).
           subst img'. rewrite Ez. apply zth_zupd_eq. lia.
        -- intros img' dx' dy' E1 E2.
           rewrite zth_zupd_ne by congruence.
           apply (Hdone k ltac:(lia) img' dx' dy' E1 E2).
      * intros k Hk. rewrite zth_zupd_ne by lia. apply Hrest. lia.
  - exists (ldrImagesList s). rewrite <- Hs. split; [exact Hrun|].
    split; [exact Hlen|]. intros i img dx dy E1 E2.
    apply (Hdone i); [|exact E1 | exact E2].
    apply zth_Some_range in E1. exact E1.
Qed.

End ImageStackFacts.

(* ================================================================== *)
(** ** The pixels of a corrected cell *)
(* ================================================================== *)

(** A plane of [w] by [h] samples. *)
Definition plane_of (w h : Z) (a : Array2Df) : Prop :=
  getCols a = w /\ zlength (elems a) = w * h.

Lemma px_set_px (a : Array2Df) (w h x y x' y' : Z) (v : float) :
  plane_of w h a ->
  0 <= x < w -> 0 <= y < h -> 0 <= x' < w ->
  px (set_px a x y v) x' y'
  = if (x' =? x) && (y' =? y) then v else px a x' y'.
Proof.
  intros [Hc Hl] Hx Hy Hx'. unfold px.
  assert (Hin : 0 <= y * w + x < w * h).
  { assert (y * w <= (h - 1) * w) by (apply Z.mul_le_mono_nonneg_r; lia).
    assert (0 <= y * w) by (apply Z.mul_nonneg_nonneg; lia). lia. }
  rewrite lin_set_px by (rewrite Hc, Hl; exact Hin).
  rewrite getCols_set_px, Hc.
  destruct (Z.eqb_spec x' x) as [-> | Hne]; simpl.
  - destruct (Z.eqb_spec y' y) as [-> | Hney].
    + rewrite Z.eqb_refl. reflexivity.
    + destruct (Z.eqb_spec (y' * w + x) (y * w + x)) as [E|];
        [exfalso; assert (y' = y) by nia; contradiction | reflexivity].
  - destruct (Z.eqb_spec (y' * w + x') (y * w + x)) as [E|];
      [exfalso; assert (y' = y) by nia; subst y'; lia | reflexivity].
Qed.

Lemma plane_of_set_px (a : Array2Df) (w h x y : Z) (v : float) :
  plane_of w h a -> plane_of w h (set_px a x y v).
Proof.
  intros [Hc Hl]. split; [exact Hc | rewrite zlength_set_px; exact Hl].
Qed.

(** The pixel [copyPatch] writes at [(x, y)]: the pixel of the reference
    exposure with its lightness multiplied by [sf], capped at
    [max_lightness], each channel brought into [0, max_rgb]. *)
Definition rescaled (R1 G1 B1 : Array2Df) (sf : float) (x y : Z) : rgb :=
  let c := rgb2hsl (px R1 x y) (px G1 x y) (px B1 x y) in
  let l := F.mul (light c) sf in
  let l := if F.gtb l max_lightness then max_lightness else l in
  let o := hsl2rgb (hue c) (sat c) l in
  RGB (clamp_rgb (red o)) (clamp_rgb (green o)) (clamp_rgb (blue o)).

Definition cell_upto (R1 G1 B1 : Array2Df) (sf : float)
  (w h x0 x1 : Z) (before : Z -> Z -> Prop) (t : planes) : Prop :=
  plane_of w h (pR t) /\ plane_of w h (pG t) /\ plane_of w h (pB t) /\
  forall x y, x0 <= x < x1 -> before x y ->
    px (pR t) x y = red (rescaled R1 G1 B1 sf x y) /\
    px (pG t) x y = green (rescaled R1 G1 B1 sf x y) /\
    px (pB t) x y = blue (rescaled R1 G1 B1 sf x y).


(* ================================================================== *)
(** ** Instances *)
(* ================================================================== *)

Lemma all_set_single {A} (x : A) : all_set [Some x].
Proof.
  intros i Hi. unfold zlength in Hi. simpl in Hi.
  assert (i = 0) by lia. subst i. eexists; reflexivity.
Qed.

Lemma findIndex_first_largest_witness :
  0 <= findIndex [Fin 1; Fin 3; Fin 3; Fin 2]
    < zlength [Fin 1; Fin 3; Fin 3; Fin 2] /\
  exists mx,
    zth [Fin 1; Fin 3; Fin 3; Fin 2]
      (findIndex [Fin 1; Fin 3; Fin 3; Fin 2]) = Some mx /\
    (forall x, In x [Fin 1; Fin 3; Fin 3; Fin 2] -> F.leb x mx = true) /\
    (forall i x, 0 <= i < findIndex [Fin 1; Fin 3; Fin 3; Fin 2] ->
       zth [Fin 1; Fin 3; Fin 3; Fin 2] i = Some x -> F.ltb x mx = true).
Proof.
  apply (findIndex_first_largest [Fin 1; Fin 3; Fin 3; Fin 2]).
  - discriminate.
  - repeat constructor; eexists; reflexivity.
Defined.

(** One exposure with no pixel. *)
Definition no_pixel : Array2Df := mkArray 0 0 [].

Lemma empty_images_raise_witness :
  raises (doAutoAntiGhostingMDR (fun x => x)
            ([Some no_pixel], [Some no_pixel], [Some no_pixel])
            [Fin 1] (Fin (1 # 10))).
Proof.
  apply (empty_images_raise (fun x => x) [Some no_pixel] [Some no_pixel]
           [Some no_pixel] [Fin 1] (Fin (1 # 10))).
  - apply all_set_single.
  - apply all_set_single.
  - apply all_set_single.
  - reflexivity.
  - reflexivity.
  - reflexivity.
  - reflexivity.
Defined.

(** Two pixels in a row and a mask painted on the first one only. *)
Definition two_greys : QImage := mkImage 2 1 [100; 200].
Definition two_whites : QImage := mkImage 2 1 [255; 255].
Definition left_mask : QImage := mkImage 2 1 [Z.shiftl 255 24; 0].

Lemma blend8_keeps_unmasked_witness :
  let img := LDR.blend grey_value grey_hsvF grey_of_hsvF two_greys two_whites
               left_mask (transparent_image 2 1) in
  qwidth img = qwidth two_greys /\ qheight img = qheight two_greys /\
  bits_at img 1 = bits_at two_greys 1.
Proof.
  apply (blend8_keeps_unmasked grey_value grey_hsvF grey_of_hsvF two_greys
           two_whites left_mask (transparent_image 2 1) 1).
  - reflexivity.
  - reflexivity.
Defined.

Lemma blend_keeps_unmasked_witness :
  let t := blend ramp ramp ramp (uniform 2 1 300) (uniform 2 1 300)
             (uniform 2 1 300) left_mask (transparent_image 2 1) in
  px (pR t) 1 0 = px ramp 1 0 /\
  px (pG t) 1 0 = px ramp 1 0 /\
  px (pB t) 1 0 = px ramp 1 0.
Proof.
  apply (blend_keeps_unmasked ramp ramp ramp (uniform 2 1 300)
           (uniform 2 1 300) (uniform 2 1 300) left_mask
           (transparent_image 2 1) 2 1 0).
  - reflexivity.
  - reflexivity.
  - reflexivity.
  - lia.
  - reflexivity.
  - reflexivity.
Defined.

(** The set of [grey_manager] as it is after loading: no mask painted. *)
Definition unpainted_manager : HdrCreationManager :=
  set_antiGhostingMasksList
    [Some (transparent_image 2 1); Some (transparent_image 2 1)]
    grey_manager.

Lemma unpainted_manager_blendable : blendable unpainted_manager 1.
Proof.
  unfold blendable, unpainted_manager, grey_manager. simpl.
  repeat (split; [first [apply all_set_pair | reflexivity
                        | unfold zlength; simpl; lia]|]).
  reflexivity.
Qed.

Lemma doAntiGhosting_transparent_masks_witness :
  doAntiGhosting grey_value no_hsv grey_of_hsvF unpainted_manager 1
  = Done unpainted_manager.
Proof.
  apply (doAntiGhosting_transparent_masks grey_value no_hsv grey_of_hsvF
           unpainted_manager 1).
  - exact unpainted_manager_blendable.
  - intros k mask H. apply zth_In in H.
    destruct H as [H | [H | []]]; injection H as <-;
      apply transparent_image_transparent.
Defined.

Lemma mdrsHaveSameSize_spec_witness :
  exists same,
    mdrsHaveSameSize grey_manager 2 1 = Done same /\
    (same = true <->
     forall i R G B, triple_at grey_manager i R G B ->
       sized R 2 1 /\ sized G 2 1 /\ sized B 2 1).
Proof.
  apply (mdrsHaveSameSize_spec grey_manager 2 1).
  - unfold zlength. simpl. lia.
  - unfold zlength. simpl. lia.
Defined.

Definition arrival_wide : arrival :=
  LdrArrival (mkImage 2 1 [0; 0]) 1 (Fin 2) "b.jpg" false.

Lemma size_mismatch_is_fatal_witness :
  exists m2,
    deliver no_preview whole_name after_a arrival_wide = Done m2 /\
    emitted m2
    = emitted after_a
      ++ [errorWhileLoading (msg_invalid_size (arrival_name arrival_wide))] /\
    m_loadingError m2 = true /\
    same_set after_a m2 /\
    holds m2 arrival_a /\
    forall rest, exists m3,
      deliver_all no_preview whole_name m2 rest = Done m3 /\
      same_set m2 m3 /\
      holds m3 arrival_a /\
      m_loadingError m3 = true /\
      emitted m3 = emitted m2 ++ repeat processed (length rest).
Proof.
  apply (size_mismatch_is_fatal no_preview whole_name two_slots arrival_a
           after_a arrival_wide).
  - reflexivity.
  - reflexivity.
  - reflexivity.
  - discriminate.
  - reflexivity.
  - reflexivity.
Defined.

Lemma two_slots_slots : slots two_slots 2.
Proof. repeat split. Qed.

Lemma ldrReady_accepts_witness :
  exists m' fname,
    ldrReady whole_name two_slots (mkImage 1 1 [0]) 0 (Fin 1) "a.jpg" false
    = Done m' /\
    zth (fileList two_slots) 0 = Some fname /\
    slots m' 2 /\
    m_loadingError m' = false /\
    inputType m' = LDR_INPUT_TYPE /\
    zth (ldrImagesList m') 0 = Some (Some (mkImage 1 1 [0])) /\
    (forall k, k <> 0 ->
       zth (ldrImagesList m') k = zth (ldrImagesList two_slots) k) /\
    zth (expotimes m') 0 = Some (Fin 1) /\
    (fromCommandLine two_slots = false ->
     zth (antiGhostingMasksList m') 0
     = Some (Some (transparent_image (qwidth (mkImage 1 1 [0]))
                     (qheight (mkImage 1 1 [0]))))) /\
    m_runningThreads m' = m_runningThreads two_slots - 1 /\
    m_processedFiles m' = m_processedFiles two_slots + 1 /\
    emitted m' = emitted two_slots ++ [fileLoaded 0 fname (Fin 1); processed].
Proof.
  apply (ldrReady_accepts whole_name two_slots 2 (mkImage 1 1 [0]) 0 (Fin 1)
           "a.jpg" false).
  - exact two_slots_slots.
  - lia.
  - reflexivity.
  - discriminate.
  - reflexivity.
Defined.

Definition frame_b : Frame := mkFrame (one_pixel 1) (one_pixel 2) (one_pixel 3).

Lemma mdrReady_accepts_witness :
  exists m' fname,
    mdrReady no_preview whole_name two_slots frame_b 1 (Fin 2) "b.tif"
    = Done m' /\
    zth (fileList two_slots) 1 = Some fname /\
    slots m' 2 /\
    m_loadingError m' = false /\
    inputType m' = MDR_INPUT_TYPE /\
    triple_at m' 1 (chanX frame_b) (chanY frame_b) (chanZ frame_b) /\
    (forall k, k <> 1 ->
       zth (listmdrR m') k = zth (listmdrR two_slots) k /\
       zth (listmdrG m') k = zth (listmdrG two_slots) k /\
       zth (listmdrB m') k = zth (listmdrB two_slots) k) /\
    m_mdrWidth m' = getCols (chanX frame_b) /\
    m_mdrHeight m' = getRows (chanX frame_b) /\
    zth (expotimes m') 1 = Some (Fin 2) /\
    (fromCommandLine two_slots = false ->
     zth (mdrImagesList m') 1 = Some (Some (no_preview frame_b)) /\
     zth (antiGhostingMasksList m') 1
     = Some (Some (transparent_image (getCols (chanX frame_b))
                     (getRows (chanX frame_b))))) /\
    m_runningThreads m' = m_runningThreads two_slots - 1 /\
    m_processedFiles m' = m_processedFiles two_slots + 1 /\
    emitted m' = emitted two_slots ++ [fileLoaded 1 fname (Fin 2); processed].
Proof.
  apply (mdrReady_accepts no_preview whole_name two_slots 2 frame_b 1 (Fin 2)
           "b.tif").
  - exact two_slots_slots.
  - lia.
  - reflexivity.
  - discriminate.
  - reflexivity.
Defined.

(** Two files, the first one without an exposure time. *)
Definition one_missing : HdrCreationManager :=
  set_filesLackingExif ["<li>a.jpg</li>"%string]
    (set_expotimes [Fin (-1); Fin 1] two_slots).

Definition exp2_one (x : float) : float := Fin 2.

Lemma setEV_keeps_missing_count_witness :
  exists m',
    setEV exp2_one one_missing (Fin 1) 0 = Done m' /\
    zth (expotimes m') 0 = Some (exp2_one (Fin 1)) /\
    (forall k, k <> 0 ->
       zth (expotimes m') k = zth (expotimes one_missing) k) /\
    zlength (filesLackingExif m') = count_missing (expotimes m') /\
    emitted m'
    = emitted one_missing ++ [expotimeValueChanged (exp2_one (Fin 1)) 0].
Proof.
  apply (setEV_keeps_missing_count exp2_one one_missing (Fin 1) 0).
  - unfold zlength. simpl. lia.
  - reflexivity.
  - reflexivity.
Defined.

Lemma removeFile_undoes_loadFiles_witness :
  removeFile
    (loadFiles always_reads no_luminance sample_zero one_item
       ["b.jpg"%string] false)
    (zlength (m_data one_item))
  = Done one_item.
Proof.
  apply (removeFile_undoes_loadFiles always_reads no_luminance sample_zero
           one_item "b.jpg"%string).
  reflexivity.
Defined.

(** One pixel of red 10, green 20 and blue 30. *)
Definition one_by_one_image : QImage := mkImage 1 1 [qRgb 10 20 30].

Lemma interleavedToPlanar_blue_lands_in_green_witness :
  let t := interleavedToPlanar one_by_one_image (one_pixel 0) (one_pixel 0)
             (one_pixel 0) in
  pB t = one_pixel 0 /\
  forall x y, 0 <= x < qwidth one_by_one_image ->
    0 <= y < qheight one_by_one_image ->
    px (pR t) x y = toFloat (qRed (pixel one_by_one_image x y)) /\
    px (pG t) x y = toFloat (qBlue (pixel one_by_one_image x y)).
Proof.
  apply (interleavedToPlanar_blue_lands_in_green one_by_one_image
           (one_pixel 0) (one_pixel 0) (one_pixel 0)).
  - simpl. lia.
  - simpl. lia.
  - reflexivity.
  - reflexivity.
  - reflexivity.
  - reflexivity.
  - reflexivity.
Defined.

Definition shift_marks (img : QImage) (dx dy : Z) : QImage :=
  mkImage (qwidth img) (qheight img) (map (fun v => v + dx + dy) (qbits img)).

Definition two_images : HdrCreationManager :=
  set_ldrImagesList [Some two_greys; Some two_whites] two_slots.

Lemma applyShiftsToImageStack_shifts_in_place_witness :
  exists l',
    applyShiftsToImageStack shift_marks two_images [(0, 0); (1, 2)]
    = Done (set_ldrImagesList l' two_images) /\
    zlength l' = zlength (ldrImagesList two_images) /\
    forall i img dx dy,
      zth (ldrImagesList two_images) i = Some (Some img) ->
      zth [(0, 0); (1, 2)] i = Some (dx, dy) ->
      zth l' i
      = Some (Some (if (dx =? 0) && (dy =? 0) then img
                    else shift_marks img dx dy)).
Proof.
  apply (applyShiftsToImageStack_shifts_in_place shift_marks two_images
           [(0, 0); (1, 2)]).
  - apply all_set_pair.
  - unfold zlength. simpl. lia.
Defined.


Lemma removeFile_erases_witness :
  exists m',
    removeFile one_item 0 = Done m' /\
    m' = set_m_data (m_data m') one_item /\
    zlength (m_data m') = zlength (m_data one_item) - 1 /\
    (forall k, 0 <= k < 0 -> zth (m_data m') k = zth (m_data one_item) k) /\
    (forall k, 0 <= k -> zth (m_data m') k = zth (m_data one_item) (k + 1)).
Proof.
  apply (removeFile_erases one_item 0).
  unfold zlength. simpl. lia.
Defined.

(** The first [rows] scan lines of an image. *)
Definition first_rows (img : QImage) (rows : Z) : QImage :=
  mkImage (qwidth img) rows (firstn (Z.to_nat (qwidth img * rows)) (qbits img)).

(** Two images of two scan lines, each with its mask. *)
Definition two_tall : HdrCreationManager :=
  set_antiGhostingMasksList
    [Some (transparent_image 1 2); Some (transparent_image 1 2)]
    (set_ldrImagesList
       [Some (mkImage 1 2 [10; 20]); Some (mkImage 1 2 [30; 40])] two_slots).

Lemma cropLDR_crops_in_place_witness :
  cropLDR Z first_rows two_tall 1
  = Done (set_antiGhostingMasksList
            (each (fun img => first_rows img 1)
               (antiGhostingMasksList two_tall))
            (set_ldrImagesList
               (each (fun img => first_rows img 1) (ldrImagesList two_tall))
               two_tall)).
Proof.
  apply (cropLDR_crops_in_place Z first_rows two_tall 1).
  - apply all_set_pair.
  - apply all_set_pair.
Defined.

(** An image is taken to be of format [RGB32] when its first value has no
    alpha, and the conversion sets the alpha of every value. *)
Definition no_alpha (img : QImage) : bool :=
  qAlpha (bits_at img 0) =? 0.

Definition with_alpha (img : QImage) : QImage :=
  mkImage (qwidth img) (qheight img)
    (map (fun v => Z.lor (Z.shiftl 255 24) v) (qbits img)).

Lemma makeSureLDRsHaveAlpha_follows_first_image_witness :
  makeSureLDRsHaveAlpha no_alpha with_alpha two_tall
  = Done (if no_alpha (mkImage 1 2 [10; 20])
          then set_ldrImagesList (each with_alpha (ldrImagesList two_tall))
                 two_tall
          else two_tall).
Proof.
  apply (makeSureLDRsHaveAlpha_follows_first_image no_alpha with_alpha
           two_tall (mkImage 1 2 [10; 20])).
  - apply all_set_pair.
  - reflexivity.
Defined.

(** The conversion of [one_by_one_image], run: the red plane gets
    [10 / 255], the green plane gets the blue value [30 / 255] and the blue
    plane keeps what it had. *)
Example interleavedToPlanar_one_pixel :
  interleavedToPlanar one_by_one_image (one_pixel 0) (one_pixel 0)
    (one_pixel 0)
  = (mkArray 1 1 [Fin (10 / 255)], mkArray 1 1 [Fin (30 / 255)], one_pixel 0).
Proof. vm_compute. reflexivity. Qed.

(* ================================================================== *)
(** ** Normalization of the exposure values *)
(* ================================================================== *)

Module EVFacts.
Import Reals Lra.
Import EV.
Local Open Scope R_scope.

(** An exposure time that is known: a positive real. *)
Definition known (t : float) (x : R) : Prop := t = Fin x /\ 0 < x.

(** The exposure times are finite and not zero: positive when known,
    negative (the sentinel [-1]) when missing. *)
Definition exposure_times (expotimes : list float) : Prop :=
  forall t, In t expotimes -> exists x, t = Fin x /\ x <> 0.

Lemma ln2_pos : 0 < ln 2.
Proof. rewrite <- ln_1. apply ln_increasing; lra. Qed.

Lemma log2_exp2 (y : R) : log2 (Rpower 2 y) = y.
Proof.
  unfold log2, Rpower. rewrite ln_exp. field.
  pose proof ln2_pos. lra.
Qed.

Lemma exp2_pos (y : R) : 0 < Rpower 2 y.
Proof. unfold Rpower. apply exp_pos. Qed.

Lemma log2f_known (x : R) : 0 < x -> log2f (Fin x) = Fin (log2 x).
Proof. intros H. simpl. destruct (Rlt_dec 0 x); [reflexivity | lra]. Qed.

Lemma log2f_missing (x : R) : x < 0 -> log2f (Fin x) = NaN.
Proof.
  intros H. simpl. destruct (Rlt_dec 0 x); [lra|].
  destruct (Req_dec_T x 0); [lra | reflexivity].
Qed.

Lemma ltb_fin (p q : R) : ltb (Fin p) (Fin q) = true <-> p < q.
Proof.
  simpl. destruct (Rlt_dec p q); split; intros H;
    try reflexivity; try assumption; try discriminate; contradiction.
Qed.

Lemma ltb_fin_false (p q : R) : ltb (Fin p) (Fin q) = false <-> q <= p.
Proof.
  simpl. destruct (Rlt_dec p q); split; intros H;
    try reflexivity; try discriminate; lra.
Qed.

(** What the first loop computes: [max] is [-20] or the largest known EV,
    whichever is larger, and [min] is [20] or the smallest known EV,
    whichever is smaller. *)
Definition range_of (expotimes : list float) (M m : R) : Prop :=
  (forall x, In (Fin x) expotimes -> 0 < x -> m <= log2 x <= M) /\
  (M = -20 \/ exists x, In (Fin x) expotimes /\ 0 < x /\ M = log2 x) /\
  (m = 20 \/ exists x, In (Fin x) expotimes /\ 0 < x /\ m = log2 x) /\
  -20 <= M /\ m <= 20.

Lemma ev_step_known (M m x : R) :
  0 < x ->
  ev_step (Fin M, Fin m) (Fin x)
  = (Fin (Rmax M (log2 x)), Fin (Rmin m (log2 x))).
Proof.
  intros Hx. unfold ev_step. rewrite (log2f_known x Hx).
  unfold gtb, ltb, Rmax, Rmin.
  destruct (Rlt_dec M (log2 x)), (Rle_dec M (log2 x));
    destruct (Rlt_dec (log2 x) m), (Rle_dec m (log2 x));
    try lra; f_equal; f_equal; lra.
Qed.

Lemma ev_step_missing (M m x : R) :
  x < 0 -> ev_step (Fin M, Fin m) (Fin x) = (Fin M, Fin m).
Proof.
  intros Hx. unfold ev_step. rewrite (log2f_missing x Hx). reflexivity.
Qed.

Lemma range_of_known (seen : list float) (M m x : R) :
  0 < x -> range_of seen M m ->
  range_of (seen ++ [Fin x]) (Rmax M (log2 x)) (Rmin m (log2 x)).
Proof.
  intros Hx (Hall & HM & Hm & HM20 & Hm20). unfold range_of.
  pose proof (Rmax_l M (log2 x)). pose proof (Rmax_r M (log2 x)).
  pose proof (Rmin_l m (log2 x)). pose proof (Rmin_r m (log2 x)).
  split.
  { intros y Hy Hy0. apply in_app_or in Hy.
    destruct Hy as [Hy | [Hy | []]].
    - specialize (Hall y Hy Hy0). lra.
    - injection Hy as <-. lra. }
  split.
  { unfold Rmax. destruct (Rle_dec M (log2 x)).
    - right. exists x. split; [apply in_or_app; right; left; reflexivity|].
      split; [exact Hx | reflexivity].
    - destruct HM as [HM | [y (Hy & Hy0 & HM)]]; [left; exact HM|].
      right. exists y. split; [apply in_or_app; left; exact Hy|].
      split; assumption. }
  split.
  { unfold Rmin. destruct (Rle_dec m (log2 x)).
    - destruct Hm as [Hm | [y (Hy & Hy0 & Hm)]]; [left; exact Hm|].
      right. exists y. split; [apply in_or_app; left; exact Hy|].
      split; assumption.
    - right. exists x. split; [apply in_or_app; right; left; reflexivity|].
      split; [exact Hx | reflexivity]. }
  lra.
Qed.

Lemma range_of_missing (seen : list float) (M m x : R) :
  x < 0 -> range_of seen M m -> range_of (seen ++ [Fin x]) M m.
Proof.
  intros Hx (Hall & HM & Hm & HM20 & Hm20). unfold range_of.
  split.
  { intros y Hy Hy0. apply in_app_or in Hy.
    destruct Hy as [Hy | [Hy | []]]; [apply Hall; assumption|].
    injection Hy as <-. lra. }
  split.
  { destruct HM as [HM | [y (Hy & Hy0 & HM)]]; [left; exact HM|].
    right. exists y. split; [apply in_or_app; left; exact Hy|].
    split; assumption. }
  split.
  { destruct Hm as [Hm | [y (Hy & Hy0 & Hm)]]; [left; exact Hm|].
    right. exists y. split; [apply in_or_app; left; exact Hy|].
    split; assumption. }
  lra.
Qed.

Lemma ev_fold_spec (l : list float) : forall (seen : list float) (M m : R),
  exposure_times l ->
  range_of seen M m ->
  exists M' m',
    fold_left ev_step l (Fin M, Fin m) = (Fin M', Fin m') /\
    range_of (seen ++ l) M' m'.
Proof.
  induction l as [|t l IH]; intros seen M m Hl Hr.
  - exists M, m. rewrite app_nil_r. split; [reflexivity | exact Hr].
  - destruct (Hl t (or_introl eq_refl)) as [x [-> Hx]].
    assert (Hl' : exposure_times l).
    { intros t Ht. apply Hl. right; exact Ht. }
    replace (seen ++ Fin x :: l) with ((seen ++ [Fin x]) ++ l)
      by (rewrite <- app_assoc; reflexivity).
    change (fold_left ev_step (Fin x :: l) (Fin M, Fin m))
      with (fold_left ev_step l (ev_step (Fin M, Fin m) (Fin x))).
    destruct (Rlt_dec 0 x) as [Hpos | Hneg].
    + rewrite (ev_step_known M m x Hpos).
      apply IH; [exact Hl'|]. apply range_of_known; assumption.
    + assert (Hlt : x < 0) by lra.
      rewrite (ev_step_missing M m x Hlt).
      apply IH; [exact Hl'|]. apply range_of_missing; assumption.
Qed.

Lemma ev_range_spec (expotimes : list float) :
  exposure_times expotimes ->
  exists M m, ev_range expotimes = (Fin M, Fin m) /\ range_of expotimes M m.
Proof.
  intros Hts. unfold ev_range.
  apply (ev_fold_spec expotimes [] (-20) 20 Hts).
  unfold range_of. split; [intros x []|].
  split; [left; reflexivity|]. split; [left; reflexivity|]. lra.
Qed.

Lemma shifted_known (offset x : R) :
  0 < x -> shifted (Fin offset) (Fin x) = Fin (Rpower 2 (log2 x - offset)).
Proof.
  intros Hx. unfold shifted. rewrite (log2f_known x Hx). reflexivity.
Qed.

(** The three ways [checkEVvalues] can go. *)
Inductive ev_case (expotimes : list float) (offset : R) : Prop :=
| ev_too_large (M m : R) :
    ev_range expotimes = (Fin M, Fin m) -> range_of expotimes M m ->
    10 < M -> offset = M - 10 ->
    checkEVvalues expotimes = map (shifted (Fin offset)) expotimes ->
    ev_case expotimes offset
| ev_too_small (M m : R) :
    ev_range expotimes = (Fin M, Fin m) -> range_of expotimes M m ->
    M <= 10 -> m < -10 -> offset = m + 10 ->
    checkEVvalues expotimes = map (shifted (Fin offset)) expotimes ->
    ev_case expotimes offset
| ev_in_bounds (M m : R) :
    ev_range expotimes = (Fin M, Fin m) -> range_of expotimes M m ->
    M <= 10 -> -10 <= m -> offset = 0 ->
    checkEVvalues expotimes = expotimes ->
    ev_case expotimes offset.

Lemma checkEVvalues_cases (expotimes : list float) :
  exposure_times expotimes -> exists offset, ev_case expotimes offset.
Proof.
  intros Hts. destruct (ev_range_spec expotimes Hts) as (M & m & Er & Hr).
  assert (Hrun : checkEVvalues expotimes
                 = if ltb (Fin 10) (Fin M)
                   then map (shifted (Fin (M - 10))) expotimes
                   else if ltb (Fin m) (Fin (-10))
                        then map (shifted (Fin (m + 10))) expotimes
                        else expotimes).
  { unfold checkEVvalues. rewrite Er. reflexivity. }
  destruct (ltb (Fin 10) (Fin M)) eqn:EM.
  - apply ltb_fin in EM. exists (M - 10).
    apply (ev_too_large _ _ M m); try assumption; reflexivity.
  - apply ltb_fin_false in EM.
    destruct (ltb (Fin m) (Fin (-10))) eqn:Em.
    + apply ltb_fin in Em. exists (m + 10).
      apply (ev_too_small _ _ M m); try assumption; reflexivity.
    + apply ltb_fin_false in Em. exists 0.
      apply (ev_in_bounds _ _ M m); try assumption; reflexivity.
Qed.

(** Every known exposure time is moved by the same offset in log2
    space. *)
Lemma checkEVvalues_known (expotimes : list float) (offset : R) :
  ev_case expotimes offset ->
  forall i x, nth_error expotimes i = Some (Fin x) -> 0 < x ->
    exists x', nth_error (checkEVvalues expotimes) i = Some (Fin x') /\
               0 < x' /\ log2 x' = log2 x - offset.
Proof.
  intros Hcase i x Hi Hx.
  destruct Hcase as [M m _ _ _ _ E | M m _ _ _ _ _ E | M m _ _ _ _ Ho E];
    rewrite E.
  - exists (Rpower 2 (log2 x - offset)).
    rewrite nth_error_map, Hi. simpl option_map.
    rewrite (shifted_known offset x Hx).
    split; [reflexivity|]. split; [apply exp2_pos | apply log2_exp2].
  - exists (Rpower 2 (log2 x - offset)).
    rewrite nth_error_map, Hi. simpl option_map.
    rewrite (shifted_known offset x Hx).
    split; [reflexivity|]. split; [apply exp2_pos | apply log2_exp2].
  - exists x. split; [exact Hi|]. split; [exact Hx | lra].
Qed.

Lemma checkEVvalues_length (expotimes : list float) :
  length (checkEVvalues expotimes) = length expotimes.
Proof.
  unfold checkEVvalues. destruct (ev_range expotimes) as [max min].
  destruct (gtb max (Fin 10)); [apply length_map|].
  destruct (ltb min (Fin (-10))); [apply length_map | reflexivity].
Qed.

Section LibmFacts.
Variables log2f exp2f : float -> float.
Variable rnd : R -> float.

(** The exposure value of every exposure time is a number or, as for the
    sentinel of a missing time, a NaN. *)
Definition ev_known (expotimes : list float) : Prop :=
  forall t, In t expotimes -> log2f t = NaN \/ exists e, log2f t = Fin e.

(** What the first loop computes: [max] is [-20] or the largest EV that
    is a number, whichever is larger, and [min] is [20] or the smallest
    one, whichever is smaller. *)
Definition spans (expotimes : list float) (M m : R) : Prop :=
  (forall t e, In t expotimes -> log2f t = Fin e -> m <= e <= M) /\
  (M = -20 \/ exists t, In t expotimes /\ log2f t = Fin M) /\
  (m = 20 \/ exists t, In t expotimes /\ log2f t = Fin m) /\
  -20 <= M /\ m <= 20.

Lemma spans_step (seen : list float) (M m : R) (t : float) :
  spans seen M m -> (log2f t = NaN \/ exists e, log2f t = Fin e) ->
  exists M' m',
    RoundedEV.ev_step log2f (Fin M, Fin m) t = (Fin M', Fin m') /\
    spans (seen ++ [t]) M' m'.
Proof.
  intros (Hall & HM & Hm & HM20 & Hm20) [En | [e Ee]].
  - exists M, m. unfold RoundedEV.ev_step. rewrite En. split; [reflexivity|].
    split.
    { intros t' e' Hin He. apply in_app_or in Hin.
      destruct Hin as [Hin | [<- | []]]; [exact (Hall _ _ Hin He)|].
      congruence. }
    split.
    { destruct HM as [HM | (t' & Hin & E)]; [left; exact HM|].
      right. exists t'. split; [apply in_or_app; left; exact Hin | exact E]. }
    split; [|split; assumption].
    destruct Hm as [Hm | (t' & Hin & E)]; [left; exact Hm|].
    right. exists t'. split; [apply in_or_app; left; exact Hin | exact E].
  - unfold RoundedEV.ev_step. rewrite Ee. unfold gtb.
    exists (if ltb (Fin M) (Fin e) then e else M),
           (if ltb (Fin e) (Fin m) then e else m).
    split.
    { destruct (ltb (Fin M) (Fin e)), (ltb (Fin e) (Fin m)); reflexivity. }
    assert (Hlast : In t (seen ++ [t])) by (apply in_or_app; right; left;
                                             reflexivity).
    destruct (ltb (Fin M) (Fin e)) eqn:E1;
      [apply ltb_fin in E1 | apply ltb_fin_false in E1];
      (destruct (ltb (Fin e) (Fin m)) eqn:E2;
       [apply ltb_fin in E2 | apply ltb_fin_false in E2]);
      (split;
       [intros t' e' Hin He; apply in_app_or in Hin;
        destruct Hin as [Hin | [<- | []]];
        [pose proof (Hall _ _ Hin He); lra
        | rewrite Ee in He; injection He as <-; lra]
       |]);
      (split;
       [first [right; exists t; split; [exact Hlast | exact Ee]
              | destruct HM as [HM | (t' & Hin & E)];
                [left; exact HM
                | right; exists t'; split;
                  [apply in_or_app; left; exact Hin | exact E]]]
       |]);
      (split;
       [first [right; exists t; split; [exact Hlast | exact Ee]
              | destruct Hm as [Hm | (t' & Hin & E)];
                [left; exact Hm
                | right; exists t'; split;
                  [apply in_or_app; left; exact Hin | exact E]]]
       | lra]).
Qed.

Lemma spans_fold (l : list float) : forall (seen : list float) (M m : R),
  ev_known l -> spans seen M m ->
  exists M' m',
    fold_left (RoundedEV.ev_step log2f) l (Fin M, Fin m) = (Fin M', Fin m') /\
    spans (seen ++ l) M' m'.
Proof.
  induction l as [|t l IH]; intros seen M m Hl Hs.
  - exists M, m. rewrite app_nil_r. split; [reflexivity | exact Hs].
  - destruct (spans_step seen M m t Hs (Hl t (or_introl eq_refl)))
      as (M1 & m1 & E1 & Hs1).
    cbn [fold_left]. rewrite E1.
    replace (seen ++ t :: l) with ((seen ++ [t]) ++ l)
      by (rewrite <- app_assoc; reflexivity).
    apply IH; [|exact Hs1]. intros t' Ht'. apply Hl. right. exact Ht'.
Qed.

Lemma ev_range_spans (expotimes : list float) :
  ev_known expotimes ->
  exists M m,
    RoundedEV.ev_range log2f expotimes = (Fin M, Fin m) /\
    spans expotimes M m.
Proof.
  intros Hk. unfold RoundedEV.ev_range.
  apply (spans_fold expotimes [] (-20) 20 Hk).
  split; [intros t e []|]. split; [left; reflexivity|].
  split; [left; reflexivity | lra].
Qed.


(** The offset of the second part, without rounding. *)
Definition ev_offset (M m : R) : R :=
  if Rlt_dec 10 M then M - 10
  else if Rlt_dec m (-10) then m + 10
  else 0.

(** The offset as the code computes it, and what an exposure time
    becomes. *)
Definition new_time (M m : R) (t : float) : float :=
  if Rlt_dec 10 M then
    RoundedEV.shifted log2f exp2f rnd
      (RoundedEV.sub rnd (Fin M) (Fin 10)) t
  else if Rlt_dec m (-10) then
    RoundedEV.shifted log2f exp2f rnd
      (RoundedEV.add rnd (Fin m) (Fin 10)) t
  else t.

Lemma checkEVvalues_new_time (expotimes : list float) (M m : R) :
  RoundedEV.ev_range log2f expotimes = (Fin M, Fin m) ->
  RoundedEV.checkEVvalues log2f exp2f rnd expotimes
  = map (new_time M m) expotimes.
Proof.
  intros Er. unfold RoundedEV.checkEVvalues, new_time. rewrite Er.
  unfold gtb, ltb.
  destruct (Rlt_dec 10 M); [reflexivity|].
  destruct (Rlt_dec m (-10)); [reflexivity|].
  symmetry. apply map_id.
Qed.

(** Additions and subtractions of numbers up to 120 in magnitude are
    rounded to a number at most [eps] away. *)
Definition rounds_within (eps : R) : Prop :=
  forall x, -120 <= x <= 120 ->
    exists y, rnd x = Fin y /\ - eps <= y - x <= eps.

(** [log2f] undoes [exp2f] up to [eps] on the numbers up to 120 in
    magnitude. *)
Definition libm_within (eps : R) : Prop :=
  forall d, -120 <= d <= 120 ->
    exists e, log2f (exp2f (Fin d)) = Fin e /\ - eps <= e - d <= eps.

(** Exposure [i] has a known exposure value [e] before the call and the
    exposure value [e'] after it. *)
Definition moved (expotimes : list float) (i : nat) (e e' : R) : Prop :=
  exists t t',
    nth_error expotimes i = Some t /\ log2f t = Fin e /\
    nth_error (RoundedEV.checkEVvalues log2f exp2f rnd expotimes) i
    = Some t' /\
    log2f t' = Fin e'.

Section Shift.
Variable expotimes : list float.
Variables M m : R.
Hypothesis Er : RoundedEV.ev_range log2f expotimes = (Fin M, Fin m).
Hypothesis Hs : spans expotimes M m.
Variable eps : R.
Hypothesis Heps : 0 <= eps <= 1.
Hypothesis Hrnd : rounds_within eps.
Hypothesis Hlibm : libm_within eps.
Hypothesis Hsmall : forall t e,
  In t expotimes -> log2f t = Fin e -> -50 <= e <= 50.

Lemma range_small : -20 <= M <= 50 /\ -50 <= m <= 20.
Proof.
  destruct Hs as (_ & HM & Hm & HM20 & Hm20).
  split.
  - destruct HM as [-> | (t & Hin & E)]; [lra|].
    pose proof (Hsmall t M Hin E). lra.
  - destruct Hm as [-> | (t & Hin & E)]; [lra|].
    pose proof (Hsmall t m Hin E). lra.
Qed.

Lemma shifted_close (o c : R) (t : float) (e : R) :
  -41 <= c <= 41 -> - eps <= o - c <= eps ->
  log2f t = Fin e -> -50 <= e <= 50 ->
  exists e',
    log2f (RoundedEV.shifted log2f exp2f rnd (Fin o) t) = Fin e' /\
    - (3 * eps) <= e' - (e - c) <= 3 * eps.
Proof.
  intros Hc Ho Et He.
  unfold RoundedEV.shifted, RoundedEV.sub. rewrite Et.
  cbn [EV.sub EV.neg EV.add RoundedEV.round].
  destruct (Hrnd (e + - o)) as (d & -> & Hd); [lra|].
  destruct (Hlibm d) as (e' & -> & He'); [lra|].
  exists e'. split; [reflexivity | lra].
Qed.

Lemma new_time_close (t : float) (e : R) :
  In t expotimes -> log2f t = Fin e ->
  exists e',
    log2f (new_time M m t) = Fin e' /\
    - (3 * eps) <= e' - (e - ev_offset M m) <= 3 * eps.
Proof.
  intros Hin Et. pose proof (Hsmall t e Hin Et) as He.
  pose proof range_small as [HM Hm].
  unfold new_time, ev_offset.
  destruct (Rlt_dec 10 M) as [H10 | H10].
  - unfold RoundedEV.sub at 1.
    cbn [EV.sub EV.neg EV.add RoundedEV.round].
    destruct (Hrnd (M + Ropp 10)) as (o & -> & Ho); [lra|].
    apply shifted_close; [lra | lra | exact Et | exact He].
  - destruct (Rlt_dec m (-10)) as [Hm10 | Hm10].
    + unfold RoundedEV.add at 1. cbn [EV.add RoundedEV.round].
      destruct (Hrnd (m + 10)) as (o & -> & Ho); [lra|].
      apply shifted_close; [lra | lra | exact Et | exact He].
    + exists e. split; [exact Et | lra].
Qed.

Lemma known_moves (i : nat) (t : float) (e : R) :
  nth_error expotimes i = Some t -> log2f t = Fin e ->
  exists e', moved expotimes i e e'.
Proof.
  intros Hi Et.
  destruct (new_time_close t e (nth_error_In _ _ Hi) Et) as (e' & E' & _).
  exists e', t, (new_time M m t).
  split; [exact Hi|]. split; [exact Et|]. split; [|exact E'].
  rewrite (checkEVvalues_new_time expotimes M m Er), nth_error_map, Hi.
  reflexivity.
Qed.

Lemma moved_close (i : nat) (e e' : R) :
  moved expotimes i e e' ->
  - (3 * eps) <= e' - (e - ev_offset M m) <= 3 * eps.
Proof.
  intros (t & t' & Hi & Et & Hi' & Et').
  rewrite (checkEVvalues_new_time expotimes M m Er), nth_error_map, Hi
    in Hi'.
  injection Hi' as <-.
  destruct (new_time_close t e (nth_error_In _ _ Hi) Et) as (e2 & E2 & H2).
  rewrite Et' in E2. injection E2 as <-. exact H2.
Qed.

(** The rounding of the offset is the same for every exposure, so that a
    difference of two exposure values is off by four roundings, not
    six. *)
Lemma moved_pair (i j : nat) (ei ei' ej ej' : R) :
  moved expotimes i ei ei' -> moved expotimes j ej ej' ->
  - (4 * eps) <= (ei' - ej') - (ei - ej) <= 4 * eps.
Proof.
  intros (ti & ti' & Hi & Eti & Hi' & Eti') (tj & tj' & Hj & Etj & Hj' & Etj').
  rewrite (checkEVvalues_new_time expotimes M m Er), nth_error_map in Hi', Hj'.
  rewrite Hi in Hi'. rewrite Hj in Hj'.
  injection Hi' as <-. injection Hj' as <-.
  pose proof (Hsmall ti ei (nth_error_In _ _ Hi) Eti) as Hei.
  pose proof (Hsmall tj ej (nth_error_In _ _ Hj) Etj) as Hej.
  pose proof range_small as [HM Hm].
  assert (Hgen : forall o c, -41 <= c <= 41 -> - eps <= o - c <= eps ->
            log2f (RoundedEV.shifted log2f exp2f rnd (Fin o) ti) = Fin ei' ->
            log2f (RoundedEV.shifted log2f exp2f rnd (Fin o) tj) = Fin ej' ->
            - (4 * eps) <= (ei' - ej') - (ei - ej) <= 4 * eps).
  { intros o c Hc Ho. unfold RoundedEV.shifted, RoundedEV.sub.
    rewrite Eti, Etj. cbn [EV.sub EV.neg EV.add RoundedEV.round].
    destruct (Hrnd (ei + - o)) as (di & -> & Hdi); [lra|].
    destruct (Hrnd (ej + - o)) as (dj & -> & Hdj); [lra|].
    destruct (Hlibm di) as (xi & -> & Hxi); [lra|].
    destruct (Hlibm dj) as (xj & -> & Hxj); [lra|].
    intros Ei Ej. injection Ei as <-. injection Ej as <-. lra. }
  unfold new_time in Eti', Etj'.
  destruct (Rlt_dec 10 M) as [H10 | H10].
  - unfold RoundedEV.sub at 1 in Eti'. unfold RoundedEV.sub at 1 in Etj'.
    cbn [EV.sub EV.neg EV.add RoundedEV.round] in Eti', Etj'.
    destruct (Hrnd (M + Ropp 10)) as (o & Eo & Ho); [lra|].
    rewrite Eo in Eti', Etj'.
    apply (Hgen o (M - 10)); [lra | lra | exact Eti' | exact Etj'].
  - destruct (Rlt_dec m (-10)) as [Hm10 | Hm10].
    + unfold RoundedEV.add at 1 in Eti'. unfold RoundedEV.add at 1 in Etj'.
      cbn [EV.add RoundedEV.round] in Eti', Etj'.
      destruct (Hrnd (m + 10)) as (o & Eo & Ho); [lra|].
      rewrite Eo in Eti', Etj'.
      apply (Hgen o (m + 10)); [lra | lra | exact Eti' | exact Etj'].
    + rewrite Eti in Eti'. rewrite Etj in Etj'.
      injection Eti' as <-. injection Etj' as <-. lra.
Qed.

Lemma moved_in_bounds (i : nat) (e e' : R) :
  (forall t1 t2 e1 e2, In t1 expotimes -> In t2 expotimes ->
     log2f t1 = Fin e1 -> log2f t2 = Fin e2 -> e1 - e2 <= 20) ->
  moved expotimes i e e' ->
  -10 - 3 * eps <= e' <= 10 + 3 * eps.
Proof.
  intros Hspan Hmv. pose proof (moved_close i e e' Hmv) as Hc.
  destruct Hmv as (t & t' & Hi & Et & _).
  pose proof (nth_error_In _ _ Hi) as Hin.
  destruct Hs as (Hall & HM & Hm & HM20 & Hm20).
  pose proof (Hall t e Hin Et) as He.
  unfold ev_offset in Hc.
  destruct (Rlt_dec 10 M) as [H10 | H10].
  - destruct HM as [-> | (tM & HinM & EM)]; [lra|].
    pose proof (Hspan tM t M e HinM Hin EM Et). lra.
  - destruct (Rlt_dec m (-10)) as [Hm10 | Hm10]; [|lra].
    destruct Hm as [-> | (tm & Hinm & Em)]; [lra|].
    pose proof (Hspan t tm e m Hin Hinm Et Em). lra.
Qed.

End Shift.

End LibmFacts.

Lemma round_exact (x : float) : RoundedEV.round Fin x = x.
Proof. destruct x; reflexivity. Qed.

(** With sums and differences that are not rounded, and the logarithm
    and the power of two of the reals, the model is the exact one. *)
Lemma checkEVvalues_without_rounding (expotimes : list float) :
  RoundedEV.checkEVvalues log2f exp2f Fin expotimes = checkEVvalues expotimes.
Proof.
  unfold RoundedEV.checkEVvalues, checkEVvalues.
  change (RoundedEV.ev_range log2f expotimes) with (ev_range expotimes).
  destruct (ev_range expotimes) as [max min].
  unfold RoundedEV.sub, RoundedEV.add. rewrite !round_exact.
  assert (E : forall o t, RoundedEV.shifted log2f exp2f Fin o t = shifted o t).
  { intros o t. unfold RoundedEV.shifted, RoundedEV.sub, shifted.
    rewrite round_exact. reflexivity. }
  destruct (gtb max (Fin 10)); [apply map_ext; intros t; apply E|].
  destruct (ltb min (Fin (-10))); [apply map_ext; intros t; apply E|].
  reflexivity.
Qed.

(** C1, as amended.  [log2f], [exp2f] and the rounding of a sum or
    difference are any functions on floats.  Let the exposure value
    [log2f t] of every exposure time be a number or a NaN.
    [checkEVvalues] keeps the number of exposure times.  Its first loop
    ends with [max] the largest exposure value that is a number (or the
    initial [-20]) and [min] the smallest (or the initial [20]).  Then
    one of three things happens, the test of [max] coming first: every
    time [t] becomes [exp2f (log2f t - (max - 10))] when [max > 10];
    otherwise [exp2f (log2f t - (min + 10))] when [min < -10]; otherwise
    nothing changes.

    The shift is uniform up to rounding.  Let sums and differences be
    rounded to within [eps], let [log2f] undo [exp2f] to within [eps],
    and let the known exposure values be at most 50 in magnitude.  Then
    every known exposure value ends within [3 eps] of its old value less
    the offset, the difference of any two changes by at most [4 eps], and
    all end within [3 eps] of [-10, 10] when no two of them were more
    than 20 apart; a single offset cannot do more. *)
Theorem checkEVvalues_is_a_shift
    (log2f exp2f : float -> float) (rnd : R -> float)
    (expotimes : list float) :
  ev_known log2f expotimes ->
  length (RoundedEV.checkEVvalues log2f exp2f rnd expotimes)
  = length expotimes /\
  exists M m,
    RoundedEV.ev_range log2f expotimes = (Fin M, Fin m) /\
    spans log2f expotimes M m /\
    ((10 < M /\
      RoundedEV.checkEVvalues log2f exp2f rnd expotimes
      = map (RoundedEV.shifted log2f exp2f rnd
               (RoundedEV.sub rnd (Fin M) (Fin 10))) expotimes) \/
     (M <= 10 /\ m < -10 /\
      RoundedEV.checkEVvalues log2f exp2f rnd expotimes
      = map (RoundedEV.shifted log2f exp2f rnd
               (RoundedEV.add rnd (Fin m) (Fin 10))) expotimes) \/
     (M <= 10 /\ -10 <= m /\
      RoundedEV.checkEVvalues log2f exp2f rnd expotimes = expotimes)) /\
    forall eps,
      0 <= eps <= 1 ->
      rounds_within rnd eps ->
      libm_within log2f exp2f eps ->
      (forall t e, In t expotimes -> log2f t = Fin e -> -50 <= e <= 50) ->
      (forall i t e,
         nth_error expotimes i = Some t -> log2f t = Fin e ->
         exists e', moved log2f exp2f rnd expotimes i e e') /\
      (forall i e e',
         moved log2f exp2f rnd expotimes i e e' ->
         - (3 * eps) <= e' - (e - ev_offset M m) <= 3 * eps) /\
      (forall i j ei ei' ej ej',
         moved log2f exp2f rnd expotimes i ei ei' ->
         moved log2f exp2f rnd expotimes j ej ej' ->
         - (4 * eps) <= (ei' - ej') - (ei - ej) <= 4 * eps) /\
      ((forall t1 t2 e1 e2,
          In t1 expotimes -> In t2 expotimes ->
          log2f t1 = Fin e1 -> log2f t2 = Fin e2 -> e1 - e2 <= 20) ->
       forall i e e',
         moved log2f exp2f rnd expotimes i e e' ->
         -10 - 3 * eps <= e' <= 10 + 3 * eps).
Proof.
  intros Hk.
  destruct (ev_range_spans log2f expotimes Hk) as (M & m & Er & Hs).
  pose proof (checkEVvalues_new_time log2f exp2f rnd expotimes M m Er) as Hrun.
  split; [rewrite Hrun; apply length_map|].
  exists M, m. split; [exact Er|]. split; [exact Hs|]. split.
  - rewrite Hrun. unfold new_time.
    destruct (Rlt_dec 10 M) as [H10 | H10].
    + left. split; [exact H10 | reflexivity].
    + right. destruct (Rlt_dec m (-10)) as [Hm | Hm].
      * left. split; [lra|]. split; [exact Hm | reflexivity].
      * right. split; [lra|]. split; [lra | apply map_id].
  - intros eps Heps Hrnd Hlibm Hsmall.
    split.
    { intros i t e Hi Et. eapply known_moves; eassumption. }
    split.
    { intros i e e' Hmv. eapply moved_close; eassumption. }
    split.
    { intros i j ei ei' ej ej' Hi Hj.
      eapply moved_pair; [exact Er | exact Hs | exact Heps | exact Hrnd
                         | exact Hlibm | exact Hsmall | exact Hi | exact Hj]. }
    intros Hspan i e e' Hmv.
    eapply moved_in_bounds; [exact Er | exact Hs | exact Heps | exact Hrnd
                            | exact Hlibm | exact Hsmall | exact Hspan
                            | exact Hmv].
Qed.

(** A rounding for the example: to a multiple of [2^-16], downwards. *)
Definition chop16 (x : R) : float := Fin (IZR (Int_part (x * 65536)) / 65536).

Lemma chop16_within : rounds_within chop16 (/ 65536).
Proof.
  intros x _. exists (IZR (Int_part (x * 65536)) / 65536).
  split; [reflexivity|].
  destruct (base_Int_part (x * 65536)) as [H1 H2]. lra.
Qed.

Lemma libm_exact (eps : R) : 0 <= eps -> libm_within log2f exp2f eps.
Proof.
  intros Heps d _. exists d. split; [|lra].
  cbn [exp2f]. rewrite (log2f_known _ (exp2_pos d)), log2_exp2. reflexivity.
Qed.

Definition long_short_missing : list float :=
  [Fin (Rpower 2 15); Fin (Rpower 2 (-3)); Fin (-1)].

Lemma long_short_missing_known : ev_known log2f long_short_missing.
Proof.
  intros t [<- | [<- | [<- | []]]].
  - right. exists 15. rewrite (log2f_known _ (exp2_pos 15)), log2_exp2.
    reflexivity.
  - right. exists (-3). rewrite (log2f_known _ (exp2_pos (-3))), log2_exp2.
    reflexivity.
  - left. apply log2f_missing. lra.
Qed.

Lemma long_short_missing_values (t : float) (e : R) :
  In t long_short_missing -> log2f t = Fin e -> e = 15 \/ e = -3.
Proof.
  intros [<- | [<- | [<- | []]]] E.
  - rewrite (log2f_known _ (exp2_pos 15)), log2_exp2 in E.
    injection E as <-. left. reflexivity.
  - rewrite (log2f_known _ (exp2_pos (-3))), log2_exp2 in E.
    injection E as <-. right. reflexivity.
  - rewrite log2f_missing in E by lra. discriminate.
Qed.

(** Exposure times of [2^15] and [2^-3] seconds and one missing: the
    largest exposure value is 15, so [max - 10 = 5] is subtracted, and
    the two known values end near 10 and -8, 18 apart as before. *)
Lemma checkEVvalues_is_a_shift_witness :
  ev_known log2f long_short_missing /\
  rounds_within chop16 (/ 65536) /\
  libm_within log2f exp2f (/ 65536) /\
  length (RoundedEV.checkEVvalues log2f exp2f chop16 long_short_missing) = 3%nat /\
  RoundedEV.ev_range log2f long_short_missing = (Fin 15, Fin (-3)) /\
  RoundedEV.checkEVvalues log2f exp2f chop16 long_short_missing
  = map (RoundedEV.shifted log2f exp2f chop16
           (RoundedEV.sub chop16 (Fin 15) (Fin 10))) long_short_missing /\
  exists e0 e1,
    moved log2f exp2f chop16 long_short_missing 0 15 e0 /\
    moved log2f exp2f chop16 long_short_missing 1 (-3) e1 /\
    - (3 * / 65536) <= e0 - 10 <= 3 * / 65536 /\
    - (3 * / 65536) <= e1 - (-8) <= 3 * / 65536 /\
    - (4 * / 65536) <= (e0 - e1) - (15 - (-3)) <= 4 * / 65536 /\
    -10 - 3 * / 65536 <= e1 <= 10 + 3 * / 65536.
Proof.
  pose proof long_short_missing_known as Hk.
  pose proof chop16_within as Hrnd.
  assert (Heps : 0 <= / 65536 <= 1) by lra.
  pose proof (libm_exact (/ 65536) (proj1 Heps)) as Hlibm.
  split; [exact Hk|]. split; [exact Hrnd|]. split; [exact Hlibm|].
  destruct (checkEVvalues_is_a_shift log2f exp2f chop16 long_short_missing Hk)
    as (Hlen & M & m & Er & Hs & Hcase & Hacc).
  split; [exact Hlen|].
  assert (Hin0 : In (Fin (Rpower 2 15)) long_short_missing)
    by (left; reflexivity).
  assert (Hin1 : In (Fin (Rpower 2 (-3))) long_short_missing)
    by (right; left; reflexivity).
  assert (E0 : log2f (Fin (Rpower 2 15)) = Fin 15)
    by (rewrite (log2f_known _ (exp2_pos 15)), log2_exp2; reflexivity).
  assert (E1 : log2f (Fin (Rpower 2 (-3))) = Fin (-3))
    by (rewrite (log2f_known _ (exp2_pos (-3))), log2_exp2; reflexivity).
  assert (HM : M = 15 /\ m = -3).
  { destruct Hs as (Hall & HMx & Hmx & _ & _).
    pose proof (Hall _ _ Hin0 E0) as H15.
    pose proof (Hall _ _ Hin1 E1) as H3.
    split.
    - destruct HMx as [-> | (t & Hin & E)]; [lra|].
      destruct (long_short_missing_values t M Hin E); lra.
    - destruct Hmx as [-> | (t & Hin & E)]; [lra|].
      destruct (long_short_missing_values t m Hin E); lra. }
  destruct HM as [-> ->].
  split; [exact Er|].
  split.
  { destruct Hcase as [[_ E] | [(H & _) | (H & _)]]; [exact E | lra | lra]. }
  assert (Hsmall : forall t e, In t long_short_missing -> log2f t = Fin e ->
                     -50 <= e <= 50).
  { intros t e Hin E. destruct (long_short_missing_values t e Hin E); lra. }
  destruct (Hacc (/ 65536) Heps Hrnd Hlibm Hsmall)
    as (Hmoves & Hclose & Hpair & Hbounds).
  destruct (Hmoves 0%nat _ 15 eq_refl E0) as [e0 Hm0].
  destruct (Hmoves 1%nat _ (-3) eq_refl E1) as [e1 Hm1].
  exists e0, e1. split; [exact Hm0|]. split; [exact Hm1|].
  pose proof (Hclose _ _ _ Hm0) as C0.
  pose proof (Hclose _ _ _ Hm1) as C1.
  assert (Eo : ev_offset 15 (-3) = 5).
  { unfold ev_offset. destruct (Rlt_dec 10 15); lra. }
  rewrite Eo in C0, C1.
  split; [lra|]. split; [lra|].
  split; [exact (Hpair _ _ _ _ _ _ Hm0 Hm1)|].
  apply (Hbounds) with (i := 1%nat) (e := -3); [|exact Hm1].
  intros t1 t2 e1' e2' H1 H2 Et1 Et2.
  destruct (long_short_missing_values t1 e1' H1 Et1),
           (long_short_missing_values t2 e2' H2 Et2); lra.
Defined.

Lemma chop16_value (x : R) (z : Z) :
  IZR z <= x * 65536 < IZR z + 1 -> chop16 x = Fin (IZR z / 65536).
Proof.
  intros H. unfold chop16.
  rewrite <- (Int_part_spec (x * 65536) z) by lra. reflexivity.
Qed.

(** The difference of two exposure values is not kept to the last digit
    when the subtraction rounds.  With the rounding down to multiples of
    [2^-16], exposure times of [2^15] and [2^(1/196608)] seconds, whose
    exposure values are [15 - 1/196608] apart, become [2^10] and [2^-5]
    seconds, whose exposure values are 15 apart. *)
Example rounding_moves_the_difference :
  RoundedEV.checkEVvalues log2f exp2f chop16
    [Fin (Rpower 2 15); Fin (Rpower 2 (/ 196608))]
  = [Fin (Rpower 2 10); Fin (Rpower 2 (-5))].
Proof.
  assert (E0 : log2f (Fin (Rpower 2 15)) = Fin 15)
    by (rewrite (log2f_known _ (exp2_pos 15)), log2_exp2; reflexivity).
  assert (E1 : log2f (Fin (Rpower 2 (/ 196608))) = Fin (/ 196608))
    by (rewrite (log2f_known _ (exp2_pos (/ 196608))), log2_exp2;
        reflexivity).
  assert (Er : RoundedEV.ev_range log2f
                 [Fin (Rpower 2 15); Fin (Rpower 2 (/ 196608))]
               = (Fin 15, Fin (/ 196608))).
  { unfold RoundedEV.ev_range. cbn [fold_left]. unfold RoundedEV.ev_step.
    rewrite E0, E1. unfold gtb, ltb.
    repeat match goal with
           | |- context [Rlt_dec ?a ?b] => destruct (Rlt_dec a b); try lra
           end.
    reflexivity. }
  unfold RoundedEV.checkEVvalues. rewrite Er.
  assert (Eg : gtb (Fin 15) (Fin 10) = true) by (apply ltb_fin; lra).
  rewrite Eg. cbn [map]. unfold RoundedEV.shifted. rewrite E0, E1.
  unfold RoundedEV.sub. cbn [EV.sub EV.neg EV.add RoundedEV.round].
  rewrite (chop16_value (15 + - (10)) 327680) by lra.
  cbn [EV.sub EV.neg EV.add RoundedEV.round].
  rewrite (chop16_value (15 + - (327680 / 65536)) 655360) by lra.
  rewrite (chop16_value (/ 196608 + - (327680 / 65536)) (-327680)) by lra.
  cbn [exp2f].
  replace (655360 / 65536) with 10 by lra.
  replace (-327680 / 65536) with (-5) by lra.
  reflexivity.
Qed.

(** C1, as stated.  Two known exposure times, [2^15] and [2^-15] seconds:
    their EVs are 30 apart.  The largest EV is 15, so the offset 5 is
    applied, and the EV of the second one ends at [-20], below [-10]. *)
Lemma checkEVvalues_wide_range :
  exists x',
    nth_error (checkEVvalues [Fin (Rpower 2 15); Fin (Rpower 2 (-15))]) 1
    = Some (Fin x') /\
    0 < x' /\ log2 x' = -20 /\ ~ (-10 <= log2 x' <= 10).
Proof.
  set (ts := [Fin (Rpower 2 15); Fin (Rpower 2 (-15))]).
  assert (Hts : exposure_times ts).
  { intros t [<- | [<- | []]]; eexists; (split; [reflexivity|]);
      pose proof (exp2_pos 15); pose proof (exp2_pos (-15)); lra. }
  destruct (checkEVvalues_cases ts Hts) as [offset Hcase].
  assert (H1 : nth_error ts 1 = Some (Fin (Rpower 2 (-15)))) by reflexivity.
  destruct (checkEVvalues_known ts offset Hcase 1 _ H1 (exp2_pos (-15)))
    as (x' & E & Hpos & L).
  rewrite log2_exp2 in L.
  assert (Hoff : offset = 5).
  { assert (Hin15 : In (Fin (Rpower 2 15)) ts) by (left; reflexivity).
    destruct Hcase as [M m _ Hr HM Ho _ | M m _ Hr HM Hm Ho _
                      | M m _ Hr HM Hm Ho _];
      destruct Hr as (Hall & HMx & _);
      pose proof (Hall _ Hin15 (exp2_pos 15)) as H15;
      rewrite log2_exp2 in H15; try lra.
    destruct HMx as [EM | (y & Hy & Hy0 & EM)]; [lra|].
    destruct Hy as [Hy | [Hy | []]]; injection Hy as <-;
      rewrite log2_exp2 in EM; lra. }
  exists x'. split; [exact E|]. split; [exact Hpos|].
  split; lra.
Qed.

Lemma ev_range_in_bounds (expotimes : list float) :
  exposure_times expotimes ->
  (forall x, In (Fin x) expotimes -> 0 < x -> -10 <= log2 x <= 10) ->
  exists M m,
    ev_range expotimes = (Fin M, Fin m) /\
    gtb (Fin M) (Fin 10) = false /\ ltb (Fin m) (Fin (-10)) = false.
Proof.
  intros Hts Hin.
  destruct (ev_range_spec expotimes Hts) as (M & m & Er & Hr).
  destruct Hr as (_ & HM & Hm & _ & _).
  exists M, m. split; [exact Er|]. split.
  - apply ltb_fin_false.
    destruct HM as [-> | (x & Hx & Hx0 & ->)]; [lra|].
    apply (Hin x Hx Hx0).
  - apply ltb_fin_false.
    destruct Hm as [-> | (x & Hx & Hx0 & ->)]; [lra|].
    apply (Hin x Hx Hx0).
Qed.

Lemma checkEVvalues_fixed (expotimes : list float) :
  exposure_times expotimes ->
  (forall x, In (Fin x) expotimes -> 0 < x -> -10 <= log2 x <= 10) ->
  checkEVvalues expotimes = expotimes.
Proof.
  intros Hts Hin.
  destruct (ev_range_in_bounds expotimes Hts Hin) as (M & m & Er & E1 & E2).
  unfold checkEVvalues. rewrite Er, E1, E2. reflexivity.
Qed.

(** [checkEVvalues] on exposure times whose known values all have an
    exposure value in [-10, 10] changes nothing and emits nothing; the
    times that are the marker [-1] do not count. *)
Theorem checkEVvalues_in_bounds (expotimes : list float) :
  exposure_times expotimes ->
  (forall x, In (Fin x) expotimes -> 0 < x -> -10 <= log2 x <= 10) ->
  checkEVvalues expotimes = expotimes /\ checkEVvalues_signals expotimes = [].
Proof.
  intros Hts Hin.
  destruct (ev_range_in_bounds expotimes Hts Hin) as (M & m & Er & E1 & E2).
  unfold checkEVvalues_signals, checkEVvalues. rewrite Er, E1, E2.
  split; reflexivity.
Qed.



Lemma log2_1 : log2 1 = 0.
Proof. unfold log2. rewrite ln_1. unfold Rdiv. apply Rmult_0_l. Qed.

Lemma log2_2 : log2 2 = 1.
Proof. unfold log2. pose proof ln2_pos. field. lra. Qed.

Lemma one_two_missing : exposure_times [Fin 1; Fin 2; Fin (-1)].
Proof.
  intros t [<- | [<- | [<- | []]]]; eexists; (split; [reflexivity | lra]).
Qed.

Lemma checkEVvalues_in_bounds_witness :
  checkEVvalues [Fin 1; Fin 2; Fin (-1)] = [Fin 1; Fin 2; Fin (-1)] /\
  checkEVvalues_signals [Fin 1; Fin 2; Fin (-1)] = [].
Proof.
  apply (checkEVvalues_in_bounds [Fin 1; Fin 2; Fin (-1)]).
  - exact one_two_missing.
  - intros x [E | [E | [E | []]]] Hx; injection E as <-.
    + rewrite log2_1. lra.
    + rewrite log2_2. lra.
    + lra.
Defined.

Lemma long_and_missing : exposure_times [Fin (Rpower 2 15); Fin (-1)].
Proof.
  intros t [<- | [<- | []]]; eexists; (split; [reflexivity|]);
    pose proof (exp2_pos 15); lra.
Qed.



End EVFacts.
